(** * botmon-sdk: managed rules and content optimisation pipeline

    A shallow embedding of the TypeScript sources of the SDK
    (config merger, remote config client, robots.txt and sitemap merge
    utilities, handlers of the managed files, glob matcher, page type
    detector, AI bot detector, HTML utilities, summary generator, heading
    enricher, schema generator, GEO engine, pipeline orchestrator and the
    session cookie of the middleware) together with the properties stated
    about them.

    Conventions.
    - A JavaScript string is a [list ascii]: a sequence of code units,
      restricted to U+0000..U+00FF.
    - [T | undefined] and [T | null] are [option T].
    - A plain JavaScript object used as a record with enumerable keys
      ([Record<string, T>]) is an insertion-ordered association list with
      unique keys ([obj T]); keys are ordinary property names.
    - [Map<string, T>] and [Set<string>], which the sources only query by
      key, are [gmap] and [gset].
    - Code that can throw returns an [Outcome]; so does [new Response]
      where the status comes from another response ([newResponse]). *)

From Stdlib Require Import Ascii String List Bool Arith Lia ZArith.
From stdpp Require Import base option list strings gmap.

Set Default Proof Using "Type".
Local Open Scope list_scope.

(* ===================================================================== *)
(** * Part I: the embedding                                               *)
(* ===================================================================== *)

Abbreviation str := (list ascii) (only parsing).

(** String literals of the sources. *)
Definition lit (s : string) : str := list_ascii_of_string s.

(** [a ?? b] *)
Definition nullish {A} (a : option A) (b : A) : A :=
  match a with Some x => x | None => b end.
Infix "??" := nullish (at level 45, left associativity).

(** Insertion-ordered objects: [o[k]], [o[k] = v], [Object.entries(o)].
    This is a JS object for the property names it keeps in insertion
    order and looks up among its own properties.  It is not one for an
    array index such as [10], which a JS object enumerates before the
    other names, in ascending order; nor for [__proto__], whose assignment
    creates no property; nor for reading a name that [Object.prototype]
    defines, such as [constructor], which [o[k]] finds when [o] has no
    such property of its own. *)
Module Obj.
Definition t (V : Type) := list (str * V).

Definition keys {V} (o : t V) : list str := map fst o.

Fixpoint get {V} (o : t V) (k : str) : option V :=
  match o with
  | [] => None
  | (k', v) :: o' => if bool_decide (k' = k) then Some v else get o' k
  end.

(** Assigning an existing key keeps its position; a new key goes last. *)
Fixpoint set {V} (o : t V) (k : str) (v : V) : t V :=
  match o with
  | [] => [(k, v)]
  | (k', v') :: o' =>
      if bool_decide (k' = k) then (k', v) :: o' else (k', v') :: set o' k v
  end.

Definition has {V} (o : t V) (k : str) : bool :=
  match get o k with Some _ => true | None => false end.
End Obj.

(** JSON values, for [customJsonLd] and the generated schemas. *)
#[warnings="-register-all"]
Inductive json :=
| JNull
| JBool (b : bool)
| JNum (n : Z)
| JStr (s : str)
| JArr (l : list json)
| JObj (o : list (str * json)).

(** ** types/geo.types.ts *)

Inductive PageType :=
| product | article | docs | faq | how_to | pricing | comparison | generic.

Inductive SchemaType :=
| Product | Article | TechArticle | FAQPage | HowTo | WebPage | Offer.

Record GeoPageRule := {
  urlPattern : str;
  pageType : option PageType;
  schemaTypes : option (list SchemaType);
  summary : option str;
  customJsonLd : option (Obj.t json);
  disabled : option bool
}.

Inductive Confidence := high | medium | low.

Inductive Source :=
| url_pattern | meta_tag | content_heuristic | geo_rule | default_source.

Record PageTypeResult := {
  ptr_pageType : PageType;
  confidence : Confidence;
  source : Source
}.

Inductive SummarySource :=
| meta_description | og_description | first_paragraph | custom.

Record ExtractedSummary := { text : str; summary_source : SummarySource }.

(** ** types/managed-rules.types.ts *)

Inductive ManagedFileMode := ModeAppend | ModeMerge | ModeReplace | ModeDisabled.

(** [RobotsTxtRuleConfig], [SitemapRuleConfig]; the merger reads every
    field through [?.] and [??], so fields may be absent. *)
Record SdkFileRule := {
  sdk_enabled : option bool;
  sdk_mode : option ManagedFileMode
}.

Record RemoteFileRule := {
  rem_enabled : option bool;
  rem_mode : option ManagedFileMode;
  rem_content : option str
}.

Record ResolvedFileRule := {
  enabled : bool;
  mode : ManagedFileMode;
  content : option str
}.

Record WellKnownFileConfig := { wkf_mode : ManagedFileMode }.

Record RemoteWellKnownFile := {
  rwf_mode : option ManagedFileMode;
  rwf_content : option str
}.

Record ResolvedWellKnownFile := {
  wk_mode : ManagedFileMode;
  wk_content : option str
}.

Record WellKnownRuleConfig := {
  sdk_wk_enabled : option bool;
  sdk_wk_files : option (Obj.t WellKnownFileConfig)
}.

Record RemoteWellKnown := {
  rem_wk_enabled : option bool;
  rem_wk_files : Obj.t RemoteWellKnownFile
}.

Record ResolvedWellKnown := {
  wk_enabled : bool;
  files : Obj.t ResolvedWellKnownFile
}.

Record GeoRuleConfig := {
  sdk_geo_enabled : option bool;
  sdk_pageTypes : option (list PageType);
  sdk_injectSummary : option bool;
  sdk_injectJsonLd : option bool;
  sdk_enrichHeadings : option bool;
  sdk_rules : option (list GeoPageRule)
}.

Record RemoteGeo := {
  rem_geo_enabled : option bool;
  rem_injectJsonLd : option bool;
  rem_injectSummary : option bool;
  rem_enrichHeadings : option bool;
  rem_rules : option (list GeoPageRule)
}.

Record ResolvedGeo := {
  geo_enabled : bool;
  injectJsonLd : bool;
  injectSummary : bool;
  enrichHeadings_on : bool;
  rules : list GeoPageRule
}.

Record ManagedRulesConfig := {
  sdk_robotsTxt : option SdkFileRule;
  sdk_sitemap : option SdkFileRule;
  sdk_wellKnown : option WellKnownRuleConfig;
  sdk_geo : option GeoRuleConfig
}.

Record RemoteConfigBundle := {
  rem_robotsTxt : option RemoteFileRule;
  rem_sitemap : option RemoteFileRule;
  rem_wellKnown : option RemoteWellKnown;
  rem_geo : option RemoteGeo
}.

Record ResolvedConfig := {
  robotsTxt : ResolvedFileRule;
  sitemap : ResolvedFileRule;
  wellKnown : ResolvedWellKnown;
  geo : ResolvedGeo
}.

(** ** managed-rules/config-merger.ts *)
Module ConfigMerger.

Definition DEFAULTS : ResolvedConfig := {|
  robotsTxt := {| enabled := false; mode := ModeAppend; content := None |};
  sitemap := {| enabled := false; mode := ModeMerge; content := None |};
  wellKnown := {| wk_enabled := false; files := [] |};
  geo := {| geo_enabled := false; injectJsonLd := true; injectSummary := true;
            enrichHeadings_on := true; rules := [] |}
|}.

Definition mergeRobotsTxt (sdk : ManagedRulesConfig)
    (remote : option RemoteConfigBundle) : ResolvedFileRule :=
  let base_enabled :=
    (sdk_robotsTxt sdk ≫= sdk_enabled) ?? enabled (robotsTxt DEFAULTS) in
  let base_mode :=
    (sdk_robotsTxt sdk ≫= sdk_mode) ?? mode (robotsTxt DEFAULTS) in
  match remote ≫= rem_robotsTxt with
  | None => {| enabled := base_enabled; mode := base_mode; content := None |}
  | Some r =>
      {| enabled := rem_enabled r ?? base_enabled;
         mode := rem_mode r ?? base_mode;
         content := rem_content r |}
  end.

Definition mergeSitemap (sdk : ManagedRulesConfig)
    (remote : option RemoteConfigBundle) : ResolvedFileRule :=
  let base_enabled :=
    (sdk_sitemap sdk ≫= sdk_enabled) ?? enabled (sitemap DEFAULTS) in
  let base_mode :=
    (sdk_sitemap sdk ≫= sdk_mode) ?? mode (sitemap DEFAULTS) in
  match remote ≫= rem_sitemap with
  | None => {| enabled := base_enabled; mode := base_mode; content := None |}
  | Some r =>
      {| enabled := rem_enabled r ?? base_enabled;
         mode := rem_mode r ?? base_mode;
         content := rem_content r |}
  end.

(** [for (const [name, fileConfig] of Object.entries(base.files))
      out[name] = { mode: fileConfig.mode }] *)
Definition copySdkFiles (base_files : Obj.t WellKnownFileConfig)
    : Obj.t ResolvedWellKnownFile :=
  fold_left
    (fun out '(name, fileConfig) =>
       Obj.set out name {| wk_mode := wkf_mode fileConfig; wk_content := None |})
    base_files [].

Definition overlayRemoteFiles (mergedFiles : Obj.t ResolvedWellKnownFile)
    (remote_files : Obj.t RemoteWellKnownFile) : Obj.t ResolvedWellKnownFile :=
  fold_left
    (fun merged '(name, remoteFile) =>
       Obj.set merged name
         {| wk_mode :=
              rwf_mode remoteFile
                ?? ((wk_mode <$> Obj.get merged name) ?? ModeReplace);
            wk_content := rwf_content remoteFile |})
    remote_files mergedFiles.

Definition mergeWellKnown (sdk : ManagedRulesConfig)
    (remote : option RemoteConfigBundle) : ResolvedWellKnown :=
  let base_enabled :=
    (sdk_wellKnown sdk ≫= sdk_wk_enabled) ?? wk_enabled (wellKnown DEFAULTS) in
  let base_files := (sdk_wellKnown sdk ≫= sdk_wk_files) ?? [] in
  match remote ≫= rem_wellKnown with
  | None => {| wk_enabled := base_enabled; files := copySdkFiles base_files |}
  | Some r =>
      {| wk_enabled := rem_wk_enabled r ?? base_enabled;
         files := overlayRemoteFiles (copySdkFiles base_files) (rem_wk_files r) |}
  end.

(** [dashboardByPattern]: a [Map] filled in list order, later entries
    replacing earlier ones. *)
Definition indexByPattern (dashboardRules : list GeoPageRule)
    : gmap (list ascii) GeoPageRule :=
  fold_left (fun m rule => <[urlPattern rule := rule]> m) dashboardRules ∅.

Definition mergeGeoRules (sdkRules dashboardRules : list GeoPageRule)
    : list GeoPageRule :=
  let dashboardByPattern := indexByPattern dashboardRules in
  let '(merged, usedPatterns) :=
    fold_left
      (fun '(merged, usedPatterns) sdkRule =>
         match dashboardByPattern !! urlPattern sdkRule with
         | Some dashboardOverride =>
             (merged ++ [dashboardOverride],
              ({[urlPattern sdkRule]} ∪ usedPatterns) : gset (list ascii))
         | None => (merged ++ [sdkRule], usedPatterns)
         end)
      sdkRules ([], ∅) in
  fold_left
    (fun merged dashboardRule =>
       if bool_decide (urlPattern dashboardRule ∈ usedPatterns)
       then merged
       else merged ++ [dashboardRule])
    dashboardRules merged.

Definition mergeGeo (sdk : ManagedRulesConfig)
    (remote : option RemoteConfigBundle) : ResolvedGeo :=
  let sdkGeo := sdk_geo sdk in
  let base := {|
    geo_enabled := (sdkGeo ≫= sdk_geo_enabled) ?? geo_enabled (geo DEFAULTS);
    injectJsonLd := (sdkGeo ≫= sdk_injectJsonLd) ?? injectJsonLd (geo DEFAULTS);
    injectSummary := (sdkGeo ≫= sdk_injectSummary) ?? injectSummary (geo DEFAULTS);
    enrichHeadings_on :=
      (sdkGeo ≫= sdk_enrichHeadings) ?? enrichHeadings_on (geo DEFAULTS);
    rules := (sdkGeo ≫= sdk_rules) ?? []
  |} in
  match remote ≫= rem_geo with
  | None => base
  | Some r =>
      let mergedRules := mergeGeoRules (rules base) (rem_rules r ?? []) in
      {| geo_enabled := rem_geo_enabled r ?? geo_enabled base;
         injectJsonLd := rem_injectJsonLd r ?? injectJsonLd base;
         injectSummary := rem_injectSummary r ?? injectSummary base;
         enrichHeadings_on := rem_enrichHeadings r ?? enrichHeadings_on base;
         rules := mergedRules |}
  end.

Definition mergeConfig (sdkConfig : ManagedRulesConfig)
    (remote : option RemoteConfigBundle) : ResolvedConfig :=
  {| robotsTxt := mergeRobotsTxt sdkConfig remote;
     sitemap := mergeSitemap sdkConfig remote;
     wellKnown := mergeWellKnown sdkConfig remote;
     geo := mergeGeo sdkConfig remote |}.

End ConfigMerger.

(** ** JavaScript strings *)
Module JsString.

Definition code (c : ascii) : nat := nat_of_ascii c.

Definition inRange (lo hi : nat) (c : ascii) : bool :=
  (lo <=? code c) && (code c <=? hi).

(** [String.prototype.toLowerCase], [toUpperCase] on U+0000..U+00FF.
    U+00DF, U+00B5 and U+00FF have no upper case in this range. *)
Definition lowerChar (c : ascii) : ascii :=
  if inRange 65 90 c
     || (inRange 192 222 c && negb (code c =? 215))
  then ascii_of_nat (code c + 32) else c.

Definition upperChar (c : ascii) : ascii :=
  if inRange 97 122 c
     || (inRange 224 254 c && negb (code c =? 247))
  then ascii_of_nat (code c - 32) else c.

Definition toLowerCase (s : str) : str := map lowerChar s.

(** White space and line terminators, as removed by [trim] and matched
    by [\s]. *)
Definition isWhiteSpace (c : ascii) : bool :=
  inRange 9 13 c || (code c =? 32) || (code c =? 160).

Definition isLineTerminator (c : ascii) : bool :=
  (code c =? 10) || (code c =? 13).

Fixpoint trimStart (s : str) : str :=
  match s with
  | c :: s' => if isWhiteSpace c then trimStart s' else s
  | [] => []
  end.

Definition trimEnd (s : str) : str := rev (trimStart (rev s)).

Definition trim (s : str) : str := trimEnd (trimStart s).

Fixpoint startsWith (s p : str) {struct p} : bool :=
  match p, s with
  | [], _ => true
  | c :: p', d :: s' => bool_decide (c = d) && startsWith s' p'
  | _ :: _, [] => false
  end.

Definition endsWith (s p : str) : bool := startsWith (rev s) (rev p).

(** [s.indexOf(p)], [None] for -1. *)
Fixpoint indexOf (s p : str) : option nat :=
  if startsWith s p then Some 0
  else match s with
       | [] => None
       | _ :: s' => S <$> indexOf s' p
       end.

Definition includes (s p : str) : bool :=
  match indexOf s p with Some _ => true | None => false end.

(** [s.lastIndexOf(p)] *)
Fixpoint lastIndexOf (s p : str) : option nat :=
  match s with
  | [] => if startsWith s p then Some 0 else None
  | _ :: s' =>
      match lastIndexOf s' p with
      | Some i => Some (S i)
      | None => if startsWith s p then Some 0 else None
      end
  end.

(** [s.substring(a)], [s.substring(0, n)], [s.slice(a)], [s.slice(0, n)]
    for indices within the string. *)
Definition substringFrom (s : str) (a : nat) : str := drop a s.
Definition substringTo (s : str) (n : nat) : str := take n s.

(** [s.replace(p, r)] with a string pattern: the first occurrence. *)
Definition replaceFirst (s p r : str) : str :=
  match indexOf s p with
  | Some i => take i s ++ r ++ drop (i + length p) s
  | None => s
  end.

(** [s.split("\n")] and, for a separator character, [l.join(sep)]. *)
Fixpoint splitOn (sep : ascii) (s : str) : list str :=
  match s with
  | [] => [[]]
  | c :: s' =>
      if bool_decide (c = sep) then [] :: splitOn sep s'
      else match splitOn sep s' with
           | l :: ls => (c :: l) :: ls
           | [] => [[c]]
           end
  end.

Fixpoint join (sep : str) (l : list str) : str :=
  match l with
  | [] => []
  | [x] => x
  | x :: l' => x ++ sep ++ join sep l'
  end.

(** Decimal digits of a non-negative integer, as [String(n)] prints it. *)
Fixpoint digitsFuel (fuel n : nat) (acc : str) : str :=
  match fuel with
  | 0 => acc
  | S fuel' =>
      let acc' := ascii_of_nat (48 + n mod 10) :: acc in
      if n <? 10 then acc' else digitsFuel fuel' (n / 10) acc'
  end.

Definition ofNat (n : nat) : str := digitsFuel (S n) n [].

Definition LF : ascii := ascii_of_nat 10.
Definition DQUOTE : ascii := ascii_of_nat 34.

End JsString.

(** ** Regular expressions

    The fragment of ECMAScript regular expressions the sources use, over
    code units U+0000..U+00FF, without the [u], [m], [s] and [y] flags:
    a syntax tree, the backtracking matcher of the language definition
    (continuation passing, captures, greedy and lazy quantifiers), the
    [RegExp] constructor as a parser of pattern text, and the string
    methods built on [exec]. *)
Module JsRegExp.
Import JsString.

Inductive ClassItem :=
| CChar (c : ascii)
| CRange (lo hi : ascii)
| CDigit (negated : bool)
| CWord (negated : bool)
| CSpace (negated : bool).

Inductive re :=
| Empty
| Char (c : ascii)
| Dot
| Class (negated : bool) (items : list ClassItem)
| Seq (r1 r2 : re)
| Alt (r1 r2 : re)
| Group (n : nat) (r : re)
| Quant (r : re) (min : nat) (max : option nat) (greedy : bool)
| Backref (n : nat)
| Lookahead (negated : bool) (r : re)
| AssertStart
| AssertEnd.

Record State := {
  rest : str;                       (* input from the current position *)
  index : nat;                      (* the current position *)
  captures : list (option str)      (* by group number; entry 0 unused *)
}.

Definition Cont := State -> option State.

(** [Canonicalize] under the [i] flag. *)
Definition canon (ic : bool) (c : ascii) : ascii :=
  if ic then upperChar c else c.

Definition isWordChar (c : ascii) : bool :=
  inRange 48 57 c || inRange 65 90 c || inRange 97 122 c || (code c =? 95).

Definition itemMatches (c : ascii) (it : ClassItem) : bool :=
  match it with
  | CChar d => bool_decide (c = d)
  | CRange lo hi => inRange (code lo) (code hi) c
  | CDigit neg => xorb neg (inRange 48 57 c)
  | CWord neg => xorb neg (isWordChar c)
  | CSpace neg => xorb neg (isWhiteSpace c)
  end.

Definition classMatches (ic negated : bool) (items : list ClassItem)
    (c : ascii) : bool :=
  xorb negated
    (existsb (itemMatches c) items
     || (ic && (existsb (itemMatches (upperChar c)) items
                || existsb (itemMatches (lowerChar c)) items))).

Definition advance (x : State) (n : nat) : State :=
  {| rest := drop n (rest x); index := index x + n; captures := captures x |}.

Definition step (ok : ascii -> bool) (x : State) (k : Cont) : option State :=
  match rest x with
  | c :: _ => if ok c then k (advance x 1) else None
  | [] => None
  end.

Definition setCapture (n : nat) (v : option str) (x : State) : State :=
  {| rest := rest x; index := index x; captures := <[n := v]> (captures x) |}.

Fixpoint groupsOf (r : re) : list nat :=
  match r with
  | Seq r1 r2 | Alt r1 r2 => groupsOf r1 ++ groupsOf r2
  | Group n r1 => n :: groupsOf r1
  | Quant r1 _ _ _ | Lookahead _ r1 => groupsOf r1
  | _ => []
  end.

Definition clearCaptures (gs : list nat) (x : State) : State :=
  fold_right (fun n y => setCapture n None y) x gs.

Fixpoint startsWithCanon (ic : bool) (s p : str) {struct p} : bool :=
  match p, s with
  | [], _ => true
  | c :: p', d :: s' =>
      bool_decide (canon ic c = canon ic d) && startsWithCanon ic s' p'
  | _ :: _, [] => false
  end.

Definition orElse {A} (a : option A) (b : option A) : option A :=
  match a with Some _ => a | None => b end.

(** The matcher of a pattern, applied to a state and a continuation.
    A quantifier iterates at most once per remaining character beyond
    its minimum, since an iteration that consumes nothing is rejected. *)
Fixpoint m (ic : bool) (r : re) (x : State) (k : Cont) {struct r}
    : option State :=
  match r with
  | Empty => k x
  | Char c => step (fun d => bool_decide (canon ic d = canon ic c)) x k
  | Dot => step (fun d => negb (isLineTerminator d)) x k
  | Class negated items => step (classMatches ic negated items) x k
  | Seq r1 r2 => m ic r1 x (fun y => m ic r2 y k)
  | Alt r1 r2 => orElse (m ic r1 x k) (m ic r2 x k)
  | Group n r1 =>
      m ic r1 x
        (fun y => k (setCapture n (Some (take (index y - index x) (rest x))) y))
  | Quant r1 min max greedy =>
      let gs := groupsOf r1 in
      (fix rep (fuel min : nat) (max : option nat) (x : State) {struct fuel}
           : option State :=
         match fuel with
         | 0 => None
         | S fuel' =>
             match max with
             | Some 0 => k x
             | _ =>
                 let d := fun y =>
                   if (min =? 0) && (index y =? index x) then None
                   else rep fuel' (pred min) (pred <$> max) y in
                 let xr := clearCaptures gs x in
                 if negb (min =? 0) then m ic r1 xr d
                 else if greedy then orElse (m ic r1 xr d) (k x)
                 else orElse (k x) (m ic r1 xr d)
             end
         end) (min + length (rest x) + 1) min max x
  | Backref n =>
      match captures x !! n with
      | Some (Some s) =>
          if startsWithCanon ic (rest x) s then k (advance x (length s))
          else None
      | _ => k x
      end
  | Lookahead negated r1 =>
      match m ic r1 x Some with
      | Some y =>
          if negated then None
          else k {| rest := rest x; index := index x; captures := captures y |}
      | None => if negated then k x else None
      end
  | AssertStart => if index x =? 0 then k x else None
  | AssertEnd => match rest x with [] => k x | _ => None end
  end.

(** A compiled regular expression with its flags. *)
Record RegExp := {
  pattern : re;
  ngroups : nat;
  ignoreCase : bool;
  global : bool
}.

Record Match := {
  m_index : nat;                    (* where the match starts *)
  m_text : str;                     (* [match[0]] *)
  m_groups : list (option str);     (* [match[n]] at position n *)
  m_after : str                     (* the input after the match *)
}.

Definition group (mt : Match) (n : nat) : option str :=
  match m_groups mt !! n with Some (Some s) => Some s | _ => None end.

(** A match starting exactly at position [i], where [s] is the input
    from [i] on. *)
Definition matchAt (R : RegExp) (s : str) (i : nat) : option Match :=
  match m (ignoreCase R) (pattern R)
          {| rest := s; index := i;
             captures := replicate (S (ngroups R)) None |} Some with
  | Some y =>
      Some {| m_index := i; m_text := take (index y - i) s;
              m_groups := captures y; m_after := rest y |}
  | None => None
  end.

(** [exec] from position [i]: the leftmost match. *)
Fixpoint search (R : RegExp) (s : str) (i : nat) : option Match :=
  match matchAt R s i with
  | Some mt => Some mt
  | None =>
      match s with
      | [] => None
      | _ :: s' => search R s' (S i)
      end
  end.

(** [R.test(s)] and [s.match(R)] for a regular expression without [g],
    or a fresh one. *)
Definition exec (R : RegExp) (s : str) : option Match := search R s 0.

Definition test (R : RegExp) (s : str) : bool :=
  match exec R s with Some _ => true | None => false end.

(** Successive matches of a global regular expression; after an empty
    match the search resumes one position further. *)
Fixpoint matchesFrom (fuel : nat) (R : RegExp) (s : str) (i : nat)
    : list Match :=
  match fuel with
  | 0 => []
  | S fuel' =>
      match search R s i with
      | None => []
      | Some mt =>
          mt ::
          match m_text mt, m_after mt with
          | [], [] => []
          | [], _ :: t => matchesFrom fuel' R t (S (m_index mt))
          | _ :: _, t => matchesFrom fuel' R t (m_index mt + length (m_text mt))
          end
      end
  end.

Definition matchAll (R : RegExp) (s : str) : list Match :=
  matchesFrom (S (length s)) R s 0.

(** [s.match(R)] with the [g] flag: the matched texts, [null] if none. *)
Definition matchGlobal (R : RegExp) (s : str) : option (list str) :=
  match matchAll R s with
  | [] => None
  | l => Some (map m_text l)
  end.

(** [s.replace(R, f)] for a global [R] and a replacer function [f] that
    reads and updates a variable of type [St] of its closure. *)
Fixpoint replaceFrom {St} (fuel : nat) (R : RegExp) (s : str) (i : nat)
    (f : St -> Match -> str * St) (st : St) : str :=
  match fuel with
  | 0 => s
  | S fuel' =>
      match search R s i with
      | None => s
      | Some mt =>
          let '(out, st') := f st mt in
          take (m_index mt - i) s ++ out ++
          match m_text mt, m_after mt with
          | [], [] => []
          | [], c :: t => c :: replaceFrom fuel' R t (S (m_index mt)) f st'
          | _ :: _, t =>
              replaceFrom fuel' R t (m_index mt + length (m_text mt)) f st'
          end
      end
  end.

Definition replaceFn {St} (R : RegExp) (s : str)
    (f : St -> Match -> str * St) (st : St) : str :=
  replaceFrom (S (length s)) R s 0 f st.

(** [GetSubstitution]: [$$], [$&] and [$1]..[$9] in a replacement text. *)
Fixpoint substitute (template : str) (mt : Match) : str :=
  match template with
  | [] => []
  | c :: t =>
      if bool_decide (c = "$"%char) then
        match t with
        | d :: t' =>
            if bool_decide (d = "$"%char) then "$"%char :: substitute t' mt
            else if bool_decide (d = "&"%char) then m_text mt ++ substitute t' mt
            else if inRange 49 57 d && (code d - 48 <=? length (m_groups mt) - 1)
            then (group mt (code d - 48) ?? []) ++ substitute t' mt
            else c :: substitute t mt
        | [] => [c]
        end
      else c :: substitute t mt
  end.

(** [s.replace(R, template)]: every match for a global [R], the first
    one otherwise. *)
Definition replace (R : RegExp) (s template : str) : str :=
  if global R then
    replaceFn R s (fun (_ : unit) mt => (substitute template mt, tt)) tt
  else
    match exec R s with
    | Some mt => take (m_index mt) s ++ substitute template mt ++ m_after mt
    | None => s
    end.

(** *** The [RegExp] constructor: pattern text to syntax tree *)

Inductive Parse (A : Type) :=
| Parsed (a : A) (rest : str) (ng : nat)   (* [ng]: capture groups so far *)
| BadSyntax                                 (* a [SyntaxError] is thrown *)
| NotModelled.                              (* syntax outside the fragment *)
Arguments Parsed {A}.
Arguments BadSyntax {A}.
Arguments NotModelled {A}.

Definition isDigit (c : ascii) : bool := inRange 48 57 c.

Fixpoint parseDigits (s : str) (acc : nat) : nat * str :=
  match s with
  | c :: t => if isDigit c then parseDigits t (10 * acc + (code c - 48))
              else (acc, s)
  | [] => (acc, s)
  end.

Definition oneOf (c : ascii) (l : string) : bool :=
  existsb (fun d => bool_decide (c = d)) (lit l).

(** An escape outside a class; [s] follows the backslash. *)
Definition parseAtomEscape (s : str) (ng : nat) : Parse re :=
  match s with
  | [] => BadSyntax
  | c :: t =>
      if oneOf c "d" then Parsed (Class false [CDigit false]) t ng
      else if oneOf c "D" then Parsed (Class false [CDigit true]) t ng
      else if oneOf c "w" then Parsed (Class false [CWord false]) t ng
      else if oneOf c "W" then Parsed (Class false [CWord true]) t ng
      else if oneOf c "s" then Parsed (Class false [CSpace false]) t ng
      else if oneOf c "S" then Parsed (Class false [CSpace true]) t ng
      else if oneOf c "t" then Parsed (Char (ascii_of_nat 9)) t ng
      else if oneOf c "n" then Parsed (Char (ascii_of_nat 10)) t ng
      else if oneOf c "v" then Parsed (Char (ascii_of_nat 11)) t ng
      else if oneOf c "f" then Parsed (Char (ascii_of_nat 12)) t ng
      else if oneOf c "r" then Parsed (Char (ascii_of_nat 13)) t ng
      else if oneOf c "123456789" then
        let '(n, t') := parseDigits s 0 in Parsed (Backref n) t' ng
      else if oneOf c "0bBxuck" then NotModelled
      else Parsed (Char c) t ng
  end.

(** One class atom; [None] when the syntax is outside the fragment. *)
Definition parseClassAtom (s : str) : option (ClassItem * str) :=
  match s with
  | [] => None
  | c :: t =>
      if oneOf c "\" then
        match t with
        | [] => None
        | e :: t' =>
            if oneOf e "d" then Some (CDigit false, t')
            else if oneOf e "D" then Some (CDigit true, t')
            else if oneOf e "w" then Some (CWord false, t')
            else if oneOf e "W" then Some (CWord true, t')
            else if oneOf e "s" then Some (CSpace false, t')
            else if oneOf e "S" then Some (CSpace true, t')
            else if oneOf e "t" then Some (CChar (ascii_of_nat 9), t')
            else if oneOf e "n" then Some (CChar (ascii_of_nat 10), t')
            else if oneOf e "v" then Some (CChar (ascii_of_nat 11), t')
            else if oneOf e "f" then Some (CChar (ascii_of_nat 12), t')
            else if oneOf e "r" then Some (CChar (ascii_of_nat 13), t')
            else if oneOf e "b" then Some (CChar (ascii_of_nat 8), t')
            else if oneOf e "0123456789xuck" then None
            else Some (CChar e, t')
        end
      else Some (CChar c, t)
  end.

(** The items of a class up to the closing bracket. *)
Fixpoint parseClassItems (fuel : nat) (s : str) (acc : list ClassItem)
    (ng : nat) : Parse (list ClassItem) :=
  match fuel with
  | 0 => NotModelled
  | S fuel' =>
      match s with
      | [] => BadSyntax
      | c :: t =>
          if oneOf c "]" then Parsed (rev acc) t ng
          else
            match parseClassAtom s with
            | None => match s with [_] => BadSyntax | _ => NotModelled end
            | Some (CChar lo, dash :: hi :: t2) =>
                if oneOf dash "-" && negb (oneOf hi "]") then
                  match parseClassAtom (hi :: t2) with
                  | Some (CChar h, t3) =>
                      if code lo <=? code h
                      then parseClassItems fuel' t3 (CRange lo h :: acc) ng
                      else BadSyntax
                  | Some (it, t3) =>
                      parseClassItems fuel' t3
                        (it :: CChar dash :: CChar lo :: acc) ng
                  | None => NotModelled
                  end
                else parseClassItems fuel' (dash :: hi :: t2) (CChar lo :: acc) ng
            | Some (it, t') => parseClassItems fuel' t' (it :: acc) ng
            end
      end
  end.

Definition parseClass (s : str) (ng : nat) : Parse re :=
  match s with
  | c :: t =>
      if oneOf c "^" then
        match parseClassItems (S (length t)) t [] ng with
        | Parsed items t' ng' => Parsed (Class true items) t' ng'
        | BadSyntax => BadSyntax
        | NotModelled => NotModelled
        end
      else
        match parseClassItems (S (length s)) s [] ng with
        | Parsed items t' ng' => Parsed (Class false items) t' ng'
        | BadSyntax => BadSyntax
        | NotModelled => NotModelled
        end
  | [] => BadSyntax
  end.

(** A quantifier after an atom, if there is one. *)
Definition parseQuantifier (r : re) (s : str) (ng : nat) : Parse re :=
  let quant (min : nat) (max : option nat) (t : str) :=
    match t with
    | q :: t' =>
        if oneOf q "?" then Parsed (Quant r min max false) t' ng
        else Parsed (Quant r min max true) t ng
    | [] => Parsed (Quant r min max true) t ng
    end in
  match s with
  | c :: t =>
      if oneOf c "*" then quant 0 None t
      else if oneOf c "+" then quant 1 None t
      else if oneOf c "?" then quant 0 (Some 1) t
      else if oneOf c "{" then
        match t with
        | d :: _ =>
            if isDigit d then
              let '(lo, t1) := parseDigits t 0 in
              match t1 with
              | e :: t2 =>
                  if oneOf e "}" then quant lo (Some lo) t2
                  else if oneOf e "," then
                    match t2 with
                    | f :: t3 =>
                        if oneOf f "}" then quant lo None t3
                        else if isDigit f then
                          let '(hi, t4) := parseDigits t2 0 in
                          match t4 with
                          | g :: t5 =>
                              if oneOf g "}" then
                                if lo <=? hi then quant lo (Some hi) t5
                                else BadSyntax
                              else NotModelled
                          | [] => NotModelled
                          end
                        else NotModelled
                    | [] => NotModelled
                    end
                  else NotModelled
              | [] => NotModelled
              end
            else NotModelled
        | [] => NotModelled
        end
      else Parsed r s ng
  | [] => Parsed r s ng
  end.

Definition seq (r1 r2 : re) : re :=
  match r2 with Empty => r1 | _ => Seq r1 r2 end.

Fixpoint parseDisjunction (fuel : nat) (s : str) (ng : nat) {struct fuel}
    : Parse re :=
  match fuel with
  | 0 => NotModelled
  | S fuel' =>
      match parseAlternative fuel' s ng with
      | Parsed r1 (c :: t) ng1 =>
          if oneOf c "|" then
            match parseDisjunction fuel' t ng1 with
            | Parsed r2 t2 ng2 => Parsed (Alt r1 r2) t2 ng2
            | e => e
            end
          else Parsed r1 (c :: t) ng1
      | p => p
      end
  end
with parseAlternative (fuel : nat) (s : str) (ng : nat) {struct fuel}
    : Parse re :=
  match fuel with
  | 0 => NotModelled
  | S fuel' =>
      match s with
      | [] => Parsed Empty [] ng
      | c :: _ =>
          if oneOf c "|)" then Parsed Empty s ng
          else
            match parseTerm fuel' s ng with
            | Parsed r1 t ng1 =>
                match parseAlternative fuel' t ng1 with
                | Parsed r2 t2 ng2 => Parsed (seq r1 r2) t2 ng2
                | e => e
                end
            | e => e
            end
      end
  end
with parseTerm (fuel : nat) (s : str) (ng : nat) {struct fuel} : Parse re :=
  match fuel with
  | 0 => NotModelled
  | S fuel' =>
      let closing (wrap : re -> re) (p : Parse re) (quantifiable : bool) :=
        match p with
        | Parsed r (c :: t2) ng2 =>
            if oneOf c ")" then
              if quantifiable then parseQuantifier (wrap r) t2 ng2
              else match t2 with
                   | q :: _ => if oneOf q "*+?{" then NotModelled
                               else Parsed (wrap r) t2 ng2
                   | [] => Parsed (wrap r) t2 ng2
                   end
            else BadSyntax
        | Parsed _ [] _ => BadSyntax
        | e => e
        end in
      match s with
      | [] => BadSyntax
      | c :: t =>
          if oneOf c "^" then Parsed AssertStart t ng
          else if oneOf c "$" then Parsed AssertEnd t ng
          else if oneOf c "*+?" then BadSyntax
          else if oneOf c ")" then BadSyntax
          else if oneOf c "{" then NotModelled
          else if oneOf c "." then parseQuantifier Dot t ng
          else if oneOf c "\" then
            match parseAtomEscape t ng with
            | Parsed r t' ng' => parseQuantifier r t' ng'
            | e => e
            end
          else if oneOf c "[" then
            match parseClass t ng with
            | Parsed r t' ng' => parseQuantifier r t' ng'
            | e => e
            end
          else if oneOf c "(" then
            match t with
            | q :: k :: t' =>
                if oneOf q "?" then
                  if oneOf k ":" then
                    closing (fun r => r) (parseDisjunction fuel' t' ng) true
                  else if oneOf k "=" then
                    closing (Lookahead false) (parseDisjunction fuel' t' ng) false
                  else if oneOf k "!" then
                    closing (Lookahead true) (parseDisjunction fuel' t' ng) false
                  else NotModelled
                else
                  closing (Group (S ng)) (parseDisjunction fuel' t (S ng)) true
            | _ => closing (Group (S ng)) (parseDisjunction fuel' t (S ng)) true
            end
          else parseQuantifier (Char c) t ng
      end
  end.

Inductive Compiled :=
| Compiles (R : RegExp)
| SyntaxError
| Unsupported.

(** [new RegExp(source, flags)] *)
Definition compile (source flags : str) : Compiled :=
  if forallb (fun c => oneOf c "gi") flags then
    match parseDisjunction (4 * length source + 8) source 0 with
    | Parsed r [] ng =>
        Compiles {| pattern := r; ngroups := ng;
                    ignoreCase := existsb (fun c => oneOf c "i") flags;
                    global := existsb (fun c => oneOf c "g") flags |}
    | Parsed _ (_ :: _) _ => SyntaxError
    | BadSyntax => SyntaxError
    | NotModelled => Unsupported
    end
  else Unsupported.

Definition compiles (c : Compiled) : bool :=
  match c with Compiles _ => true | _ => false end.

(** A regular expression literal [/source/flags] of the sources. *)
Definition literal (source flags : str)
    (ok : compiles (compile source flags) = true) : RegExp :=
  match compile source flags as c return compiles c = true -> RegExp with
  | Compiles R => fun _ => R
  | SyntaxError | Unsupported =>
      fun bad => match Bool.diff_false_true bad with end
  end ok.

End JsRegExp.

(** ** Effects: code that reads and writes a world and may throw *)
Module Eff.

Inductive Outcome (A : Type) :=
| Returned (a : A)
| Thrown (error : str).
Arguments Returned {A}.
Arguments Thrown {A}.

(** A computation over a world of type [W]. *)
Definition M (W A : Type) := W -> Outcome A * W.

Definition ret {W A} (a : A) : M W A := fun w => (Returned a, w).

Definition throw {W A} (error : str) : M W A := fun w => (Thrown error, w).

Definition bind {W A B} (c : M W A) (k : A -> M W B) : M W B :=
  fun w =>
    match c w with
    | (Returned a, w') => k a w'
    | (Thrown e, w') => (Thrown e, w')
    end.

(** [try { body } catch { handler }]: what [body] did to the world before
    it threw stays done. *)
Definition try_catch {W A} (body : M W A) (handler : str -> M W A) : M W A :=
  fun w =>
    match body w with
    | (Returned a, w') => (Returned a, w')
    | (Thrown e, w') => handler e w'
    end.

Definition modify {W} (f : W -> W) : M W unit := fun w => (Returned tt, f w).

Definition returns {A} (o : Outcome A) : bool :=
  match o with Returned _ => true | Thrown _ => false end.

End Eff.

Global Instance M_ret {W} : MRet (Eff.M W) := fun A a => Eff.ret a.
Global Instance M_bind {W} : MBind (Eff.M W) := fun A B k c => Eff.bind c k.

(** ** Responses and headers (Fetch API)

    Header names are case-insensitive; a body is its text.  That a body
    can be read once only is not modelled. *)
Module Headers.
Definition t := Obj.t str.
Definition get (h : t) (name : str) : option str :=
  Obj.get h (JsString.toLowerCase name).
Definition set (h : t) (name value : str) : t :=
  Obj.set h (JsString.toLowerCase name) value.
(** [new Headers({ name: value, ... })] *)
Definition make (init : list (str * str)) : t :=
  fold_left (fun h '(n, v) => set h n v) init [].
End Headers.

Record Response := {
  status : nat;
  headers : Headers.t;
  body : str
}.

(** [response.ok] *)
Definition ok (r : Response) : bool := (200 <=? status r) && (status r <=? 299).

(** The statuses of a response that cannot have a body (Fetch standard,
    null body status). *)
Definition nullBodyStatus (status : nat) : bool :=
  (status =? 101) || (status =? 103) || (status =? 204) || (status =? 205)
  || (status =? 304).

(** [new Response(body, { status, headers })] with a string for [body],
    the empty string included: the constructor throws a [RangeError] for
    a status outside 200..599 and, the body not being null, a [TypeError]
    for a null body status, which leaves 204, 205 and 304. *)
Definition newResponse (body : str) (status : nat) (headers : Headers.t)
    : Eff.Outcome Response :=
  if negb ((200 <=? status) && (status <=? 599)) then
    Eff.Thrown (lit "RangeError")
  else if nullBodyStatus status then Eff.Thrown (lit "TypeError")
  else Eff.Returned {| status := status; headers := headers; body := body |}.

(** The statuses [new Response] accepts with a body. *)
Definition admitsBody (status : nat) : bool :=
  (200 <=? status) && (status <=? 599) && negb (nullBodyStatus status).

(** ** managed-rules/api-client.ts *)
Module ApiClient.
Import JsString Eff.

(** What evaluating [caches.default] does outside Cloudflare Workers. *)
Inductive CachesBinding :=
| CachesMissing        (* [caches] is not defined: a ReferenceError *)
| CachesNoDefault      (* [caches.default] is undefined *)
| CachesDefault.       (* the edge cache *)

Inductive FetchResult :=
| NetworkError
| Responds (r : Response).

(** The edge cache is keyed by a request: its URL and API-key header. *)
Record World := {
  caches : CachesBinding;
  cacheStore : gmap (list ascii * list ascii) Response;
  cacheMatchRejects : bool;
  cachePutRejects : bool;
  network : str -> FetchResult
}.

Definition hexDigit (n : nat) : ascii :=
  nth n (lit "0123456789ABCDEF") "0"%char.

Definition percent (n : nat) : str :=
  ["%"%char; hexDigit (n / 16); hexDigit (n mod 16)].

Definition isUnreserved (c : ascii) : bool :=
  JsRegExp.isWordChar c
  || existsb (fun d => bool_decide (c = d)) (lit "-.!~*'()").

(** [encodeURIComponent]: UTF-8, percent-encoded outside the unreserved
    characters. *)
Definition encodeURIComponent (s : str) : str :=
  flat_map
    (fun c =>
       if isUnreserved c then [c]
       else if code c <? 128 then percent (code c)
       else percent (192 + code c / 64) ++ percent (128 + code c mod 64))
    s.

Section WithJSON.
(** [JSON.parse] (through [response.json()]) and [JSON.stringify]. *)
Variable JSON_parse : str -> option json.
Variable JSON_stringify : json -> str.

Definition getDefaultCache : M World (option unit) :=
  try_catch
    (fun w =>
       match caches w with
       | CachesMissing => (Thrown (lit "ReferenceError"), w)
       | CachesNoDefault => (Returned None, w)
       | CachesDefault => (Returned (Some tt), w)
       end)
    (fun _ => ret None).

Definition cache_match (key : str * str) : M World (option Response) :=
  fun w =>
    if cacheMatchRejects w then (Thrown (lit "cache.match"), w)
    else (Returned (cacheStore w !! key), w).

Definition cache_put (key : str * str) (response : Response) : M World unit :=
  fun w =>
    if cachePutRejects w then (Thrown (lit "cache.put"), w)
    else (Returned tt,
          {| caches := caches w;
             cacheStore := <[key := response]> (cacheStore w);
             cacheMatchRejects := cacheMatchRejects w;
             cachePutRejects := cachePutRejects w;
             network := network w |}).

Definition response_json (r : Response) : M World json :=
  match JSON_parse (body r) with
  | Some j => ret j
  | None => throw (lit "SyntaxError")
  end.

Definition fetch (url : str) : M World Response :=
  fun w =>
    match network w url with
    | NetworkError => (Thrown (lit "TypeError"), w)
    | Responds r => (Returned r, w)
    end.

(** Store a response in the edge cache. *)
Definition cacheResponse (url apiKey : str) (response : Response)
    : M World unit :=
  try_catch
    (cache ← getDefaultCache;
     match cache with
     | None => ret tt
     | Some _ => cache_put (url, apiKey) response
     end)
    (fun _ => ret tt).

Definition cacheHeaders (cacheTtlSeconds : nat) : Headers.t :=
  Headers.make
    [(lit "Content-Type", lit "application/json");
     (lit "Cache-Control", lit "public, max-age=" ++ ofNat cacheTtlSeconds)].

(** The first [try] block: [Some body] when the function returns the
    cached body, [None] when it goes on to fetch. *)
Definition tryEdgeCache (cacheUrl apiKey : str) : M World (option json) :=
  try_catch
    (cache ← getDefaultCache;
     match cache with
     | None => throw (lit "no cache")
     | Some _ =>
         cachedResponse ← cache_match (cacheUrl, apiKey);
         match cachedResponse with
         | Some r => body ← response_json r; ret (Some body)
         | None => ret None
         end
     end)
    (fun _ => ret None).

(** The second [try] block. *)
Definition fetchFromApi (cacheUrl apiKey : str) (cacheTtlSeconds : nat)
    : M World json :=
  try_catch
    (response ← fetch cacheUrl;
     if status response =? 404 then
       cacheResponse cacheUrl apiKey
         {| status := 200; headers := cacheHeaders cacheTtlSeconds;
            body := lit "null" |};;
       ret JNull
     else if negb (ok response) then ret JNull
     else
       body ← response_json response;
       cacheResponse cacheUrl apiKey
         {| status := 200; headers := cacheHeaders cacheTtlSeconds;
            body := JSON_stringify body |};;
       ret body)
    (fun _ => ret JNull).

(** [fetchConfig]; [JNull] is the [null] result. *)
Definition fetchConfig (hostname apiKey apiBaseUrl : str)
    (cacheTtlSeconds : nat) : M World json :=
  let cacheUrl :=
    apiBaseUrl ++ lit "/v1/sdk-config/" ++ encodeURIComponent hostname in
  cached ← tryEdgeCache cacheUrl apiKey;
  match cached with
  | Some body => ret body
  | None => fetchFromApi cacheUrl apiKey cacheTtlSeconds
  end.

End WithJSON.
End ApiClient.

(** ** managed-rules/merge-utils.ts *)
Module MergeUtils.
Import JsString.

Record RobotsBlock := {
  userAgent : str;
  block_rules : list str
}.

(** The loop variables of [parseRobotsTxt]. *)
Record ParseState := {
  blocks : list RobotsBlock;
  currentAgent : option str;
  currentRules : list str
}.

Definition saveBlock (st : ParseState) : list RobotsBlock :=
  match currentAgent st with
  | Some agent =>
      blocks st ++ [{| userAgent := agent; block_rules := currentRules st |}]
  | None => blocks st
  end.

Definition parseLine (st : ParseState) (rawLine : str) : ParseState :=
  let line := trim rawLine in
  if bool_decide (line = []) || startsWith line (lit "#") then st
  else
    let lowerLine := toLowerCase line in
    if startsWith lowerLine (lit "user-agent:") then
      {| blocks := saveBlock st;
         currentAgent :=
           Some (trim (substringFrom line (length (lit "user-agent:"))));
         currentRules := [] |}
    else
      match currentAgent st with
      | Some _ =>
          {| blocks := blocks st; currentAgent := currentAgent st;
             currentRules := currentRules st ++ [line] |}
      | None => st
      end.

Definition parseRobotsTxt (content : str) : list RobotsBlock :=
  saveBlock
    (fold_left parseLine (splitOn LF content)
       {| blocks := []; currentAgent := None; currentRules := [] |}).

Definition blocksToString (bs : list RobotsBlock) : str :=
  join [LF; LF]
    (map (fun block =>
            join [LF] ((lit "User-agent: " ++ userAgent block) :: block_rules block))
       bs).

(** [botmonByAgent]: a [Map] from lower-cased agent to block, later
    blocks replacing earlier ones. *)
Definition indexByAgent (botmonBlocks : list RobotsBlock)
    : gmap (list ascii) RobotsBlock :=
  fold_left
    (fun m block => <[toLowerCase (userAgent block) := block]> m)
    botmonBlocks ∅.

(** The block list [mergeRobotsTxt] prints. *)
Definition mergeBlocks (originBlocks botmonBlocks : list RobotsBlock)
    : list RobotsBlock :=
  let botmonByAgent := indexByAgent botmonBlocks in
  let '(mergedBlocks, usedAgents) :=
    fold_left
      (fun '(mergedBlocks, usedAgents) originBlock =>
         let agentKey := toLowerCase (userAgent originBlock) in
         match botmonByAgent !! agentKey with
         | Some override =>
             (mergedBlocks ++ [override],
              ({[agentKey]} ∪ usedAgents) : gset (list ascii))
         | None => (mergedBlocks ++ [originBlock], usedAgents)
         end)
      originBlocks ([], ∅) in
  fold_left
    (fun mergedBlocks botmonBlock =>
       if bool_decide (toLowerCase (userAgent botmonBlock) ∈ usedAgents)
       then mergedBlocks
       else mergedBlocks ++ [botmonBlock])
    botmonBlocks mergedBlocks.

Definition mergeRobotsTxt (originContent botmonContent : str) : str :=
  let originBlocks := parseRobotsTxt originContent in
  let botmonBlocks := parseRobotsTxt botmonContent in
  blocksToString (mergeBlocks originBlocks botmonBlocks).

Definition appendRobotsTxt (originContent botmonContent : str) : str :=
  let trimmedOrigin := trimEnd originContent in
  let trimmedBotmon := trim botmonContent in
  if bool_decide (trimmedBotmon = []) then trimmedOrigin
  else trimmedOrigin ++ [LF; LF] ++ lit "# === BotMon Managed Rules ===" ++ [LF]
       ++ trimmedBotmon ++ [LF].

End MergeUtils.

(** ** types/middleware.types.ts and the GEO result *)

Record URL := { href : str; pathname : str }.

(** The fields of the context the pipeline and the GEO engine read or
    write. *)
Record ResponseContext := {
  ctx_response : Response;
  ctx_url : URL;
  isAiBot : bool;
  ctx_pageType : option PageType
}.

Record PipelineStageResult := {
  handled : bool;
  stage_response : option Response
}.

Record GeoOptimizationResult := {
  modified : bool;
  geo_response : Response;
  geo_pageType : option PageType;
  schemasInjected : option (list json);
  summaryInjected : option bool;
  headingsEnriched : option bool
}.

(** ** middleware/pipeline.ts *)
Module Pipeline.
Import JsString Eff.

(** What [runPipeline] returns, with the context as it leaves it. *)
Record PipelineOutput := {
  out_response : Response;
  appliedRules : list str;
  out_context : ResponseContext
}.

Definition sitemapPattern : JsRegExp.RegExp :=
  Eval vm_compute in
    JsRegExp.literal (lit "^\/sitemap(-[\w-]+)?\.xml$") [] eq_refl.

Definition isDisabled (mode : ManagedFileMode) : bool :=
  match mode with ModeDisabled => true | _ => false end.

Section WithHandlers.
(** The world outside the pipeline, and next to it the lines written
    with [console.error]. *)
Variable W : Type.
Definition World : Type := W * list (str * str).

(** The type of [originFetch], and the four handlers the pipeline
    calls: any of them may throw. *)
Variable OriginFetch : Type.
Variable handleRobotsTxt :
  ResponseContext -> ResolvedFileRule -> OriginFetch -> M World Response.
Variable handleSitemap :
  ResponseContext -> ResolvedFileRule -> OriginFetch -> M World Response.
Variable handleWellKnown :
  str -> ResolvedWellKnownFile -> M World Response.
Variable applyGeoOptimization :
  Response -> ResponseContext -> ResolvedGeo -> M World GeoOptimizationResult.

Definition console_error (message error : str) : M World unit :=
  modify (fun w : World => (w.1, w.2 ++ [(message, error)])).

Record PipelineStage := {
  name : str;
  run : ResponseContext -> ResolvedConfig -> OriginFetch
        -> M World PipelineStageResult
}.

Definition notHandled : PipelineStageResult :=
  {| handled := false; stage_response := None |}.

(** The third stage reads [cfg.wellKnown.files[filename]] among the
    own properties of [files]: a request for a name that
    [Object.prototype] defines, such as [/.well-known/constructor],
    finds the inherited property in the code and is outside this
    definition. *)
Definition stages : list PipelineStage := [
  {| name := lit "robots-txt";
     run := fun ctx cfg fetchOrigin =>
       if negb (enabled (robotsTxt cfg)) || isDisabled (mode (robotsTxt cfg))
       then ret notHandled
       else if negb (bool_decide (pathname (ctx_url ctx) = lit "/robots.txt"))
       then ret notHandled
       else
         response ← handleRobotsTxt ctx (robotsTxt cfg) fetchOrigin;
         ret {| handled := true; stage_response := Some response |} |};
  {| name := lit "sitemap";
     run := fun ctx cfg fetchOrigin =>
       if negb (enabled (sitemap cfg)) || isDisabled (mode (sitemap cfg))
       then ret notHandled
       else if negb (JsRegExp.test sitemapPattern (pathname (ctx_url ctx)))
       then ret notHandled
       else
         response ← handleSitemap ctx (sitemap cfg) fetchOrigin;
         ret {| handled := true; stage_response := Some response |} |};
  {| name := lit "well-known";
     run := fun ctx cfg _ =>
       if negb (wk_enabled (wellKnown cfg)) then ret notHandled
       else if negb (startsWith (pathname (ctx_url ctx)) (lit "/.well-known/"))
       then ret notHandled
       else
         let filename :=
           replaceFirst (pathname (ctx_url ctx)) (lit "/.well-known/") [] in
         match Obj.get (files (wellKnown cfg)) filename with
         | None => ret notHandled
         | Some fileConfig =>
             if isDisabled (wk_mode fileConfig) then ret notHandled
             else
               response ← handleWellKnown filename fileConfig;
               ret {| handled := true; stage_response := Some response |}
         end |}
].

(** The [for] loop over the stages: [Some] when a stage handled the
    request and the function returns from inside the loop. *)
Fixpoint runStages (todo : list PipelineStage) (context : ResponseContext)
    (config : ResolvedConfig) (originFetch : OriginFetch)
    (applied : list str) : M World (option (Response * list str)) :=
  match todo with
  | [] => ret None
  | stage :: more =>
      early ←
        try_catch
          (result ← run stage context config originFetch;
           match handled result, stage_response result with
           | true, Some response => ret (Some (response, applied ++ [name stage]))
           | _, _ => ret None
           end)
          (fun error =>
             console_error
               (lit "[BotMon] Pipeline stage " ++ [DQUOTE] ++ name stage
                ++ [DQUOTE] ++ lit " failed:") error;;
             ret None);
      match early with
      | Some out => ret (Some out)
      | None => runStages more context config originFetch applied
      end
  end.

Definition setPageType (context : ResponseContext) (pt : option PageType)
    : ResponseContext :=
  {| ctx_response := ctx_response context; ctx_url := ctx_url context;
     isAiBot := isAiBot context; ctx_pageType := pt |}.

Definition runPipeline (context : ResponseContext) (config : ResolvedConfig)
    (originFetch : OriginFetch) : M World PipelineOutput :=
  early ← runStages stages context config originFetch [];
  match early with
  | Some (response, applied) =>
      ret {| out_response := response; appliedRules := applied;
             out_context := context |}
  | None =>
      let unchanged :=
        {| out_response := ctx_response context; appliedRules := [];
           out_context := context |} in
      if geo_enabled (geo config) && isAiBot context then
        try_catch
          (geoResult ←
             applyGeoOptimization (ctx_response context) context (geo config);
           if modified geoResult then
             ret {| out_response := geo_response geoResult;
                    appliedRules := [lit "geo"];
                    out_context :=
                      setPageType context (geo_pageType geoResult) |}
           else ret unchanged)
          (fun error =>
             console_error (lit "[BotMon] GEO optimization failed:") error;;
             ret unchanged)
      else ret unchanged
  end.

End WithHandlers.
End Pipeline.

(** Pattern text with double quotes: the pieces between the quotes. *)
Definition quoted (pieces : list string) : str :=
  JsString.join [JsString.DQUOTE] (map lit pieces).

(** ** geo/page-type-detector.ts *)
Module PageTypeDetector.
Import JsString JsRegExp Eff.

Definition URL_PATTERNS : list (RegExp * PageType) :=
  Eval vm_compute in [
    (literal (lit "\/products?\/") (lit "i") eq_refl, product);
    (literal (lit "\/shop\/") (lit "i") eq_refl, product);
    (literal (lit "\/item\/") (lit "i") eq_refl, product);
    (literal (lit "\/pricing\/?$") (lit "i") eq_refl, pricing);
    (literal (lit "\/plans?\/?$") (lit "i") eq_refl, pricing);
    (literal (lit "\/faq\/?$") (lit "i") eq_refl, faq);
    (literal (lit "\/frequently-asked") (lit "i") eq_refl, faq);
    (literal (lit "\/docs?\/") (lit "i") eq_refl, docs);
    (literal (lit "\/documentation\/") (lit "i") eq_refl, docs);
    (literal (lit "\/api\/") (lit "i") eq_refl, docs);
    (literal (lit "\/guide\/") (lit "i") eq_refl, docs);
    (literal (lit "\/blog\/") (lit "i") eq_refl, article);
    (literal (lit "\/articles?\/") (lit "i") eq_refl, article);
    (literal (lit "\/posts?\/") (lit "i") eq_refl, article);
    (literal (lit "\/news\/") (lit "i") eq_refl, article);
    (literal (lit "\/how-to") (lit "i") eq_refl, how_to);
    (literal (lit "\/tutorial") (lit "i") eq_refl, how_to);
    (literal (lit "\/compar") (lit "i") eq_refl, comparison);
    (literal (lit "\/vs\/") (lit "i") eq_refl, comparison);
    (literal (lit "-vs-") (lit "i") eq_refl, comparison)
  ].

Definition detectFromUrl (pathname : str) : option PageTypeResult :=
  match List.find (fun e => test e.1 pathname) URL_PATTERNS with
  | Some (_, pageType) =>
      Some {| ptr_pageType := pageType; confidence := medium;
              source := url_pattern |}
  | None => None
  end.

Definition ogTypeFirst : RegExp :=
  Eval vm_compute in
    literal (quoted ["<meta[^>]*property=["; "']og:type["; "'][^>]*content=[";
                     "']([^"; "']+)["; "']"]) (lit "i") eq_refl.

Definition ogTypeSecond : RegExp :=
  Eval vm_compute in
    literal (quoted ["<meta[^>]*content=["; "']([^"; "']+)["; "'][^>]*property=[";
                     "']og:type["; "']"]) (lit "i") eq_refl.

Definition publishedTime : RegExp :=
  Eval vm_compute in
    literal (quoted ["<meta[^>]*property=["; "']article:published_time["; "']"])
      (lit "i") eq_refl.

Definition resultOf (pt : PageType) (c : Confidence) (s : Source)
    : PageTypeResult :=
  {| ptr_pageType := pt; confidence := c; source := s |}.

Definition detectFromMeta (html : str) : option PageTypeResult :=
  let ogTypeMatch := orElse (exec ogTypeFirst html) (exec ogTypeSecond html) in
  let fromOgType :=
    match ogTypeMatch with
    | Some mt =>
        let ogType := toLowerCase (group mt 1 ?? []) in
        if bool_decide (ogType = lit "article") || bool_decide (ogType = lit "blog")
        then Some (resultOf article high meta_tag)
        else if bool_decide (ogType = lit "product")
                || bool_decide (ogType = lit "product.item")
        then Some (resultOf product high meta_tag)
        else None
    | None => None
    end in
  match fromOgType with
  | Some r => Some r
  | None =>
      if test publishedTime html then Some (resultOf article high meta_tag)
      else None
  end.

Definition questionHeading : RegExp :=
  Eval vm_compute in
    literal (lit "<h[23][^>]*>[^<]*\?[^<]*<\/h[23]>") (lit "gi") eq_refl.
Definition dollarPrice : RegExp :=
  Eval vm_compute in literal (lit "\$[\d,]+(?:\.\d{2})?") (lit "g") eq_refl.
Definition currencyPrice : RegExp :=
  Eval vm_compute in literal (lit "(?:USD|EUR|GBP)\s*[\d,]+") (lit "gi") eq_refl.
Definition orderedList : RegExp :=
  Eval vm_compute in literal (lit "<ol[^>]*>[\s\S]*?<\/ol>") (lit "gi") eq_refl.
Definition stepKeywords : RegExp :=
  Eval vm_compute in literal (lit "step\s+\d|how to|instructions") (lit "i") eq_refl.
Definition preBlock : RegExp :=
  Eval vm_compute in literal (lit "<pre[^>]*>[\s\S]*?<\/pre>") (lit "gi") eq_refl.
Definition codeBlock : RegExp :=
  Eval vm_compute in literal (lit "<code[^>]*>[\s\S]*?<\/code>") (lit "gi") eq_refl.

(** [matches && matches.length >= n] *)
Definition atLeast (n : nat) (matches : option (list str)) : bool :=
  match matches with Some l => n <=? length l | None => false end.

Definition detectFromContent (html : str) : option PageTypeResult :=
  if atLeast 3 (matchGlobal questionHeading html)
  then Some (resultOf faq medium content_heuristic)
  else if atLeast 2 (orElse (matchGlobal dollarPrice html)
                            (matchGlobal currencyPrice html))
  then Some (resultOf pricing medium content_heuristic)
  else if atLeast 1 (matchGlobal orderedList html) && test stepKeywords html
  then Some (resultOf how_to low content_heuristic)
  else if atLeast 3 (orElse (matchGlobal preBlock html)
                            (matchGlobal codeBlock html))
  then Some (resultOf docs low content_heuristic)
  else None.

Definition regexSpecials : RegExp :=
  Eval vm_compute in literal (lit "[.+^${}()|[\]\\]") (lit "g") eq_refl.
Definition doubleStar : RegExp :=
  Eval vm_compute in literal (lit "\*\*") (lit "g") eq_refl.
Definition singleStar : RegExp :=
  Eval vm_compute in literal (lit "\*") (lit "g") eq_refl.
Definition placeholder : RegExp :=
  Eval vm_compute in literal (lit "\{\{GLOBSTAR\}\}") (lit "g") eq_refl.

(** The pattern text [globToRegex] hands to [new RegExp]. *)
Definition globToRegexSource (pattern : str) : str :=
  let regexStr :=
    replace placeholder
      (replace singleStar
         (replace doubleStar
            (replace regexSpecials pattern (lit "\$&"))
            (lit "{{GLOBSTAR}}"))
         (lit "[^/]+"))
      (lit ".*") in
  lit "^" ++ regexStr ++ lit "$".

Definition globToRegex (pattern : str) : Compiled :=
  compile (globToRegexSource pattern) [].

(** [findMatchingRule]; an exception of [new RegExp] propagates. *)
Fixpoint findMatchingRule (pathname : str) (rules : list GeoPageRule)
    : Outcome (option GeoPageRule) :=
  match rules with
  | [] => Returned None
  | rule :: more =>
      match globToRegex (urlPattern rule) with
      | Compiles regex =>
          if test regex pathname then Returned (Some rule)
          else findMatchingRule pathname more
      | SyntaxError => Thrown (lit "SyntaxError")
      | Unsupported => Thrown (lit "unsupported pattern")
      end
  end.

Definition detectPageType (pathname html : str) (geoRules : list GeoPageRule)
    : Outcome PageTypeResult :=
  match findMatchingRule pathname geoRules with
  | Thrown e => Thrown e
  | Returned matchingRule =>
      match matchingRule ≫= pageType with
      | Some pt => Returned (resultOf pt high geo_rule)
      | None =>
          match detectFromUrl pathname with
          | Some urlResult => Returned urlResult
          | None =>
              match detectFromMeta html with
              | Some metaResult => Returned metaResult
              | None =>
                  match detectFromContent html with
                  | Some contentResult => Returned contentResult
                  | None => Returned (resultOf generic low default_source)
                  end
              end
          end
      end
  end.

End PageTypeDetector.

(** ** geo/html-utils.ts *)
Module HtmlUtils.
Import JsString JsRegExp.

Definition lt_re : RegExp := Eval vm_compute in literal (lit "&lt;") (lit "g") eq_refl.
Definition gt_re : RegExp := Eval vm_compute in literal (lit "&gt;") (lit "g") eq_refl.
Definition amp_re : RegExp := Eval vm_compute in literal (lit "&amp;") (lit "g") eq_refl.
Definition quot_re : RegExp := Eval vm_compute in literal (lit "&quot;") (lit "g") eq_refl.
Definition n39_re : RegExp := Eval vm_compute in literal (lit "&#39;") (lit "g") eq_refl.
Definition apos_re : RegExp := Eval vm_compute in literal (lit "&apos;") (lit "g") eq_refl.
Definition x27_re : RegExp := Eval vm_compute in literal (lit "&#x27;") (lit "g") eq_refl.
Definition x2F_re : RegExp := Eval vm_compute in literal (lit "&#x2F;") (lit "g") eq_refl.

(** Decode basic HTML entities. *)
Definition decodeHtmlEntities (text : str) : str :=
  let t1 := replace amp_re text (lit "&") in
  let t2 := replace lt_re t1 (lit "<") in
  let t3 := replace gt_re t2 (lit ">") in
  let t4 := replace quot_re t3 [DQUOTE] in
  let t5 := replace n39_re t4 (lit "'") in
  let t6 := replace apos_re t5 (lit "'") in
  let t7 := replace x27_re t6 (lit "'") in
  replace x2F_re t7 (lit "/").

Definition script_re : RegExp :=
  Eval vm_compute in literal (lit "<script[^>]*>[\s\S]*?<\/script>") (lit "gi") eq_refl.
Definition style_re : RegExp :=
  Eval vm_compute in literal (lit "<style[^>]*>[\s\S]*?<\/style>") (lit "gi") eq_refl.
Definition tag_re : RegExp :=
  Eval vm_compute in literal (lit "<[^>]+>") (lit "g") eq_refl.
Definition nbsp_re : RegExp :=
  Eval vm_compute in literal (lit "&nbsp;") (lit "g") eq_refl.
Definition spaces_re : RegExp :=
  Eval vm_compute in literal (lit "\s+") (lit "g") eq_refl.

(** Strip HTML tags from a string. *)
Definition stripHtml (html : str) : str :=
  let h1 := replace script_re html [] in
  let h2 := replace style_re h1 [] in
  let h3 := replace tag_re h2 [] in
  let h4 := replace nbsp_re h3 (lit " ") in
  let h5 := replace spaces_re h4 (lit " ") in
  trim h5.

(** [<meta ... key="name" ... content="(...)">] in either attribute
    order; [key] is [name] or [property]. *)
Definition metaFirst (key name : string) : str :=
  quoted ["<meta[^>]*" ++ key ++ "=["; "']" ++ name ++ "["; "'][^>]*content=[";
          "']([\s\S]*?)["; "']"]%string.
Definition metaSecond (key name : string) : str :=
  quoted ["<meta[^>]*content=["; "']([\s\S]*?)["; "'][^>]*" ++ key ++ "=[";
          "']" ++ name ++ "["; "']"]%string.

Definition title_re : RegExp :=
  Eval vm_compute in literal (lit "<title[^>]*>([\s\S]*?)<\/title>") (lit "i") eq_refl.
Definition description1 : RegExp :=
  Eval vm_compute in literal (metaFirst "name" "description") (lit "i") eq_refl.
Definition description2 : RegExp :=
  Eval vm_compute in literal (metaSecond "name" "description") (lit "i") eq_refl.
Definition ogDescription1 : RegExp :=
  Eval vm_compute in literal (metaFirst "property" "og:description") (lit "i") eq_refl.
Definition ogDescription2 : RegExp :=
  Eval vm_compute in literal (metaSecond "property" "og:description") (lit "i") eq_refl.
Definition ogTitle1 : RegExp :=
  Eval vm_compute in literal (metaFirst "property" "og:title") (lit "i") eq_refl.
Definition ogTitle2 : RegExp :=
  Eval vm_compute in literal (metaSecond "property" "og:title") (lit "i") eq_refl.
Definition ogImage1 : RegExp :=
  Eval vm_compute in literal (metaFirst "property" "og:image") (lit "i") eq_refl.
Definition ogImage2 : RegExp :=
  Eval vm_compute in literal (metaSecond "property" "og:image") (lit "i") eq_refl.

(** [match ? f(match[1].trim()) : null] *)
Definition firstGroupTrimmed (mt : option Match) : option str :=
  (fun x => trim (group x 1 ?? [])) <$> mt.

Definition extractTitle (html : str) : option str :=
  decodeHtmlEntities <$> firstGroupTrimmed (exec title_re html).

Definition extractMetaDescription (html : str) : option str :=
  decodeHtmlEntities <$>
    firstGroupTrimmed (orElse (exec description1 html) (exec description2 html)).

Definition extractOgDescription (html : str) : option str :=
  decodeHtmlEntities <$>
    firstGroupTrimmed (orElse (exec ogDescription1 html) (exec ogDescription2 html)).

Definition extractOgTitle (html : str) : option str :=
  decodeHtmlEntities <$>
    firstGroupTrimmed (orElse (exec ogTitle1 html) (exec ogTitle2 html)).

Definition extractOgImage (html : str) : option str :=
  firstGroupTrimmed (orElse (exec ogImage1 html) (exec ogImage2 html)).

Definition paragraph_re : RegExp :=
  Eval vm_compute in literal (lit "<p[^>]*>([\s\S]*?)<\/p>") (lit "gi") eq_refl.

(** Extract first meaningful paragraph text. *)
Definition extractFirstParagraph (html : str) : option str :=
  match matchGlobal paragraph_re html with
  | None => None
  | Some paragraphs =>
      (fun content => substringTo content 300) <$>
        List.find (fun content => 50 <=? length content)
          (map (fun p => trim (stripHtml p)) paragraphs)
  end.

Definition faq_re : RegExp :=
  Eval vm_compute in
    literal (lit "<h[23][^>]*>([\s\S]*?\?[\s\S]*?)<\/h[23]>([\s\S]*?)(?=<h[1-6]|$)")
      (lit "gi") eq_refl.

(** Extract FAQ question-answer pairs from HTML. *)
Definition extractFaqPairs (html : str) : list (str * str) :=
  flat_map
    (fun mt =>
       let question := trim (stripHtml (group mt 1 ?? [])) in
       let answer := trim (stripHtml (group mt 2 ?? [])) in
       if negb (bool_decide (question = [])) && negb (bool_decide (answer = []))
          && (10 <? length answer)
       then [(question, substringTo answer 500)] else [])
    (matchAll faq_re html).

Definition ol_re : RegExp :=
  Eval vm_compute in literal (lit "<ol[^>]*>([\s\S]*?)<\/ol>") (lit "i") eq_refl.
Definition li_re : RegExp :=
  Eval vm_compute in literal (lit "<li[^>]*>([\s\S]*?)<\/li>") (lit "gi") eq_refl.

(** Extract ordered list steps (for HowTo schema). *)
Definition extractOrderedListSteps (html : str) : list str :=
  match exec ol_re html with
  | None => []
  | Some olMatch =>
      flat_map
        (fun mt =>
           let text := trim (stripHtml (group mt 1 ?? [])) in
           if bool_decide (text = []) then [] else [text])
        (matchAll li_re (group olMatch 1 ?? []))
  end.

Definition usd_re : RegExp :=
  Eval vm_compute in
    literal (lit "\$(\d{1,3}(?:,\d{3})*(?:\.\d{2})?)") (lit "g") eq_refl.
Definition comma_re : RegExp :=
  Eval vm_compute in literal (lit ",") (lit "g") eq_refl.

(** Extract price values from HTML: value and currency. *)
Definition extractPrices (html : str) : list (str * str) :=
  map (fun mt => (replace comma_re (group mt 1 ?? []) [], lit "USD"))
    (matchAll usd_re html).

End HtmlUtils.

(** ** geo/summary-generator.ts *)
Module SummaryGenerator.
Import HtmlUtils.

(** A string in a condition: the empty string counts as absent. *)
Definition truthy (s : option str) : option str :=
  match s with
  | Some [] => None
  | _ => s
  end.

(** [s && s.length >= n] *)
Definition andLength (s : option str) (n : nat) : option str :=
  match truthy s with
  | Some d => if n <=? length d then Some d else None
  | None => None
  end.

Definition extractSummary (html : str) (matchingRule : option GeoPageRule)
    : option ExtractedSummary :=
  match truthy (matchingRule ≫= summary) with
  | Some s => Some {| text := s; summary_source := custom |}
  | None =>
      match andLength (extractMetaDescription html) 30 with
      | Some metaDesc =>
          Some {| text := metaDesc; summary_source := meta_description |}
      | None =>
          match andLength (extractOgDescription html) 30 with
          | Some ogDesc =>
              Some {| text := ogDesc; summary_source := og_description |}
          | None =>
              match truthy (extractFirstParagraph html) with
              | Some firstParagraph =>
                  Some {| text := firstParagraph;
                          summary_source := first_paragraph |}
              | None => None
              end
          end
      end
  end.

End SummaryGenerator.

(** The page type as the string it is in the sources. *)
Definition pageTypeName (pt : PageType) : str :=
  match pt with
  | product => lit "product"
  | article => lit "article"
  | docs => lit "docs"
  | faq => lit "faq"
  | how_to => lit "how-to"
  | pricing => lit "pricing"
  | comparison => lit "comparison"
  | generic => lit "generic"
  end.

(** ** geo/heading-enricher.ts *)
Module HeadingEnricher.
Import JsString JsRegExp.

Definition heading_re : RegExp :=
  Eval vm_compute in
    literal (lit "<h([1-6])([^>]*)>([\s\S]*?)<\/h\1>") (lit "gi") eq_refl.

Definition marker : str := lit "data-botmon-section".

(** The replacer function; [sectionIndex] is the counter of its closure. *)
Definition enrichOne (pageType : PageType) (sectionIndex : nat) (mt : Match)
    : str * nat :=
  let _match := m_text mt in
  let level := group mt 1 ?? [] in
  let attrs := group mt 2 ?? [] in
  let content := group mt 3 ?? [] in
  let sectionIndex := S sectionIndex in
  if includes attrs marker then (_match, sectionIndex)
  else
    let enrichedAttrs :=
      attrs ++ lit " data-botmon-section=" ++ [DQUOTE] ++ ofNat sectionIndex
      ++ [DQUOTE] ++ lit " data-botmon-level=" ++ [DQUOTE] ++ level ++ [DQUOTE]
      ++ lit " data-botmon-page-type=" ++ [DQUOTE] ++ pageTypeName pageType
      ++ [DQUOTE] in
    (lit "<h" ++ level ++ enrichedAttrs ++ lit ">" ++ content
     ++ lit "</h" ++ level ++ lit ">",
     sectionIndex).

Definition enrichHeadings (html : str) (pageType : PageType) : str :=
  replaceFn heading_re html (enrichOne pageType) 0.

End HeadingEnricher.

(** ** geo/schema-generator.ts *)
Module SchemaGenerator.
Import JsString JsRegExp HtmlUtils.

(** [{ ...o, ...custom }] *)
Definition spread (o : Obj.t json) (custom : option (Obj.t json)) : Obj.t json :=
  fold_left (fun acc e => Obj.set acc e.1 e.2) (custom ?? []) o.

(** [...(s && { key: s })] for a string [s] that may be null. *)
Definition whenString (key : string) (s : option str) : Obj.t json :=
  match s with
  | Some (c :: t) => [(lit key, JStr (c :: t))]
  | _ => []
  end.

Definition context_type (type : string) : Obj.t json :=
  [(lit "@context", JStr (lit "https://schema.org")); (lit "@type", JStr (lit type))].

Definition generateProductSchema (title description : str) (image : option str)
    (url : URL) (html : str) (custom : option (Obj.t json)) : Obj.t json :=
  let prices := extractPrices html in
  spread
    (context_type "Product"
     ++ [(lit "name", JStr title); (lit "description", JStr description);
         (lit "url", JStr (href url))]
     ++ whenString "image" image
     ++ match prices with
        | p :: _ =>
            [(lit "offers",
              JObj [(lit "@type", JStr (lit "Offer"));
                    (lit "price", JStr p.1);
                    (lit "priceCurrency", JStr p.2);
                    (lit "availability", JStr (lit "https://schema.org/InStock"))])]
        | [] => []
        end)
    custom.

Definition published_re : RegExp :=
  Eval vm_compute in
    literal (quoted ["<meta[^>]*property=["; "']article:published_time[";
                     "'][^>]*content=["; "']([^"; "']+)["; "']"]) (lit "i") eq_refl.

Definition generateArticleSchema (title description : str) (image : option str)
    (url : URL) (html : str) (custom : option (Obj.t json)) : Obj.t json :=
  let publishedDate := exec published_re html ≫= fun mt => group mt 1 in
  spread
    (context_type "Article"
     ++ [(lit "headline", JStr title); (lit "description", JStr description);
         (lit "url", JStr (href url))]
     ++ whenString "image" image
     ++ whenString "datePublished" publishedDate)
    custom.

Definition generateDocsSchema (title description : str) (url : URL)
    (custom : option (Obj.t json)) : Obj.t json :=
  spread
    (context_type "TechArticle"
     ++ [(lit "headline", JStr title); (lit "description", JStr description);
         (lit "url", JStr (href url))])
    custom.

Definition generateFaqSchema (title html : str) (url : URL)
    (custom : option (Obj.t json)) : Obj.t json :=
  let pairs := extractFaqPairs html in
  spread
    (context_type "FAQPage"
     ++ [(lit "name", JStr title); (lit "url", JStr (href url));
         (lit "mainEntity",
          JArr (map (fun pair =>
                       JObj [(lit "@type", JStr (lit "Question"));
                             (lit "name", JStr pair.1);
                             (lit "acceptedAnswer",
                              JObj [(lit "@type", JStr (lit "Answer"));
                                    (lit "text", JStr pair.2)])])
                  pairs))])
    custom.

Definition generateHowToSchema (title description html : str) (url : URL)
    (custom : option (Obj.t json)) : Obj.t json :=
  let steps := extractOrderedListSteps html in
  spread
    (context_type "HowTo"
     ++ [(lit "name", JStr title); (lit "description", JStr description);
         (lit "url", JStr (href url));
         (lit "step",
          JArr (imap (fun index text =>
                        JObj [(lit "@type", JStr (lit "HowToStep"));
                              (lit "position", JNum (Z.of_nat (index + 1)));
                              (lit "text", JStr text)])
                  steps))])
    custom.

Definition generatePricingSchema (title description : str) (url : URL)
    (html : str) (custom : option (Obj.t json)) : Obj.t json :=
  let prices := extractPrices html in
  spread
    (context_type "WebPage"
     ++ [(lit "name", JStr title); (lit "description", JStr description);
         (lit "url", JStr (href url))]
     ++ match prices with
        | _ :: _ =>
            [(lit "offers",
              JArr (map (fun p =>
                           JObj [(lit "@type", JStr (lit "Offer"));
                                 (lit "price", JStr p.1);
                                 (lit "priceCurrency", JStr p.2)])
                      prices))]
        | [] => []
        end)
    custom.

Definition generateComparisonSchema (title description : str) (url : URL)
    (custom : option (Obj.t json)) : Obj.t json :=
  spread
    (context_type "WebPage"
     ++ [(lit "name", JStr title); (lit "description", JStr description);
         (lit "url", JStr (href url))])
    custom.

Definition generateGenericSchema (title description : str) (url : URL)
    (custom : option (Obj.t json)) : Obj.t json :=
  spread
    (context_type "WebPage"
     ++ [(lit "name", JStr title); (lit "description", JStr description);
         (lit "url", JStr (href url))])
    custom.

(** [a || b || ""] on strings that may be null. *)
Definition orString (a b : option str) : str :=
  match SummaryGenerator.truthy a with
  | Some s => s
  | None => SummaryGenerator.truthy b ?? []
  end.

(** Generate JSON-LD schema for a page based on its detected type; the
    result is never [null]. *)
Definition generateSchema (pageType : PageType) (html : str) (url : URL)
    (matchingRule : option GeoPageRule) : option (Obj.t json) :=
  let title := orString (extractOgTitle html) (extractTitle html) in
  let description := orString (extractMetaDescription html) None in
  let image := extractOgImage html in
  let customJsonLd := matchingRule ≫= customJsonLd in
  Some
    match pageType with
    | product => generateProductSchema title description image url html customJsonLd
    | article => generateArticleSchema title description image url html customJsonLd
    | docs => generateDocsSchema title description url customJsonLd
    | faq => generateFaqSchema title html url customJsonLd
    | how_to => generateHowToSchema title description html url customJsonLd
    | pricing => generatePricingSchema title description url html customJsonLd
    | comparison => generateComparisonSchema title description url customJsonLd
    | generic => generateGenericSchema title description url customJsonLd
    end.

End SchemaGenerator.

(** ** geo/index.ts *)
Module Geo.
Import JsString Eff PageTypeDetector.

(** A value inside a template literal. *)
Fixpoint templateString (v : json) : str :=
  match v with
  | JNull => lit "null"
  | JBool true => lit "true"
  | JBool false => lit "false"
  | JNum n =>
      if (n <? 0)%Z then lit "-" ++ ofNat (Z.to_nat (- n)) else ofNat (Z.to_nat n)
  | JStr s => s
  | JArr l =>
      join (lit ",")
        (map (fun e => match e with JNull => [] | _ => templateString e end) l)
  | JObj _ => lit "[object Object]"
  end.

Definition ampersand : JsRegExp.RegExp :=
  Eval vm_compute in JsRegExp.literal (lit "&") (lit "g") eq_refl.
Definition doubleQuote : JsRegExp.RegExp :=
  Eval vm_compute in JsRegExp.literal [DQUOTE] (lit "g") eq_refl.
Definition lessThan : JsRegExp.RegExp :=
  Eval vm_compute in JsRegExp.literal (lit "<") (lit "g") eq_refl.
Definition greaterThan : JsRegExp.RegExp :=
  Eval vm_compute in JsRegExp.literal (lit ">") (lit "g") eq_refl.

(** Escape a string for use in HTML attribute values. *)
Definition escapeAttr (s : str) : str :=
  JsRegExp.replace greaterThan
    (JsRegExp.replace lessThan
       (JsRegExp.replace doubleQuote
          (JsRegExp.replace ampersand s (lit "&amp;"))
          (lit "&quot;"))
       (lit "&lt;"))
    (lit "&gt;").

Definition isTrue (b : option bool) : bool := b ?? false.

(** [s.slice(0, i) + inserted + "\n" + s.slice(i)] before the last
    [</head>], if there is one. *)
Definition injectBeforeHeadClose (modifiedHtml inserted : str) : option str :=
  match lastIndexOf modifiedHtml (lit "</head>") with
  | Some headCloseIndex =>
      Some (take headCloseIndex modifiedHtml ++ inserted ++ [LF]
            ++ drop headCloseIndex modifiedHtml)
  | None => None
  end.

Section WithJSON.
Variable JSON_stringify : Obj.t json -> str.

(** What both pipelines return for a path that a matching rule
    disables: [{ modified: false, response: new Response(text, {
    status: response.status, headers: response.headers }) }], where
    the constructor may throw. *)
Definition unmodified (response : Response) (text : str)
    : Outcome GeoOptimizationResult :=
  match newResponse text (status response) (headers response) with
  | Thrown e => Thrown e
  | Returned rebuilt =>
      Returned
        {| modified := false; geo_response := rebuilt;
           geo_pageType := None; schemasInjected := None;
           summaryInjected := None; headingsEnriched := None |}
  end.

Definition withGeoHeaders (h : Headers.t) (pageType : PageType) : Headers.t :=
  Headers.set (Headers.set h (lit "X-BotMon-GEO") (lit "applied"))
    (lit "X-BotMon-PageType") (pageTypeName pageType).

(** Full GEO pipeline for HTML responses.  [response] is a response
    whose body has not been read: [body response] is what
    [await response.text()] gives.  The response is built last, after
    the three injections, and building it may throw. *)
Definition applyHtmlGeo (response : Response) (context : ResponseContext)
    (config : ResolvedGeo) : Outcome GeoOptimizationResult :=
  let html := body response in
  let pathname := pathname (ctx_url context) in
  match findMatchingRule pathname (rules config) with
  | Thrown e => Thrown e
  | Returned matchingRule =>
      if isTrue (matchingRule ≫= disabled) then unmodified response html
      else
        match detectPageType pathname html (rules config) with
        | Thrown e => Thrown e
        | Returned pageTypeResult =>
            let pageType := ptr_pageType pageTypeResult in
            (* 1. Inject JSON-LD *)
            let '(html1, schemas) :=
              if injectJsonLd config then
                match SchemaGenerator.generateSchema pageType html
                        (ctx_url context) matchingRule with
                | Some schema =>
                    let jsonLdScript :=
                      lit "<script type=" ++ [DQUOTE] ++ lit "application/ld+json"
                      ++ [DQUOTE] ++ lit ">" ++ JSON_stringify schema
                      ++ lit "</script>" in
                    match injectBeforeHeadClose html jsonLdScript with
                    | Some h => (h, [Obj.get schema (lit "@type") ?? JNull])
                    | None => (html, [])
                    end
                | None => (html, [])
                end
              else (html, []) in
            (* 2. Inject summary meta tag *)
            let '(html2, summaryDone) :=
              if injectSummary config then
                match SummaryGenerator.extractSummary html matchingRule with
                | Some summary =>
                    let summaryMeta :=
                      lit "<meta name=" ++ [DQUOTE] ++ lit "botmon:summary"
                      ++ [DQUOTE] ++ lit " content=" ++ [DQUOTE]
                      ++ escapeAttr (text summary) ++ [DQUOTE] ++ lit ">" in
                    match injectBeforeHeadClose html1 summaryMeta with
                    | Some h => (h, true)
                    | None => (html1, false)
                    end
                | None => (html1, false)
                end
              else (html1, false) in
            (* 3. Enrich headings *)
            let '(html3, headingsDone) :=
              if enrichHeadings_on config then
                let enriched := HeadingEnricher.enrichHeadings html2 pageType in
                if bool_decide (enriched = html2) then (html2, false)
                else (enriched, true)
              else (html2, false) in
            let modified :=
              negb (bool_decide (schemas = [])) || summaryDone || headingsDone in
            (* Build new response with GEO headers *)
            let headers :=
              if modified then withGeoHeaders (headers response) pageType
              else headers response in
            match newResponse html3 (status response) headers with
            | Thrown e => Thrown e
            | Returned rebuilt =>
                Returned
                  {| modified := modified;
                     geo_response := rebuilt;
                     geo_pageType := Some pageType;
                     schemasInjected := Some schemas;
                     summaryInjected := Some summaryDone;
                     headingsEnriched := Some headingsDone |}
            end
        end
  end.

(** GEO pipeline for text/plain and text/markdown responses. *)
Definition applyTextGeo (response : Response) (context : ResponseContext)
    (config : ResolvedGeo) : Outcome GeoOptimizationResult :=
  let text := body response in
  let pathname := pathname (ctx_url context) in
  match findMatchingRule pathname (rules config) with
  | Thrown e => Thrown e
  | Returned matchingRule =>
      if isTrue (matchingRule ≫= disabled) then unmodified response text
      else
        match detectPageType pathname [] (rules config) with
        | Thrown e => Thrown e
        | Returned pageTypeResult =>
            let pageType := ptr_pageType pageTypeResult in
            let summaryLines :=
              if injectSummary config then
                match SummaryGenerator.truthy (matchingRule ≫= summary) with
                | Some summary =>
                    [lit "botmon:summary: " ++ [DQUOTE] ++ summary ++ [DQUOTE]]
                | None => []
                end
              else [] in
            let schemaLines :=
              if injectJsonLd config then
                match SchemaGenerator.generateSchema pageType []
                        (ctx_url context) matchingRule with
                | Some schema =>
                    [lit "botmon:schema: "
                     ++ templateString (Obj.get schema (lit "@type") ?? JNull)]
                | None => []
                end
              else [] in
            let frontmatterLines :=
              summaryLines
              ++ [lit "botmon:page_type: " ++ pageTypeName pageType]
              ++ schemaLines in
            if length frontmatterLines =? 0 then
              Returned
                {| modified := false; geo_response := response;
                   geo_pageType := None; schemasInjected := None;
                   summaryInjected := None; headingsEnriched := None |}
            else
              let frontmatter :=
                lit "---" ++ [LF] ++ join [LF] frontmatterLines ++ [LF]
                ++ lit "---" ++ [LF; LF] in
              let modifiedText := frontmatter ++ text in
              let headers := withGeoHeaders (headers response) pageType in
              match newResponse modifiedText (status response) headers with
              | Thrown e => Thrown e
              | Returned rebuilt =>
                  Returned
                    {| modified := true;
                       geo_response := rebuilt;
                       geo_pageType := Some pageType;
                       schemasInjected := None; summaryInjected := None;
                       headingsEnriched := None |}
              end
        end
  end.

(** Apply GEO optimization to a response. *)
Definition applyGeoOptimization (response : Response)
    (context : ResponseContext) (config : ResolvedGeo)
    : Outcome GeoOptimizationResult :=
  let contentType := Headers.get (headers response) (lit "Content-Type") ?? [] in
  if includes contentType (lit "text/html") then
    applyHtmlGeo response context config
  else if includes contentType (lit "text/plain")
          || includes contentType (lit "text/markdown") then
    applyTextGeo response context config
  else
    Returned
      {| modified := false; geo_response := response;
         geo_pageType := None; schemasInjected := None;
         summaryInjected := None; headingsEnriched := None |}.

End WithJSON.
End Geo.

(* ===================================================================== *)
(** * Part I, continued: the managed-file handlers and their utilities     *)
(* ===================================================================== *)

(** ** managed-rules/merge-utils.ts: sitemaps *)
Module SitemapXml.
Import JsString JsRegExp.

Definition locRegex : RegExp :=
  Eval vm_compute in literal (lit "<loc>\s*(.*?)\s*<\/loc>") (lit "gi") eq_refl.

(** Extract [<url><loc>...</loc></url>] entries from sitemap XML.  Every
    match of [locRegex] holds [<loc>], so the loop on [exec] visits the
    successive matches. *)
Definition extractSitemapUrls (xml : str) : list str :=
  flat_map
    (fun mt =>
       match SummaryGenerator.truthy (group mt 1) with
       | Some url => [url]
       | None => []
       end)
    (matchAll locRegex xml).

(** The body of the loop over [[...originUrls, ...botmonUrls]], on the
    [Set] and the array it fills. *)
Definition addUrl (state : gset (list ascii) * list str) (url : str)
    : gset (list ascii) * list str :=
  let '(seen, allUrls) := state in
  if bool_decide (url ∈ seen) then (seen, allUrls)
  else ({[url]} ∪ seen, allUrls ++ [url]).

Definition deduplicate (urls : list str) : gset (list ascii) * list str :=
  fold_left addUrl urls (∅, []).

Definition urlEntry (url : str) : str :=
  lit "  <url>" ++ [LF] ++ lit "    <loc>" ++ url ++ lit "</loc>" ++ [LF]
  ++ lit "  </url>".

Definition sitemapOf (allUrls : list str) : str :=
  quoted ["<?xml version="; "1.0"; " encoding="; "UTF-8"; "?>"] ++ [LF]
  ++ quoted ["<urlset xmlns=";
             "http://www.sitemaps.org/schemas/sitemap/0.9"; ">"] ++ [LF]
  ++ join [LF] (map urlEntry allUrls) ++ [LF] ++ lit "</urlset>".

(** Merge two sitemap XML documents.  Deduplicates by [<loc>] value. *)
Definition mergeSitemapXml (originXml botmonXml : str) : str :=
  let originUrls := extractSitemapUrls originXml in
  let botmonUrls := extractSitemapUrls botmonXml in
  let allUrls := (deduplicate (originUrls ++ botmonUrls)).2 in
  sitemapOf allUrls.

End SitemapXml.

(** ** managed-rules/robots-txt.ts, sitemap.ts, well-known.ts *)
Module ManagedFiles.
Import JsString Eff.

(** [new Response(body, { status: 200, headers })] *)
Definition respond (body : str) (init : list (str * str)) : Response :=
  {| status := 200; headers := Headers.make init; body := body |}.

Section WithWorld.
(** [fetchOrigin] runs in a world of type [Wd] and may throw. *)
Variable Wd : Type.

(** Fetch origin robots.txt, returning the empty string if the origin
    returns non-200, non-text/plain content, or errors. *)
Definition fetchOriginText (fetchOrigin : M Wd Response) : M Wd str :=
  try_catch
    (response ← fetchOrigin;
     if negb (ok response) then ret []
     else
       let contentType :=
         Headers.get (headers response) (lit "content-type") ?? [] in
       if negb (includes contentType (lit "text/plain")) then ret []
       else ret (body response))
    (fun _ => ret []).

(** Handle a [/robots.txt] request based on the resolved
    configuration. *)
Definition handleRobotsTxt (context : ResponseContext)
    (config : ResolvedFileRule) (fetchOrigin : M Wd Response)
    : M Wd Response :=
  let botmonContent := content config ?? [] in
  match mode config with
  | ModeReplace =>
      ret (respond botmonContent
             [(lit "Content-Type", lit "text/plain; charset=utf-8");
              (lit "X-BotMon-Managed", lit "robots-txt");
              (lit "X-BotMon-Mode", lit "replace")])
  | ModeAppend =>
      originText ← fetchOriginText fetchOrigin;
      let merged := MergeUtils.appendRobotsTxt originText botmonContent in
      ret (respond merged
             [(lit "Content-Type", lit "text/plain; charset=utf-8");
              (lit "X-BotMon-Managed", lit "robots-txt");
              (lit "X-BotMon-Mode", lit "append")])
  | ModeMerge =>
      originText ← fetchOriginText fetchOrigin;
      let merged := MergeUtils.mergeRobotsTxt originText botmonContent in
      ret (respond merged
             [(lit "Content-Type", lit "text/plain; charset=utf-8");
              (lit "X-BotMon-Managed", lit "robots-txt");
              (lit "X-BotMon-Mode", lit "merge")])
  | ModeDisabled => ret (ctx_response context)
  end.

(** Fetch origin sitemap, returning the empty string if the origin
    returns non-200, non-XML content, or errors. *)
Definition fetchOriginXml (fetchOrigin : M Wd Response) : M Wd str :=
  try_catch
    (response ← fetchOrigin;
     if negb (ok response) then ret []
     else
       let contentType :=
         Headers.get (headers response) (lit "content-type") ?? [] in
       if negb (includes contentType (lit "xml")) then ret []
       else ret (body response))
    (fun _ => ret []).

(** Handle a sitemap request based on the resolved configuration. *)
Definition handleSitemap (context : ResponseContext)
    (config : ResolvedFileRule) (fetchOrigin : M Wd Response)
    : M Wd Response :=
  let botmonContent := content config ?? [] in
  match mode config with
  | ModeReplace =>
      ret (respond botmonContent
             [(lit "Content-Type", lit "application/xml; charset=utf-8");
              (lit "X-BotMon-Managed", lit "sitemap");
              (lit "X-BotMon-Mode", lit "replace")])
  | ModeMerge =>
      originXml ← fetchOriginXml fetchOrigin;
      let merged := SitemapXml.mergeSitemapXml originXml botmonContent in
      ret (respond merged
             [(lit "Content-Type", lit "application/xml; charset=utf-8");
              (lit "X-BotMon-Managed", lit "sitemap");
              (lit "X-BotMon-Mode", lit "merge")])
  | ModeAppend =>
      originXml ← fetchOriginXml fetchOrigin;
      let merged := SitemapXml.mergeSitemapXml originXml botmonContent in
      ret (respond merged
             [(lit "Content-Type", lit "application/xml; charset=utf-8");
              (lit "X-BotMon-Managed", lit "sitemap");
              (lit "X-BotMon-Mode", lit "merge")])
  | ModeDisabled => ret (ctx_response context)
  end.

End WithWorld.

Section WellKnown.
(** [inferContentType] reads [CONTENT_TYPE_MAP[filename]], a lookup
    that also finds what the object inherits; it is left open here. *)
Variable inferContentType : str -> str.

(** Handle a [.well-known] file request.  A response made from a
    string without headers gets the content type of plain text. *)
Definition notFound : Response :=
  {| status := 404;
     headers :=
       Headers.make [(lit "Content-Type", lit "text/plain;charset=UTF-8")];
     body := lit "Not Found" |}.

Definition handleWellKnown (filename : str) (config : ResolvedWellKnownFile)
    : Response :=
  match Pipeline.isDisabled (wk_mode config),
        SummaryGenerator.truthy (wk_content config) with
  | false, Some fileContent =>
      respond fileContent
        [(lit "Content-Type", inferContentType filename);
         (lit "X-BotMon-Managed", lit "well-known");
         (lit "X-BotMon-File", filename)]
  | _, _ =>
      (* No content to serve *)
      notFound
  end.

End WellKnown.
End ManagedFiles.

(** ** geo/ai-bot-detector.ts *)
Module AiBotDetector.
Import JsString.

Record AiBotDefinition := {
  bot_pattern : str;       (* substring to match in User-Agent *)
  bot_name : str;
  bot_category : str;
  bot_tags : list str
}.

Definition bot (pattern name category : string) (tags : list string)
    : AiBotDefinition :=
  {| bot_pattern := lit pattern; bot_name := lit name;
     bot_category := lit category; bot_tags := map lit tags |}.

Definition AI_BOT_DEFINITIONS : list AiBotDefinition := [
  bot "GPTBot" "GPTBot" "ai-crawler" ["openai"; "llm-training"];
  bot "ChatGPT-User" "ChatGPT-User" "ai-agent" ["openai"; "conversational"];
  bot "OAI-SearchBot" "OAI-SearchBot" "ai-search" ["openai"; "search"];
  bot "ClaudeBot" "ClaudeBot" "ai-crawler" ["anthropic"; "llm-training"];
  bot "Anthropic-AI" "Anthropic-AI" "ai-crawler" ["anthropic"; "llm-training"];
  bot "Claude-SearchBot" "Claude-SearchBot" "ai-search" ["anthropic"; "search"];
  bot "Google-Extended" "Google-Extended" "ai-crawler" ["google"; "llm-training"];
  bot "GoogleAgent-Mariner" "GoogleAgent-Mariner" "ai-agent" ["google"; "agent"];
  bot "Google-CloudVertexBot" "Google-CloudVertexBot" "ai-crawler"
    ["google"; "vertex"];
  bot "Amazonbot" "Amazonbot" "ai-crawler" ["amazon"; "alexa"];
  bot "Bytespider" "Bytespider" "ai-crawler" ["bytedance"; "llm-training"];
  bot "CCBot" "CCBot" "ai-crawler" ["commoncrawl"; "llm-training"];
  bot "cohere-ai" "Cohere-AI" "ai-crawler" ["cohere"; "llm-training"];
  bot "PerplexityBot" "PerplexityBot" "ai-search" ["perplexity"; "search"];
  bot "Meta-ExternalAgent" "Meta-ExternalAgent" "ai-crawler"
    ["meta"; "llm-training"];
  bot "FacebookBot" "FacebookBot" "ai-crawler" ["meta"; "social"];
  bot "Applebot-Extended" "Applebot-Extended" "ai-crawler"
    ["apple"; "llm-training"];
  bot "Bingbot" "Bingbot" "ai-search" ["microsoft"; "search"];
  bot "MistralBot" "MistralBot" "ai-crawler" ["mistral"; "llm-training"];
  bot "YouBot" "YouBot" "ai-search" ["you.com"; "search"];
  bot "Brave-Search" "Brave-Search" "ai-search" ["brave"; "search"]
]%string.

Record AiBotDetectionResult := {
  det_isAiBot : bool;
  botName : option str;
  botCategory : option str;
  botTags : option (list str)
}.

Definition notAiBot : AiBotDetectionResult :=
  {| det_isAiBot := false; botName := None; botCategory := None;
     botTags := None |}.

(** Detect if a request is from an AI bot based on user-agent. *)
Definition detectAiBot (userAgent : str) : AiBotDetectionResult :=
  if bool_decide (userAgent = []) then notAiBot
  else
    let uaLower := toLowerCase userAgent in
    match List.find
            (fun b => includes uaLower (toLowerCase (bot_pattern b)))
            AI_BOT_DEFINITIONS with
    | Some b =>
        {| det_isAiBot := true; botName := Some (bot_name b);
           botCategory := Some (bot_category b);
           botTags := Some (bot_tags b) |}
    | None => notAiBot
    end.

End AiBotDetector.

(** ** middleware/cloudflare.ts: the session cookie *)
Module SessionCookie.
Import JsString.

(** The loop over the cookies of the header. *)
Fixpoint findCookie (cookies : list str) (cookieName : str) : option str :=
  match cookies with
  | [] => None
  | cookie :: more =>
      match splitOn "="%char (trim cookie) with
      | name :: valueParts =>
          if bool_decide (name = cookieName)
          then SummaryGenerator.truthy (Some (join (lit "=") valueParts))
          else findCookie more cookieName
      | [] => findCookie more cookieName
      end
  end.

(** Parse session cookie from the request's [Cookie] header, given as
    [request.headers.get("Cookie")] returns it. *)
Definition parseSessionCookie (cookieHeader : option str) (cookieName : str)
    : option str :=
  match SummaryGenerator.truthy cookieHeader with
  | None => None
  | Some header => findCookie (splitOn ";"%char header) cookieName
  end.

(** Build the [Set-Cookie] header value for session tracking. *)
Definition buildSetCookieHeader (cookieName value : str) (maxAge : nat) : str :=
  cookieName ++ lit "=" ++ value ++ lit "; Path=/; Max-Age=" ++ ofNat maxAge
  ++ lit "; HttpOnly; Secure; SameSite=Lax".

End SessionCookie.

(** ** geo/html-utils.ts: escaping *)
Module HtmlEscape.
Import JsString JsRegExp.

Definition apostrophe : RegExp :=
  Eval vm_compute in literal (lit "'") (lit "g") eq_refl.

(** Escape a string for use in HTML attributes. *)
Definition escapeHtmlAttr (s : str) : str :=
  replace Geo.greaterThan
    (replace Geo.lessThan
       (replace apostrophe
          (replace Geo.doubleQuote
             (replace Geo.ampersand s (lit "&amp;"))
             (lit "&quot;"))
          (lit "&#39;"))
       (lit "&lt;"))
    (lit "&gt;").

End HtmlEscape.

(* ===================================================================== *)
(** * Closed forms and the statements of the specification                 *)
(* ===================================================================== *)

(** ** Keyed merge of the configuration collections *)
Module KeyedMerge.

(** The last entry of [l] whose key is [k]. *)
Definition lastWithKey {A} (key : A -> str) (l : list A) (k : str)
    : option A :=
  List.find (fun d => bool_decide (key d = k)) (rev l).

(** A base list merged with an overriding one: every base entry,
    replaced as a whole by the last overriding entry of the same key
    when there is one, then the overriding entries whose key no base
    entry has. *)
Definition merged {A} (key : A -> str) (base over : list A) : list A :=
  map (fun r => lastWithKey key over (key r) ?? r) base
  ++ List.filter (fun d => negb (bool_decide (key d ∈ map key base))) over.

(** The last rule of [rs] whose [urlPattern] is [p]. *)
Definition lastWithPattern (rs : list GeoPageRule) (p : str)
    : option GeoPageRule :=
  lastWithKey urlPattern rs p.

(** What [mergeGeoRules] computes: every local rule, replaced as a whole
    by the last remote rule of the same pattern when there is one,
    then the remote rules whose pattern no local rule has. *)
Definition geoRules (sdkRules dashboardRules : list GeoPageRule)
    : list GeoPageRule :=
  map (fun r => lastWithPattern dashboardRules (urlPattern r) ?? r) sdkRules
  ++ List.filter
       (fun d => negb (bool_decide (urlPattern d ∈ map urlPattern sdkRules)))
       dashboardRules.

(** The statement of the specification for an entry present in both
    sources: field by field, the remote field when present, the local
    one otherwise. *)
Definition fieldwise (l r : GeoPageRule) : GeoPageRule :=
  {| urlPattern := urlPattern r;
     pageType := match pageType r with Some x => Some x | None => pageType l end;
     schemaTypes :=
       match schemaTypes r with Some x => Some x | None => schemaTypes l end;
     summary := match summary r with Some x => Some x | None => summary l end;
     customJsonLd :=
       match customJsonLd r with Some x => Some x | None => customJsonLd l end;
     disabled := match disabled r with Some x => Some x | None => disabled l end
  |}.

Definition geoRules_fieldwise (sdkRules dashboardRules : list GeoPageRule)
    : list GeoPageRule :=
  map (fun r =>
         match lastWithPattern dashboardRules (urlPattern r) with
         | Some d => fieldwise r d
         | None => r
         end) sdkRules
  ++ List.filter
       (fun d => negb (bool_decide (urlPattern d ∈ map urlPattern sdkRules)))
       dashboardRules.

(** A file name that the JS object [mergedFiles] stores as an own
    property and enumerates in insertion order: not a string of decimal
    digits (an array index is enumerated before the other names, in
    ascending order) and not [__proto__] (assigning it sets the
    prototype and creates no property). *)
Definition plainName (k : str) : bool :=
  negb (bool_decide (k = lit "__proto__"))
  && (bool_decide (k = []) || negb (forallb JsRegExp.isDigit k)).

Definition resolveLocal (remote_files : Obj.t RemoteWellKnownFile)
    (e : str * WellKnownFileConfig) : str * ResolvedWellKnownFile :=
  (e.1,
   match Obj.get remote_files e.1 with
   | Some r => {| wk_mode := rwf_mode r ?? wkf_mode e.2;
                  wk_content := rwf_content r |}
   | None => {| wk_mode := wkf_mode e.2; wk_content := None |}
   end).

Definition resolveRemoteOnly (e : str * RemoteWellKnownFile)
    : str * ResolvedWellKnownFile :=
  (e.1, {| wk_mode := rwf_mode e.2 ?? ModeReplace;
           wk_content := rwf_content e.2 |}).

Definition wellKnownFiles (sdk_files : Obj.t WellKnownFileConfig)
    (remote_files : Obj.t RemoteWellKnownFile) : Obj.t ResolvedWellKnownFile :=
  map (resolveLocal remote_files) sdk_files
  ++ map resolveRemoteOnly
       (List.filter
          (fun e => negb (bool_decide (e.1 ∈ Obj.keys sdk_files)))
          remote_files).

End KeyedMerge.

(** ** Blocks of a robots.txt file *)
Module RobotsBlocks.
Import JsString MergeUtils.

(** The key [mergeRobotsTxt] compares blocks by. *)
Definition agentKey (b : RobotsBlock) : str := toLowerCase (userAgent b).

(** A line is on its own line of the file, and [trim] leaves it as it is. *)
Definition oneLine (s : str) : Prop := LF ∉ s.
Definition trimmed (s : str) : Prop := trim s = s.

(** [headOk s]: [s] does not begin with white space. *)
Definition headOk (s : str) : Prop :=
  match s with
  | c :: _ => isWhiteSpace c = false
  | [] => True
  end.

(** The lines [parseRobotsTxt] keeps as rules of a block. *)
Definition ruleLine (r : str) : Prop :=
  r <> [] /\ trimmed r /\ oneLine r
  /\ startsWith r (lit "#") = false
  /\ startsWith (toLowerCase r) (lit "user-agent:") = false.

(** The blocks [parseRobotsTxt] produces. *)
Definition wellFormed (b : RobotsBlock) : Prop :=
  trimmed (userAgent b) /\ oneLine (userAgent b)
  /\ Forall ruleLine (block_rules b).

(** The lines [blocksToString] prints for one block. *)
Definition linesOf (b : RobotsBlock) : list str :=
  (lit "User-agent: " ++ userAgent b) :: block_rules b.

(** The loop invariant of [parseRobotsTxt]. *)
Definition parsing (st : ParseState) : Prop :=
  Forall wellFormed (blocks st)
  /\ (forall a, currentAgent st = Some a -> trimmed a /\ oneLine a)
  /\ Forall ruleLine (currentRules st).

(** The managed blocks whose agent no origin block has. *)
Definition managedOnly (origin managed : list RobotsBlock) : list RobotsBlock :=
  List.filter
    (fun d => negb (bool_decide (agentKey d ∈ map agentKey origin))) managed.

(** A file given by its lines. *)
Definition file (lines : list string) : str := join [LF] (map lit lines).

End RobotsBlocks.

(** ** Outcomes of the remote configuration fetch *)
Module FetchOutcomes.
Import ApiClient.

(** The edge cache has nothing usable under [key]: the cache API is not
    there, the lookup fails, there is no entry, or the entry's body does
    not parse. *)
Definition cacheMiss (JSON_parse : str -> option json) (w : World)
    (key : str * str) : Prop :=
  caches w <> CachesDefault
  \/ cacheMatchRejects w = true
  \/ cacheStore w !! key = None
  \/ exists r, cacheStore w !! key = Some r /\ JSON_parse (body r) = None.

(** The edge cache accepts writes. *)
Definition cacheWritable (w : World) : bool :=
  match caches w with
  | CachesDefault => negb (cachePutRejects w)
  | _ => false
  end.

(** The world after a best-effort write of [response] under [key]. *)
Definition afterWrite (w : World) (key : str * str) (response : Response)
    : World :=
  if cacheWritable w then
    {| caches := caches w;
       cacheStore := <[key := response]> (cacheStore w);
       cacheMatchRejects := cacheMatchRejects w;
       cachePutRejects := cachePutRejects w;
       network := network w |}
  else w.

(** A response of status 200 that carries [text] and
    [Cache-Control: public, max-age=ttl]. *)
Definition cacheable (text : str) (ttl : nat) : Response :=
  {| status := 200;
     headers :=
       [(lit "content-type", lit "application/json");
        (lit "cache-control", lit "public, max-age=" ++ JsString.ofNat ttl)];
     body := text |}.

End FetchOutcomes.

(** ** What a throwing stage leaves behind *)
Module PipelineLog.
Import Eff Pipeline.
Section Log.
Variable W : Type.
Variable OriginFetch : Type.

(** The world with one more [console.error] line. *)
Definition logged (w : World W) (message error : str) : World W :=
  (w.1, w.2 ++ [(message, error)]).

Definition stageFailed (stage : PipelineStage W OriginFetch) : str :=
  lit "[BotMon] Pipeline stage " ++ [JsString.DQUOTE] ++ name _ _ stage
  ++ [JsString.DQUOTE] ++ lit " failed:".

(** A computation that throws in every world. *)
Definition throwsAlways {A} (c : M (World W) A) : Prop :=
  forall w, exists e w', c w = (Thrown e, w').
End Log.
End PipelineLog.

(** ** Glob patterns as the specification reads them *)
Module Glob.
Import JsString JsRegExp PageTypeDetector.

(** [globToRegex(pattern).test(path)]; [None] when [new RegExp] throws. *)
Definition matches (pattern path : str) : option bool :=
  match globToRegex pattern with
  | Compiles regex => Some (test regex path)
  | SyntaxError | Unsupported => None
  end.

(** No line terminator occurs in [s]; so it is for every URL path. *)
Definition singleLine (s : str) : Prop :=
  Forall (fun c => isLineTerminator c = false) s.

(** A pattern read from left to right: [**], then [*], then any other
    character for itself. *)
Inductive Token :=
| Globstar
| Star
| Lit (c : ascii).

Fixpoint tokenize (pattern : str) : list Token :=
  match pattern with
  | [] => []
  | c :: p' =>
      if bool_decide (c = "*"%char) then
        match p' with
        | d :: p'' =>
            if bool_decide (d = "*"%char) then Globstar :: tokenize p''
            else Star :: tokenize p'
        | [] => [Star]
        end
      else Lit c :: tokenize p'
  end.

(** What the specification says a pattern matches: [**] any run of
    characters of a path, [*] a non-empty run without [/], a literal
    itself; the whole path must be used up. *)
Inductive Matches : list Token -> str -> Prop :=
| matches_end : Matches [] []
| matches_globstar toks w path :
    singleLine w -> Matches toks path -> Matches (Globstar :: toks) (w ++ path)
| matches_star toks w path :
    w <> [] -> Forall (fun c => c <> "/"%char) w -> Matches toks path ->
    Matches (Star :: toks) (w ++ path)
| matches_lit c toks path :
    Matches toks path -> Matches (Lit c :: toks) (c :: path).

(** The characters the first pass of [globToRegex] escapes. *)
Definition special (c : ascii) : bool := oneOf c ".+^${}()|[]\".

Definition escaped (c : ascii) : str :=
  if special c then ["\"%char; c] else [c].

(** A character that stands for itself in a pattern and in its regular
    expression. *)
Definition plain (c : ascii) : Prop :=
  special c = false /\ c <> "*"%char /\ c <> "?"%char.

(** The text of the tokens after each of the four passes. *)
Definition text1 (t : Token) : str :=
  match t with Globstar => lit "**" | Star => lit "*" | Lit c => escaped c end.
Definition text2 (t : Token) : str :=
  match t with Globstar => lit "{{GLOBSTAR}}" | Star => lit "*" | Lit c => escaped c end.
Definition text3 (t : Token) : str :=
  match t with Globstar => lit "{{GLOBSTAR}}" | Star => lit "[^/]+" | Lit c => escaped c end.
Definition text4 (t : Token) : str :=
  match t with Globstar => lit ".*" | Star => lit "[^/]+" | Lit c => escaped c end.

(** A single star is never followed by another star. *)
Fixpoint separated (toks : list Token) : bool :=
  match toks with
  | Star :: ((Star | Globstar) :: _) => false
  | _ :: toks' => separated toks'
  | [] => true
  end.

Definition properLit (t : Token) : Prop :=
  match t with Lit c => c <> "*"%char | _ => True end.

Definition noQuestionMark (t : Token) : Prop :=
  match t with Lit c => c <> "?"%char | _ => True end.

(** The pattern of the regular expression for the tokens. *)
Definition tokenRe (t : Token) : re :=
  match t with
  | Globstar => Quant Dot 0 None true
  | Star => Quant (Class true [CChar "/"%char]) 1 None true
  | Lit c => Char c
  end.

Fixpoint tokensRe (toks : list Token) : re :=
  match toks with
  | [] => AssertEnd
  | t :: toks' => Seq (tokenRe t) (tokensRe toks')
  end.

End Glob.

(** ** The frontmatter block of a text response *)
Module Frontmatter.
Import JsString.

(** The block [applyTextGeo] prepends: the lines between two [---]
    lines, then an empty line. *)
Definition block (lines : list str) : str :=
  lit "---" ++ [LF] ++ join [LF] lines ++ [LF] ++ lit "---" ++ [LF; LF].

Definition pageTypeLine (pt : PageType) : str :=
  lit "botmon:page_type: " ++ pageTypeName pt.

End Frontmatter.

(** ** The matcher in closed form on simple patterns *)
Module Closed.
Import JsString JsRegExp.

(** The iteration of a quantifier ([RepeatMatcher]), by name. *)
Definition rep (ic : bool) (r1 : re) (greedy : bool) (k : Cont)
    : nat -> nat -> option nat -> State -> option State :=
  let gs := groupsOf r1 in
  fix rep (fuel min : nat) (max : option nat) (x : State) {struct fuel}
      : option State :=
    match fuel with
    | 0 => None
    | S fuel' =>
        match max with
        | Some 0 => k x
        | _ =>
            let d := fun y =>
              if (min =? 0) && (index y =? index x) then None
              else rep fuel' (pred min) (pred <$> max) y in
            let xr := clearCaptures gs x in
            if negb (min =? 0) then m ic r1 xr d
            else if greedy then orElse (m ic r1 xr d) (k x)
            else orElse (k x) (m ic r1 xr d)
        end
    end.

(** The test a pattern of one character makes on that character. *)
Definition atomTest (ic : bool) (a : re) : option (ascii -> bool) :=
  match a with
  | Char c => Some (fun d => bool_decide (canon ic d = canon ic c))
  | Dot => Some (fun d => negb (isLineTerminator d))
  | Class negated items => Some (classMatches ic negated items)
  | _ => None
  end.

Definition at_ (s : str) (i : nat) (caps : list (option str)) : State :=
  {| rest := s; index := i; captures := caps |}.

(** [a*] followed by [k]: the longest run first. *)
Fixpoint starGreedy (ok : ascii -> bool) (k : Cont) (s : str) (i : nat)
    (caps : list (option str)) : option State :=
  match s with
  | c :: s' =>
      if ok c then orElse (starGreedy ok k s' (S i) caps) (k (at_ s i caps))
      else k (at_ s i caps)
  | [] => k (at_ [] i caps)
  end.

(** [a*?] followed by [k]: the shortest run first. *)
Fixpoint starLazy (ok : ascii -> bool) (k : Cont) (s : str) (i : nat)
    (caps : list (option str)) : option State :=
  orElse (k (at_ s i caps))
    match s with
    | c :: s' => if ok c then starLazy ok k s' (S i) caps else None
    | [] => None
    end.

(** The pattern of a literal word. *)
Fixpoint wordRe (w : str) : re :=
  match w with
  | [] => Empty
  | [c] => Char c
  | c :: w' => Seq (Char c) (wordRe w')
  end.

(** A regular expression that matches the word [w] and nothing else. *)
Definition oneWord (R : RegExp) (w : str) : Prop :=
  forall s i,
    matchAt R s i
    = if startsWith s w
      then Some {| m_index := i; m_text := take (length w) s;
                   m_groups := replicate (S (ngroups R)) None;
                   m_after := drop (length w) s |}
      else None.

(** A regular expression that matches one character at a time. *)
Definition oneChar (R : RegExp) (ok : ascii -> bool) : Prop :=
  (forall i, matchAt R [] i = None)
  /\ forall c s i,
       matchAt R (c :: s) i
       = if ok c
         then Some {| m_index := i; m_text := [c];
                      m_groups := replicate (S (ngroups R)) None;
                      m_after := s |}
         else None.

End Closed.

(** ** Headings *)
Module Headings.
Import JsString JsRegExp HeadingEnricher.

Definition isH (c : ascii) : bool :=
  bool_decide (c = "h"%char) || bool_decide (c = "H"%char).

Definition isLevel (c : ascii) : bool := inRange 49 54 c.

(** The text before the first [>] and the text after it. *)
Fixpoint upToGt (t : str) : option (str * str) :=
  match t with
  | [] => None
  | c :: t' =>
      if bool_decide (c = ">"%char) then Some ([], t')
      else match upToGt t' with
           | Some (a, r) => Some (c :: a, r)
           | None => None
           end
  end.

(** [closes d t]: [t] begins with the closing tag of a heading of level
    [d]. *)
Definition closes (d : ascii) (t : str) : bool :=
  match t with
  | a :: b :: c :: e :: f :: _ =>
      bool_decide (a = "<"%char) && bool_decide (b = "/"%char) && isH c
      && bool_decide (e = d) && bool_decide (f = ">"%char)
  | _ => false
  end.

(** The text before the first closing tag of level [d], and the text
    from that tag on. *)
Fixpoint upToClose (d : ascii) (t : str) : option (str * str) :=
  if closes d t then Some ([], t)
  else match t with
       | [] => None
       | c :: t' =>
           match upToClose d t' with
           | Some (content, r) => Some (c :: content, r)
           | None => None
           end
       end.

(** A heading element as the expression of [enrichHeadings] reads it. *)
Record Heading := {
  h_open : ascii;       (* the [h] or [H] of the opening tag *)
  h_level : ascii;
  h_attrs : str;
  h_content : str;
  h_close : ascii;      (* the [h] or [H] of the closing tag *)
  h_after : str         (* the input after the element *)
}.

Definition text (h : Heading) : str :=
  "<"%char :: h_open h :: h_level h :: h_attrs h
  ++ ">"%char :: h_content h
  ++ ["<"%char; "/"%char; h_close h; h_level h; ">"%char].

(** The heading element at the beginning of [s], if there is one. *)
Definition headingAt (s : str) : option Heading :=
  match s with
  | c1 :: c2 :: c3 :: t =>
      if bool_decide (c1 = "<"%char) && isH c2 && isLevel c3 then
        match upToGt t with
        | Some (attrs, t') =>
            match upToClose c3 t' with
            | Some (content, _ :: _ :: hc :: _ :: _ :: after) =>
                Some {| h_open := c2; h_level := c3; h_attrs := attrs;
                        h_content := content; h_close := hc;
                        h_after := after |}
            | _ => None
            end
        | None => None
        end
      else None
  | _ => None
  end.

(** The expression of [enrichHeadings] from its end: the closing tag,
    the content and the closing tag, the attributes and the rest. *)
Definition closeRe : re :=
  Seq (Char "<") (Seq (Char "/") (Seq (Char "h") (Seq (Backref 1) (Char ">")))).

Definition contentRe : re :=
  Seq (Group 3 (Quant (Class false [CSpace false; CSpace true]) 0 None false))
    closeRe.

Definition attrsRe : re :=
  Seq (Group 2 (Quant (Class true [CChar ">"]) 0 None true))
    (Seq (Char ">") contentRe).

Definition toMatch (i : nat) (h : Heading) : Match :=
  {| m_index := i; m_text := text h;
     m_groups := [None; Some [h_level h]; Some (h_attrs h);
                  Some (h_content h)];
     m_after := h_after h |}.

(** What the replacer function puts in the place of a heading. *)
Definition out (pageType : PageType) (sectionIndex : nat) (h : Heading)
    : str :=
  (enrichOne pageType sectionIndex (toMatch 0 h)).1.

(** The attributes [enrichOne] adds. *)
Definition added (pageType : PageType) (sectionIndex : nat) (d : ascii)
    : str :=
  lit " data-botmon-section=" ++ [DQUOTE] ++ ofNat (S sectionIndex)
  ++ [DQUOTE] ++ lit " data-botmon-level=" ++ [DQUOTE] ++ [d] ++ [DQUOTE]
  ++ lit " data-botmon-page-type=" ++ [DQUOTE] ++ pageTypeName pageType
  ++ [DQUOTE].

(** [Enriched pt n s y]: [y] is [s] with its headings enriched, the
    counter of sections being [n] at the beginning of [s]. *)
Inductive Enriched (pageType : PageType) : nat -> str -> str -> Prop :=
| Enriched_nil n : Enriched pageType n [] []
| Enriched_skip n c s y :
    headingAt (c :: s) = None ->
    Enriched pageType n s y ->
    Enriched pageType n (c :: s) (c :: y)
| Enriched_here n s h y :
    headingAt s = Some h ->
    Enriched pageType (S n) (h_after h) y ->
    Enriched pageType n s (out pageType n h ++ y).

(** Text inserted in a tag: it begins with a space and has no angle
    bracket. *)
Definition inert (w : str) : Prop :=
  (exists w', w = " "%char :: w')
  /\ ("<"%char ∉ w) /\ (">"%char ∉ w).

(** [Touched s y]: [y] is [s] but for the case of an [h] here and there
    and for inert text added before a [>] here and there. *)
Inductive Touched : str -> str -> Prop :=
| Touched_nil : Touched [] []
| Touched_copy c s y : Touched s y -> Touched (c :: s) (c :: y)
| Touched_h a b s y :
    isH a = true -> isH b = true -> Touched s y -> Touched (a :: s) (b :: y)
| Touched_added w s y :
    inert w -> Touched s y -> Touched (">"%char :: s) (w ++ ">"%char :: y).

End Headings.

(** ** Worlds of the remote configuration client *)
Module CacheWorlds.
Import ApiClient.

(** The world [w] with another network behind it. *)
Definition withNetwork (w : World) (net : str -> FetchResult) : World :=
  {| caches := caches w; cacheStore := cacheStore w;
     cacheMatchRejects := cacheMatchRejects w;
     cachePutRejects := cachePutRejects w; network := net |}.


End CacheWorlds.

(** ** Generated schemas *)
Module Schemas.

(** The [@type] each generator of [generateSchema] writes. *)
Definition schemaTypeOf (pageType : PageType) : string :=
  match pageType with
  | product => "Product"
  | article => "Article"
  | docs => "TechArticle"
  | faq => "FAQPage"
  | how_to => "HowTo"
  | pricing | comparison | generic => "WebPage"
  end.

End Schemas.

(** ** Lists of URLs without repetition *)
Module UrlLists.
(** [l] without the later occurrences of its elements. *)
Fixpoint firsts (l : list str) : list str :=
  match l with
  | [] => []
  | x :: l' =>
      x :: List.filter (fun y => negb (bool_decide (y = x))) (firsts l')
  end.

(** The elements of [l] that [seen] does not hold. *)
Definition fresh (seen l : list str) : list str :=
  List.filter (fun y => negb (bool_decide (y ∈ seen))) l.
End UrlLists.

(** ** What a handler can use of the origin's answer *)
Module OriginAnswer.
Import JsString Eff.

(** The origin answered 200..299 with a content type that holds
    [kind]. *)
Definition usable (kind : str) (o : Outcome Response) : bool :=
  match o with
  | Returned r =>
      ok r && includes (Headers.get (headers r) (lit "content-type") ?? []) kind
  | Thrown _ => false
  end.

(** The text the handlers merge with. *)
Definition textOf (kind : str) (o : Outcome Response) : str :=
  match o with
  | Returned r => if usable kind o then body r else []
  | Thrown _ => []
  end.
End OriginAnswer.

(** ** Character entities *)
Module Entities.
Import JsString.

(** What escaping writes for one character; the apostrophe only for
    [escapeHtmlAttr]. *)
Definition entity (apostrophes : bool) (c : ascii) : str :=
  if bool_decide (c = "&"%char) then lit "&amp;"
  else if bool_decide (c = DQUOTE) then lit "&quot;"
  else if apostrophes && bool_decide (c = "'"%char) then lit "&#39;"
  else if bool_decide (c = "<"%char) then lit "&lt;"
  else if bool_decide (c = ">"%char) then lit "&gt;"
  else [c].
End Entities.

(** ** User agents that name a bot *)
Module BotMentions.
Import JsString AiBotDetector.

(** The user agent holds the pattern of [b], in any letter case. *)
Definition mentions (userAgent : str) (b : AiBotDefinition) : Prop :=
  exists before after,
    toLowerCase userAgent = before ++ toLowerCase (bot_pattern b) ++ after.

(** What [detectAiBot] returns for the bot [b]. *)
Definition detected (b : AiBotDefinition) : AiBotDetectionResult :=
  {| det_isAiBot := true; botName := Some (bot_name b);
     botCategory := Some (bot_category b); botTags := Some (bot_tags b) |}.
End BotMentions.

(** ** [Cookie] headers *)
Module CookieHeaders.
Import JsString.

(** A text without semicolon and without white space. *)
Definition token (s : str) : Prop :=
  Forall (fun c => c <> ";"%char /\ isWhiteSpace c = false) s.

(** A cookie: its name, without [=], and its value. *)
Definition wellFormed (p : str * str) : Prop :=
  token p.1 /\ ("="%char ∉ p.1) /\ token p.2.

Definition pairText (p : str * str) : str := p.1 ++ lit "=" ++ p.2.

(** The header a browser sends for the cookies [pairs]. *)
Definition header (pairs : list (str * str)) : str :=
  join (lit "; ") (map pairText pairs).
End CookieHeaders.

(** ** The blocks of an appended robots.txt *)
Module AppendedBlocks.
Import JsString MergeUtils.

(** The lines [parseRobotsTxt] looks at: trimmed, blank ones left out. *)
Definition effective (content : str) : list str :=
  List.filter (fun l => negb (bool_decide (l = [])))
    (map trim (splitOn LF content)).

Definition isComment (line : str) : bool := startsWith line (lit "#").
Definition isHeader (line : str) : bool :=
  startsWith (toLowerCase line) (lit "user-agent:").

(** The rules that come before the first user-agent line. *)
Fixpoint leading (lines : list str) : list str :=
  match lines with
  | [] => []
  | l :: ls =>
      if isComment l then leading ls
      else if isHeader l then []
      else l :: leading ls
  end.

Definition orphanRules (content : str) : list str :=
  leading (effective content).

(** [blocks] with [rs] added to the rules of the last block. *)
Definition attach (blocks : list RobotsBlock) (rs : list str)
    : list RobotsBlock :=
  match rev blocks with
  | [] => []
  | b :: before =>
      rev before
      ++ [{| userAgent := userAgent b; block_rules := block_rules b ++ rs |}]
  end.
End AppendedBlocks.

(** ** The [<loc>] elements of a sitemap *)
Module SitemapLocs.
Import JsString JsRegExp.

(** White space, then [</loc>] in any letter case: what follows it. *)
Definition closing (s : str) : option str :=
  if startsWithCanon true (trimStart s) (lit "</loc>")
  then Some (drop 6 (trimStart s))
  else None.

(** The shortest text without line terminator that a closing tag
    follows, and what follows that tag. *)
Fixpoint untilClosing (s : str) : option (str * str) :=
  match closing s with
  | Some after => Some ([], after)
  | None =>
      match s with
      | c :: s' =>
          if isLineTerminator c then None
          else
            match untilClosing s' with
            | Some (u, after) => Some (c :: u, after)
            | None => None
            end
      | [] => None
      end
  end.

(** An element at the beginning of [s]: [<loc>] in any letter case,
    white space, the text and the closing tag. *)
Definition locAt (s : str) : option (str * str) :=
  if startsWithCanon true s (lit "<loc>")
  then untilClosing (trimStart (drop 5 s))
  else None.

(** What the loop of [extractSitemapUrls] pushes for a match. *)
Definition kept (u : str) : list str :=
  match u with [] => [] | _ => [u] end.

(** The elements of a text, from left to right. *)
Inductive Urls : str -> list str -> Prop :=
| Urls_nil : Urls [] []
| Urls_skip c s l : locAt (c :: s) = None -> Urls s l -> Urls (c :: s) l
| Urls_loc s u after l :
    locAt s = Some (u, after) -> Urls after l -> Urls s (kept u ++ l).

(** A text that is read back from between [<loc>] and [</loc>]. *)
Definition readBack (u : str) : Prop :=
  u <> [] /\ trimStart u = u
  /\ forall rest, untilClosing (u ++ lit "</loc>" ++ rest) = Some (u, rest).

(** The word [w], then [r]. *)
Fixpoint wordThen (w : str) (r : re) : re :=
  match w with
  | [] => r
  | c :: w' => Seq (Char c) (wordThen w' r)
  end.

(** The parts of the expression of [extractSitemapUrls]. *)
Definition spaces : re := Quant (Class false [CSpace false]) 0 None true.
Definition closeTag : re := wordThen (lit "</loc") (Char ">").
Definition closingRe : re := Seq spaces closeTag.
Definition contentRe : re := Seq (Group 1 (Quant Dot 0 None false)) closingRe.
Definition bodyRe : re := Seq spaces contentRe.

(** No [<loc>] begins in [pre], whatever follows it. *)
Fixpoint quiet (pre : str) : bool :=
  match pre with
  | [] => true
  | c :: pre' =>
      (negb (bool_decide (c = "<"%char))
       || match pre' with
          | d :: _ => negb (bool_decide (canon true "l" = canon true d))
          | [] => false
          end)
      && quiet pre'
  end.
End SitemapLocs.

(** ** Text without tags *)
Module StrippedText.
Import JsString.

(** A tag: [<], one character or more that are not [>], and [>]. *)
Definition hasTag (s : str) : Prop :=
  exists a b c,
    s = a ++ "<"%char :: b ++ ">"%char :: c /\ b <> [] /\ (">"%char ∉ b).

(** Every [<] is at once followed by [>], or by no [>] at all. *)
Fixpoint tagless (s : str) : Prop :=
  match s with
  | [] => True
  | c :: s' =>
      (c = "<"%char -> hd "x"%char s' = ">"%char \/ (">"%char ∉ s'))
      /\ tagless s'
  end.

(** A tag at the beginning of [s]: its inside and what follows it. *)
Definition tagAt (s : str) : option (str * str) :=
  match s with
  | c :: d :: r =>
      if bool_decide (c = "<"%char) && negb (bool_decide (d = ">"%char))
      then match Headings.upToGt r with
           | Some (a, after) => Some (d :: a, after)
           | None => None
           end
      else None
  | _ => None
  end.

(** [s] with its tags removed, from left to right. *)
Inductive Stripped : str -> str -> Prop :=
| Stripped_nil : Stripped [] []
| Stripped_tag s b after o :
    tagAt s = Some (b, after) -> Stripped after o -> Stripped s o
| Stripped_keep c s o :
    tagAt (c :: s) = None -> Stripped s o -> Stripped (c :: s) (c :: o).

Definition plain (w : str) : Prop := ("<"%char ∉ w) /\ (">"%char ∉ w).

(** [t] is [s] with some of its texts without angle bracket replaced by
    texts without angle bracket. *)
Inductive Rewritten : str -> str -> Prop :=
| Rewritten_nil : Rewritten [] []
| Rewritten_keep c s t : Rewritten s t -> Rewritten (c :: s) (c :: t)
| Rewritten_replace w v s t :
    w <> [] -> plain w -> plain v -> Rewritten s t ->
    Rewritten (w ++ s) (v ++ t).

(** White space is single spaces. *)
Fixpoint spaced (s : str) : Prop :=
  match s with
  | [] => True
  | c :: s' =>
      (isWhiteSpace c = true ->
       c = " "%char /\ isWhiteSpace (hd "x"%char s') = false)
      /\ spaced s'
  end.

(** Runs of white space replaced by one space; [inSpace]: the text
    before ended with white space. *)
Fixpoint squeeze (inSpace : bool) (s : str) : str :=
  match s with
  | [] => []
  | c :: s' =>
      if isWhiteSpace c then
        if inSpace then squeeze true s' else " "%char :: squeeze true s'
      else c :: squeeze false s'
  end.
End StrippedText.

(* ===================================================================== *)
(** * Part II: properties                                                  *)
(* ===================================================================== *)

(** ** Insertion-ordered objects *)

Lemma Obj_get_None {V} (o : Obj.t V) k :
  Obj.get o k = None <-> ~ In k (Obj.keys o).
Proof.
  induction o as [|[k' v] o IH]; simpl; [tauto|].
  case_bool_decide; subst.
  - split; [discriminate | intros H; exfalso; apply H; by left].
  - rewrite IH. tauto.
Qed.

Lemma Obj_set_fresh {V} (o : Obj.t V) k v :
  ~ In k (Obj.keys o) -> Obj.set o k v = o ++ [(k, v)].
Proof.
  induction o as [|[k' v'] o IH]; simpl; intros H; [done|].
  case_bool_decide; subst; [tauto|].
  rewrite IH; [done | tauto].
Qed.

Lemma Obj_get_app_fresh {V} (o1 o2 : Obj.t V) k :
  ~ In k (Obj.keys o1) -> Obj.get (o1 ++ o2) k = Obj.get o2 k.
Proof.
  induction o1 as [|[k' v'] o IH]; simpl; intros H; [done|].
  case_bool_decide; subst; [tauto|]. apply IH. tauto.
Qed.

Lemma Obj_get_app_l {V} (o1 o2 : Obj.t V) k :
  In k (Obj.keys o1) -> Obj.get (o1 ++ o2) k = Obj.get o1 k.
Proof.
  induction o1 as [|[k' v'] o IH]; simpl; intros H; [tauto|].
  case_bool_decide; subst; [done|]. apply IH. tauto.
Qed.

Lemma Obj_set_app_l {V} (o1 o2 : Obj.t V) k v :
  In k (Obj.keys o1) -> Obj.set (o1 ++ o2) k v = Obj.set o1 k v ++ o2.
Proof.
  induction o1 as [|[k' v'] o IH]; simpl; intros H; [tauto|].
  case_bool_decide; subst; [done|]. rewrite IH; [done | tauto].
Qed.

Lemma Obj_get_snoc_ne {V} (o : Obj.t V) k n v :
  k <> n -> Obj.get (o ++ [(n, v)]) k = Obj.get o k.
Proof.
  intros Hne. induction o as [|[k' v'] o IH]; simpl.
  - case_bool_decide; congruence.
  - case_bool_decide; [done | apply IH].
Qed.

Lemma Obj_get_snoc_eq {V} (o : Obj.t V) n v :
  Obj.get o n = None -> Obj.get (o ++ [(n, v)]) n = Some v.
Proof.
  intros H. rewrite Obj_get_app_fresh by (by apply Obj_get_None).
  simpl. by rewrite bool_decide_eq_true_2.
Qed.

Lemma Obj_keys_app {V} (o1 o2 : Obj.t V) :
  Obj.keys (o1 ++ o2) = Obj.keys o1 ++ Obj.keys o2.
Proof. apply map_app. Qed.

(** ** config-merger: the two keyed collections *)

Lemma nullish_Some {A} (x : A) d : Some x ?? d = x.
Proof. done. Qed.

Lemma copySdkFiles_acc (l : Obj.t WellKnownFileConfig) acc :
  NoDup (Obj.keys acc ++ Obj.keys l) ->
  fold_left
    (fun out '(name, fileConfig) =>
       Obj.set out name {| wk_mode := wkf_mode fileConfig; wk_content := None |})
    l acc
  = acc ++ map (fun e => (e.1, {| wk_mode := wkf_mode e.2; wk_content := None |})) l.
Proof.
  revert acc. induction l as [|[n fc] l IH]; intros acc Hnd; simpl.
  - by rewrite app_nil_r.
  - rewrite Obj_set_fresh.
    + rewrite IH.
      * by rewrite <- app_assoc.
      * rewrite Obj_keys_app. simpl. rewrite <- app_assoc. exact Hnd.
    + apply NoDup_app in Hnd as (_ & Hd & _). intros Hin.
      apply (Hd n); [by apply list_elem_of_In | simpl; left].
Qed.

Lemma copySdkFiles_closed (l : Obj.t WellKnownFileConfig) :
  NoDup (Obj.keys l) ->
  ConfigMerger.copySdkFiles l
  = map (fun e => (e.1, {| wk_mode := wkf_mode e.2; wk_content := None |})) l.
Proof. intros H. unfold ConfigMerger.copySdkFiles. by rewrite copySdkFiles_acc. Qed.

Lemma resolveLocal_nil (l : Obj.t WellKnownFileConfig) :
  map (KeyedMerge.resolveLocal []) l
  = map (fun e => (e.1, {| wk_mode := wkf_mode e.2; wk_content := None |})) l.
Proof. done. Qed.

Lemma keys_resolveLocal rf (l : Obj.t WellKnownFileConfig) :
  Obj.keys (map (KeyedMerge.resolveLocal rf) l) = Obj.keys l.
Proof. unfold Obj.keys. rewrite map_map. done. Qed.

Lemma keys_resolveRemoteOnly (l : Obj.t RemoteWellKnownFile) :
  Obj.keys (map KeyedMerge.resolveRemoteOnly l) = Obj.keys l.
Proof. unfold Obj.keys. rewrite map_map. done. Qed.

Lemma get_resolveLocal rf (l : Obj.t WellKnownFileConfig) n :
  Obj.get (map (KeyedMerge.resolveLocal rf) l) n
  = (fun fc => (KeyedMerge.resolveLocal rf (n, fc)).2) <$> Obj.get l n.
Proof.
  induction l as [|[k c] l IH]; simpl; [done|].
  case_bool_decide; subst; [done | apply IH].
Qed.

Lemma resolveLocal_snoc_ne rf n r (e : str * WellKnownFileConfig) :
  e.1 <> n ->
  KeyedMerge.resolveLocal (rf ++ [(n, r)]) e = KeyedMerge.resolveLocal rf e.
Proof. intros H. unfold KeyedMerge.resolveLocal. by rewrite Obj_get_snoc_ne. Qed.

Lemma set_resolveLocal rf (l : Obj.t WellKnownFileConfig) n r fc :
  NoDup (Obj.keys l) -> Obj.get l n = Some fc -> Obj.get rf n = None ->
  Obj.set (map (KeyedMerge.resolveLocal rf) l) n
    {| wk_mode := rwf_mode r ?? wkf_mode fc; wk_content := rwf_content r |}
  = map (KeyedMerge.resolveLocal (rf ++ [(n, r)])) l.
Proof.
  intros Hnd Hget Hrf. induction l as [|[k c] l IH]; simpl in *; [done|].
  apply NoDup_cons in Hnd as [Hk Hnd].
  case_bool_decide as Hd.
  - subst k. injection Hget as ->. f_equal.
    + unfold KeyedMerge.resolveLocal. simpl. by rewrite Obj_get_snoc_eq.
    + apply map_ext_in. intros e He. symmetry. apply resolveLocal_snoc_ne.
      intros <-. apply Hk. apply list_elem_of_In. by apply in_map.
  - f_equal; [symmetry; by apply resolveLocal_snoc_ne | by apply IH].
Qed.

Lemma remoteOnly_filter_snoc (lf : Obj.t WellKnownFileConfig)
    (rf : Obj.t RemoteWellKnownFile) e :
  List.filter (fun e => negb (bool_decide (e.1 ∈ Obj.keys lf))) (rf ++ [e])
  = List.filter (fun e => negb (bool_decide (e.1 ∈ Obj.keys lf))) rf
    ++ (if bool_decide (e.1 ∈ Obj.keys lf) then [] else [e]).
Proof. rewrite List.filter_app. simpl. by case_bool_decide. Qed.

Lemma overlayRemoteFiles_closed (lf : Obj.t WellKnownFileConfig)
    (rf : Obj.t RemoteWellKnownFile) :
  NoDup (Obj.keys lf) -> NoDup (Obj.keys rf) ->
  ConfigMerger.overlayRemoteFiles (ConfigMerger.copySdkFiles lf) rf
  = KeyedMerge.wellKnownFiles lf rf.
Proof.
  intros Hlf. unfold ConfigMerger.overlayRemoteFiles.
  induction rf as [|[n r] rf IH] using rev_ind; intros Hrf.
  - simpl. rewrite copySdkFiles_closed by done.
    unfold KeyedMerge.wellKnownFiles. simpl. by rewrite app_nil_r.
  - rewrite Obj_keys_app in Hrf. apply NoDup_app in Hrf as (Hrf & Hfresh & _).
    assert (Hn : Obj.get rf n = None).
    { apply Obj_get_None. intros Hin. apply (Hfresh n).
      - by apply list_elem_of_In.
      - simpl. left. }
    rewrite fold_left_app. simpl. rewrite IH by done.
    unfold KeyedMerge.wellKnownFiles.
    rewrite remoteOnly_filter_snoc. simpl.
    destruct (Obj.get lf n) as [fc|] eqn:Hget.
    + assert (Hin : In n (Obj.keys lf)).
      { destruct (decide (n ∈ Obj.keys lf)) as [Hyes|Hno];
          [by apply list_elem_of_In|].
        rewrite list_elem_of_In in Hno. apply Obj_get_None in Hno. congruence. }
      rewrite bool_decide_eq_true_2 by (by apply list_elem_of_In).
      rewrite app_nil_r.
      rewrite Obj_get_app_l by (by rewrite keys_resolveLocal).
      rewrite Obj_set_app_l by (by rewrite keys_resolveLocal).
      rewrite get_resolveLocal, Hget. simpl.
      unfold KeyedMerge.resolveLocal at 1. simpl. rewrite Hn. simpl.
      f_equal. exact (set_resolveLocal rf lf n r fc Hlf Hget Hn).
    + pose proof Hget as Hnotin. apply Obj_get_None in Hnotin.
      rewrite bool_decide_eq_false_2 by (by rewrite list_elem_of_In).
      assert (Hfresh' : ~ In n (Obj.keys
                (map (KeyedMerge.resolveLocal rf) lf ++
                 map KeyedMerge.resolveRemoteOnly
                   (List.filter
                      (fun e => negb (bool_decide (e.1 ∈ Obj.keys lf))) rf)))).
      { rewrite Obj_keys_app, keys_resolveLocal, keys_resolveRemoteOnly.
        intros [H|H]%in_app_iff; [done|].
        apply Obj_get_None in Hn. apply Hn.
        unfold Obj.keys in *. apply in_map_iff in H as (e & <- & He).
        apply in_map. by apply List.filter_In in He as [He _]. }
      rewrite Obj_set_fresh by done.
      apply Obj_get_None in Hfresh'. rewrite Hfresh'. simpl.
      rewrite map_app, app_assoc. simpl. f_equal.
      f_equal. apply map_ext_in. intros e He. symmetry.
      apply resolveLocal_snoc_ne. intros <-. apply Hnotin.
      unfold Obj.keys. by apply in_map.
Qed.

(** *** Merging two lists by key

    [mergeGeoRules] and [mergeRobotsTxt] share their shape: an index of
    the overriding list by key, a pass over the base list that takes the
    override when there is one and notes its key as used, and a pass over
    the overriding list that appends the entries whose key was not used. *)
Section KeyedFold.
Context {A : Type} (key : A -> list ascii).

Lemma index_lookup (l : list A) k :
  fold_left (fun m x => <[key x := x]> m) l (∅ : gmap (list ascii) A) !! k
  = KeyedMerge.lastWithKey key l k.
Proof.
  unfold KeyedMerge.lastWithKey. induction l as [|d l IH] using rev_ind; [done|].
  rewrite fold_left_app, rev_app_distr. simpl.
  case_bool_decide as Hd.
  - subst k. by rewrite lookup_insert_eq.
  - by rewrite lookup_insert_ne.
Qed.

Lemma lastWithKey_In l d : In d l -> is_Some (KeyedMerge.lastWithKey key l (key d)).
Proof.
  intros Hin. unfold KeyedMerge.lastWithKey.
  destruct (List.find _ (rev l)) as [x|] eqn:Hf; [by eexists|].
  exfalso. eapply List.find_none in Hf; [|apply in_rev in Hin; exact Hin].
  simpl in Hf. by rewrite bool_decide_eq_true_2 in Hf.
Qed.

Lemma lastWithKey_Some l k d : KeyedMerge.lastWithKey key l k = Some d -> In d l /\ key d = k.
Proof.
  unfold KeyedMerge.lastWithKey. intros [Hin Hk]%List.find_some.
  apply in_rev in Hin. by apply bool_decide_eq_true in Hk.
Qed.

Lemma lastWithKey_None l k : KeyedMerge.lastWithKey key l k = None <-> ~ In k (map key l).
Proof.
  split.
  - intros Hn (d & <- & Hd)%in_map_iff.
    destruct (lastWithKey_In l d Hd) as [x Hx]. congruence.
  - intros Hn. destruct (KeyedMerge.lastWithKey key l k) as [d|] eqn:E; [|done].
    apply lastWithKey_Some in E as [Hin <-]. exfalso. apply Hn. by apply in_map.
Qed.

Lemma first_loop (idx : gmap (list ascii) A) (base acc : list A)
    (U : gset (list ascii)) :
  exists U' : gset (list ascii),
    fold_left
      (fun '(merged, used) x =>
         match idx !! key x with
         | Some override =>
             (merged ++ [override], ({[key x]} ∪ used) : gset (list ascii))
         | None => (merged ++ [x], used)
         end)
      base (acc, U)
    = (acc ++ map (fun r => (idx !! key r) ?? r) base, U')
    /\ forall p, p ∈ U' <-> p ∈ U \/ (In p (map key base) /\ is_Some (idx !! p)).
Proof.
  revert acc U. induction base as [|r base IH]; intros acc U; simpl.
  - exists U. split; [by rewrite app_nil_r|]. intros p. tauto.
  - destruct (idx !! key r) as [d|] eqn:Hd.
    + destruct (IH (acc ++ [d]) ({[key r]} ∪ U)) as (U' & -> & HU).
      exists U'. split; [by rewrite <- app_assoc|].
      intros p. rewrite HU, elem_of_union, elem_of_singleton.
      split.
      * intros [[->|?]|[? ?]]; eauto.
      * intros [?|[[<-|?] ?]]; eauto.
    + destruct (IH (acc ++ [r]) U) as (U' & -> & HU).
      exists U'. split; [by rewrite <- app_assoc|].
      intros p. rewrite HU. split.
      * intros [?|[? ?]]; eauto.
      * intros [?|[[<-|?] Hs]]; eauto.
        rewrite Hd in Hs. by destruct Hs.
Qed.

Lemma second_loop (f : A -> bool) over acc :
  fold_left (fun merged d => if f d then merged else merged ++ [d]) over acc
  = acc ++ List.filter (fun d => negb (f d)) over.
Proof.
  revert acc. induction over as [|d over IH]; intros acc; simpl.
  - by rewrite app_nil_r.
  - rewrite IH. destruct (f d); simpl; [done | by rewrite <- app_assoc].
Qed.

(** The two passes in closed form. *)
Lemma keyed_merge (base over : list A) :
  (let idx := fold_left (fun m x => <[key x := x]> m) over
                (∅ : gmap (list ascii) A) in
   let '(merged, used) :=
     fold_left
       (fun '(merged, used) x =>
          match idx !! key x with
          | Some override =>
              (merged ++ [override], ({[key x]} ∪ used) : gset (list ascii))
          | None => (merged ++ [x], used)
          end)
       base ([], ∅) in
   fold_left
     (fun merged d =>
        if bool_decide (key d ∈ used) then merged else merged ++ [d])
     over merged)
  = KeyedMerge.merged key base over.
Proof.
  unfold KeyedMerge.merged. cbn zeta.
  destruct (first_loop (fold_left (fun m x => <[key x := x]> m) over ∅) base [] ∅)
    as (U' & -> & HU).
  rewrite (second_loop (fun d => bool_decide (key d ∈ U'))).
  simpl. f_equal.
  - apply map_ext. intros r. by rewrite index_lookup.
  - apply List.filter_ext_in. intros d Hd. f_equal.
    apply bool_decide_ext. rewrite HU, list_elem_of_In.
    split.
    + intros [H|[H _]]; [set_solver | done].
    + intros H. right. split; [done|].
      rewrite index_lookup. by apply lastWithKey_In.
Qed.

(** Without a repeated key on either side, none in the result. *)
Lemma keyed_merge_NoDup (base over : list A) :
  NoDup (map key base) -> NoDup (map key over) ->
  NoDup (map key (KeyedMerge.merged key base over)).
Proof.
  intros Hb Ho. unfold KeyedMerge.merged. rewrite map_app, map_map.
  assert (Hsame : map (fun r => key (KeyedMerge.lastWithKey key over (key r) ?? r)) base
                  = map key base).
  { apply map_ext. intros r. destruct (KeyedMerge.lastWithKey key over (key r)) as [d|] eqn:E;
      [|done]. apply lastWithKey_Some in E as [_ E]. by rewrite <- E. }
  rewrite Hsame. apply NoDup_app. split; [done|]. split.
  - intros k Hk (d & <- & Hd)%list_elem_of_In%in_map_iff.
    apply List.filter_In in Hd as [_ Hd]. apply negb_true_iff in Hd.
    by apply bool_decide_eq_false in Hd.
  - clear Hb Hsame. induction over as [|d over IH]; [constructor|].
    apply NoDup_cons in Ho as [Hd Ho]. cbn [List.filter].
    destruct (negb _); [|by apply IH].
    cbn [map]. apply NoDup_cons. split; [|by apply IH].
    intros (x & Hx & Hin)%list_elem_of_In%in_map_iff. apply Hd.
    apply list_elem_of_In. rewrite <- Hx. apply in_map.
    by apply List.filter_In in Hin as [? _].
Qed.

(** An overriding entry is in the result when its key is not repeated. *)
Lemma keyed_merge_over (base over : list A) d :
  NoDup (map key over) -> In d over ->
  In d (KeyedMerge.merged key base over).
Proof.
  intros Ho Hd. apply in_app_iff.
  destruct (decide (key d ∈ map key base)) as [Hin|Hout].
  - left. apply list_elem_of_In, in_map_iff in Hin as (r & Hr & Hrin).
    apply in_map_iff. exists r. split; [|done].
    destruct (lastWithKey_In over d Hd) as [x Hx]. rewrite Hr, Hx. simpl.
    apply lastWithKey_Some in Hx as [Hxin Hk].
    clear -Ho Hd Hxin Hk. induction over as [|y over IH]; [done|].
    apply NoDup_cons in Ho as [Hy Ho]. rewrite list_elem_of_In in Hy.
    destruct Hd as [->|Hd], Hxin as [->|Hxin]; [done| | |by apply IH].
    + exfalso. apply Hy. rewrite <- Hk. by apply in_map.
    + exfalso. apply Hy. rewrite Hk. by apply in_map.
  - right. apply List.filter_In. split; [done|].
    by rewrite bool_decide_eq_false_2.
Qed.
End KeyedFold.

Lemma mergeGeoRules_closed sdk ds :
  ConfigMerger.mergeGeoRules sdk ds = KeyedMerge.geoRules sdk ds.
Proof. apply (keyed_merge urlPattern). Qed.

(** C3 (as stated, refuted): an entry present in both sources is not merged
    field by field.  The local rule for [/p] carries a summary, the remote
    rule for [/p] carries none: the merged rule is the remote rule, and the
    local summary is not inherited. *)
Lemma mergeConfig_geo_rule_not_fieldwise :
  let l := {| urlPattern := lit "/p"; pageType := Some product;
              schemaTypes := None; summary := Some (lit "S");
              customJsonLd := None; disabled := None |} in
  let r := {| urlPattern := lit "/p"; pageType := None;
              schemaTypes := None; summary := None;
              customJsonLd := None; disabled := None |} in
  let sdk := {| sdk_robotsTxt := None; sdk_sitemap := None; sdk_wellKnown := None;
                sdk_geo := Some {| sdk_geo_enabled := Some true;
                                   sdk_pageTypes := None;
                                   sdk_injectSummary := None;
                                   sdk_injectJsonLd := None;
                                   sdk_enrichHeadings := None;
                                   sdk_rules := Some [l] |} |} in
  let remote := {| rem_robotsTxt := None; rem_sitemap := None;
                   rem_wellKnown := None;
                   rem_geo := Some {| rem_geo_enabled := Some true;
                                      rem_injectJsonLd := None;
                                      rem_injectSummary := None;
                                      rem_enrichHeadings := None;
                                      rem_rules := Some [r] |} |} in
  rules (geo (ConfigMerger.mergeConfig sdk (Some remote))) = [r]
  /\ KeyedMerge.geoRules_fieldwise [l] [r] = [l]
  /\ rules (geo (ConfigMerger.mergeConfig sdk (Some remote)))
     <> KeyedMerge.geoRules_fieldwise [l] [r].
Proof.
  intros l r sdk remote.
  assert (H1 : rules (geo (ConfigMerger.mergeConfig sdk (Some remote))) = [r]).
  { simpl. rewrite mergeGeoRules_closed. vm_compute. reflexivity. }
  assert (H2 : KeyedMerge.geoRules_fieldwise [l] [r] = [l]).
  { vm_compute. reflexivity. }
  split; [exact H1|]. split; [exact H2|].
  rewrite H1, H2. discriminate.
Qed.

(** C3 (amended): with a remote bundle, [wellKnown.files] and [geo.rules]
    are merged by key.  Local entries come first, in their order, then the
    remote-only entries, in theirs; for the files this is the order of a
    JS object, whose names are here neither strings of digits nor
    [__proto__].  A [.well-known] file present in both
    sources takes the remote mode when there is one and the local mode
    otherwise, and always the remote content; a local-only file keeps its
    mode; a remote-only file keeps its content and its mode, [replace]
    when it has none.  A rule present in both sources is the remote rule
    as a whole (the last one of that pattern); rules of one source only are
    unchanged. *)
Theorem mergeConfig_keyed_collections
    (sdk : ManagedRulesConfig) (remote : RemoteConfigBundle) :
  let local_files := (sdk_wellKnown sdk ≫= sdk_wk_files) ?? [] in
  let local_rules := (sdk_geo sdk ≫= sdk_rules) ?? [] in
  NoDup (Obj.keys local_files) ->
  forallb KeyedMerge.plainName (Obj.keys local_files) = true ->
  (forall w, rem_wellKnown remote = Some w ->
     NoDup (Obj.keys (rem_wk_files w))
     /\ forallb KeyedMerge.plainName (Obj.keys (rem_wk_files w)) = true) ->
  (forall w, rem_wellKnown remote = Some w ->
     files (wellKnown (ConfigMerger.mergeConfig sdk (Some remote)))
     = KeyedMerge.wellKnownFiles local_files (rem_wk_files w))
  /\ (forall g, rem_geo remote = Some g ->
        rules (geo (ConfigMerger.mergeConfig sdk (Some remote)))
        = KeyedMerge.geoRules local_rules (rem_rules g ?? [])).
Proof.
  intros local_files local_rules Hl _ Hr. split.
  - intros w Hw. simpl. unfold ConfigMerger.mergeWellKnown. simpl. rewrite Hw.
    simpl. apply overlayRemoteFiles_closed; [exact Hl | by apply Hr].
  - intros g Hg. simpl. unfold ConfigMerger.mergeGeo. simpl. rewrite Hg.
    simpl. apply mergeGeoRules_closed.
Qed.

Lemma mergeConfig_keyed_collections_witness :
  let sdk := {| sdk_robotsTxt := None; sdk_sitemap := None;
                sdk_wellKnown :=
                  Some {| sdk_wk_enabled := Some true;
                          sdk_wk_files :=
                            Some [(lit "ai-plugin.json", {| wkf_mode := ModeReplace |});
                                  (lit "security.txt", {| wkf_mode := ModeDisabled |})] |};
                sdk_geo := None |} in
  let w := {| rem_wk_enabled := Some true;
              rem_wk_files :=
                [(lit "llms.txt", {| rwf_mode := None; rwf_content := Some (lit "LLM data") |});
                 (lit "ai-plugin.json", {| rwf_mode := None; rwf_content := Some (lit "{}") |})] |} in
  let remote := {| rem_robotsTxt := None; rem_sitemap := None;
                   rem_wellKnown := Some w; rem_geo := None |} in
  files (wellKnown (ConfigMerger.mergeConfig sdk (Some remote)))
  = [(lit "ai-plugin.json", {| wk_mode := ModeReplace; wk_content := Some (lit "{}") |});
     (lit "security.txt", {| wk_mode := ModeDisabled; wk_content := None |});
     (lit "llms.txt", {| wk_mode := ModeReplace; wk_content := Some (lit "LLM data") |})].
Proof.
  intros sdk w remote.
  assert (Hl : NoDup (Obj.keys ((sdk_wellKnown sdk ≫= sdk_wk_files) ?? []))).
  { apply (bool_decide_unpack _). by vm_compute. }
  assert (Hr : forall w', rem_wellKnown remote = Some w' ->
                 NoDup (Obj.keys (rem_wk_files w'))
                 /\ forallb KeyedMerge.plainName (Obj.keys (rem_wk_files w'))
                    = true).
  { intros w' [= <-]. split; [|reflexivity].
    apply (bool_decide_unpack _). by vm_compute. }
  destruct (mergeConfig_keyed_collections sdk remote Hl eq_refl Hr)
    as [Hfiles _].
  rewrite (Hfiles w eq_refl). vm_compute. reflexivity.
Defined.

(** ** api-client: outcomes of [fetchConfig] *)
Section FetchConfig.
Import Eff ApiClient FetchOutcomes.
Variable JSON_parse : str -> option json.
Variable JSON_stringify : json -> str.

Lemma cacheHeaders_eq ttl :
  cacheHeaders ttl = headers (cacheable [] ttl).
Proof. reflexivity. Qed.

Ltac run_eff :=
  cbv beta iota zeta delta
    [tryEdgeCache fetchFromApi cacheResponse getDefaultCache cache_match
     cache_put response_json fetch try_catch mbind M_bind bind ret throw
     caches cacheStore cacheMatchRejects cachePutRejects network fst snd].

Lemma cacheResponse_writes url apiKey response w :
  cacheResponse url apiKey response w
  = (Returned tt, afterWrite w (url, apiKey) response).
Proof.
  destruct w as [c st mr pr net]. unfold afterWrite, cacheWritable. run_eff.
  destruct c; try reflexivity. destruct pr; reflexivity.
Qed.

Lemma tryEdgeCache_miss url apiKey w :
  cacheMiss JSON_parse w (url, apiKey) ->
  tryEdgeCache JSON_parse url apiKey w = (Returned None, w).
Proof.
  destruct w as [c st mr pr net]. unfold cacheMiss. run_eff.
  intros [Hc | [Hm | [Hs | (r & Hs & Hp)]]].
  - destruct c; try reflexivity. congruence.
  - subst mr. destruct c; reflexivity.
  - destruct c; try reflexivity. destruct mr; [reflexivity|].
    by rewrite Hs.
  - destruct c; try reflexivity. destruct mr; [reflexivity|].
    by rewrite Hs, Hp.
Qed.

Lemma tryEdgeCache_returns url apiKey w :
  exists r, tryEdgeCache JSON_parse url apiKey w = (Returned r, w).
Proof.
  destruct w as [c st mr pr net]. run_eff.
  destruct c; eauto.
  destruct mr; eauto.
  destruct (st !! (url, apiKey)) as [r|]; eauto.
  destruct (JSON_parse (body r)); eauto.
Qed.

Lemma fetchFromApi_unfold url apiKey ttl w :
  fetchFromApi JSON_parse JSON_stringify url apiKey ttl w
  = match network w url with
    | NetworkError => (Returned JNull, w)
    | Responds r =>
        if status r =? 404 then
          (Returned JNull, afterWrite w (url, apiKey) (cacheable (lit "null") ttl))
        else if negb (ok r) then (Returned JNull, w)
        else match JSON_parse (body r) with
             | Some j =>
                 (Returned j,
                  afterWrite w (url, apiKey) (cacheable (JSON_stringify j) ttl))
             | None => (Returned JNull, w)
             end
    end.
Proof.
  unfold fetchFromApi, try_catch, fetch, response_json.
  unfold mbind, M_bind, bind, ret, throw.
  destruct (network w url) as [|r]; [done|].
  destruct (status r =? 404).
  - by rewrite cacheResponse_writes.
  - destruct (negb (ok r)); [done|].
    destruct (JSON_parse (body r)); [|done].
    by rewrite cacheResponse_writes.
Qed.

Lemma fetchFromApi_returns url apiKey ttl w :
  returns (fetchFromApi JSON_parse JSON_stringify url apiKey ttl w).1 = true.
Proof.
  rewrite fetchFromApi_unfold.
  destruct (network w url) as [|r]; [done|].
  destruct (status r =? 404); [done|].
  destruct (negb (ok r)); [done|].
  by destruct (JSON_parse (body r)).
Qed.

(** [fetchConfig] returns in every world. *)
Lemma fetchConfig_never_throws hostname apiKey apiBaseUrl ttl w :
  returns (fetchConfig JSON_parse JSON_stringify hostname apiKey apiBaseUrl ttl w).1
  = true.
Proof.
  unfold fetchConfig. unfold mbind at 1, M_bind at 1, bind at 1.
  destruct (tryEdgeCache_returns
              (apiBaseUrl ++ lit "/v1/sdk-config/" ++ encodeURIComponent hostname)
              apiKey w) as [r ->].
  destruct r; [done|]. apply fetchFromApi_returns.
Qed.

(** C8: on a cache miss, a 404 answer gives [null] and stores the text
    [null] with [max-age] the TTL; a network failure or another status
    outside 200..299 gives [null] and leaves the world as it was; a
    200..299 answer whose body parses gives the parsed body and stores
    its text with [max-age] the TTL.  Every cache write is best effort:
    where the cache refuses it the world is unchanged, and in every case
    [fetchConfig] returns rather than throws. *)
Theorem fetchConfig_outcomes hostname apiKey apiBaseUrl ttl w :
  let cacheUrl :=
    apiBaseUrl ++ lit "/v1/sdk-config/" ++ encodeURIComponent hostname in
  let run := fetchConfig JSON_parse JSON_stringify hostname apiKey apiBaseUrl ttl in
  cacheMiss JSON_parse w (cacheUrl, apiKey) ->
  (forall r, network w cacheUrl = Responds r -> status r = 404 ->
     run w = (Returned JNull,
              afterWrite w (cacheUrl, apiKey) (cacheable (lit "null") ttl)))
  /\ (network w cacheUrl = NetworkError -> run w = (Returned JNull, w))
  /\ (forall r, network w cacheUrl = Responds r ->
        status r <> 404 -> ok r = false -> run w = (Returned JNull, w))
  /\ (forall r j, network w cacheUrl = Responds r ->
        ok r = true -> JSON_parse (body r) = Some j ->
        run w = (Returned j,
                 afterWrite w (cacheUrl, apiKey) (cacheable (JSON_stringify j) ttl)))
  /\ (forall response,
        (afterWrite w (cacheUrl, apiKey) response = w
         \/ cacheStore (afterWrite w (cacheUrl, apiKey) response)
            = <[(cacheUrl, apiKey) := response]> (cacheStore w)))
  /\ returns (run w).1 = true.
Proof.
  intros cacheUrl run Hmiss.
  assert (Hrun : run w = fetchFromApi JSON_parse JSON_stringify cacheUrl apiKey ttl w).
  { unfold run, fetchConfig. fold cacheUrl.
    unfold mbind at 1, M_bind at 1, bind at 1.
    by rewrite (tryEdgeCache_miss _ _ _ Hmiss). }
  rewrite Hrun, fetchFromApi_unfold.
  repeat split.
  - intros r -> Hs. by rewrite Hs.
  - by intros ->.
  - intros r -> Hs Hok. apply Nat.eqb_neq in Hs. by rewrite Hs, Hok.
  - intros r j -> Hok Hj.
    assert (Hs : (status r =? 404) = false).
    { apply Nat.eqb_neq. intros E. unfold ok in Hok. rewrite E in Hok. done. }
    by rewrite Hs, Hok, Hj.
  - intros response. unfold afterWrite. destruct (cacheWritable w); auto.
  - rewrite <- fetchFromApi_unfold. apply fetchFromApi_returns.
Qed.

End FetchConfig.

Lemma fetchConfig_outcomes_witness :
  let w := {| ApiClient.caches := ApiClient.CachesDefault;
              ApiClient.cacheStore := ∅;
              ApiClient.cacheMatchRejects := false;
              ApiClient.cachePutRejects := false;
              ApiClient.network :=
                fun _ => ApiClient.Responds
                           {| status := 404; headers := []; body := lit "Not Found" |} |} in
  let url := lit "https://api.botmon.io/v1/sdk-config/unknown.com" in
  let key := (url, lit "test-key") in
  FetchOutcomes.cacheMiss (fun _ => None) w key
  /\ exists w',
       ApiClient.fetchConfig (fun _ => None) (fun _ => [])
         (lit "unknown.com") (lit "test-key") (lit "https://api.botmon.io") 300 w
       = (Eff.Returned JNull, w')
       /\ ApiClient.cacheStore w' !! key
          = Some (FetchOutcomes.cacheable (lit "null") 300).
Proof.
  intros w url key.
  assert (Hmiss : FetchOutcomes.cacheMiss (fun _ => None) w
                    (lit "https://api.botmon.io" ++ lit "/v1/sdk-config/"
                     ++ ApiClient.encodeURIComponent (lit "unknown.com"),
                     lit "test-key")).
  { right. right. left. reflexivity. }
  split; [exact Hmiss|].
  destruct (fetchConfig_outcomes (fun _ => None) (fun _ => [])
              (lit "unknown.com") (lit "test-key") (lit "https://api.botmon.io")
              300 w Hmiss) as (H404 & _).
  eexists. split.
  - apply (H404 _ eq_refl eq_refl).
  - unfold FetchOutcomes.afterWrite. simpl. apply lookup_insert_eq.
Defined.

(** ** pipeline: error isolation *)
Section PipelineIsolation.
Import Eff Pipeline.
Variable W : Type.
Variable OriginFetch : Type.
Variable handleRobotsTxt :
  ResponseContext -> ResolvedFileRule -> OriginFetch -> M (World W) Response.
Variable handleSitemap :
  ResponseContext -> ResolvedFileRule -> OriginFetch -> M (World W) Response.
Variable handleWellKnown :
  str -> ResolvedWellKnownFile -> M (World W) Response.
Variable applyGeoOptimization :
  Response -> ResponseContext -> ResolvedGeo -> M (World W) GeoOptimizationResult.

Abbreviation Stage := (PipelineStage W OriginFetch).
Abbreviation the_stages :=
  (stages W OriginFetch handleRobotsTxt handleSitemap handleWellKnown).
Abbreviation pipeline :=
  (runPipeline W OriginFetch handleRobotsTxt handleSitemap handleWellKnown
     applyGeoOptimization).

Abbreviation logged := (PipelineLog.logged W).
Abbreviation stageFailed := (PipelineLog.stageFailed W OriginFetch).
Abbreviation throwsAlways := (PipelineLog.throwsAlways W).

Ltac not_handled H := cbv [mret M_ret ret] in H; injection H as <- _; by left.
Ltac case_if H :=
  match type of H with context [if ?c then _ else _] => destruct c end.

(** A stage that throws is skipped: the loop goes on with the next one. *)
Lemma runStages_thrown (stage : Stage) more ctx cfg fetch applied w e w' :
  run _ _ stage ctx cfg fetch w = (Thrown e, w') ->
  runStages W OriginFetch (stage :: more) ctx cfg fetch applied w
  = runStages W OriginFetch more ctx cfg fetch applied
      (logged w' (stageFailed stage) e).
Proof.
  intros H. simpl.
  unfold mbind at 1, M_bind at 1, bind at 1, try_catch at 1.
  unfold mbind at 1, M_bind at 1, bind at 1. rewrite H.
  reflexivity.
Qed.

(** A stage that does not handle the request is passed over. *)
Lemma runStages_not_handled (stage : Stage) more ctx cfg fetch applied w r w' :
  run _ _ stage ctx cfg fetch w = (Returned r, w') ->
  handled r = false \/ stage_response r = None ->
  runStages W OriginFetch (stage :: more) ctx cfg fetch applied w
  = runStages W OriginFetch more ctx cfg fetch applied w'.
Proof.
  intros H Hr. simpl.
  unfold mbind at 1, M_bind at 1, bind at 1, try_catch at 1.
  unfold mbind at 1, M_bind at 1, bind at 1. rewrite H.
  destruct r as [[] [resp|]]; simpl in *;
    destruct Hr; try discriminate; reflexivity.
Qed.

(** A stage that handles the request ends the loop. *)
Lemma runStages_handled (stage : Stage) more ctx cfg fetch applied w resp w' :
  run _ _ stage ctx cfg fetch w
  = (Returned {| handled := true; stage_response := Some resp |}, w') ->
  runStages W OriginFetch (stage :: more) ctx cfg fetch applied w
  = (Returned (Some (resp, applied ++ [name _ _ stage])), w').
Proof.
  intros H. simpl.
  unfold mbind at 1, M_bind at 1, bind at 1, try_catch at 1.
  unfold mbind at 1, M_bind at 1, bind at 1. rewrite H.
  reflexivity.
Qed.

(** The loop itself never throws, whatever the stages do. *)
Lemma runStages_returns (todo : list Stage) ctx cfg fetch applied w :
  returns (runStages W OriginFetch todo ctx cfg fetch applied w).1 = true.
Proof.
  revert w. induction todo as [|stage more IH]; intros w; [done|].
  destruct (run _ _ stage ctx cfg fetch w) as [[r|e] w'] eqn:Hrun.
  - destruct r as [[] [resp|]].
    + by rewrite (runStages_handled _ _ _ _ _ _ _ _ _ Hrun).
    + rewrite (runStages_not_handled _ _ _ _ _ _ _ _ _ Hrun); [apply IH | by right].
    + rewrite (runStages_not_handled _ _ _ _ _ _ _ _ _ Hrun); [apply IH | by left].
    + rewrite (runStages_not_handled _ _ _ _ _ _ _ _ _ Hrun); [apply IH | by left].
  - rewrite (runStages_thrown _ _ _ _ _ _ _ _ _ Hrun). apply IH.
Qed.

(** When no stage ever returns a handled result, the loop falls
    through. *)
Lemma runStages_falls_through (todo : list Stage) ctx cfg fetch applied w :
  (forall stage w0 r w1,
      In stage todo ->
      run _ _ stage ctx cfg fetch w0 = (Returned r, w1) ->
      handled r = false \/ stage_response r = None) ->
  exists w', runStages W OriginFetch todo ctx cfg fetch applied w
             = (Returned None, w').
Proof.
  revert w. induction todo as [|stage more IH]; intros w Hall.
  - by exists w.
  - destruct (run _ _ stage ctx cfg fetch w) as [[r|e] w'] eqn:Hrun.
    + rewrite (runStages_not_handled _ _ _ _ _ _ _ _ _ Hrun).
      * apply IH. intros s w0 r0 w1 Hin. apply Hall. by right.
      * eapply Hall; [by left | exact Hrun].
    + rewrite (runStages_thrown _ _ _ _ _ _ _ _ _ Hrun).
      apply IH. intros s w0 r0 w1 Hin. apply Hall. by right.
Qed.

(** With handlers that throw whenever they are called, no stage returns
    a handled result. *)
Lemma stages_never_handle ctx cfg fetch :
  (forall c r f, throwsAlways (handleRobotsTxt c r f)) ->
  (forall c r f, throwsAlways (handleSitemap c r f)) ->
  (forall n f, throwsAlways (handleWellKnown n f)) ->
  forall stage w0 r w1,
    In stage the_stages ->
    run _ _ stage ctx cfg fetch w0 = (Returned r, w1) ->
    handled r = false \/ stage_response r = None.
Proof.
  intros Hr Hs Hw stage w0 r w1 Hin Hrun.
  simpl in Hin. destruct Hin as [<-|[<-|[<-|[]]]]; cbn [run] in Hrun.
  - do 2 (case_if Hrun; [not_handled Hrun|]).
    unfold mbind, M_bind, bind in Hrun.
    destruct (Hr ctx (robotsTxt cfg) fetch w0) as (e & w' & He).
    rewrite He in Hrun. discriminate.
  - do 2 (case_if Hrun; [not_handled Hrun|]).
    unfold mbind, M_bind, bind in Hrun.
    destruct (Hs ctx (sitemap cfg) fetch w0) as (e & w' & He).
    rewrite He in Hrun. discriminate.
  - do 2 (case_if Hrun; [not_handled Hrun|]).
    destruct (Obj.get _ _) as [fc|]; [|not_handled Hrun].
    case_if Hrun; [not_handled Hrun|].
    unfold mbind, M_bind, bind in Hrun.
    match type of Hrun with
    | context [handleWellKnown ?n ?f ?w] =>
        destruct (Hw n f w) as (e & w' & He)
    end.
    rewrite He in Hrun. discriminate.
Qed.

(** C1: whatever the four handlers do, [runPipeline] returns; a stage
    that throws is logged and skipped and the loop goes on with the next
    stage; a GEO handler that throws leaves the origin response of the
    context; and when every handler throws whenever it is called, the
    result is the origin response of the context with no applied rule. *)
Theorem runPipeline_isolates_errors ctx cfg fetch w :
  returns (pipeline ctx cfg fetch w).1 = true
  /\ (forall (stage : Stage) more applied e w',
        run _ _ stage ctx cfg fetch w = (Thrown e, w') ->
        runStages W OriginFetch (stage :: more) ctx cfg fetch applied w
        = runStages W OriginFetch more ctx cfg fetch applied
            (logged w' (stageFailed stage) e))
  /\ (forall w1 e w2,
        runStages W OriginFetch the_stages ctx cfg fetch [] w = (Returned None, w1) ->
        geo_enabled (geo cfg) && isAiBot ctx = true ->
        applyGeoOptimization (ctx_response ctx) ctx (geo cfg) w1 = (Thrown e, w2) ->
        pipeline ctx cfg fetch w
        = (Returned {| out_response := ctx_response ctx; appliedRules := [];
                       out_context := ctx |},
           logged w2 (lit "[BotMon] GEO optimization failed:") e))
  /\ ((forall c r f, throwsAlways (handleRobotsTxt c r f)) ->
      (forall c r f, throwsAlways (handleSitemap c r f)) ->
      (forall n f, throwsAlways (handleWellKnown n f)) ->
      (forall r c g, throwsAlways (applyGeoOptimization r c g)) ->
      exists w',
        pipeline ctx cfg fetch w
        = (Returned {| out_response := ctx_response ctx; appliedRules := [];
                       out_context := ctx |}, w')).
Proof.
  repeat split.
  - unfold runPipeline. unfold mbind at 1, M_bind at 1, bind at 1.
    pose proof (runStages_returns the_stages ctx cfg fetch [] w) as Hst.
    destruct (runStages _ _ _ _ _ _ _ _) as [[early|e] w1]; [|done].
    destruct early as [[resp applied]|]; [done|].
    destruct (geo_enabled (geo cfg) && isAiBot ctx); [|done].
    unfold try_catch, mbind, M_bind, bind.
    destruct (applyGeoOptimization _ _ _ w1) as [[g|e] w2]; [|done].
    by destruct (modified g).
  - intros stage more applied e w'. apply runStages_thrown.
  - intros w1 e w2 Hst Hgate Hgeo.
    unfold runPipeline. unfold mbind at 1, M_bind at 1, bind at 1.
    rewrite Hst, Hgate.
    unfold try_catch, mbind, M_bind, bind. by rewrite Hgeo.
  - intros Hr Hs Hw Hg.
    destruct (runStages_falls_through the_stages ctx cfg fetch [] w
                (stages_never_handle ctx cfg fetch Hr Hs Hw)) as [w1 Hst].
    unfold runPipeline. unfold mbind at 1, M_bind at 1, bind at 1.
    rewrite Hst.
    destruct (geo_enabled (geo cfg) && isAiBot ctx); [|by eexists].
    unfold try_catch, mbind, M_bind, bind.
    destruct (Hg (ctx_response ctx) ctx (geo cfg) w1) as (e & w2 & ->).
    by eexists.
Qed.

End PipelineIsolation.

(** A request for [/robots.txt] from an AI bot, with the robots.txt rule
    and GEO enabled and every handler throwing: the origin response comes
    back, no rule is applied, and the two failures are logged. *)
Lemma runPipeline_isolates_errors_witness :
  let boom {A} : Eff.M (Pipeline.World unit) A := Eff.throw (lit "boom") in
  let origin := {| status := 200; headers := []; body := lit "origin body" |} in
  let ctx := {| ctx_response := origin;
                ctx_url := {| href := lit "https://example.com/robots.txt";
                              pathname := lit "/robots.txt" |};
                isAiBot := true; ctx_pageType := None |} in
  let cfg := {| robotsTxt := {| enabled := true; mode := ModeReplace;
                                content := Some (lit "Disallow: /") |};
                sitemap := {| enabled := false; mode := ModeMerge;
                              content := None |};
                wellKnown := {| wk_enabled := false; files := [] |};
                geo := {| geo_enabled := true; injectJsonLd := true;
                          injectSummary := true; enrichHeadings_on := true;
                          rules := [] |} |} in
  let run :=
    Pipeline.runPipeline unit unit (fun _ _ _ => boom) (fun _ _ _ => boom)
      (fun _ _ => boom) (fun _ _ _ => boom) ctx cfg tt (tt, []) in
  (exists w',
     run = (Eff.Returned {| Pipeline.out_response := origin;
                            Pipeline.appliedRules := [];
                            Pipeline.out_context := ctx |}, w'))
  /\ map snd (run.2).2 = [lit "boom"; lit "boom"].
Proof.
  cbn zeta. split; [|by vm_compute].
  apply (runPipeline_isolates_errors unit unit (fun _ _ _ => Eff.throw (lit "boom"))
           (fun _ _ _ => Eff.throw (lit "boom")) (fun _ _ => Eff.throw (lit "boom"))
           (fun _ _ _ => Eff.throw (lit "boom"))).
  all: intros; intros w; by eexists _, _.
Defined.

(** ** page-type-detector: tiers of [detectPageType] *)








(** ** summary-generator: priority of the signals *)

Lemma andLength_Some s n d :
  0 < n ->
  SummaryGenerator.andLength s n = Some d <-> s = Some d /\ n <= length d.
Proof.
  intros Hn. unfold SummaryGenerator.andLength, SummaryGenerator.truthy.
  destruct s as [[|c t]|]; simpl.
  - split; [discriminate|]. intros [[= <-] H]. simpl in H. lia.
  - destruct (n <=? S (length t)) eqn:E.
    + apply Nat.leb_le in E. split.
      * by intros [= <-].
      * by intros [[= <-] _].
    + apply Nat.leb_gt in E. split; [discriminate|].
      intros [[= <-] H]. simpl in H. lia.
  - split; [discriminate|]. by intros [? _].
Qed.

Lemma andLength_None s n :
  0 < n ->
  SummaryGenerator.andLength s n = None <-> forall d, s = Some d -> length d < n.
Proof.
  intros Hn. destruct (SummaryGenerator.andLength s n) as [d|] eqn:E.
  - apply andLength_Some in E as [-> Hd]; [|done]. split; [discriminate|].
    intros H. specialize (H d eq_refl). lia.
  - split; [|done]. intros _ d ->.
    destruct (decide (n <= length d)) as [Hle|]; [|lia].
    assert (SummaryGenerator.andLength (Some d) n = Some d) as H'
      by (by apply andLength_Some). congruence.
Qed.

Lemma extractFirstParagraph_long html p :
  HtmlUtils.extractFirstParagraph html = Some p -> 50 <= length p.
Proof.
  unfold HtmlUtils.extractFirstParagraph.
  destruct (JsRegExp.matchGlobal _ _) as [ps|]; [|discriminate].
  intros (c & Hf & ->)%fmap_Some. apply List.find_some in Hf as [_ Hc].
  apply Nat.leb_le in Hc. unfold JsString.substringTo.
  rewrite length_take. lia.
Qed.

(** C6 (as stated, refuted): a rule that supplies the empty summary does
    not get it back; the meta description is returned instead. *)
Lemma extractSummary_empty_rule_summary :
  let html :=
    quoted ["<html><head><meta name="; "description"; " content=";
            "This is a sufficiently long meta description for testing.";
            "></head><body></body></html>"] in
  let rule := {| urlPattern := lit "/test"; pageType := None; schemaTypes := None;
                 summary := Some []; customJsonLd := None; disabled := None |} in
  SummaryGenerator.extractSummary html (Some rule)
  = Some {| text := lit "This is a sufficiently long meta description for testing.";
            summary_source := meta_description |}
  /\ SummaryGenerator.extractSummary html (Some rule)
     <> Some {| text := []; summary_source := custom |}.
Proof.
  intros html rule.
  assert (H : SummaryGenerator.extractSummary html (Some rule)
              = Some {| text := lit "This is a sufficiently long meta description for testing.";
                        summary_source := meta_description |})
    by (vm_compute; reflexivity).
  split; [exact H|]. rewrite H. discriminate.
Qed.

(** C6 (amended): a non-empty summary of the matching rule is returned as
    it is, whatever its length; otherwise the meta description exactly when
    it has at least 30 characters; otherwise the og:description exactly
    when it has at least 30; otherwise the first paragraph (which has at
    least 50 characters) with no further condition; otherwise null. *)
Theorem extractSummary_priority html matchingRule :
  let answer := SummaryGenerator.extractSummary html matchingRule in
  (forall s, matchingRule ≫= summary = Some s -> s <> [] ->
     answer = Some {| text := s; summary_source := custom |})
  /\ (matchingRule ≫= summary = None \/ matchingRule ≫= summary = Some [] ->
      (forall d, HtmlUtils.extractMetaDescription html = Some d ->
         30 <= length d ->
         answer = Some {| text := d; summary_source := meta_description |})
      /\ ((forall d, HtmlUtils.extractMetaDescription html = Some d ->
             length d < 30) ->
          (forall d, HtmlUtils.extractOgDescription html = Some d ->
             30 <= length d ->
             answer = Some {| text := d; summary_source := og_description |})
          /\ ((forall d, HtmlUtils.extractOgDescription html = Some d ->
                 length d < 30) ->
              (forall p, HtmlUtils.extractFirstParagraph html = Some p ->
                 answer = Some {| text := p; summary_source := first_paragraph |}
                 /\ 50 <= length p)
              /\ (HtmlUtils.extractFirstParagraph html = None ->
                  answer = None)))).
Proof.
  intros answer. subst answer. unfold SummaryGenerator.extractSummary. split.
  - intros s -> Hs. by destruct s.
  - intros Hrule.
    assert (SummaryGenerator.truthy (matchingRule ≫= summary) = None) as ->
      by (by destruct Hrule as [-> | ->]).
    split.
    + intros d Hd Hlen.
      assert (SummaryGenerator.andLength (HtmlUtils.extractMetaDescription html) 30
              = Some d) as -> by (apply andLength_Some; [lia | done]).
      done.
    + intros Hmeta.
      assert (SummaryGenerator.andLength (HtmlUtils.extractMetaDescription html) 30
              = None) as -> by (apply andLength_None; [lia | done]).
      split.
      * intros d Hd Hlen.
        assert (SummaryGenerator.andLength (HtmlUtils.extractOgDescription html) 30
                = Some d) as -> by (apply andLength_Some; [lia | done]).
        done.
      * intros Hog.
        assert (SummaryGenerator.andLength (HtmlUtils.extractOgDescription html) 30
                = None) as -> by (apply andLength_None; [lia | done]).
        split.
        -- intros p Hp. rewrite Hp.
           pose proof (extractFirstParagraph_long _ _ Hp) as Hlen.
           destruct p; [simpl in Hlen; lia|]. done.
        -- by intros ->.
Qed.

Lemma extractSummary_priority_witness :
  let html :=
    quoted ["<html><head><meta name="; "description"; " content=";
            "This is a sufficiently long meta description for testing.";
            "></head><body></body></html>"] in
  let rule := {| urlPattern := lit "/test"; pageType := None; schemaTypes := None;
                 summary := Some (lit "Short"); customJsonLd := None;
                 disabled := None |} in
  SummaryGenerator.extractSummary html (Some rule)
  = Some {| text := lit "Short"; summary_source := custom |}
  /\ SummaryGenerator.extractSummary html None
     = Some {| text := lit "This is a sufficiently long meta description for testing.";
               summary_source := meta_description |}.
Proof.
  intros html rule. split.
  - destruct (extractSummary_priority html (Some rule)) as [H _].
    by apply H.
  - destruct (extractSummary_priority html None) as [_ H].
    destruct (H (or_introl eq_refl)) as [Hmeta _].
    apply Hmeta; [by vm_compute | cbn; lia].
Defined.

(** ** GEO engine: text responses *)

Lemma Obj_get_set_eq {V} (o : Obj.t V) k v : Obj.get (Obj.set o k v) k = Some v.
Proof.
  induction o as [|[k' v'] o IH]; simpl.
  - by rewrite bool_decide_eq_true_2.
  - case_bool_decide as Hd; simpl.
    + by rewrite bool_decide_eq_true_2.
    + by rewrite bool_decide_eq_false_2.
Qed.

Lemma Obj_get_set_ne {V} (o : Obj.t V) k k' v :
  k <> k' -> Obj.get (Obj.set o k v) k' = Obj.get o k'.
Proof.
  intros Hne. induction o as [|[k0 v0] o IH]; simpl.
  - by rewrite bool_decide_eq_false_2.
  - case_bool_decide as Hd; simpl.
    + subst k0. by rewrite !bool_decide_eq_false_2.
    + case_bool_decide; [done | apply IH].
Qed.

Lemma withGeoHeaders_get h pt :
  Headers.get (Geo.withGeoHeaders h pt) (lit "X-BotMon-GEO") = Some (lit "applied")
  /\ Headers.get (Geo.withGeoHeaders h pt) (lit "X-BotMon-PageType")
     = Some (pageTypeName pt).
Proof.
  unfold Geo.withGeoHeaders, Headers.get, Headers.set. split.
  - rewrite Obj_get_set_ne by (vm_compute; discriminate).
    apply Obj_get_set_eq.
  - apply Obj_get_set_eq.
Qed.

Lemma detectPageType_returns pathname html geoRules matchingRule :
  PageTypeDetector.findMatchingRule pathname geoRules = Eff.Returned matchingRule ->
  exists res, PageTypeDetector.detectPageType pathname html geoRules = Eff.Returned res.
Proof.
  intros H. unfold PageTypeDetector.detectPageType. rewrite H.
  repeat case_match; eauto.
Qed.

Lemma newResponse_admits text status headers :
  admitsBody status = true ->
  newResponse text status headers
  = Eff.Returned {| status := status; headers := headers; body := text |}.
Proof.
  unfold admitsBody, newResponse.
  intros [Hrange Hnull%negb_true_iff]%andb_true_iff.
  by rewrite Hrange, Hnull.
Qed.

Lemma newResponse_Returned text status headers r :
  newResponse text status headers = Eff.Returned r ->
  admitsBody status = true
  /\ r = {| status := status; headers := headers; body := text |}.
Proof.
  unfold admitsBody, newResponse.
  destruct ((200 <=? status) && (status <=? 599)); [|done].
  destruct (nullBodyStatus status); [done|]. by intros [= <-].
Qed.

Lemma newResponse_refuses text status headers :
  admitsBody status = false ->
  exists e, newResponse text status headers = Eff.Thrown e
            /\ (e = lit "TypeError" \/ e = lit "RangeError").
Proof.
  unfold admitsBody, newResponse.
  destruct ((200 <=? status) && (status <=? 599)); simpl.
  - intros ->%negb_false_iff. eauto.
  - eauto.
Qed.

(** C10 (as stated, refuted): not every text response.  A response of
    status 304 with the content type [text/plain], on a path that no
    rule disables: [new Response] takes no body with that status, not
    the empty one, so [applyTextGeo] throws after the frontmatter is
    built.  It reports nothing and sets no header. *)
Lemma applyTextGeo_throws_on_null_body_status :
  let response := {| status := 304;
                     headers := Headers.make [(lit "Content-Type", lit "text/plain")];
                     body := [] |} in
  let context := {| ctx_response := response;
                    ctx_url := {| href := lit "https://example.com/notes";
                                  pathname := lit "/notes" |};
                    isAiBot := true; ctx_pageType := None |} in
  let config := {| geo_enabled := true; injectJsonLd := true;
                   injectSummary := true; enrichHeadings_on := true;
                   rules := [] |} in
  PageTypeDetector.findMatchingRule (lit "/notes") (rules config)
  = Eff.Returned None
  /\ Geo.applyTextGeo response context config = Eff.Thrown (lit "TypeError")
  /\ Geo.applyGeoOptimization (fun _ => []) response context config
     = Eff.Thrown (lit "TypeError").
Proof. vm_compute. repeat split. Qed.

(** C10 (amended): for a text response whose path no matching rule
    disables, [applyTextGeo] never takes the branch for an empty
    frontmatter block, and what it does depends on the status alone.
    With a status that [new Response] accepts with a body, 200 to 599
    but 204, 205 and 304, the response is reported as modified: its body
    is the origin text behind a frontmatter block that holds the
    page-type line, both GEO headers are set, and with summary and
    JSON-LD injection both off the block holds that line alone.  With
    any other status it throws.  It also throws, whatever the status,
    when [findMatchingRule] does. *)
Theorem applyTextGeo_always_modifies response context config :
  let answer := Geo.applyTextGeo response context config in
  (forall e,
     PageTypeDetector.findMatchingRule (pathname (ctx_url context)) (rules config)
     = Eff.Thrown e ->
     answer = Eff.Thrown e)
  /\ (forall matchingRule,
        PageTypeDetector.findMatchingRule (pathname (ctx_url context))
          (rules config) = Eff.Returned matchingRule ->
        Geo.isTrue (matchingRule ≫= disabled) = false ->
        (admitsBody (status response) = false ->
         exists e, answer = Eff.Thrown e
                   /\ (e = lit "TypeError" \/ e = lit "RangeError"))
        /\ (admitsBody (status response) = true ->
            exists result detected before after,
              PageTypeDetector.detectPageType (pathname (ctx_url context)) []
                (rules config) = Eff.Returned detected
              /\ answer = Eff.Returned result
              /\ modified result = true
              /\ geo_pageType result = Some (ptr_pageType detected)
              /\ body (geo_response result)
                 = Frontmatter.block
                     (before ++ [Frontmatter.pageTypeLine (ptr_pageType detected)]
                      ++ after)
                   ++ body response
              /\ status (geo_response result) = status response
              /\ Headers.get (headers (geo_response result)) (lit "X-BotMon-GEO")
                 = Some (lit "applied")
              /\ Headers.get (headers (geo_response result))
                   (lit "X-BotMon-PageType")
                 = Some (pageTypeName (ptr_pageType detected))
              /\ (injectSummary config = false -> before = [])
              /\ (injectJsonLd config = false -> after = []))).
Proof.
  intros answer. subst answer. unfold Geo.applyTextGeo. split.
  - by intros e ->.
  - intros matchingRule Hrule Hdis.
    destruct (detectPageType_returns _ [] _ _ Hrule) as [detected Hdet].
    rewrite Hrule, Hdis, Hdet.
    set (before := if injectSummary config then _ else []).
    set (after := if injectJsonLd config then _ else []).
    assert (Hlen : (length (before ++ [lit "botmon:page_type: "
                                       ++ pageTypeName (ptr_pageType detected)]
                            ++ after) =? 0) = false).
    { apply Nat.eqb_neq. rewrite !length_app. simpl. lia. }
    rewrite Hlen. cbn zeta. split.
    + intros Hno.
      match goal with
      | |- context [newResponse ?t ?s ?h] =>
          destruct (newResponse_refuses t s h Hno) as (e & -> & He)
      end.
      by exists e.
    + intros Hyes. rewrite (newResponse_admits _ _ _ Hyes).
      eexists _, detected, before, after.
      split; [done|]. split; [done|]. split; [done|]. split; [done|].
      split; [done|]. split; [done|].
      split; [apply withGeoHeaders_get|]. split; [apply withGeoHeaders_get|].
      split.
      * intros H. subst before. by rewrite H.
      * intros H. subst after. by rewrite H.
Qed.

Lemma applyTextGeo_always_modifies_witness :
  let response := {| status := 200;
                     headers := [(lit "content-type", lit "text/plain")];
                     body := lit "hello" |} in
  let context := {| ctx_response := response;
                    ctx_url := {| href := lit "https://example.com/notes";
                                  pathname := lit "/notes" |};
                    isAiBot := true; ctx_pageType := None |} in
  let config := {| geo_enabled := true; injectJsonLd := false;
                   injectSummary := false; enrichHeadings_on := false;
                   rules := [] |} in
  let resetContent := {| status := 205; headers := headers response;
                        body := lit "hello" |} in
  (exists result,
     Geo.applyTextGeo response context config = Eff.Returned result
     /\ modified result = true
     /\ body (geo_response result)
        = Frontmatter.block [lit "botmon:page_type: generic"] ++ lit "hello")
  /\ (exists e, Geo.applyTextGeo resetContent context config = Eff.Thrown e).
Proof.
  intros response context config resetContent. split.
  - destruct (applyTextGeo_always_modifies response context config) as [_ H].
    destruct (H None eq_refl eq_refl) as [_ Hyes].
    destruct (Hyes eq_refl)
      as (result & detected & before & after & Hdet & Hres & Hmod & _ & Hbody
          & _ & _ & _ & Hb & Ha).
    exists result. split; [exact Hres|]. split; [exact Hmod|].
    rewrite Hbody, (Hb eq_refl), (Ha eq_refl).
    assert (detected = {| ptr_pageType := generic; confidence := low;
                          source := default_source |}) as ->.
    { vm_compute in Hdet. by injection Hdet as <-. }
    reflexivity.
  - destruct (applyTextGeo_always_modifies resetContent context config) as [_ H].
    destruct (H None eq_refl eq_refl) as [Hno _].
    destruct (Hno eq_refl) as (e & He & _). by exists e.
Defined.

(** ** glob patterns *)

(** C4 (the code at the failing input): a [?] of the pattern is not
    escaped and reaches [new RegExp] as a quantifier.  The pattern [/faq?]
    matches the paths [/fa] and [/faq], which it does not describe, and
    not the path [/faq?]; the pattern [?] makes [new RegExp] throw. *)
Lemma globToRegex_question_mark_unescaped :
  PageTypeDetector.globToRegexSource (lit "/faq?") = lit "^/faq?$"
  /\ Glob.matches (lit "/faq?") (lit "/fa") = Some true
  /\ Glob.matches (lit "/faq?") (lit "/faq") = Some true
  /\ Glob.matches (lit "/faq?") (lit "/faq?") = Some false
  /\ PageTypeDetector.globToRegex (lit "?") = JsRegExp.SyntaxError.
Proof. vm_compute. repeat split. Qed.

(** The two examples of the specification, and those of the test suite. *)
Lemma globToRegex_examples :
  Glob.matches (lit "/products/*") (lit "/products/a/b") = Some false
  /\ Glob.matches (lit "/docs/**") (lit "/docs/a/b/c") = Some true
  /\ Glob.matches (lit "/pricing") (lit "/pricing") = Some true
  /\ Glob.matches (lit "/pricing") (lit "/pricing/basic") = Some false
  /\ Glob.matches (lit "/products/*") (lit "/products/widget") = Some true
  /\ Glob.matches (lit "/products/*") (lit "/products/") = Some false
  /\ Glob.matches (lit "/api/v1.0/users") (lit "/api/v1.0/users") = Some true
  /\ Glob.matches (lit "/api/v1.0/users") (lit "/api/v1X0/users") = Some false.
Proof. vm_compute. repeat split. Qed.

(** ** The matcher on simple patterns *)
Section Matcher.
Import JsString JsRegExp Closed.

Lemma m_Quant ic r1 min max greedy x k :
  m ic (Quant r1 min max greedy) x k
  = rep ic r1 greedy k (min + length (rest x) + 1) min max x.
Proof. reflexivity. Qed.

Lemma rep_S ic r1 greedy k fuel min max x :
  rep ic r1 greedy k (S fuel) min max x
  = match max with
    | Some 0 => k x
    | _ =>
        let d := fun y =>
          if (min =? 0) && (index y =? index x) then None
          else rep ic r1 greedy k fuel (pred min) (pred <$> max) y in
        let xr := clearCaptures (groupsOf r1) x in
        if negb (min =? 0) then m ic r1 xr d
        else if greedy then orElse (m ic r1 xr d) (k x)
        else orElse (k x) (m ic r1 xr d)
    end.
Proof. reflexivity. Qed.

Lemma m_atom ic a ok x k :
  atomTest ic a = Some ok -> m ic a x k = step ok x k.
Proof. destruct a; intros [= <-]; reflexivity. Qed.

Lemma groupsOf_atom ic a ok : atomTest ic a = Some ok -> groupsOf a = [].
Proof. by destruct a. Qed.

Lemma state_eta x : at_ (rest x) (index x) (captures x) = x.
Proof. by destruct x. Qed.

Lemma step_cons ok c s i caps k :
  step ok (at_ (c :: s) i caps) k
  = if ok c then k (at_ s (S i) caps) else None.
Proof.
  unfold step, advance, at_. simpl. rewrite Nat.add_1_r.
  by rewrite drop_0.
Qed.

Lemma step_nil ok i caps k : step ok (at_ [] i caps) k = None.
Proof. reflexivity. Qed.

Lemma rep_star_greedy ic a ok k fuel s i caps :
  atomTest ic a = Some ok -> length s < fuel ->
  rep ic a true k fuel 0 None (at_ s i caps) = starGreedy ok k s i caps.
Proof.
  intros Ha. revert s i. induction fuel as [|fuel IH]; intros s i Hlen; [lia|].
  rewrite rep_S. cbn zeta. rewrite (groupsOf_atom _ _ _ Ha).
  cbn [clearCaptures fold_right negb Nat.eqb andb pred fmap option_fmap option_map].
  rewrite (m_atom _ _ _ _ _ Ha).
  destruct s as [|c s].
  - reflexivity.
  - rewrite step_cons. cbn [starGreedy]. destruct (ok c); [|reflexivity].
    cbn [index at_]. replace (S i =? i) with false by (symmetry; apply Nat.eqb_neq; lia).
    rewrite IH by (simpl in Hlen; lia). reflexivity.
Qed.

Lemma rep_star_lazy ic a ok k fuel s i caps :
  atomTest ic a = Some ok -> length s < fuel ->
  rep ic a false k fuel 0 None (at_ s i caps) = starLazy ok k s i caps.
Proof.
  intros Ha. revert s i. induction fuel as [|fuel IH]; intros s i Hlen; [lia|].
  rewrite rep_S. cbn zeta. rewrite (groupsOf_atom _ _ _ Ha).
  cbn [clearCaptures fold_right negb Nat.eqb andb pred fmap option_fmap option_map].
  rewrite (m_atom _ _ _ _ _ Ha).
  destruct s as [|c s].
  - reflexivity.
  - rewrite step_cons. cbn [starLazy]. f_equal. destruct (ok c); [|reflexivity].
    cbn [index at_]. replace (S i =? i) with false by (symmetry; apply Nat.eqb_neq; lia).
    rewrite IH by (simpl in Hlen; lia). reflexivity.
Qed.

(** [a*], [a*?], [a+] and [a?] of a one-character pattern [a]. *)
Lemma m_star_greedy ic a ok k s i caps :
  atomTest ic a = Some ok ->
  m ic (Quant a 0 None true) (at_ s i caps) k = starGreedy ok k s i caps.
Proof.
  intros Ha. rewrite m_Quant. apply rep_star_greedy; [done|]. simpl. lia.
Qed.

Lemma m_star_lazy ic a ok k s i caps :
  atomTest ic a = Some ok ->
  m ic (Quant a 0 None false) (at_ s i caps) k = starLazy ok k s i caps.
Proof.
  intros Ha. rewrite m_Quant. apply rep_star_lazy; [done|]. simpl. lia.
Qed.

Lemma m_plus_greedy ic a ok k s i caps :
  atomTest ic a = Some ok ->
  m ic (Quant a 1 None true) (at_ s i caps) k
  = match s with
    | c :: s' => if ok c then starGreedy ok k s' (S i) caps else None
    | [] => None
    end.
Proof.
  intros Ha. rewrite m_Quant.
  replace (1 + length (rest (at_ s i caps)) + 1) with (S (S (length s)))
    by (simpl; lia).
  rewrite rep_S. cbn zeta. rewrite (groupsOf_atom _ _ _ Ha).
  cbn [clearCaptures fold_right negb Nat.eqb andb pred fmap option_fmap option_map].
  rewrite (m_atom _ _ _ _ _ Ha).
  destruct s as [|c s]; [reflexivity|].
  rewrite step_cons. destruct (ok c); [|reflexivity].
  apply rep_star_greedy; [done | simpl; lia].
Qed.

(** What [starGreedy] and [starLazy] succeed on. *)
Lemma starGreedy_Some ok k s i caps :
  is_Some (starGreedy ok k s i caps)
  <-> exists w r, s = w ++ r /\ Forall (fun c => ok c = true) w
                  /\ is_Some (k (at_ r (i + length w) caps)).
Proof.
  revert i. induction s as [|c s IH]; intros i; cbn [starGreedy].
  - split.
    + intros H. exists [], []. simpl. rewrite Nat.add_0_r. done.
    + intros (w & r & Hs & _ & Hk). symmetry in Hs.
      apply app_eq_nil in Hs as [-> ->]. simpl in Hk.
      by rewrite Nat.add_0_r in Hk.
  - destruct (ok c) eqn:Hc.
    + split.
      * intros H.
        destruct (starGreedy ok k s (S i) caps) as [z|] eqn:Hz.
        -- assert (is_Some (starGreedy ok k s (S i) caps)) as Hs by (by rewrite Hz).
           apply IH in Hs as (w & r & -> & Hw & Hk).
           exists (c :: w), r. split; [done|]. split; [by constructor|].
           simpl. by rewrite <- Nat.add_succ_comm.
        -- simpl in H. exists [], (c :: s). simpl. rewrite Nat.add_0_r. done.
      * intros (w & r & Hs & Hw & Hk). destruct w as [|c' w].
        -- simpl in Hs, Hk. subst r. rewrite Nat.add_0_r in Hk.
           destruct (starGreedy ok k s (S i) caps); [by eexists | exact Hk].
        -- simpl in Hs. injection Hs as <- ->. apply Forall_cons in Hw as [_ Hw].
           assert (is_Some (starGreedy ok k (w ++ r) (S i) caps)) as [z Hz].
           { apply IH. exists w, r. split; [done|]. split; [done|].
             simpl in Hk. by rewrite <- Nat.add_succ_comm in Hk. }
           rewrite Hz. by eexists.
    + split.
      * intros H. exists [], (c :: s). simpl. rewrite Nat.add_0_r. done.
      * intros (w & r & Hs & Hw & Hk). destruct w as [|c' w].
        -- simpl in Hs, Hk. subst r. by rewrite Nat.add_0_r in Hk.
        -- simpl in Hs. injection Hs as <- ->. apply Forall_cons in Hw as [Hc' _].
           congruence.
Qed.

(** *** [search] and global replacement *)

Lemma matchAt_index R s i mt : matchAt R s i = Some mt -> m_index mt = i.
Proof.
  unfold matchAt. destruct (m _ _ _ _); [|discriminate]. by intros [= <-].
Qed.

Lemma search_index R s i mt : search R s i = Some mt -> i <= m_index mt.
Proof.
  revert i. induction s as [|c s IH]; intros i; cbn [search].
  - destruct (matchAt R [] i) eqn:E; [|discriminate].
    intros [= <-]. apply matchAt_index in E. lia.
  - destruct (matchAt R (c :: s) i) eqn:E.
    + intros [= <-]. apply matchAt_index in E. lia.
    + intros H. apply IH in H. lia.
Qed.

Lemma search_here R s i mt : matchAt R s i = Some mt -> search R s i = Some mt.
Proof. intros H. destruct s; cbn [search]; by rewrite H. Qed.

Lemma search_skip R c s i :
  matchAt R (c :: s) i = None -> search R (c :: s) i = search R s (S i).
Proof. intros H. cbn [search]. by rewrite H. Qed.

Section Replace.
Context {St : Type} (R : RegExp) (f : St -> Match -> str * St).

(** A match at the current position: its replacement, then the rest. *)
Lemma replaceFrom_here fuel c s i st mt d t :
  matchAt R (c :: s) i = Some mt -> m_text mt = d :: t ->
  replaceFrom (S fuel) R (c :: s) i f st
  = (f st mt).1
    ++ replaceFrom fuel R (m_after mt) (i + length (m_text mt)) f (f st mt).2.
Proof.
  intros Hm Ht. cbn [replaceFrom]. rewrite (search_here _ _ _ _ Hm).
  destruct (f st mt) as [out st'] eqn:Hf. cbn [fst snd].
  rewrite (matchAt_index _ _ _ _ Hm), Nat.sub_diag, take_0, Ht.
  cbn [app]. by rewrite <- Ht.
Qed.

(** No match at the current position: the character is kept. *)
Lemma replaceFrom_skip fuel c s i st :
  matchAt R (c :: s) i = None ->
  replaceFrom (S fuel) R (c :: s) i f st
  = c :: replaceFrom (S fuel) R s (S i) f st.
Proof.
  intros Hm. cbn [replaceFrom]. rewrite (search_skip _ _ _ _ Hm).
  destruct (search R s (S i)) as [mt|] eqn:Hs; [|reflexivity].
  destruct (f st mt) as [out st'].
  apply search_index in Hs.
  replace (m_index mt - i) with (S (m_index mt - S i)) by lia.
  reflexivity.
Qed.

Lemma replaceFrom_nil fuel i st :
  matchAt R [] i = None -> replaceFrom fuel R [] i f st = [].
Proof.
  intros Hm. destruct fuel; [done|]. cbn [replaceFrom search]. by rewrite Hm.
Qed.
End Replace.

Lemma oneChar_atom R ok :
  atomTest (ignoreCase R) (pattern R) = Some ok -> oneChar R ok.
Proof.
  intros Ha. split.
  - intros i. unfold matchAt. by rewrite (m_atom _ _ _ _ _ Ha).
  - intros c s i. unfold matchAt. rewrite (m_atom _ _ _ _ _ Ha).
    change {| rest := c :: s; index := i;
              captures := replicate (S (ngroups R)) None |}
      with (at_ (c :: s) i (replicate (S (ngroups R)) None)).
    rewrite step_cons. destruct (ok c); [|reflexivity].
    cbn [at_ index rest captures]. f_equal. f_equal.
    replace (S i - i) with 1 by lia. reflexivity.
Qed.

(** Global replacement by such an expression rewrites each character. *)
Lemma replace_oneChar R ok template (sub : ascii -> str) s :
  oneChar R ok -> global R = true ->
  (forall mt c, m_text mt = [c] -> substitute template mt = sub c) ->
  replace R s template = flat_map (fun c => if ok c then sub c else [c]) s.
Proof.
  intros [Hnil Hcons] Hg Hsub. unfold replace, replaceFn. rewrite Hg.
  assert (Hfuel : length s < S (length s)) by lia. revert Hfuel.
  generalize (S (length s)) as fuel. generalize 0 as i.
  induction s as [|c s IH]; intros i fuel Hfuel.
  - by apply replaceFrom_nil.
  - destruct fuel as [|fuel]; [lia|]. cbn [flat_map].
    pose proof (Hcons c s i) as Hm. destruct (ok c).
    + erewrite replaceFrom_here by (first [exact Hm | reflexivity]).
      cbn [fst snd m_text m_after length]. erewrite Hsub by reflexivity.
      f_equal. apply IH. simpl in Hfuel. lia.
    + rewrite replaceFrom_skip by exact Hm. cbn [app]. f_equal.
      apply IH. simpl in Hfuel. lia.
Qed.

End Matcher.

(** ** glob patterns: the four passes of [globToRegex] *)
Section GlobPasses.
Import JsString JsRegExp Closed Glob PageTypeDetector.

Lemma startsWith_app w s : startsWith (w ++ s) w = true.
Proof. induction w as [|c w IH]; simpl; [done|]. by rewrite bool_decide_eq_true_2. Qed.

Lemma startsWith_cons_ne c d w s : c <> d -> startsWith (d :: s) (c :: w) = false.
Proof. intros H. simpl. by rewrite bool_decide_eq_false_2. Qed.

Lemma startsWith_prefix s w :
  startsWith s w = true -> s = w ++ drop (length w) s.
Proof.
  revert s. induction w as [|c w IH]; intros s; simpl; [by rewrite drop_0|].
  destruct s as [|d s]; [discriminate|].
  intros [Hc Hs]%andb_true_iff. apply bool_decide_eq_true in Hc as ->.
  simpl. f_equal. by apply IH.
Qed.

(** The matcher on a literal word. *)
Lemma m_word w s i caps k :
  w <> [] ->
  m false (wordRe w) (at_ s i caps) k
  = if startsWith s w then k (at_ (drop (length w) s) (i + length w) caps)
    else None.
Proof.
  revert s i. induction w as [|c w IH]; intros s i Hw; [done|].
  destruct w as [|c' w].
  - cbn [wordRe m]. destruct s as [|d s]; [reflexivity|].
    rewrite step_cons. cbn [startsWith canon length drop].
    rewrite (bool_decide_ext (d = c) (c = d)) by (split; congruence).
    rewrite andb_true_r, Nat.add_1_r. by rewrite drop_0.
  - change (wordRe (c :: c' :: w)) with (Seq (Char c) (wordRe (c' :: w))).
    cbn [m]. destruct s as [|d s]; [reflexivity|].
    rewrite step_cons. cbn [canon].
    rewrite (bool_decide_ext (d = c) (c = d)) by (split; congruence).
    change (startsWith (d :: s) (c :: c' :: w))
      with (bool_decide (c = d) && startsWith s (c' :: w)).
    destruct (bool_decide (c = d)); [|reflexivity].
    rewrite IH by done. cbn [andb]. destruct (startsWith s (c' :: w)); [|done].
    f_equal. f_equal. cbn [length]. lia.
Qed.

Lemma oneWord_wordRe R w :
  pattern R = wordRe w -> ignoreCase R = false -> w <> [] -> oneWord R w.
Proof.
  intros Hp Hi Hw s i. unfold matchAt. rewrite Hp, Hi.
  change {| rest := s; index := i; captures := replicate (S (ngroups R)) None |}
    with (at_ s i (replicate (S (ngroups R)) None)).
  rewrite (m_word _ _ _ _ _ Hw). destruct (startsWith s w); [|reflexivity].
  cbn [at_ index rest captures]. do 2 f_equal. f_equal. lia.
Qed.

Lemma doubleStar_word : oneWord doubleStar (lit "**").
Proof. by apply oneWord_wordRe. Qed.

Lemma placeholder_word : oneWord placeholder (lit "{{GLOBSTAR}}").
Proof. by apply oneWord_wordRe. Qed.

Lemma regexSpecials_char : oneChar regexSpecials special.
Proof.
  assert (H : oneChar regexSpecials
                (classMatches false false
                   [CChar "."; CChar "+"; CChar "^"; CChar "$"; CChar "{";
                    CChar "}"; CChar "("; CChar ")"; CChar "|"; CChar "[";
                    CChar "]"; CChar "\"]%char))
    by (by apply oneChar_atom).
  destruct H as [Hnil Hcons]. split; [exact Hnil|].
  intros c s i. rewrite Hcons. unfold classMatches, special, oneOf.
  cbn [existsb itemMatches lit list_ascii_of_string andb xorb].
  by rewrite orb_false_r.
Qed.

Lemma singleStar_char : oneChar singleStar (fun c => bool_decide (c = "*"%char)).
Proof.
  assert (H : oneChar singleStar
                (fun d => bool_decide (canon false d = canon false "*"%char)))
    by (by apply oneChar_atom).
  exact H.
Qed.

(** Reading the pattern gives it back. *)
Lemma tokenize_text1 pattern :
  flat_map escaped pattern = flat_map text1 (tokenize pattern).
Proof.
  remember (length pattern) as n eqn:Hn. revert pattern Hn.
  induction n as [n IH] using lt_wf_ind. intros pattern ->.
  destruct pattern as [|c p]; [done|]. cbn [tokenize].
  case_bool_decide as Hc.
  - subst c. destruct p as [|d p]; [done|].
    case_bool_decide as Hd.
    + subst d. cbn [flat_map]. rewrite <- (IH (length p)); [done | simpl; lia | done].
    + cbn [flat_map]. rewrite <- (IH (length (d :: p))); [done | simpl; lia | done].
  - cbn [flat_map]. rewrite <- (IH (length p)); [done | simpl; lia | done].
Qed.

Lemma tokenize_proper pattern : Forall properLit (tokenize pattern).
Proof.
  remember (length pattern) as n eqn:Hn. revert pattern Hn.
  induction n as [n IH] using lt_wf_ind. intros pattern ->.
  destruct pattern as [|c p]; [constructor|]. cbn [tokenize].
  case_bool_decide as Hc.
  - destruct p as [|d p]; [by repeat constructor|].
    case_bool_decide as Hd.
    + constructor; [done|]. apply (IH (length p)); [simpl; lia | done].
    + constructor; [done|]. apply (IH (length (d :: p))); [simpl; lia | done].
  - constructor; [done|]. apply (IH (length p)); [simpl; lia | done].
Qed.

Lemma tokenize_separated pattern : separated (tokenize pattern) = true.
Proof.
  remember (length pattern) as n eqn:Hn. revert pattern Hn.
  induction n as [n IH] using lt_wf_ind. intros pattern ->.
  destruct pattern as [|c p]; [done|]. cbn [tokenize].
  case_bool_decide as Hc.
  - destruct p as [|d p]; [done|].
    case_bool_decide as Hd.
    + cbn [separated]. apply (IH (length p)); [simpl; lia | done].
    + pose proof (IH (length (d :: p)) ltac:(simpl; lia) (d :: p) eq_refl) as Hs.
      cbn [tokenize] in *. rewrite bool_decide_eq_false_2 in * by done.
      cbn [separated]. exact Hs.
  - cbn [separated]. apply (IH (length p)); [simpl; lia | done].
Qed.

Lemma tokenize_question pattern :
  "?"%char ∉ pattern -> Forall noQuestionMark (tokenize pattern).
Proof.
  remember (length pattern) as n eqn:Hn. revert pattern Hn.
  induction n as [n IH] using lt_wf_ind. intros pattern -> Hq.
  destruct pattern as [|c p]; [constructor|]. cbn [tokenize].
  apply not_elem_of_cons in Hq as [Hc Hp].
  case_bool_decide as Hs.
  - destruct p as [|d p]; [by repeat constructor|].
    case_bool_decide as Hd.
    + constructor; [done|]. apply (IH (length p)); [simpl; lia | done |].
      by apply not_elem_of_cons in Hp as [_ ?].
    + constructor; [done|]. by apply (IH (length (d :: p))); [simpl; lia | |].
  - constructor; [by cbn; congruence|]. by apply (IH (length p)); [simpl; lia | |].
Qed.

(** First pass: the special characters get a backslash. *)
Lemma pass1 pattern :
  replace regexSpecials pattern (lit "\$&") = flat_map text1 (tokenize pattern).
Proof.
  rewrite <- tokenize_text1.
  rewrite (replace_oneChar _ special _ (fun c => ["\"%char; c]));
    [| apply regexSpecials_char | done |].
  - apply flat_map_ext. intros c. unfold escaped. by destruct (special c).
  - intros mt c Hc. cbn. rewrite Hc. reflexivity.
Qed.

Abbreviation constant t := (fun (_ : unit) mt => (substitute t mt, tt)).

Lemma word_skip R w c0 w' fuel (f : unit -> Match -> str * unit) c s i st :
  oneWord R w -> w = c0 :: w' -> c <> c0 ->
  replaceFrom (S fuel) R (c :: s) i f st
  = c :: replaceFrom (S fuel) R s (S i) f st.
Proof.
  intros HR -> Hc. apply replaceFrom_skip. rewrite HR.
  rewrite startsWith_cons_ne; [done | congruence].
Qed.

Lemma word_here R w fuel template s i st :
  oneWord R w -> w <> [] -> length w + length s <= fuel ->
  replaceFrom (S fuel) R (w ++ s) i (constant template) st
  = substitute template
      {| m_index := i; m_text := w;
         m_groups := replicate (S (ngroups R)) None; m_after := s |}
    ++ replaceFrom fuel R s (i + length w) (constant template) tt.
Proof.
  intros HR Hw Hfuel. destruct w as [|c w]; [done|].
  pose proof (HR ((c :: w) ++ s) i) as Hm.
  rewrite startsWith_app, take_app_length, drop_app_length in Hm.
  cbn [app] in *.
  erewrite replaceFrom_here by (first [exact Hm | reflexivity]).
  reflexivity.
Qed.

Lemma text1_no_star toks :
  separated (Star :: toks) = true -> Forall properLit toks ->
  forall c s, flat_map text1 toks = c :: s -> c <> "*"%char.
Proof.
  intros Hs Hp c s. destruct toks as [|[| |d] toks]; try done.
  apply Forall_cons in Hp as [Hd _]. cbn [flat_map text1 escaped properLit] in *.
  unfold escaped. destruct (special d); cbn [app]; intros [= <- _]; done.
Qed.

(** Second pass: [**] becomes the placeholder. *)
Lemma pass2_fuel toks fuel i :
  separated toks = true -> Forall properLit toks ->
  length (flat_map text1 toks) < fuel ->
  replaceFrom fuel doubleStar (flat_map text1 toks) i
    (constant (lit "{{GLOBSTAR}}")) tt
  = flat_map text2 toks.
Proof.
  revert fuel i. induction toks as [|t toks IH]; intros fuel i Hs Hp Hfuel.
  - by apply replaceFrom_nil.
  - apply Forall_cons in Hp as [Ht Hp].
    destruct fuel as [|fuel]; [lia|].
    assert (Hs' : separated toks = true) by (destruct t; destruct toks as [|[] ?]; done).
    cbn [flat_map] in *. rewrite length_app in Hfuel.
    destruct t as [| |c]; cbn [text1 text2] in *.
    + rewrite (word_here _ (lit "**")); [| apply doubleStar_word | done | simpl in *; lia].
      f_equal. apply IH; [done..|]. simpl in *. lia.
    + cbn [lit list_ascii_of_string app].
      rewrite replaceFrom_skip.
      * f_equal. apply IH; [done..|]. simpl in *. lia.
      * rewrite doubleStar_word. cbn [startsWith lit list_ascii_of_string].
        rewrite bool_decide_eq_true_2 by done. cbn [andb].
        destruct (flat_map text1 toks) as [|d s] eqn:Hd; [done|].
        rewrite bool_decide_eq_false_2; [done|].
        intros <-. by eapply (text1_no_star toks).
    + unfold escaped in *. cbn [properLit] in Ht.
      destruct (special c); cbn [app length] in *.
      * rewrite (word_skip _ (lit "**") "*"%char (lit "*")); [| apply doubleStar_word | done | done].
        rewrite (word_skip _ (lit "**") "*"%char (lit "*")); [| apply doubleStar_word | done | done].
        do 2 f_equal. apply IH; [done..|lia].
      * rewrite (word_skip _ (lit "**") "*"%char (lit "*")); [| apply doubleStar_word | done | done].
        f_equal. apply IH; [done..|lia].
Qed.

Lemma pass2 toks :
  separated toks = true -> Forall properLit toks ->
  replace doubleStar (flat_map text1 toks) (lit "{{GLOBSTAR}}")
  = flat_map text2 toks.
Proof.
  intros Hs Hp. unfold replace, replaceFn. cbn [global doubleStar].
  apply pass2_fuel; [done..|lia].
Qed.

(** Third pass: a remaining [*] becomes [[^/]+]. *)
Lemma pass3 toks :
  Forall properLit toks ->
  replace singleStar (flat_map text2 toks) (lit "[^/]+") = flat_map text3 toks.
Proof.
  intros Hp.
  rewrite (replace_oneChar _ (fun c => bool_decide (c = "*"%char)) _
             (fun _ => lit "[^/]+"));
    [| apply singleStar_char | done | done].
  induction Hp as [|t toks Ht _ IH]; [done|].
  cbn [flat_map]. rewrite flat_map_app, IH. f_equal.
  destruct t as [| |c]; [done..|].
  cbn [text2 text3 properLit] in *. unfold escaped. destruct (special c).
  - cbn [flat_map app]. by rewrite !bool_decide_eq_false_2 by done.
  - cbn [flat_map app]. by rewrite !bool_decide_eq_false_2 by done.
Qed.

Lemma special_brace c : special c = false -> c <> "{"%char.
Proof. by intros H ->. Qed.

Lemma text3_not_placeholder_tail toks :
  startsWith (flat_map text3 toks) (lit "{G") = false.
Proof.
  destruct toks as [|[| |c] toks]; [done..|].
  cbn [flat_map text3]. unfold escaped. destruct (special c) eqn:Hc; [done|].
  apply startsWith_cons_ne. intros <-. done.
Qed.

Abbreviation skip_brace :=
  (word_skip placeholder (lit "{{GLOBSTAR}}") "{"%char (lit "{GLOBSTAR}}")).

(** Fourth pass: the placeholder becomes [.*]. *)
Lemma pass4_fuel toks fuel i :
  length (flat_map text3 toks) < fuel ->
  replaceFrom fuel placeholder (flat_map text3 toks) i (constant (lit ".*")) tt
  = flat_map text4 toks.
Proof.
  revert fuel i. induction toks as [|t toks IH]; intros fuel i Hfuel.
  - by apply replaceFrom_nil.
  - destruct fuel as [|fuel]; [lia|].
    cbn [flat_map] in *. rewrite length_app in Hfuel.
    destruct t as [| |c]; cbn [text3 text4] in *.
    + rewrite (word_here _ (lit "{{GLOBSTAR}}"));
        [| apply placeholder_word | done | simpl in *; lia].
      f_equal. apply IH. simpl in *. lia.
    + cbn [lit list_ascii_of_string app].
      do 5 (rewrite skip_brace; [| apply placeholder_word | done | done]).
      do 5 f_equal. apply IH. simpl in *. lia.
    + unfold escaped in *. destruct (special c) eqn:Hc; cbn [app length] in *.
      * rewrite skip_brace; [| apply placeholder_word | done | done].
        rewrite replaceFrom_skip.
        -- do 2 f_equal. apply IH. lia.
        -- rewrite placeholder_word.
           cbv [lit list_ascii_of_string]. cbn [startsWith].
           destruct (bool_decide ("{"%char = c)); [|done]. cbn [andb].
           pose proof (text3_not_placeholder_tail toks) as Ht.
           destruct (flat_map text3 toks) as [|d s]; [done|].
           cbv [lit list_ascii_of_string] in Ht. cbn [startsWith] in *.
           destruct (bool_decide ("{"%char = d)); [|done]. cbn [andb] in *.
           destruct s as [|e s]; [done|].
           rewrite andb_true_r in Ht. by rewrite Ht.
      * rewrite skip_brace; [| apply placeholder_word | done | by apply special_brace].
        f_equal. apply IH. lia.
Qed.

Lemma pass4 toks :
  replace placeholder (flat_map text3 toks) (lit ".*") = flat_map text4 toks.
Proof.
  unfold replace, replaceFn. cbn [global placeholder]. apply pass4_fuel. lia.
Qed.

(** The pattern text handed to [new RegExp]. *)
Lemma globToRegexSource_tokens pattern :
  globToRegexSource pattern
  = lit "^" ++ flat_map text4 (tokenize pattern) ++ lit "$".
Proof.
  unfold globToRegexSource.
  rewrite pass1, pass2, pass3, pass4;
    [done | apply tokenize_proper | apply tokenize_separated | apply tokenize_proper].
Qed.

End GlobPasses.

(** ** glob patterns: what [new RegExp] makes of the pattern text *)
Section GlobParse.
Import JsString JsRegExp Closed Glob PageTypeDetector.

Lemma oneOf_false c (l : string) :
  Forall (fun d => c <> d) (lit l) -> oneOf c l = false.
Proof.
  unfold oneOf. induction (lit l) as [|d s IH]; intros H; [done|].
  apply Forall_cons in H as [Hd Hs]. cbn [existsb].
  rewrite bool_decide_eq_false_2 by done. by apply IH.
Qed.

Lemma plain_not c (d : ascii) :
  plain c -> (special d = true \/ d = "*"%char \/ d = "?"%char) -> c <> d.
Proof.
  intros (Hs & Hstar & Hq) [Hd|[->| ->]] E; [|done..]. subst d. congruence.
Qed.

Ltac plain_oneOf :=
  cbv [lit list_ascii_of_string];
  repeat (apply Forall_cons; split;
          [eapply plain_not;
           [eassumption
           |first [left; reflexivity | right; left; reflexivity
                  | right; right; reflexivity]]|]);
  by apply Forall_nil.

Lemma parseTerm_plain fuel c t ng :
  plain c -> parseTerm (S fuel) (c :: t) ng = parseQuantifier (Char c) t ng.
Proof.
  intros Hc. cbn [parseTerm].
  rewrite (oneOf_false c "^") by plain_oneOf.
  rewrite (oneOf_false c "$") by plain_oneOf.
  rewrite (oneOf_false c "*+?") by plain_oneOf.
  rewrite (oneOf_false c ")") by plain_oneOf.
  rewrite (oneOf_false c "{") by plain_oneOf.
  rewrite (oneOf_false c ".") by plain_oneOf.
  rewrite (oneOf_false c "\") by plain_oneOf.
  rewrite (oneOf_false c "[") by plain_oneOf.
  rewrite (oneOf_false c "(") by plain_oneOf.
  reflexivity.
Qed.

Lemma parseQuantifier_none r c t ng :
  oneOf c "*+?{" = false -> parseQuantifier r (c :: t) ng = Parsed r (c :: t) ng.
Proof.
  intros H. unfold oneOf in H. cbv [lit list_ascii_of_string] in H.
  cbn [existsb] in H.
  repeat (apply orb_false_elim in H as [? H]).
  unfold parseQuantifier, oneOf. cbv [lit list_ascii_of_string]. cbn [existsb].
  repeat match goal with Hx : bool_decide _ = false |- _ => rewrite Hx; clear Hx end.
  reflexivity.
Qed.

Lemma special_cases c :
  special c = true ->
  In c (lit ".+^${}()|[]\").
Proof.
  unfold special, oneOf. intros (d & Hd & E)%existsb_exists.
  by apply bool_decide_eq_true in E as ->.
Qed.

Lemma parseAtomEscape_special c t ng :
  special c = true -> parseAtomEscape (c :: t) ng = Parsed (Char c) t ng.
Proof.
  intros H%special_cases. cbv [lit list_ascii_of_string] in H.
  repeat (destruct H as [<-|H]; [reflexivity|]). destruct H.
Qed.

(** The text that follows a token never starts with a quantifier, a bar
    or a closing parenthesis. *)
Lemma text4_head toks :
  Forall properLit toks -> Forall noQuestionMark toks ->
  exists c r, flat_map text4 toks ++ lit "$" = c :: r
              /\ oneOf c "*+?{" = false /\ oneOf c "|)" = false
              /\ oneOf c "?" = false.
Proof.
  intros Hp Hq. destruct toks as [|[| |c] toks].
  - by eexists _, _.
  - by eexists _, _.
  - by eexists _, _.
  - apply Forall_cons in Hp as [Hp _]. apply Forall_cons in Hq as [Hq _].
    cbn [flat_map text4]. unfold escaped. destruct (special c) eqn:Hc.
    + by eexists _, _.
    + assert (plain c) by done.
      eexists _, _. split; [reflexivity|].
      split; [|split]; apply oneOf_false; plain_oneOf.
Qed.

Lemma parseQuantifier_star r c t ng :
  oneOf c "?" = false ->
  parseQuantifier r ("*"%char :: c :: t) ng = Parsed (Quant r 0 None true) (c :: t) ng.
Proof. intros H. cbn. unfold oneOf in H. cbn in H. by rewrite H. Qed.

Lemma parseQuantifier_plus r c t ng :
  oneOf c "?" = false ->
  parseQuantifier r ("+"%char :: c :: t) ng = Parsed (Quant r 1 None true) (c :: t) ng.
Proof. intros H. cbn. unfold oneOf in H. cbn in H. by rewrite H. Qed.

(** One token of pattern text, parsed as a term. *)
Lemma parseTerm_token t toks fuel ng :
  properLit t -> noQuestionMark t ->
  Forall properLit toks -> Forall noQuestionMark toks ->
  parseTerm (S fuel) (text4 t ++ flat_map text4 toks ++ lit "$") ng
  = Parsed (tokenRe t) (flat_map text4 toks ++ lit "$") ng.
Proof.
  intros Ht Hq Hp Hqs.
  destruct (text4_head toks Hp Hqs) as (c & r & -> & Hquant & _ & Hlazy).
  destruct t as [| |d]; cbn [text4 tokenRe].
  - change (parseTerm (S fuel) (lit ".*" ++ c :: r) ng)
      with (parseQuantifier Dot ("*"%char :: c :: r) ng).
    by apply parseQuantifier_star.
  - change (parseTerm (S fuel) (lit "[^/]+" ++ c :: r) ng)
      with (parseQuantifier (Class true [CChar "/"%char]) ("+"%char :: c :: r) ng).
    by apply parseQuantifier_plus.
  - unfold escaped. destruct (special d) eqn:Hd.
    + change (parseTerm (S fuel) (["\"%char; d] ++ c :: r) ng)
        with (match parseAtomEscape (d :: c :: r) ng with
              | Parsed r0 t' ng' => parseQuantifier r0 t' ng'
              | e => e
              end).
      rewrite parseAtomEscape_special by done.
      by apply parseQuantifier_none.
    + cbn [app]. rewrite parseTerm_plain by done.
      by apply parseQuantifier_none.
Qed.

Lemma seq_tokensRe r toks : seq r (tokensRe toks) = Seq r (tokensRe toks).
Proof. by destruct toks. Qed.

Lemma parseAlternative_S fuel c r ng :
  parseAlternative (S fuel) (c :: r) ng
  = if oneOf c "|)" then Parsed Empty (c :: r) ng
    else match parseTerm fuel (c :: r) ng with
         | Parsed r1 t ng1 =>
             match parseAlternative fuel t ng1 with
             | Parsed r2 t2 ng2 => Parsed (seq r1 r2) t2 ng2
             | e => e
             end
         | e => e
         end.
Proof. reflexivity. Qed.

Lemma parseDisjunction_S fuel s ng :
  parseDisjunction (S fuel) s ng
  = match parseAlternative fuel s ng with
    | Parsed r1 (c :: t) ng1 =>
        if oneOf c "|" then
          match parseDisjunction fuel t ng1 with
          | Parsed r2 t2 ng2 => Parsed (Alt r1 r2) t2 ng2
          | e => e
          end
        else Parsed r1 (c :: t) ng1
    | p => p
    end.
Proof. reflexivity. Qed.

Lemma parseAlternative_tokens toks fuel ng :
  Forall properLit toks -> Forall noQuestionMark toks ->
  length toks + 2 <= fuel ->
  parseAlternative fuel (flat_map text4 toks ++ lit "$") ng
  = Parsed (tokensRe toks) [] ng.
Proof.
  revert fuel. induction toks as [|t toks IH]; intros fuel Hp Hq Hfuel.
  - destruct fuel as [|[|fuel]]; [simpl in Hfuel; lia..|]. reflexivity.
  - apply Forall_cons in Hp as [Ht Hp]. apply Forall_cons in Hq as [Hqt Hq].
    destruct fuel as [|fuel]; [lia|].
    destruct fuel as [|fuel]; [simpl in Hfuel; lia|].
    cbn [flat_map]. rewrite <- app_assoc.
    destruct (text4_head (t :: toks)) as (c & r & Hc & _ & Hbar & _);
      [by constructor..|].
    cbn [flat_map] in Hc. rewrite <- app_assoc in Hc.
    pose proof (parseTerm_token t toks fuel ng Ht Hqt Hp Hq) as Hterm.
    rewrite Hc in *. rewrite parseAlternative_S, Hbar, Hterm.
    rewrite IH by (first [done | simpl in Hfuel; lia]).
    by rewrite seq_tokensRe.
Qed.

(** A pattern without question mark compiles, to the expression of its
    tokens between [^] and [$]. *)
Lemma globToRegex_tokens pattern :
  "?"%char ∉ pattern ->
  globToRegex pattern
  = Compiles {| pattern := Seq AssertStart (tokensRe (tokenize pattern));
                ngroups := 0; ignoreCase := false; global := false |}.
Proof.
  intros Hq. unfold globToRegex, compile. rewrite globToRegexSource_tokens.
  cbn [forallb existsb].
  set (toks := tokenize pattern).
  assert (Hp : Forall properLit toks) by apply tokenize_proper.
  assert (Hqs : Forall noQuestionMark toks) by (by apply tokenize_question).
  assert (Hlen : length toks <= length (flat_map text4 toks)).
  { clear. induction toks as [|t toks IH]; [done|].
    cbn [flat_map length]. rewrite length_app.
    assert (1 <= length (text4 t)); [|lia].
    destruct t; [simpl; lia..|]. cbn. unfold escaped.
    destruct (special c); simpl; lia. }
  remember (4 * length (lit "^" ++ flat_map text4 toks ++ lit "$") + 8) as fuel.
  assert (Hfuel : length toks + 4 <= fuel).
  { subst fuel. rewrite !length_app. simpl. lia. }
  clear Heqfuel.
  destruct fuel as [|[|fuel]]; [lia..|].
  change (lit "^" ++ flat_map text4 toks ++ lit "$")
    with ("^"%char :: (flat_map text4 toks ++ lit "$")).
  rewrite parseDisjunction_S, parseAlternative_S.
  change (oneOf "^" "|)") with false. cbn match.
  destruct fuel as [|fuel]; [lia|].
  change (parseTerm (S fuel) ("^"%char :: (flat_map text4 toks ++ lit "$")) 0)
    with (@Parsed re AssertStart (flat_map text4 toks ++ lit "$") 0).
  cbn match.
  rewrite parseAlternative_tokens by (first [done | lia]).
  by rewrite seq_tokensRe.
Qed.

End GlobParse.

(** ** glob patterns: the compiled expression against the specification *)
Section GlobMatch.
Import JsString JsRegExp Closed Glob PageTypeDetector.

Lemma Matches_nil_inv path : Matches [] path -> path = [].
Proof. by inversion 1. Qed.

Lemma Matches_globstar_inv toks path :
  Matches (Globstar :: toks) path ->
  exists w r, path = w ++ r /\ singleLine w /\ Matches toks r.
Proof. inversion 1; subst. by eexists _, _. Qed.

Lemma Matches_star_inv toks path :
  Matches (Star :: toks) path ->
  exists w r, path = w ++ r /\ w <> []
              /\ Forall (fun c => c <> "/"%char) w /\ Matches toks r.
Proof. inversion 1; subst. by eexists _, _. Qed.

Lemma Matches_lit_inv c toks path :
  Matches (Lit c :: toks) path -> exists r, path = c :: r /\ Matches toks r.
Proof. inversion 1; subst. by eexists. Qed.

Lemma notSlash c :
  classMatches false true [CChar "/"%char] c = true <-> c <> "/"%char.
Proof.
  unfold classMatches. cbn [existsb itemMatches andb orb xorb].
  rewrite orb_false_r. case_bool_decide; simpl; split; congruence.
Qed.

(** The expression of the tokens matches from a position exactly when
    the tokens match the rest of the path. *)
Lemma m_tokensRe toks s i caps :
  is_Some (m false (tokensRe toks) (at_ s i caps) Some) <-> Matches toks s.
Proof.
  revert s i. induction toks as [|t toks IH]; intros s i.
  - cbn [tokensRe m at_ rest]. destruct s.
    + split; [constructor | by eexists].
    + split; [by intros [? ?] | by intros ?%Matches_nil_inv].
  - cbn [tokensRe m]. destruct t as [| |c]; cbn [tokenRe].
    + rewrite (m_star_greedy false Dot (fun d => negb (isLineTerminator d)))
        by done.
      rewrite starGreedy_Some. split.
      * intros (w & r & -> & Hw & Hk). apply IH in Hk.
        constructor; [|done]. eapply Forall_impl; [exact Hw|].
        intros c Hc. by apply negb_true_iff.
      * intros (w & r & -> & Hw & Hm)%Matches_globstar_inv.
        exists w, r. split; [done|]. split.
        -- eapply Forall_impl; [exact Hw|]. intros c Hc. by apply negb_true_iff.
        -- by apply IH.
    + rewrite (m_plus_greedy false _ (classMatches false true [CChar "/"%char]))
        by done.
      split.
      * destruct s as [|c s]; [by intros [? ?]|].
        destruct (classMatches _ _ _ c) eqn:Hc; [|by intros [? ?]].
        intros (w & r & -> & Hw & Hk)%starGreedy_Some. apply IH in Hk.
        apply (matches_star toks (c :: w) r); [done| |done].
        constructor; [by apply notSlash|].
        eapply Forall_impl; [exact Hw|]. intros d Hd. by apply notSlash.
      * intros (w & r & -> & Hne & Hw & Hm)%Matches_star_inv.
        destruct w as [|c w]; [done|]. apply Forall_cons in Hw as [Hc Hw].
        cbn [app]. apply notSlash in Hc. rewrite Hc.
        apply starGreedy_Some. exists w, r. split; [done|]. split.
        -- eapply Forall_impl; [exact Hw|]. intros d Hd. by apply notSlash.
        -- by apply IH.
    + destruct s as [|d s]; [split; [by intros [? ?] | by intros (? & ? & ?)%Matches_lit_inv]|].
      change {| rest := d :: s; index := i; captures := caps |}
        with (at_ (d :: s) i caps).
      rewrite (m_atom false (Char c)
                 (fun d => bool_decide (canon false d = canon false c))) by done.
      rewrite step_cons. cbn [canon]. case_bool_decide as Hd.
      * subst d. rewrite IH. split; [by constructor|].
        by intros (r & [= <-] & Hm)%Matches_lit_inv.
      * split; [by intros [? ?]|].
        intros (r & [= <- <-] & Hm)%Matches_lit_inv. done.
Qed.

(** An expression that starts with [^] matches at position 0 only. *)
Lemma search_anchored R r s i :
  pattern R = Seq AssertStart r -> search R s (S i) = None.
Proof.
  intros Hp. revert i. induction s as [|c s IH]; intros i; cbn [search].
  - unfold matchAt. by rewrite Hp.
  - unfold matchAt at 1. rewrite Hp. cbn [m index Nat.eqb]. apply IH.
Qed.

Lemma test_anchored R r s :
  pattern R = Seq AssertStart r ->
  test R s = true
  <-> is_Some (m (ignoreCase R) r
                 (at_ s 0 (replicate (S (ngroups R)) None)) Some).
Proof.
  intros Hp. unfold test, exec.
  assert (Hs : search R s 0
               = match matchAt R s 0 with Some mt => Some mt | None => None end).
  { destruct s as [|c s]; cbn [search]; [done|].
    destruct (matchAt R (c :: s) 0); [done|]. by apply (search_anchored R r). }
  rewrite Hs. unfold matchAt. rewrite Hp. cbn [m index Nat.eqb].
  unfold at_. destruct (m (ignoreCase R) r _ Some).
  - split; [by eexists | done].
  - split; [done | by intros [? ?]].
Qed.

(** For a pattern without question mark, [globToRegex] compiles, and its
    expression accepts exactly the paths the pattern matches as the
    specification reads it: the whole path, [*] for a non-empty run of
    characters other than [/], [**] for any run of characters of a
    path. *)
Theorem globToRegex_matches pattern path :
  "?"%char ∉ pattern ->
  exists regex,
    globToRegex pattern = Compiles regex
    /\ (test regex path = true <-> Matches (tokenize pattern) path).
Proof.
  intros Hq. eexists. split; [by apply globToRegex_tokens|].
  rewrite test_anchored by reflexivity. apply m_tokensRe.
Qed.

(** Rule matching returns when no pattern has a question mark. *)
Lemma findMatchingRule_returns pathname rules :
  Forall (fun r => "?"%char ∉ urlPattern r) rules ->
  exists matchingRule,
    findMatchingRule pathname rules = Eff.Returned matchingRule.
Proof.
  induction rules as [|r rules IH]; [by eexists|].
  intros [Hr Hrs]%Forall_cons. cbn [findMatchingRule].
  rewrite globToRegex_tokens by done.
  destruct (test _ pathname); [by eexists | by apply IH].
Qed.

Lemma Glob_matches_true pattern path :
  "?"%char ∉ pattern ->
  Glob.matches pattern path = Some true <-> Matches (tokenize pattern) path.
Proof.
  intros Hq. destruct (globToRegex_matches pattern path Hq) as (R & HR & Ht).
  unfold Glob.matches. rewrite HR. rewrite <- Ht.
  split; [by intros [= ->] | by intros ->].
Qed.

Lemma Glob_matches_false pattern path :
  "?"%char ∉ pattern ->
  Glob.matches pattern path = Some false <-> ~ Matches (tokenize pattern) path.
Proof.
  intros Hq. destruct (globToRegex_matches pattern path Hq) as (R & HR & Ht).
  unfold Glob.matches. rewrite HR. rewrite <- Ht.
  destruct (test R path); split; try done; intros H; exfalso; by apply H.
Qed.

Lemma tokenize_literals prefix tail :
  "*"%char ∉ prefix ->
  tokenize (prefix ++ "/"%char :: tail) = map Lit prefix ++ tokenize ("/"%char :: tail).
Proof.
  induction prefix as [|c p IH]; intros Hs; [done|].
  apply not_elem_of_cons in Hs as [Hc Hp].
  cbn [app map]. rewrite <- IH by done. cbn [tokenize].
  by rewrite bool_decide_eq_false_2.
Qed.

Lemma Matches_literals prefix toks path :
  Matches (map Lit prefix ++ toks) path
  <-> exists r, path = prefix ++ r /\ Matches toks r.
Proof.
  revert path. induction prefix as [|c p IH]; intros path; cbn [map app].
  - split; [by exists path | by intros (r & -> & ?)].
  - split.
    + intros (r & -> & (r' & -> & Hm)%IH)%Matches_lit_inv. by exists r'.
    + intros (r & -> & Hm). constructor. apply IH. by exists r.
Qed.

Lemma Matches_slash_globstar path :
  Matches [Lit "/"%char; Globstar] path
  <-> exists rest, path = "/"%char :: rest /\ singleLine rest.
Proof.
  split.
  - intros (r & -> & (w & r' & -> & Hw & ->%Matches_nil_inv)%Matches_globstar_inv)
      %Matches_lit_inv.
    exists w. by rewrite app_nil_r.
  - intros (rest & -> & Hr). constructor.
    rewrite <- (app_nil_r rest). constructor; [done | constructor].
Qed.

(** C9: for a pattern [prefix/**] whose prefix holds no star and no
    question mark, the compiled expression accepts exactly the paths
    [prefix/rest]: it rejects the bare [prefix] and accepts [prefix/] and
    every path below it.  ([rest] is any text without line terminator, as
    the rest of a URL path is.) *)
Theorem globstar_needs_the_slash prefix path :
  "*"%char ∉ prefix -> "?"%char ∉ prefix ->
  Glob.matches (prefix ++ lit "/**") prefix = Some false
  /\ Glob.matches (prefix ++ lit "/**") (prefix ++ lit "/") = Some true
  /\ (forall rest, singleLine rest ->
        Glob.matches (prefix ++ lit "/**") (prefix ++ lit "/" ++ rest) = Some true)
  /\ (Glob.matches (prefix ++ lit "/**") path = Some true
      <-> exists rest, path = prefix ++ lit "/" ++ rest /\ singleLine rest).
Proof.
  intros Hs Hq.
  assert (Hq' : "?"%char ∉ prefix ++ lit "/**").
  { intros [H|H]%elem_of_app; [done|].
    cbv [lit list_ascii_of_string] in H.
    repeat (apply elem_of_cons in H as [H|H]; [discriminate|]).
    by apply elem_of_nil in H. }
  assert (Htok : tokenize (prefix ++ lit "/**")
                 = map Lit prefix ++ [Lit "/"%char; Globstar])
    by (by apply tokenize_literals).
  assert (Hiff : forall p, Glob.matches (prefix ++ lit "/**") p = Some true
                   <-> exists rest, p = prefix ++ lit "/" ++ rest /\ singleLine rest).
  { intros p. rewrite Glob_matches_true, Htok, Matches_literals by done. split.
    - intros (r & -> & (rest & -> & Hr)%Matches_slash_globstar). by exists rest.
    - intros (rest & -> & Hr). eexists. split; [done|].
      apply Matches_slash_globstar. by exists rest. }
  split; [|split; [|split]].
  - apply Glob_matches_false; [done|]. rewrite Htok, Matches_literals.
    intros (r & Hr & (rest & -> & _)%Matches_slash_globstar).
    apply (f_equal length) in Hr. rewrite length_app in Hr. simpl in Hr. lia.
  - apply Hiff. exists []. split; [done | constructor].
  - intros rest Hr. apply Hiff. by exists rest.
  - apply Hiff.
Qed.

End GlobMatch.

Lemma globstar_needs_the_slash_witness :
  Glob.matches (lit "/docs/**") (lit "/docs") = Some false
  /\ Glob.matches (lit "/docs/**") (lit "/docs/") = Some true
  /\ Glob.matches (lit "/docs/**") (lit "/docs/a/b/c") = Some true.
Proof.
  assert (Hs : "*"%char ∉ lit "/docs") by (apply (bool_decide_unpack _); by vm_compute).
  assert (Hq : "?"%char ∉ lit "/docs") by (apply (bool_decide_unpack _); by vm_compute).
  destruct (globstar_needs_the_slash (lit "/docs") [] Hs Hq) as (H1 & H2 & H3 & _).
  split; [exact H1|]. split; [exact H2|].
  apply (H3 (lit "a/b/c")). apply (bool_decide_unpack _). by vm_compute.
Defined.

(* ===================================================================== *)
(** * robots.txt: parsing, printing and merging                            *)
(* ===================================================================== *)

Section RobotsTxt.
Import JsString MergeUtils RobotsBlocks.

(** *** [trim] *)

Lemma trimStart_id s : headOk s -> trimStart s = s.
Proof. destruct s as [|c s]; [done|]. simpl. by intros ->. Qed.

Lemma trimStart_headOk s : headOk (trimStart s).
Proof.
  induction s as [|c s IH]; [done|]. simpl.
  destruct (isWhiteSpace c) eqn:E; [done|]. by simpl.
Qed.

Lemma trimStart_suffix s : exists p, s = p ++ trimStart s.
Proof.
  induction s as [|c s [p IH]]; [by exists []|]. simpl.
  destruct (isWhiteSpace c).
  - exists (c :: p). simpl. by f_equal.
  - by exists [].
Qed.

Lemma trimStart_snoc s c :
  isWhiteSpace c = false -> exists u, trimStart (s ++ [c]) = u ++ [c].
Proof.
  intros Hc. induction s as [|d s [u IH]]; simpl.
  - rewrite Hc. by exists [].
  - destruct (isWhiteSpace d); [by exists u|]. by exists (d :: s).
Qed.

Lemma trimEnd_id s : headOk (rev s) -> trimEnd s = s.
Proof. intros H. unfold trimEnd. by rewrite trimStart_id, rev_involutive. Qed.

Lemma trimEnd_lastOk s : headOk (rev (trimEnd s)).
Proof. unfold trimEnd. rewrite rev_involutive. apply trimStart_headOk. Qed.

Lemma trimEnd_prefix s : exists q, s = trimEnd s ++ q.
Proof.
  unfold trimEnd. destruct (trimStart_suffix (rev s)) as [p Hp].
  exists (rev p). rewrite <- rev_app_distr, <- Hp. by rewrite rev_involutive.
Qed.

Lemma trimEnd_headOk s : headOk s -> headOk (trimEnd s).
Proof.
  destruct s as [|c s]; [done|]. simpl. intros Hc. unfold trimEnd. simpl.
  destruct (trimStart_snoc (rev s) c Hc) as [u ->].
  by rewrite rev_app_distr.
Qed.

Lemma trim_headOk s : headOk (trim s).
Proof. apply trimEnd_headOk, trimStart_headOk. Qed.

Lemma trim_lastOk s : headOk (rev (trim s)).
Proof. apply trimEnd_lastOk. Qed.

Lemma trim_id s : headOk s -> headOk (rev s) -> trim s = s.
Proof. intros H1 H2. unfold trim. by rewrite trimStart_id, trimEnd_id. Qed.

Lemma trim_trimmed s : trimmed (trim s).
Proof. apply trim_id; [apply trim_headOk | apply trim_lastOk]. Qed.

Lemma trimmed_ok s : trimmed s -> headOk s /\ headOk (rev s).
Proof. intros <-. split; [apply trim_headOk | apply trim_lastOk]. Qed.

Lemma trim_subseteq s c : c ∈ trim s -> c ∈ s.
Proof.
  unfold trim. intros Hc.
  destruct (trimStart_suffix s) as [p Hp].
  destruct (trimEnd_prefix (trimStart s)) as [q Hq].
  rewrite Hp, Hq. set_solver.
Qed.

Lemma trim_oneLine s : oneLine s -> oneLine (trim s).
Proof. intros H Hc. by apply H, trim_subseteq. Qed.

Lemma headOk_app s t : s <> [] -> headOk s -> headOk (s ++ t).
Proof. by destruct s. Qed.

(** *** [split] and [join] on line feeds *)

Lemma splitOn_cons_LF s : splitOn LF (LF :: s) = [] :: splitOn LF s.
Proof. done. Qed.

Lemma splitOn_nonempty s : splitOn LF s <> [].
Proof.
  induction s as [|c s IH]; [done|]. simpl.
  case_bool_decide; [done|]. by destruct (splitOn LF s).
Qed.

Lemma splitOn_line a s :
  oneLine a -> splitOn LF (a ++ LF :: s) = a :: splitOn LF s.
Proof.
  unfold oneLine. induction a as [|c a IH]; intros Ha; [done|].
  cbn [app splitOn]. rewrite bool_decide_eq_false_2 by set_solver.
  rewrite IH by set_solver. done.
Qed.

Lemma splitOn_oneLine a : oneLine a -> splitOn LF a = [a].
Proof.
  unfold oneLine. induction a as [|c a IH]; intros Ha; [done|].
  cbn [splitOn]. rewrite bool_decide_eq_false_2 by set_solver.
  rewrite IH by set_solver. done.
Qed.

Lemma splitOn_lines s : Forall oneLine (splitOn LF s).
Proof.
  induction s as [|c s IH].
  - repeat constructor. unfold oneLine. set_solver.
  - cbn [splitOn]. case_bool_decide as Hc.
    + constructor; [|done]. unfold oneLine. set_solver.
    + destruct (splitOn LF s) as [|l ls] eqn:E.
      * by apply splitOn_nonempty in E.
      * apply Forall_cons in IH as [Hl Hls]. constructor; [|done].
        unfold oneLine in *. apply not_elem_of_cons. by split.
Qed.

Lemma join_cons2 sep (x y : str) l :
  join sep (x :: y :: l) = x ++ sep ++ join sep (y :: l).
Proof. done. Qed.

Lemma splitOn_join_lines ls s :
  Forall oneLine ls -> ls <> [] ->
  splitOn LF (join [LF] ls ++ LF :: s) = ls ++ splitOn LF s.
Proof.
  induction ls as [|x ls IH]; [done|]. intros [Hx Hls]%Forall_cons _.
  destruct ls as [|y ls].
  - simpl. by apply splitOn_line.
  - rewrite join_cons2. rewrite <- !app_assoc. cbn [app].
    rewrite splitOn_line by done. rewrite IH by done. done.
Qed.

Lemma splitOn_join ls :
  Forall oneLine ls -> ls <> [] -> splitOn LF (join [LF] ls) = ls.
Proof.
  induction ls as [|x ls IH]; [done|]. intros [Hx Hls]%Forall_cons _.
  destruct ls as [|y ls].
  - simpl. by apply splitOn_oneLine.
  - rewrite join_cons2. cbn [app].
    rewrite splitOn_line by done. rewrite IH by done. done.
Qed.

(** *** [parseRobotsTxt] produces well-formed blocks *)

Lemma saveBlock_wellFormed st : parsing st -> Forall wellFormed (saveBlock st).
Proof.
  intros (Hb & Ha & Hr). unfold saveBlock.
  destruct (currentAgent st) as [a|] eqn:E; [|done].
  apply Forall_app. split; [done|]. apply Forall_singleton.
  destruct (Ha a eq_refl) as [? ?]. by repeat split.
Qed.

Lemma parseLine_parsing st rawLine :
  oneLine rawLine -> parsing st -> parsing (parseLine st rawLine).
Proof.
  intros Hraw Hst. unfold parseLine. cbn zeta.
  pose proof (trim_oneLine _ Hraw) as Hline.
  pose proof (trim_trimmed rawLine) as Htrim.
  destruct (bool_decide (trim rawLine = [])) eqn:Hnil; [done|].
  apply bool_decide_eq_false in Hnil.
  destruct (startsWith (trim rawLine) (lit "#")) eqn:Hhash; [done|]. cbn [orb].
  destruct (startsWith (toLowerCase (trim rawLine)) (lit "user-agent:")) eqn:Hua.
  - split; [by apply saveBlock_wellFormed|]. split; [|constructor].
    cbn [currentAgent]. intros a [= <-]. split; [apply trim_trimmed|].
    apply trim_oneLine. unfold substringFrom, oneLine.
    intros Hin. apply Hline. exact (subseteq_drop 11 (trim rawLine) _ Hin).
  - destruct Hst as (Hb & Ha & Hr).
    destruct (currentAgent st) as [a|] eqn:E;
      [|unfold parsing; rewrite E; split; [done|]; split; [|done]; by intros ? [=]].
    split; [done|]. split; [done|]. cbn [currentRules].
    apply Forall_app. split; [done|]. apply Forall_singleton.
    by repeat split.
Qed.

Lemma parseLines_parsing ls st :
  Forall oneLine ls -> parsing st -> parsing (fold_left parseLine ls st).
Proof.
  revert st. induction ls as [|l ls IH]; intros st Hls Hst; [done|].
  apply Forall_cons in Hls as [Hl Hls]. simpl.
  apply IH; [done|]. by apply parseLine_parsing.
Qed.

Lemma parseRobotsTxt_wellFormed content :
  Forall wellFormed (parseRobotsTxt content).
Proof.
  apply saveBlock_wellFormed, parseLines_parsing; [apply splitOn_lines|].
  by repeat split.
Qed.

(** *** [parseRobotsTxt] reads back what [blocksToString] prints *)

Lemma toLowerCase_app s t : toLowerCase (s ++ t) = toLowerCase s ++ toLowerCase t.
Proof. apply map_app. Qed.

Lemma parseLine_header st agent :
  trimmed agent ->
  parseLine st (lit "User-agent: " ++ agent)
  = {| blocks := saveBlock st; currentAgent := Some agent; currentRules := [] |}.
Proof.
  intros Ht. destruct agent as [|c agent]; [done|].
  destruct (trimmed_ok _ Ht) as [Hhead Hlast].
  unfold parseLine. cbn zeta.
  rewrite (trim_id (lit "User-agent: " ++ c :: agent)).
  - rewrite toLowerCase_app.
    change (toLowerCase (lit "User-agent: ")) with (lit "user-agent: ").
    change (bool_decide (lit "User-agent: " ++ c :: agent = [])) with false.
    change (startsWith (lit "User-agent: " ++ c :: agent) (lit "#")) with false.
    change (startsWith (lit "user-agent: " ++ toLowerCase (c :: agent))
              (lit "user-agent:")) with true.
    cbn [orb]. f_equal. f_equal.
    change (substringFrom (lit "User-agent: " ++ c :: agent)
              (length (lit "user-agent:"))) with (" "%char :: c :: agent).
    change (trim (" "%char :: c :: agent)) with (trim (c :: agent)).
    exact Ht.
  - done.
  - rewrite rev_app_distr. apply headOk_app; [|done].
    simpl. by destruct (rev agent).
Qed.

Lemma parseLine_rule st agent r :
  currentAgent st = Some agent -> ruleLine r ->
  parseLine st r
  = {| blocks := blocks st; currentAgent := Some agent;
       currentRules := currentRules st ++ [r] |}.
Proof.
  intros Ha (Hne & Ht & _ & Hhash & Hua). unfold parseLine. cbn zeta.
  rewrite Ht, Hhash, Hua, bool_decide_eq_false_2 by done. cbn [orb].
  by rewrite Ha.
Qed.

Lemma parseLine_rules rs bs agent cur :
  Forall ruleLine rs ->
  fold_left parseLine rs
    {| blocks := bs; currentAgent := Some agent; currentRules := cur |}
  = {| blocks := bs; currentAgent := Some agent; currentRules := cur ++ rs |}.
Proof.
  revert cur. induction rs as [|r rs IH]; intros cur Hrs.
  - by rewrite app_nil_r.
  - apply Forall_cons in Hrs as [Hr Hrs]. cbn [fold_left].
    rewrite (parseLine_rule _ agent r) by done. cbn [blocks currentRules].
    rewrite IH by done. by rewrite <- app_assoc.
Qed.

Lemma parseLine_block st b :
  wellFormed b ->
  saveBlock (fold_left parseLine (linesOf b) st) = saveBlock st ++ [b]
  /\ parseLine (fold_left parseLine (linesOf b) st) []
     = fold_left parseLine (linesOf b) st.
Proof.
  intros (Ht & _ & Hr). unfold linesOf. cbn [fold_left].
  rewrite parseLine_header by done. rewrite parseLine_rules by done.
  split; [|done]. unfold saveBlock at 1. cbn. by destruct b.
Qed.

Lemma linesOf_oneLine b : wellFormed b -> Forall oneLine (linesOf b).
Proof.
  intros (_ & Ha & Hr). constructor.
  - unfold oneLine in *. rewrite elem_of_app. intros [H|H]; [|done].
    revert H. apply (bool_decide_unpack _). by vm_compute.
  - eapply Forall_impl; [exact Hr|]. by intros r (_ & _ & ? & _).
Qed.

Lemma blocksToString_cons b bs :
  bs <> [] ->
  blocksToString (b :: bs)
  = join [LF] (linesOf b) ++ LF :: LF :: blocksToString bs.
Proof. by destruct bs. Qed.

Lemma parse_print bs st :
  Forall wellFormed bs -> bs <> [] ->
  saveBlock (fold_left parseLine (splitOn LF (blocksToString bs)) st)
  = saveBlock st ++ bs.
Proof.
  revert st. induction bs as [|b bs IH]; [done|].
  intros st [Hb Hbs]%Forall_cons _.
  destruct (parseLine_block st b Hb) as [Hsave Hskip].
  destruct (decide (bs = [])) as [->|Hne].
  - change (blocksToString [b]) with (join [LF] (linesOf b)).
    rewrite splitOn_join; [done | by apply linesOf_oneLine | done].
  - rewrite blocksToString_cons by done.
    rewrite splitOn_join_lines; [| by apply linesOf_oneLine | done].
    rewrite splitOn_cons_LF, fold_left_app. cbn [fold_left].
    rewrite Hskip, IH, Hsave by done. by rewrite <- app_assoc.
Qed.

Lemma parseRobotsTxt_blocksToString bs :
  Forall wellFormed bs -> parseRobotsTxt (blocksToString bs) = bs.
Proof.
  intros Hbs. destruct (decide (bs = [])) as [->|Hne]; [done|].
  unfold parseRobotsTxt. by rewrite parse_print.
Qed.

(** *** [mergeRobotsTxt] *)

Lemma mergeBlocks_closed originBlocks botmonBlocks :
  mergeBlocks originBlocks botmonBlocks
  = KeyedMerge.merged agentKey originBlocks botmonBlocks.
Proof. apply (keyed_merge agentKey). Qed.

Lemma merged_In {A} (key : A -> list ascii) base over x :
  In x (KeyedMerge.merged key base over) -> In x base \/ In x over.
Proof.
  unfold KeyedMerge.merged. intros [H|H]%in_app_iff.
  - apply in_map_iff in H as (r & <- & Hr).
    destruct (KeyedMerge.lastWithKey key over (key r)) as [d|] eqn:E.
    + right. by apply lastWithKey_Some in E as [? _].
    + by left.
  - right. by apply List.filter_In in H as [? _].
Qed.

(** The blocks of the output are the merged blocks of the two inputs. *)
Lemma mergeRobotsTxt_parsed originContent botmonContent :
  parseRobotsTxt (mergeRobotsTxt originContent botmonContent)
  = KeyedMerge.merged agentKey
      (parseRobotsTxt originContent) (parseRobotsTxt botmonContent).
Proof.
  unfold mergeRobotsTxt. cbn zeta. rewrite mergeBlocks_closed.
  apply parseRobotsTxt_blocksToString.
  apply List.Forall_forall. intros b [Hb|Hb]%merged_In.
  - by eapply List.Forall_forall; [apply parseRobotsTxt_wellFormed|].
  - by eapply List.Forall_forall; [apply parseRobotsTxt_wellFormed|].
Qed.

Lemma merged_lookup_base {A} (key : A -> list ascii) base over i o :
  base !! i = Some o -> ~ In (key o) (map key over) ->
  KeyedMerge.merged key base over !! i = Some o.
Proof.
  intros Hi Hout. unfold KeyedMerge.merged.
  rewrite lookup_app_l by (rewrite length_map; by eapply lookup_lt_Some).
  rewrite list_lookup_fmap, Hi. cbn.
  by apply (lastWithKey_None key) in Hout as ->.
Qed.

(** C2 (as stated, refuted): nothing removes a repeated agent from one
    input.  With the agent [a] and then [A] in the origin file and an
    empty managed file, the output has both blocks; with [c] and then
    [C] in the managed file and a block for [c] in the origin file, the
    managed block for [c] is not in the output. *)
Lemma mergeRobotsTxt_repeated_agent :
  let origin := file ["User-agent: a"; "Allow: /"; "";
                      "User-agent: A"; "Disallow: /x"]%string in
  let managed := file ["User-agent: c"; "Allow: /"; "";
                       "User-agent: C"; "Disallow: /"]%string in
  let c := {| userAgent := lit "c"; block_rules := [lit "Allow: /"] |} in
  (mergeRobotsTxt origin [] = origin
   /\ map agentKey (parseRobotsTxt (mergeRobotsTxt origin []))
      = [lit "a"; lit "a"]
   /\ ~ NoDup (map agentKey (parseRobotsTxt (mergeRobotsTxt origin []))))
  /\ (In c (parseRobotsTxt managed)
      /\ mergeRobotsTxt (file ["User-agent: c"; "Allow: /old"]%string) managed
         = file ["User-agent: C"; "Disallow: /"]%string
      /\ ~ In c (parseRobotsTxt
                   (mergeRobotsTxt
                      (file ["User-agent: c"; "Allow: /old"]%string) managed))).
Proof.
  cbn zeta. split; [split; [|split]|split; [|split]].
  - by vm_compute.
  - by vm_compute.
  - apply (bool_decide_unpack _). by vm_compute.
  - vm_compute. by left.
  - by vm_compute.
  - vm_compute. by intros [H|[]].
Qed.

(** C2 (amended): when neither file names an agent twice (compared
    without case), the blocks of [mergeRobotsTxt origin managed] are such
    that every managed block is among them, with its own lines; an origin
    block whose agent the managed file does not name is there unchanged,
    at the position it has in the origin file; the output is one block
    per origin block followed by the managed blocks whose agent the
    origin file does not name, in their order; and no two blocks of the
    output have the same agent. *)
Theorem mergeRobotsTxt_blocks originContent botmonContent :
  let originBlocks := parseRobotsTxt originContent in
  let botmonBlocks := parseRobotsTxt botmonContent in
  let output := parseRobotsTxt (mergeRobotsTxt originContent botmonContent) in
  NoDup (map agentKey originBlocks) ->
  NoDup (map agentKey botmonBlocks) ->
  (forall b, In b botmonBlocks -> In b output)
  /\ (forall i o, originBlocks !! i = Some o ->
        ~ In (agentKey o) (map agentKey botmonBlocks) ->
        output !! i = Some o)
  /\ (exists derived,
        output = derived ++ managedOnly originBlocks botmonBlocks
        /\ map agentKey derived = map agentKey originBlocks)
  /\ NoDup (map agentKey output).
Proof.
  cbn zeta. intros HO HM. rewrite mergeRobotsTxt_parsed.
  split; [|split; [|split]].
  - intros b Hb. by apply keyed_merge_over.
  - intros i o Hi Hout. by apply merged_lookup_base.
  - eexists. split; [reflexivity|]. rewrite map_map. apply map_ext.
    intros r. destruct (KeyedMerge.lastWithKey _ _ _) as [d|] eqn:E; [|done].
    by apply lastWithKey_Some in E as [_ E].
  - by apply keyed_merge_NoDup.
Qed.

End RobotsTxt.

Lemma mergeRobotsTxt_blocks_witness :
  let originContent :=
    RobotsBlocks.file ["User-agent: *"; "Disallow: /admin"; "";
                       "User-agent: GPTBot"; "Allow: /"]%string in
  let botmonContent :=
    RobotsBlocks.file ["User-agent: gptbot"; "Disallow: /"; "";
                       "User-agent: ClaudeBot"; "Disallow: /private"]%string in
  MergeUtils.mergeRobotsTxt originContent botmonContent
  = RobotsBlocks.file ["User-agent: *"; "Disallow: /admin"; "";
                       "User-agent: gptbot"; "Disallow: /"; "";
                       "User-agent: ClaudeBot"; "Disallow: /private"]%string
  /\ NoDup (map RobotsBlocks.agentKey
              (MergeUtils.parseRobotsTxt
                 (MergeUtils.mergeRobotsTxt originContent botmonContent))).
Proof.
  cbn zeta. split; [by vm_compute|].
  apply mergeRobotsTxt_blocks.
  - apply (bool_decide_unpack _). by vm_compute.
  - apply (bool_decide_unpack _). by vm_compute.
Defined.

(* ===================================================================== *)
(** * Headings: the expression of [enrichHeadings] and its replacement     *)
(* ===================================================================== *)

Ltac split_ifs :=
  repeat match goal with
         | |- context [if ?b then _ else _] => destruct b
         end.

Section HeadingExpression.
Import JsString JsRegExp Closed HeadingEnricher Headings.

(** *** The tests of the expression, character by character *)

Lemma canon_lt c :
  bool_decide (canon true c = canon true "<") = bool_decide (c = "<"%char).
Proof. destruct c as [[] [] [] [] [] [] [] []]; reflexivity. Qed.

Lemma canon_gt c :
  bool_decide (canon true c = canon true ">") = bool_decide (c = ">"%char).
Proof. destruct c as [[] [] [] [] [] [] [] []]; reflexivity. Qed.

Lemma canon_slash c :
  bool_decide (canon true c = canon true "/") = bool_decide (c = "/"%char).
Proof. destruct c as [[] [] [] [] [] [] [] []]; reflexivity. Qed.

Lemma canon_h c : bool_decide (canon true c = canon true "h") = isH c.
Proof. destruct c as [[] [] [] [] [] [] [] []]; reflexivity. Qed.

Lemma class_level c : classMatches true false [CRange "1" "6"] c = isLevel c.
Proof. destruct c as [[] [] [] [] [] [] [] []]; reflexivity. Qed.

Lemma class_notGt c :
  classMatches true true [CChar ">"] c = negb (bool_decide (c = ">"%char)).
Proof. destruct c as [[] [] [] [] [] [] [] []]; reflexivity. Qed.

Lemma class_any c : classMatches true false [CSpace false; CSpace true] c = true.
Proof. destruct c as [[] [] [] [] [] [] [] []]; reflexivity. Qed.

Lemma isLevel_cases d :
  isLevel d = true ->
  d = "1"%char \/ d = "2"%char \/ d = "3"%char \/ d = "4"%char
  \/ d = "5"%char \/ d = "6"%char.
Proof.
  destruct d as [[] [] [] [] [] [] [] []]; intros H; try discriminate H; tauto.
Qed.

Lemma canon_level d c :
  isLevel d = true ->
  bool_decide (canon true d = canon true c) = bool_decide (c = d).
Proof.
  intros Hd.
  destruct (isLevel_cases d Hd) as [->|[->|[->|[->|[->| ->]]]]];
    destruct c as [[] [] [] [] [] [] [] []]; reflexivity.
Qed.

(** *** The expression, part by part *)

Lemma heading_re_parts :
  pattern heading_re
  = Seq (Char "<")
      (Seq (Char "h") (Seq (Group 1 (Class false [CRange "1" "6"])) attrsRe)).
Proof. reflexivity. Qed.

Lemma step_at ok s i caps k :
  step ok (at_ s i caps) k
  = match s with
    | c :: s' => if ok c then k (at_ s' (S i) caps) else None
    | [] => None
    end.
Proof. destruct s; [done | apply step_cons]. Qed.

Lemma m_close d r j caps :
  isLevel d = true -> caps !! 1 = Some (Some [d]) ->
  m true closeRe (at_ r j caps) Some
  = if closes d r then Some (at_ (drop 5 r) (j + 5) caps) else None.
Proof.
  intros Hd Hc. unfold closeRe. cbn [m].
  rewrite step_at. destruct r as [|a r]; [done|]. rewrite canon_lt.
  rewrite step_at. destruct r as [|b r]; [cbn; by split_ifs|].
  rewrite canon_slash.
  rewrite step_at. destruct r as [|c r]; [cbn; by split_ifs|].
  rewrite canon_h. cbn [captures at_ rest]. rewrite Hc.
  destruct r as [|e [|f r]]; [cbn; by split_ifs| |].
  { cbn [startsWithCanon]. rewrite canon_level, andb_true_r by done.
    cbn. by split_ifs. }
  cbn [startsWithCanon]. rewrite canon_level, andb_true_r by done.
  unfold step, advance. cbn [rest index captures at_ length drop].
  rewrite canon_gt. unfold closes.
  replace (S (S (S j)) + 1 + 1) with (j + 5) by lia.
  by destruct (bool_decide (a = "<"%char)), (bool_decide (b = "/"%char)),
    (isH c), (bool_decide (e = d)), (bool_decide (f = ">"%char)).
Qed.

Lemma upToClose_unfold d t :
  upToClose d t
  = if closes d t then Some ([], t)
    else match t with
         | [] => None
         | c :: t' =>
             match upToClose d t' with
             | Some (content, r) => Some (c :: content, r)
             | None => None
             end
         end.
Proof. by destruct t. Qed.

Lemma starLazy_unfold ok k s i caps :
  starLazy ok k s i caps
  = orElse (k (at_ s i caps))
      match s with
      | c :: s' => if ok c then starLazy ok k s' (S i) caps else None
      | [] => None
      end.
Proof. by destruct s. Qed.

Lemma setCapture_at n v s i caps :
  setCapture n v (at_ s i caps) = at_ s i (<[n := v]> caps).
Proof. reflexivity. Qed.

Lemma index_at s i caps : index (at_ s i caps) = i.
Proof. reflexivity. Qed.

Lemma rest_at s i caps : rest (at_ s i caps) = s.
Proof. reflexivity. Qed.

Lemma m_Seq ic r1 r2 x k :
  m ic (Seq r1 r2) x k = m ic r1 x (fun y => m ic r2 y k).
Proof. reflexivity. Qed.

Lemma m_Group ic n r1 x k :
  m ic (Group n r1) x k
  = m ic r1 x
      (fun y => k (setCapture n (Some (take (index y - index x) (rest x))) y)).
Proof. reflexivity. Qed.

Lemma orElse_None_r {A} (a : option A) : orElse a None = a.
Proof. by destruct a. Qed.

(** The content: the shortest text that a closing tag follows. *)
Lemma lazy_content d t j caps pre s :
  isLevel d = true -> caps !! 1 = Some (Some [d]) ->
  t = pre ++ s ->
  starLazy (classMatches true false [CSpace false; CSpace true])
    (fun y => m true closeRe
                (setCapture 3 (Some (take (index y - j) t)) y) Some)
    s (j + length pre) caps
  = match upToClose d s with
    | Some (content, r) =>
        Some (at_ (drop 5 r) (j + length (pre ++ content) + 5)
                (<[3 := Some (pre ++ content)]> caps))
    | None => None
    end.
Proof.
  intros Hd Hc. revert pre. induction s as [|c s IH]; intros pre ->.
  - rewrite starLazy_unfold. cbn beta. rewrite setCapture_at, index_at.
    replace (j + length pre - j) with (length pre) by lia.
    rewrite take_app_length.
    rewrite (m_close d) by (by rewrite ?list_lookup_insert_ne).
    rewrite upToClose_unfold. by destruct (closes d []) eqn:E.
  - rewrite starLazy_unfold. cbn beta. rewrite setCapture_at, index_at.
    replace (j + length pre - j) with (length pre) by lia.
    rewrite take_app_length.
    rewrite (m_close d) by (by rewrite ?list_lookup_insert_ne).
    rewrite upToClose_unfold. destruct (closes d (c :: s)) eqn:E.
    + cbn [orElse]. by rewrite !app_nil_r.
    + cbn [orElse]. rewrite class_any.
      specialize (IH (pre ++ [c])). rewrite <- app_assoc in IH.
      specialize (IH eq_refl). rewrite length_app in IH. cbn [length] in IH.
      replace (j + (length pre + 1)) with (S (j + length pre)) in IH by lia.
      rewrite IH. destruct (upToClose d s) as [[content r]|]; [|done].
      by rewrite <- !app_assoc.
Qed.

Lemma m_content d t j caps :
  isLevel d = true -> caps !! 1 = Some (Some [d]) ->
  m true contentRe (at_ t j caps) Some
  = match upToClose d t with
    | Some (content, r) =>
        Some (at_ (drop 5 r) (j + length content + 5)
                (<[3 := Some content]> caps))
    | None => None
    end.
Proof.
  intros Hd Hc. unfold contentRe. rewrite m_Seq, m_Group.
  rewrite (m_star_lazy true _ (classMatches true false [CSpace false; CSpace true]))
    by reflexivity.
  rewrite index_at, rest_at.
  pose proof (lazy_content d t j caps [] t Hd Hc eq_refl) as H.
  cbn [length app] in H. rewrite Nat.add_0_r in H. exact H.
Qed.

(** The attributes: the text before the first [>]. *)
Lemma greedy_attrs t j caps pre s :
  t = pre ++ s ->
  starGreedy (classMatches true true [CChar ">"])
    (fun y => m true (Seq (Char ">") contentRe)
                (setCapture 2 (Some (take (index y - j) t)) y) Some)
    s (j + length pre) caps
  = match upToGt s with
    | Some (a, t') =>
        m true contentRe
          (at_ t' (j + length (pre ++ a) + 1) (<[2 := Some (pre ++ a)]> caps))
          Some
    | None => None
    end.
Proof.
  revert pre. induction s as [|c s IH]; intros pre ->.
  - cbn [starGreedy upToGt]. rewrite setCapture_at. reflexivity.
  - cbn [starGreedy upToGt]. rewrite class_notGt.
    rewrite setCapture_at, index_at, m_Seq.
    replace (j + length pre - j) with (length pre) by lia.
    rewrite take_app_length.
    rewrite (m_atom true (Char ">") _ _ _ eq_refl), step_cons.
    cbn [atomTest]. rewrite canon_gt.
    destruct (bool_decide (c = ">"%char)) eqn:E; cbn [negb].
    + rewrite app_nil_r. by replace (j + length pre + 1) with (S (j + length pre)) by lia.
    + rewrite orElse_None_r.
      specialize (IH (pre ++ [c])). rewrite <- app_assoc in IH.
      specialize (IH eq_refl). rewrite length_app in IH. cbn [length] in IH.
      replace (j + (length pre + 1)) with (S (j + length pre)) in IH by lia.
      rewrite IH. destruct (upToGt s) as [[a t']|]; [|done].
      by rewrite <- !app_assoc.
Qed.

Lemma m_attrs t j caps :
  m true attrsRe (at_ t j caps) Some
  = match upToGt t with
    | Some (a, t') =>
        m true contentRe (at_ t' (j + length a + 1) (<[2 := Some a]> caps)) Some
    | None => None
    end.
Proof.
  unfold attrsRe. rewrite m_Seq, m_Group.
  rewrite (m_star_greedy true _ (classMatches true true [CChar ">"]))
    by reflexivity.
  rewrite index_at, rest_at.
  pose proof (greedy_attrs t j caps [] t eq_refl) as H.
  cbn [length app] in H. rewrite Nat.add_0_r in H. exact H.
Qed.

Lemma upToGt_Some t a t' :
  upToGt t = Some (a, t') -> t = a ++ ">"%char :: t' /\ ">"%char ∉ a.
Proof.
  revert a. induction t as [|c t IH]; intros a; [done|]. cbn [upToGt].
  case_bool_decide as Hc.
  - intros [= <- <-]. subst c. split; [done|]. apply not_elem_of_nil.
  - destruct (upToGt t) as [[a0 r]|]; [|done]. intros [= <- <-].
    destruct (IH a0 eq_refl) as [-> Hn]. split; [done|].
    apply not_elem_of_cons. split; [congruence | done].
Qed.

Lemma upToClose_Some d t content r :
  upToClose d t = Some (content, r) ->
  t = content ++ r /\ closes d r = true.
Proof.
  revert content. induction t as [|c t IH]; intros content;
    rewrite upToClose_unfold.
  - destruct (closes d []) eqn:E; [|done]. by intros [= <- <-].
  - destruct (closes d (c :: t)) eqn:E; [by intros [= <- <-]|].
    destruct (upToClose d t) as [[c0 r0]|]; [|done]. intros [= <- <-].
    destruct (IH c0 eq_refl) as [-> Hr]. by split.
Qed.

Lemma closes_shape d r :
  closes d r = true ->
  exists hc after,
    r = "<"%char :: "/"%char :: hc :: d :: ">"%char :: after
    /\ isH hc = true.
Proof.
  destruct r as [|a [|b [|c [|e [|f r]]]]]; try done. unfold closes.
  intros ((((Ha%bool_decide_eq_true & Hb%bool_decide_eq_true)%andb_true_iff
            & Hc)%andb_true_iff
           & He%bool_decide_eq_true)%andb_true_iff
          & Hf%bool_decide_eq_true)%andb_true_iff.
  subst. by exists c, r.
Qed.

(** The whole expression at the beginning of [s]. *)
Lemma m_heading s i :
  m true (pattern heading_re) (at_ s i (replicate 4 None)) Some
  = (fun h => at_ (h_after h) (i + length (text h))
                [None; Some [h_level h]; Some (h_attrs h);
                 Some (h_content h)])
    <$> headingAt s.
Proof.
  rewrite heading_re_parts. cbn [m].
  rewrite step_at. destruct s as [|c1 s]; [done|]. rewrite canon_lt.
  destruct (bool_decide (c1 = "<"%char)) eqn:E1;
    [|destruct s as [|? [|? ?]]; try done; cbn [headingAt]; by rewrite E1].
  rewrite step_at. destruct s as [|c2 s]; [done|]. rewrite canon_h.
  destruct (isH c2) eqn:E2;
    [|destruct s as [|? ?]; try done; cbn [headingAt]; by rewrite E1, E2].
  rewrite step_at. destruct s as [|c3 t]; [done|]. rewrite class_level.
  cbn [headingAt]. rewrite E1, E2. cbn [andb].
  destruct (isLevel c3) eqn:E3; [|done].
  rewrite setCapture_at, !index_at, rest_at.
  replace (S (S (S i)) - S (S i)) with 1 by lia.
  cbn [take replicate]. rewrite m_attrs.
  destruct (upToGt t) as [[a t']|] eqn:Ea; [|done].
  rewrite (m_content c3) by done.
  destruct (upToClose c3 t') as [[content r]|] eqn:Ec; [|done].
  destruct (upToClose_Some _ _ _ _ Ec) as [_ Hr].
  destruct (closes_shape _ _ Hr) as (hc & after & -> & Hh).
  cbn [fmap option_fmap option_map drop h_after h_level h_attrs h_content].
  f_equal. unfold at_. f_equal.
  unfold text. cbn [length h_open h_level h_attrs h_content h_close].
  rewrite !length_app. cbn [length]. rewrite !length_app. cbn [length]. lia.
Qed.

(** *** What [headingAt] finds *)

Lemma upToGt_app a t' :
  ">"%char ∉ a -> upToGt (a ++ ">"%char :: t') = Some (a, t').
Proof.
  induction a as [|c a IH]; intros Ha; [done|].
  apply not_elem_of_cons in Ha as [Hc Ha]. cbn [app upToGt].
  rewrite bool_decide_eq_false_2 by congruence. by rewrite IH.
Qed.

Lemma headingAt_inv s h :
  headingAt s = Some h ->
  exists t',
    s = "<"%char :: h_open h :: h_level h :: h_attrs h ++ ">"%char :: t'
    /\ isH (h_open h) = true /\ isLevel (h_level h) = true
    /\ (">"%char ∉ h_attrs h)
    /\ upToClose (h_level h) t'
       = Some (h_content h,
               "<"%char :: "/"%char :: h_close h :: h_level h :: ">"%char
               :: h_after h)
    /\ isH (h_close h) = true.
Proof.
  destruct s as [|c1 [|c2 [|c3 t]]]; try done. cbn [headingAt].
  destruct (bool_decide (c1 = "<"%char)) eqn:E1; [|done].
  destruct (isH c2) eqn:E2; [|done].
  destruct (isLevel c3) eqn:E3; [|done]. cbn [andb].
  destruct (upToGt t) as [[a t']|] eqn:Ea; [|done].
  destruct (upToClose c3 t') as [[content r]|] eqn:Ec; [|done].
  destruct (upToClose_Some _ _ _ _ Ec) as [_ Hr].
  destruct (closes_shape _ _ Hr) as (hc & after & -> & Hh).
  intros [= <-]. cbn.
  apply bool_decide_eq_true in E1 as ->.
  apply upToGt_Some in Ea as [-> Ha]. by exists t'.
Qed.

Lemma headingAt_intro o d a t' content hc after :
  isH o = true -> isLevel d = true -> ">"%char ∉ a ->
  upToClose d t'
  = Some (content, "<"%char :: "/"%char :: hc :: d :: ">"%char :: after) ->
  headingAt ("<"%char :: o :: d :: a ++ ">"%char :: t')
  = Some {| h_open := o; h_level := d; h_attrs := a; h_content := content;
            h_close := hc; h_after := after |}.
Proof.
  intros Ho Hd Ha Hc. cbn [headingAt].
  rewrite Ho, Hd, upToGt_app, Hc by done. done.
Qed.

Lemma headingAt_text s h : headingAt s = Some h -> s = text h ++ h_after h.
Proof.
  intros (t' & -> & _ & _ & _ & Hc & _)%headingAt_inv.
  apply upToClose_Some in Hc as [-> _]. unfold text.
  cbn [app]. do 3 f_equal. rewrite <- !app_assoc. cbn [app]. f_equal.
  f_equal. by rewrite <- app_assoc.
Qed.

Lemma matchAt_heading s i :
  matchAt heading_re s i = toMatch i <$> headingAt s.
Proof.
  unfold matchAt.
  change (m (ignoreCase heading_re) (pattern heading_re)
            {| rest := s; index := i;
               captures := replicate (S (ngroups heading_re)) None |} Some)
    with (m true (pattern heading_re) (at_ s i (replicate 4 None)) Some).
  rewrite m_heading. destruct (headingAt s) as [h|] eqn:E; [|done].
  cbn [fmap option_fmap option_map at_ index rest captures].
  unfold toMatch. f_equal. f_equal.
  rewrite (headingAt_text _ _ E) at 1.
  replace (i + length (text h) - i) with (length (text h)) by lia.
  by rewrite take_app_length.
Qed.

(** *** The replacement, heading by heading *)

Lemma enrichOne_toMatch pageType n i h :
  enrichOne pageType n (toMatch i h) = (out pageType n h, S n).
Proof.
  unfold out, enrichOne. cbn zeta.
  change (group (toMatch i h) 2) with (group (toMatch 0 h) 2).
  by destruct (includes _ _).
Qed.

Lemma replaceFrom_Enriched pageType fuel s i n :
  length s < fuel ->
  Enriched pageType n s (replaceFrom fuel heading_re s i (enrichOne pageType) n).
Proof.
  revert s i n. induction fuel as [|fuel IHf]; intros s i n Hlen; [lia|].
  revert i. induction s as [|c s IHs]; intros i.
  - rewrite replaceFrom_nil by done. constructor.
  - destruct (headingAt (c :: s)) as [h|] eqn:E.
    + pose proof (matchAt_heading (c :: s) i) as Hm. rewrite E in Hm.
      cbn [fmap option_fmap option_map] in Hm.
      rewrite (replaceFrom_here _ _ _ _ _ _ _ _ _ _ Hm eq_refl).
      rewrite enrichOne_toMatch. cbn [fst snd m_after m_text toMatch].
      apply Enriched_here; [done|]. apply IHf.
      apply headingAt_text in E. apply (f_equal length) in E.
      rewrite length_app in E. unfold text in E. cbn [length] in *. lia.
    + pose proof (matchAt_heading (c :: s) i) as Hm. rewrite E in Hm.
      rewrite (replaceFrom_skip _ _ _ _ _ _ _ Hm).
      apply Enriched_skip; [done|]. apply IHs. cbn [length] in Hlen. lia.
Qed.

Lemma enrichHeadings_Enriched html pageType :
  Enriched pageType 0 html (enrichHeadings html pageType).
Proof. apply replaceFrom_Enriched. lia. Qed.

Lemma Enriched_functional pageType n s y y' :
  Enriched pageType n s y -> Enriched pageType n s y' -> y = y'.
Proof.
  intros H. revert y'.
  induction H as [n|n c s y Hn H IH|n s h y Hh H IH]; intros y' H'.
  - inversion H' as [| |n0 s0 h0 y0 Hh0 H0]; subst; [done|].
    by cbn in Hh0.
  - inversion H' as [|n0 c0 s0 y0 Hn0 H0|n0 s0 h0 y0 Hh0 H0]; subst.
    + f_equal. by apply IH.
    + congruence.
  - inversion H' as [|n0 c0 s0 y0 Hn0 H0|n0 s0 h0 y0 Hh0 H0]; subst.
    + by cbn in Hh.
    + congruence.
    + rewrite Hh in Hh0. injection Hh0 as <-. f_equal. by apply IH.
Qed.

End HeadingExpression.

(** ** A second run finds the headings of the first, and no other *)
Section HeadingsAgain.
Import JsString JsRegExp Closed HeadingEnricher Headings.

(** *** The added attributes *)

Lemma digit_char k :
  k < 10 ->
  ascii_of_nat (48 + k) <> "<"%char /\ ascii_of_nat (48 + k) <> ">"%char.
Proof.
  intros Hk. do 10 (destruct k as [|k]; [by vm_compute|]). lia.
Qed.

Lemma digitsFuel_chars fuel n acc :
  Forall (fun c => c <> "<"%char /\ c <> ">"%char) acc ->
  Forall (fun c => c <> "<"%char /\ c <> ">"%char) (digitsFuel fuel n acc).
Proof.
  revert n acc. induction fuel as [|fuel IH]; intros n acc Hacc; [done|].
  cbn [digitsFuel].
  assert (Forall (fun c => c <> "<"%char /\ c <> ">"%char)
            (ascii_of_nat (48 + n mod 10) :: acc)) as Hacc'.
  { constructor; [|done]. apply digit_char.
    apply Nat.mod_upper_bound. lia. }
  destruct (n <? 10); [done|]. by apply IH.
Qed.

Lemma inert_added pageType n d :
  isLevel d = true -> inert (added pageType n d).
Proof.
  intros Hd.
  assert (Forall (fun c => c <> "<"%char /\ c <> ">"%char)
            (added pageType n d)) as H.
  { unfold added. repeat (apply Forall_app; split).
    all: try (apply (bool_decide_unpack _); by vm_compute).
    - apply digitsFuel_chars. constructor.
    - apply Forall_singleton.
      destruct (isLevel_cases d Hd) as [->|[->|[->|[->|[->| ->]]]]];
        by split.
    - destruct pageType; apply (bool_decide_unpack _); by vm_compute. }
  split; [by eexists|]. split.
  - intros Hin. eapply Forall_forall in H as [H _]; [|exact Hin]. done.
  - intros Hin. eapply Forall_forall in H as [_ H]; [|exact Hin]. done.
Qed.

Lemma indexOf_unfold s p :
  indexOf s p
  = if startsWith s p then Some 0
    else match s with
         | [] => None
         | _ :: s' => S <$> indexOf s' p
         end.
Proof. by destruct s. Qed.

Lemma includes_app a b c : includes (a ++ b ++ c) b = true.
Proof.
  unfold includes. induction a as [|x a IH]; rewrite indexOf_unfold.
  - cbn [app]. by rewrite startsWith_app.
  - destruct (startsWith ((x :: a) ++ b ++ c) b); [done|]. cbn [app].
    by destruct (indexOf (a ++ b ++ c) b).
Qed.

Lemma includes_added a pageType n d :
  includes (a ++ added pageType n d) marker = true.
Proof.
  assert (added pageType n d
          = [" "%char] ++ marker
            ++ drop (S (length marker)) (added pageType n d)) as -> by done.
  rewrite app_assoc. apply includes_app.
Qed.

(** *** What takes the place of a heading *)

Lemma out_skip pageType n h :
  includes (h_attrs h) marker = true -> out pageType n h = text h.
Proof.
  intros Hi. unfold out, enrichOne. cbn zeta.
  change (group (toMatch 0 h) 2 ?? []) with (h_attrs h). by rewrite Hi.
Qed.

Lemma out_enrich pageType n h :
  includes (h_attrs h) marker = false ->
  out pageType n h
  = text {| h_open := "h"; h_level := h_level h;
            h_attrs := h_attrs h ++ added pageType n (h_level h);
            h_content := h_content h; h_close := "h"; h_after := [] |}.
Proof.
  intros Hi. unfold out, enrichOne. cbn zeta.
  change (group (toMatch 0 h) 2 ?? []) with (h_attrs h). rewrite Hi.
  unfold text, added. cbn [fst toMatch group m_groups lookup list_lookup nullish
    h_open h_level h_attrs h_content h_close lit list_ascii_of_string app].
  rewrite <- !app_assoc. reflexivity.
Qed.

(** *** The output against the input *)

Lemma Touched_refl s : Touched s s.
Proof. induction s; by constructor. Qed.

Lemma Touched_app w s y : Touched s y -> Touched (w ++ s) (w ++ y).
Proof. intros H. induction w; [done|]. by apply Touched_copy. Qed.

Lemma isH_h : isH "h" = true.
Proof. reflexivity. Qed.

Lemma Touched_out pageType n h y :
  isH (h_open h) = true -> isH (h_close h) = true ->
  isLevel (h_level h) = true ->
  Touched (h_after h) y ->
  Touched (text h ++ h_after h) (out pageType n h ++ y).
Proof.
  intros Ho Hc Hd Hy. destruct (includes (h_attrs h) marker) eqn:Hi.
  - rewrite out_skip by done. by apply Touched_app.
  - rewrite out_enrich by done. unfold text.
    cbn [h_open h_level h_attrs h_content h_close app].
    repeat (rewrite <- app_assoc; cbn [app]).
    apply Touched_copy, Touched_h; [done..|]. apply Touched_copy.
    apply Touched_app. apply Touched_added; [by apply inert_added|].
    apply Touched_app. do 2 apply Touched_copy.
    apply Touched_h; [done..|]. by do 2 apply Touched_copy.
Qed.

Lemma Enriched_Touched pageType n s y :
  Enriched pageType n s y -> Touched s y.
Proof.
  induction 1 as [n|n c s y Hn H IH|n s h y Hh H IH].
  - constructor.
  - by constructor.
  - rewrite (headingAt_text _ _ Hh) at 1.
    destruct (headingAt_inv _ _ Hh) as (t' & _ & Ho & Hd & _ & _ & Hc).
    by apply Touched_out.
Qed.

Lemma Touched_cons_inv s c y :
  Touched s (c :: y) -> c <> " "%char ->
  exists b s',
    s = b :: s' /\ (b = c \/ (isH b = true /\ isH c = true)) /\ Touched s' y.
Proof.
  intros H Hc. inversion H as [|c0 s0 y0 H0|a b s0 y0 Ha Hb H0|w s0 y0 Hw H0];
    subst.
  - exists c, s0. auto.
  - exists a, s0. auto.
  - destruct Hw as [[w' ->] _].
    match goal with Heq : _ ++ _ = _ |- _ => injection Heq as <- _ end.
    done.
Qed.

Lemma Touched_upToGt s y a2 t2 :
  Touched s y -> upToGt y = Some (a2, t2) ->
  exists a t, upToGt s = Some (a, t) /\ Touched t t2.
Proof.
  intros H. revert a2.
  induction H as [|c s y H IH|a b s y Ha Hb H IH|w s y Hw H IH]; intros a2.
  - done.
  - cbn [upToGt]. destruct (bool_decide (c = ">"%char)).
    + intros [= <- <-]. by exists [], s.
    + destruct (upToGt y) as [[a0 r]|]; [|done]. intros [= <- <-].
      destruct (IH a0 eq_refl) as (a1 & t & -> & Ht). by exists (c :: a1), t.
  - cbn [upToGt].
    assert (bool_decide (a = ">"%char) = false) as ->.
    { apply bool_decide_eq_false. intros ->. discriminate Ha. }
    assert (bool_decide (b = ">"%char) = false) as ->.
    { apply bool_decide_eq_false. intros ->. discriminate Hb. }
    destruct (upToGt y) as [[a0 r]|]; [|done]. intros [= <- <-].
    destruct (IH a0 eq_refl) as (a1 & t & -> & Ht). by exists (a :: a1), t.
  - destruct Hw as (_ & _ & Hgt). rewrite upToGt_app by done.
    intros [= <- <-]. by exists [], s.
Qed.

Lemma isLevel_not_H d : isLevel d = true -> isH d = false.
Proof.
  intros Hd.
  by destruct (isLevel_cases d Hd) as [->|[->|[->|[->|[->| ->]]]]].
Qed.

Lemma isLevel_not_space d : isLevel d = true -> d <> " "%char.
Proof. by intros Hd ->. Qed.

Lemma isH_not_space c : isH c = true -> c <> " "%char.
Proof. by intros Hc ->. Qed.

Lemma closes_intro d hc after :
  isH hc = true ->
  closes d ("<"%char :: "/"%char :: hc :: d :: ">"%char :: after) = true.
Proof.
  intros Hh. unfold closes. rewrite Hh.
  by rewrite !bool_decide_eq_true_2.
Qed.

Lemma Touched_closes d s y :
  isLevel d = true -> Touched s y -> closes d y = true -> closes d s = true.
Proof.
  intros Hd H (hc & after & -> & Hh)%closes_shape.
  apply Touched_cons_inv in H as (b1 & s1 & -> & [->|[_ ?]] & T1);
    [|done|done].
  apply Touched_cons_inv in T1 as (b2 & s2 & -> & [->|[_ ?]] & T2);
    [|done|done].
  apply Touched_cons_inv in T2 as (b3 & s3 & -> & H3 & T3);
    [|by apply isH_not_space].
  apply Touched_cons_inv in T3 as (b4 & s4 & -> & H4 & T4);
    [|by apply isLevel_not_space].
  apply Touched_cons_inv in T4 as (b5 & s5 & -> & [->|[_ ?]] & T5);
    [|done|done].
  assert (b4 = d) as ->.
  { destruct H4 as [->|[_ H4]]; [done|]. by rewrite isLevel_not_H in H4. }
  apply closes_intro. by destruct H3 as [->|[? _]].
Qed.

Lemma upToClose_cons d c t :
  is_Some (upToClose d t) -> is_Some (upToClose d (c :: t)).
Proof.
  intros [[content r] H]. rewrite upToClose_unfold, H.
  by destruct (closes d (c :: t)).
Qed.

Lemma upToClose_cons_inv d c t :
  is_Some (upToClose d (c :: t)) ->
  closes d (c :: t) = true \/ is_Some (upToClose d t).
Proof.
  rewrite upToClose_unfold. destruct (closes d (c :: t)); [by left|].
  destruct (upToClose d t) as [[? ?]|]; [by right | by intros [? ?]].
Qed.

Lemma upToClose_here d t : closes d t = true -> is_Some (upToClose d t).
Proof. intros H. rewrite upToClose_unfold, H. by eexists. Qed.

Lemma closes_lt d c t : closes d (c :: t) = true -> c = "<"%char.
Proof.
  intros (hc & after & Heq & _)%closes_shape. by injection Heq as -> _.
Qed.

Lemma upToClose_added d w y :
  "<"%char ∉ w -> is_Some (upToClose d (w ++ ">"%char :: y)) ->
  is_Some (upToClose d y).
Proof.
  induction w as [|c w IH]; cbn [app].
  - intros _ [H%closes_lt|H]%upToClose_cons_inv; done.
  - intros [Hc Hw]%not_elem_of_cons [H%closes_lt|H]%upToClose_cons_inv;
      [congruence | by apply IH].
Qed.

Lemma Touched_upToClose d s y :
  isLevel d = true -> Touched s y ->
  is_Some (upToClose d y) -> is_Some (upToClose d s).
Proof.
  intros Hd H.
  induction H as [|c s y H IH|a b s y Ha Hb H IH|w s y Hw H IH].
  - done.
  - intros [Hc|Hy]%upToClose_cons_inv.
    + apply upToClose_here.
      apply (Touched_closes d (c :: s) (c :: y)); [done| |done].
      by constructor.
    + by apply upToClose_cons, IH.
  - intros [Hc|Hy]%upToClose_cons_inv.
    + apply closes_lt in Hc as ->. discriminate Hb.
    + by apply upToClose_cons, IH.
  - intros Hy. apply upToClose_cons, IH.
    destruct Hw as (_ & Hlt & _). by eapply upToClose_added.
Qed.

(** No heading appears where there was none. *)
Lemma headingAt_Touched s y :
  Touched s y -> headingAt s = None -> headingAt y = None.
Proof.
  intros H Hs. destruct (headingAt y) as [h|] eqn:Hy; [exfalso|done].
  destruct (headingAt_inv _ _ Hy) as (t2 & -> & Ho & Hd & Hgt & Hc & Hh).
  apply Touched_cons_inv in H as (b1 & s1 & -> & [->|[_ ?]] & T1);
    [|done|done].
  apply Touched_cons_inv in T1 as (b2 & s2 & -> & H2 & T2);
    [|by apply isH_not_space].
  apply Touched_cons_inv in T2 as (b3 & s3 & -> & H3 & T3);
    [|by apply isLevel_not_space].
  assert (b3 = h_level h) as ->.
  { destruct H3 as [->|[_ H3]]; [done|]. by rewrite isLevel_not_H in H3. }
  assert (isH b2 = true) as Hb2 by (by destruct H2 as [->|[? _]]).
  destruct (Touched_upToGt _ _ _ _ T3 (upToGt_app _ _ Hgt))
    as (a & t & Ha & Ht).
  destruct (Touched_upToClose (h_level h) t t2 Hd Ht) as [[content r] Hr];
    [by rewrite Hc|].
  destruct (upToClose_Some _ _ _ _ Hr) as [_ Hcl].
  destruct (closes_shape _ _ Hcl) as (hc & after & -> & _).
  cbn [headingAt] in Hs. by rewrite Hb2, Hd, Ha, Hr in Hs.
Qed.

(** *** A heading of the output is found again, as a whole *)

Lemma closes_before d c content hc after hc' after' :
  isLevel d = true ->
  closes d (c :: content
            ++ "<"%char :: "/"%char :: hc :: d :: ">"%char :: after) = false ->
  closes d (c :: content
            ++ "<"%char :: "/"%char :: hc' :: d :: ">"%char :: after') = false.
Proof.
  intros Hd Hn.
  destruct (closes d (c :: content ++ _ :: _ :: hc' :: _)) eqn:E; [|done].
  exfalso. apply closes_shape in E as (h2 & a2 & Heq & Hh2).
  destruct content as [|x0 [|x1 [|x2 [|x3 content]]]]; cbn [app] in *.
  - by injection Heq.
  - injection Heq as _ _ <-. discriminate Hh2.
  - injection Heq as _ _ _ <-. discriminate Hd.
  - by injection Heq.
  - injection Heq as -> -> -> -> ->.
    unfold closes in Hn. rewrite Hh2 in Hn.
    by rewrite !bool_decide_eq_true_2 in Hn.
Qed.

Lemma upToClose_again d content hc after hc' after' :
  isLevel d = true -> isH hc' = true ->
  upToClose d (content ++ "<"%char :: "/"%char :: hc :: d :: ">"%char :: after)
  = Some (content, "<"%char :: "/"%char :: hc :: d :: ">"%char :: after) ->
  upToClose d
    (content ++ "<"%char :: "/"%char :: hc' :: d :: ">"%char :: after')
  = Some (content, "<"%char :: "/"%char :: hc' :: d :: ">"%char :: after').
Proof.
  intros Hd Hh. induction content as [|c content IH]; cbn [app].
  - intros _. by rewrite upToClose_unfold, closes_intro.
  - rewrite !(upToClose_unfold d (c :: _)).
    destruct (closes d (c :: content ++ _ :: _ :: hc :: _)) eqn:E; [done|].
    rewrite (closes_before _ _ _ _ _ _ _ Hd E).
    destruct (upToClose d (content ++ _ :: _ :: hc :: _)) as [[c0 r0]|] eqn:E0;
      [|done].
    intros [= -> ->]. by rewrite IH.
Qed.

Lemma out_again pageType n k s h y :
  headingAt s = Some h ->
  exists h',
    headingAt (out pageType n h ++ y) = Some h'
    /\ h_after h' = y
    /\ out pageType k h' = out pageType n h.
Proof.
  intros (t' & _ & Ho & Hd & Hgt & Hc & Hh)%headingAt_inv.
  destruct (upToClose_Some _ _ _ _ Hc) as [-> _].
  destruct (includes (h_attrs h) marker) eqn:Hi.
  - exists {| h_open := h_open h; h_level := h_level h;
              h_attrs := h_attrs h; h_content := h_content h;
              h_close := h_close h; h_after := y |}.
    split; [|split; [done|]].
    + rewrite out_skip by done. unfold text. cbn [app].
      repeat (rewrite <- app_assoc; cbn [app]).
      apply headingAt_intro; [done..|].
      by apply (upToClose_again _ _ (h_close h) (h_after h)).
    + by rewrite !out_skip.
  - exists {| h_open := "h"; h_level := h_level h;
              h_attrs := h_attrs h ++ added pageType n (h_level h);
              h_content := h_content h; h_close := "h"; h_after := y |}.
    split; [|split; [done|]].
    + rewrite out_enrich by done. unfold text.
      cbn [h_open h_level h_attrs h_content h_close app].
      repeat (rewrite <- app_assoc; cbn [app]).
      rewrite (app_assoc (h_attrs h)).
      apply headingAt_intro; [done..| |].
      * destruct (inert_added pageType n (h_level h) Hd) as (_ & _ & Hg).
        rewrite elem_of_app. tauto.
      * by apply (upToClose_again _ _ (h_close h) (h_after h)).
    + rewrite out_skip by apply includes_added.
      by rewrite out_enrich.
Qed.

(** The output of a run is its own output. *)
Lemma Enriched_again pageType n s y :
  Enriched pageType n s y -> forall k, Enriched pageType k y y.
Proof.
  induction 1 as [n|n c s y Hn H IH|n s h y Hh H IH]; intros k.
  - constructor.
  - apply Enriched_skip; [|apply IH].
    apply (headingAt_Touched (c :: s)); [|done].
    apply Touched_copy. by eapply Enriched_Touched.
  - destruct (out_again pageType n k s h y Hh) as (h' & Hh' & Hy & Ho).
    rewrite <- Ho at 2. apply Enriched_here; [done|].
    rewrite Hy. apply IH.
Qed.

(** C7: [enrichHeadings] is idempotent, for every input and page type;
    and whatever the counter of sections, a heading whose attributes
    have the marker is replaced by itself, character for character. *)
Theorem enrichHeadings_idempotent html pageType :
  enrichHeadings (enrichHeadings html pageType) pageType
  = enrichHeadings html pageType
  /\ forall s i mt sectionIndex,
       matchAt heading_re s i = Some mt ->
       includes (group mt 2 ?? []) marker = true ->
       enrichOne pageType sectionIndex mt = (m_text mt, S sectionIndex).
Proof.
  split.
  - eapply Enriched_functional; [apply enrichHeadings_Enriched|].
    eapply Enriched_again, enrichHeadings_Enriched.
  - intros s i mt n _ Hi. unfold enrichOne. cbn zeta. by rewrite Hi.
Qed.

End HeadingsAgain.

Lemma enrichHeadings_idempotent_witness :
  let html := lit "<h1>Title</h1><p>x</p><H2 class=a>Sub</H2><h3>open" in
  let once :=
    quoted ["<h1 data-botmon-section="; "1"; " data-botmon-level="; "1";
            " data-botmon-page-type="; "article";
            ">Title</h1><p>x</p><h2 class=a data-botmon-section="; "2";
            " data-botmon-level="; "2"; " data-botmon-page-type="; "article";
            ">Sub</h2><h3>open"] in
  HeadingEnricher.enrichHeadings html article = once
  /\ HeadingEnricher.enrichHeadings once article = once.
Proof.
  cbn zeta.
  assert (HeadingEnricher.enrichHeadings
            (lit "<h1>Title</h1><p>x</p><H2 class=a>Sub</H2><h3>open") article
          = quoted ["<h1 data-botmon-section="; "1"; " data-botmon-level="; "1";
                    " data-botmon-page-type="; "article";
                    ">Title</h1><p>x</p><h2 class=a data-botmon-section="; "2";
                    " data-botmon-level="; "2"; " data-botmon-page-type=";
                    "article"; ">Sub</h2><h3>open"]) as H by (by vm_compute).
  split; [exact H|]. rewrite <- H.
  apply (enrichHeadings_idempotent _ article).
Defined.

(* ===================================================================== *)
(** * Further properties of the robots.txt utilities                       *)
(* ===================================================================== *)

Section RobotsTxtMore.
Import JsString MergeUtils RobotsBlocks.

(** X1: printing the blocks read from a robots.txt file and reading the
    result again gives the same blocks; and every block that is read has
    a trimmed agent on one line and, as rules, non-empty trimmed lines
    that are neither comments nor user-agent lines. *)
Theorem parseRobotsTxt_round_trip content :
  parseRobotsTxt (blocksToString (parseRobotsTxt content))
  = parseRobotsTxt content
  /\ Forall wellFormed (parseRobotsTxt content).
Proof.
  split; [|apply parseRobotsTxt_wellFormed].
  apply parseRobotsTxt_blocksToString, parseRobotsTxt_wellFormed.
Qed.

Lemma merged_nil_r {A} (key : A -> list ascii) base :
  KeyedMerge.merged key base [] = base.
Proof.
  unfold KeyedMerge.merged. cbn [List.filter]. rewrite app_nil_r.
  induction base as [|b base IH]; [done|]. cbn [map]. by rewrite IH.
Qed.

Lemma merged_nil_l {A} (key : A -> list ascii) over :
  KeyedMerge.merged key [] over = over.
Proof.
  unfold KeyedMerge.merged. cbn [map app].
  induction over as [|d over IH]; [done|]. cbn [List.filter].
  rewrite bool_decide_eq_false_2 by apply not_elem_of_nil.
  cbn [negb]. by rewrite IH.
Qed.

(** X2: when one of the two files has no block (it is empty, or holds
    only comments, blank lines and rules without agent), the merge is the
    other file, printed from its blocks. *)
Theorem mergeRobotsTxt_empty_side originContent botmonContent :
  (parseRobotsTxt botmonContent = [] ->
   mergeRobotsTxt originContent botmonContent
   = blocksToString (parseRobotsTxt originContent))
  /\ (parseRobotsTxt originContent = [] ->
      mergeRobotsTxt originContent botmonContent
      = blocksToString (parseRobotsTxt botmonContent)).
Proof.
  unfold mergeRobotsTxt. cbn zeta. rewrite mergeBlocks_closed. split.
  - intros ->. by rewrite merged_nil_r.
  - intros ->. by rewrite merged_nil_l.
Qed.

Lemma merged_keys {A} (key : A -> list ascii) base over :
  map key (KeyedMerge.merged key base over)
  = map key base
    ++ List.filter (fun k => negb (bool_decide (k ∈ map key base)))
         (map key over).
Proof.
  unfold KeyedMerge.merged. rewrite map_app, map_map. f_equal.
  - apply map_ext. intros r.
    destruct (KeyedMerge.lastWithKey key over (key r)) as [d|] eqn:E; [|done].
    by apply lastWithKey_Some in E as [_ E].
  - induction over as [|d over IH]; [done|]. cbn [List.filter map].
    destruct (negb (bool_decide (key d ∈ map key base))); [|done].
    cbn [map]. by rewrite IH.
Qed.

(** X3: the agents of the merged file, lower-cased and in order, are
    those of the origin blocks followed by those of the managed blocks
    that no origin block has: no agent is lost, none is added. *)
Theorem mergeRobotsTxt_agents originContent botmonContent :
  map agentKey (parseRobotsTxt (mergeRobotsTxt originContent botmonContent))
  = map agentKey (parseRobotsTxt originContent)
    ++ List.filter
         (fun k =>
            negb (bool_decide
                    (k ∈ map agentKey (parseRobotsTxt originContent))))
         (map agentKey (parseRobotsTxt botmonContent)).
Proof. rewrite mergeRobotsTxt_parsed. apply merged_keys. Qed.

End RobotsTxtMore.

Lemma mergeRobotsTxt_empty_side_witness :
  MergeUtils.mergeRobotsTxt []
    (RobotsBlocks.file ["# managed"; "User-agent:  GPTBot "; "";
                        "Disallow: /private"]%string)
  = RobotsBlocks.file ["User-agent: GPTBot"; "Disallow: /private"]%string.
Proof.
  destruct (mergeRobotsTxt_empty_side []
              (RobotsBlocks.file ["# managed"; "User-agent:  GPTBot "; "";
                                  "Disallow: /private"]%string)) as [_ H].
  rewrite H by reflexivity. by vm_compute.
Defined.

(* ===================================================================== *)
(** * Further properties of the glob matcher                               *)
(* ===================================================================== *)

Section GlobMore.
Import JsString JsRegExp Closed Glob PageTypeDetector.

(** X6: for a pattern without question mark, [globToRegex] returns an
    expression, and the expression accepts a path exactly when the whole
    path is the pattern read from left to right, [**] standing for any
    run of characters of a path, a single [*] for a non-empty run
    without [/], and every other character for itself. *)
Theorem globToRegex_accepts pattern path :
  "?"%char ∉ pattern ->
  exists regex,
    globToRegex pattern = Compiles regex
    /\ (test regex path = true <-> Matches (tokenize pattern) path).
Proof. apply globToRegex_matches. Qed.

Lemma tokenize_no_star pattern :
  "*"%char ∉ pattern -> tokenize pattern = map Lit pattern.
Proof.
  induction pattern as [|c p IH]; [done|].
  intros [Hc Hp]%not_elem_of_cons. cbn [tokenize map].
  rewrite bool_decide_eq_false_2 by congruence. by rewrite IH.
Qed.

Lemma Matches_all_literals pattern path :
  Matches (map Lit pattern) path <-> path = pattern.
Proof.
  rewrite <- (app_nil_r (map Lit pattern)), Matches_literals. split.
  - intros (r & -> & ->%Matches_nil_inv). by rewrite app_nil_r.
  - intros ->. exists []. split; [by rewrite app_nil_r | constructor].
Qed.

(** X7: a pattern without star and without question mark accepts its own
    text and no other path, whatever characters of regular expressions
    ([.], [+], [^], [$], braces, parentheses, [|], brackets, backslash)
    it holds. *)
Theorem globToRegex_exact pattern path :
  "*"%char ∉ pattern -> "?"%char ∉ pattern ->
  Glob.matches pattern path = Some (bool_decide (path = pattern)).
Proof.
  intros Hs Hq. case_bool_decide as Hp.
  - apply Glob_matches_true; [done|].
    rewrite tokenize_no_star by done. by apply Matches_all_literals.
  - apply Glob_matches_false; [done|].
    rewrite tokenize_no_star by done. by rewrite Matches_all_literals.
Qed.

(** X8: when no pattern has a question mark, [findMatchingRule] returns
    the first rule of the list whose pattern accepts the path, and [null]
    exactly when no rule's pattern does. *)
Theorem findMatchingRule_first pathname rules :
  Forall (fun r => "?"%char ∉ urlPattern r) rules ->
  (forall rule,
     findMatchingRule pathname rules = Eff.Returned (Some rule)
     <-> exists before after,
           rules = before ++ rule :: after
           /\ Matches (tokenize (urlPattern rule)) pathname
           /\ Forall (fun r => ~ Matches (tokenize (urlPattern r)) pathname)
                before)
  /\ (findMatchingRule pathname rules = Eff.Returned None
      <-> Forall (fun r => ~ Matches (tokenize (urlPattern r)) pathname)
            rules).
Proof.
  induction rules as [|r rules IH]; intros Hq.
  - split.
    + intros rule. split; [done|].
      intros (before & after & Heq & _). by destruct before.
    + split; [constructor | done].
  - apply Forall_cons in Hq as [Hr Hrs]. destruct (IH Hrs) as [IH1 IH2].
    cbn [findMatchingRule].
    destruct (globToRegex_matches (urlPattern r) pathname Hr)
      as (regex & -> & Ht).
    destruct (test regex pathname) eqn:E.
    + assert (Hm : Matches (tokenize (urlPattern r)) pathname) by (by apply Ht).
      split.
      * intros rule. split.
        -- intros [= <-]. by exists [], rules.
        -- intros (before & after & Heq & Hrule & Hbefore).
           destruct before as [|b before].
           ++ by injection Heq as <- _.
           ++ injection Heq as <- _.
              apply Forall_cons in Hbefore as [Hb _]. done.
      * split; [done|]. by intros [Hn _]%Forall_cons.
    + assert (Hm : ~ Matches (tokenize (urlPattern r)) pathname).
      { intros Hm%Ht. congruence. }
      split.
      * intros rule. rewrite IH1. split.
        -- intros (before & after & -> & Hrule & Hbefore).
           exists (r :: before), after. split; [done|]. split; [done|].
           by constructor.
        -- intros (before & after & Heq & Hrule & Hbefore).
           destruct before as [|b before].
           ++ injection Heq as <- _. done.
           ++ injection Heq as <- ->.
              apply Forall_cons in Hbefore as [_ Hbefore].
              by exists before, after.
      * rewrite IH2. split; [by constructor | by intros [_ ?]%Forall_cons].
Qed.

End GlobMore.

Lemma globToRegex_accepts_witness :
  exists regex,
    PageTypeDetector.globToRegex (lit "/a.b/*/c/**") = JsRegExp.Compiles regex
    /\ JsRegExp.test regex (lit "/a.b/x/c/d/e") = true
    /\ JsRegExp.test regex (lit "/aXb/x/c/d/e") = false
    /\ JsRegExp.test regex (lit "/a.b/x/y/c/d") = false.
Proof.
  assert (Hq : "?"%char ∉ lit "/a.b/*/c/**")
    by (apply (bool_decide_unpack _); by vm_compute).
  destruct (globToRegex_accepts (lit "/a.b/*/c/**") [] Hq) as (regex & Hr & _).
  exists regex. split; [exact Hr|].
  vm_compute in Hr. injection Hr as <-. by vm_compute.
Defined.

Lemma globToRegex_exact_witness :
  Glob.matches (lit "/api/v1.0/(users)") (lit "/api/v1.0/(users)") = Some true
  /\ Glob.matches (lit "/api/v1.0/(users)") (lit "/api/v1X0/(users)") = Some false.
Proof.
  assert (Hs : "*"%char ∉ lit "/api/v1.0/(users)")
    by (apply (bool_decide_unpack _); by vm_compute).
  assert (Hq : "?"%char ∉ lit "/api/v1.0/(users)")
    by (apply (bool_decide_unpack _); by vm_compute).
  split.
  - by rewrite (globToRegex_exact _ _ Hs Hq).
  - by rewrite (globToRegex_exact _ _ Hs Hq).
Defined.

Lemma findMatchingRule_first_witness :
  let rule p t := {| urlPattern := lit p; pageType := Some t; schemaTypes := None;
                     summary := None; customJsonLd := None; disabled := None |} in
  PageTypeDetector.findMatchingRule (lit "/docs/api")
    [rule "/blog/*" article; rule "/docs/**" docs; rule "/docs/*" faq]
  = Eff.Returned (Some (rule "/docs/**" docs)).
Proof.
  intros rule.
  assert (Hq : Forall (fun r => "?"%char ∉ urlPattern r)
                 [rule "/blog/*" article; rule "/docs/**" docs;
                  rule "/docs/*" faq]).
  { repeat constructor; apply (bool_decide_unpack _); by vm_compute. }
  destruct (findMatchingRule_first (lit "/docs/api") _ Hq) as [H _].
  apply H. exists [rule "/blog/*" article], [rule "/docs/*" faq].
  split; [done|]. split.
  - apply Glob_matches_true; [|by vm_compute].
    apply (bool_decide_unpack _); by vm_compute.
  - repeat constructor.
    apply Glob_matches_false; [|by vm_compute].
    apply (bool_decide_unpack _); by vm_compute.
Defined.

(* ===================================================================== *)
(** * Further properties of the remote configuration client                *)
(* ===================================================================== *)

Section FetchConfigMore.
Import Eff ApiClient FetchOutcomes CacheWorlds.
Variable JSON_parse : str -> option json.
Variable JSON_stringify : json -> str.

Lemma tryEdgeCache_hit url apiKey w r j :
  caches w = CachesDefault -> cacheMatchRejects w = false ->
  cacheStore w !! (url, apiKey) = Some r -> JSON_parse (body r) = Some j ->
  tryEdgeCache JSON_parse url apiKey w = (Returned (Some j), w).
Proof.
  destruct w as [c st mr pr net]. cbn [caches cacheMatchRejects cacheStore].
  intros -> -> Hs Hj.
  cbv beta iota zeta delta
    [tryEdgeCache getDefaultCache cache_match response_json try_catch mbind
     M_bind bind ret throw caches cacheStore cacheMatchRejects].
  by rewrite Hs, Hj.
Qed.

(** A parseable entry of the cache is returned at once. *)
Lemma fetchConfig_hit hostname apiKey apiBaseUrl ttl w r j :
  let cacheUrl :=
    apiBaseUrl ++ lit "/v1/sdk-config/" ++ encodeURIComponent hostname in
  caches w = CachesDefault -> cacheMatchRejects w = false ->
  cacheStore w !! (cacheUrl, apiKey) = Some r ->
  JSON_parse (body r) = Some j ->
  forall net,
    fetchConfig JSON_parse JSON_stringify hostname apiKey apiBaseUrl ttl
      (withNetwork w net)
    = (Returned j, withNetwork w net).
Proof.
  intros cacheUrl Hc Hm Hs Hj net. unfold fetchConfig. fold cacheUrl.
  unfold mbind at 1, M_bind at 1, bind at 1.
  by rewrite (tryEdgeCache_hit cacheUrl apiKey (withNetwork w net) r j).
Qed.

(** X15: when the edge cache holds, under the request's URL and API key,
    a response whose body parses, [fetchConfig] returns that body and
    leaves the world as it is: whatever the network would answer, it is
    not asked. *)
Theorem fetchConfig_cache_hit hostname apiKey apiBaseUrl ttl w r j :
  let cacheUrl :=
    apiBaseUrl ++ lit "/v1/sdk-config/" ++ encodeURIComponent hostname in
  caches w = CachesDefault -> cacheMatchRejects w = false ->
  cacheStore w !! (cacheUrl, apiKey) = Some r ->
  JSON_parse (body r) = Some j ->
  forall net,
    fetchConfig JSON_parse JSON_stringify hostname apiKey apiBaseUrl ttl
      (withNetwork w net)
    = (Returned j, withNetwork w net).
Proof. apply fetchConfig_hit. Qed.



End FetchConfigMore.

Lemma fetchConfig_cache_hit_witness :
  let url := lit "https://api.botmon.io/v1/sdk-config/example.com" in
  let cached := {| status := 200; headers := []; body := lit "null" |} in
  let w := {| ApiClient.caches := ApiClient.CachesDefault;
              ApiClient.cacheStore := {[ (url, lit "k") := cached ]};
              ApiClient.cacheMatchRejects := false;
              ApiClient.cachePutRejects := true;
              ApiClient.network := fun _ => ApiClient.NetworkError |} in
  ApiClient.fetchConfig (fun _ => Some JNull) (fun _ => [])
    (lit "example.com") (lit "k") (lit "https://api.botmon.io") 300 w
  = (Eff.Returned JNull, w).
Proof.
  intros url cached w.
  apply (fetchConfig_cache_hit (fun _ => Some JNull) (fun _ => [])
           (lit "example.com") (lit "k") (lit "https://api.botmon.io") 300 w
           cached JNull eq_refl eq_refl);
    [apply lookup_singleton_eq | reflexivity].
Defined.


(* ===================================================================== *)
(** * Further properties of the pipeline                                   *)
(* ===================================================================== *)

Section PipelineMore.
Import JsString Eff Pipeline.
Variable W : Type.
Variable OriginFetch : Type.
Variable handleRobotsTxt :
  ResponseContext -> ResolvedFileRule -> OriginFetch -> M (World W) Response.
Variable handleSitemap :
  ResponseContext -> ResolvedFileRule -> OriginFetch -> M (World W) Response.
Variable handleWellKnown :
  str -> ResolvedWellKnownFile -> M (World W) Response.

Ltac not_run H :=
  cbn [negb orb] in H; cbv [mret M_ret ret notHandled] in H; discriminate H.

(** What a stage checks before it calls its handler. *)
Lemma stage_gate (stage : PipelineStage W OriginFetch) ctx cfg fetch w resp w' :
  In stage (stages W OriginFetch handleRobotsTxt handleSitemap handleWellKnown) ->
  run _ _ stage ctx cfg fetch w
  = (Returned {| handled := true; stage_response := Some resp |}, w') ->
  (name _ _ stage = lit "robots-txt"
   /\ enabled (robotsTxt cfg) = true /\ mode (robotsTxt cfg) <> ModeDisabled
   /\ pathname (ctx_url ctx) = lit "/robots.txt")
  \/ (name _ _ stage = lit "sitemap"
      /\ enabled (sitemap cfg) = true /\ mode (sitemap cfg) <> ModeDisabled
      /\ JsRegExp.test sitemapPattern (pathname (ctx_url ctx)) = true)
  \/ (name _ _ stage = lit "well-known"
      /\ wk_enabled (wellKnown cfg) = true
      /\ startsWith (pathname (ctx_url ctx)) (lit "/.well-known/") = true).
Proof.
  intros Hin Hrun. unfold stages in Hin. destruct Hin as [<-|[<-|[<-|[]]]];
    cbn [run name] in *.
  - left. split; [done|].
    destruct (enabled (robotsTxt cfg)); [|by not_run Hrun].
    destruct (mode (robotsTxt cfg)) eqn:Em; cbn [negb orb isDisabled] in Hrun;
      try (by not_run Hrun).
    all: case_bool_decide as Hp; [|by not_run Hrun]; done.
  - right. left. split; [done|].
    destruct (enabled (sitemap cfg)); [|by not_run Hrun].
    destruct (mode (sitemap cfg)) eqn:Em; cbn [negb orb isDisabled] in Hrun;
      try (by not_run Hrun).
    all: destruct (JsRegExp.test _ _); [|by not_run Hrun]; done.
  - right. right. split; [done|].
    destruct (wk_enabled (wellKnown cfg)); [|by not_run Hrun].
    cbn [negb] in Hrun.
    destruct (startsWith _ _); [|by not_run Hrun]. done.
Qed.

Lemma runStages_result (todo : list (PipelineStage W OriginFetch))
    ctx cfg fetch applied w r w' :
  runStages W OriginFetch todo ctx cfg fetch applied w = (Returned r, w') ->
  r = None
  \/ exists stage resp w0 w1,
       In stage todo
       /\ run _ _ stage ctx cfg fetch w0
          = (Returned {| handled := true; stage_response := Some resp |}, w1)
       /\ r = Some (resp, applied ++ [name _ _ stage]).
Proof.
  revert w. induction todo as [|stage more IH]; intros w.
  - intros [= <- _]. by left.
  - destruct (run _ _ stage ctx cfg fetch w) as [[res|e] w1] eqn:Hrun.
    + destruct res as [[] [resp|]].
      * rewrite (runStages_handled _ _ _ _ _ _ _ _ _ _ _ Hrun).
        intros [= <- _]. right. exists stage, resp, w, w1.
        split; [by left|]. done.
      * rewrite (runStages_not_handled _ _ _ _ _ _ _ _ _ _ _ Hrun)
          by (by right).
        intros [H|(s & resp & w0 & w2 & Hin & Hs & Hr)]%IH; [by left|].
        right. exists s, resp, w0, w2. split; [by right|]. done.
      * rewrite (runStages_not_handled _ _ _ _ _ _ _ _ _ _ _ Hrun)
          by (by left).
        intros [H|(s & rsp & w0 & w2 & Hin & Hs & Hr)]%IH; [by left|].
        right. exists s, rsp, w0, w2. split; [by right|]. done.
      * rewrite (runStages_not_handled _ _ _ _ _ _ _ _ _ _ _ Hrun)
          by (by left).
        intros [H|(s & rsp & w0 & w2 & Hin & Hs & Hr)]%IH; [by left|].
        right. exists s, rsp, w0, w2. split; [by right|]. done.
    + rewrite (runStages_thrown _ _ _ _ _ _ _ _ _ _ _ Hrun).
      intros [H|(s & rsp & w0 & w2 & Hin & Hs & Hr)]%IH; [by left|].
      right. exists s, rsp, w0, w2. split; [by right|]. done.
Qed.

Variable applyGeoOptimization :
  Response -> ResponseContext -> ResolvedGeo -> M (World W) GeoOptimizationResult.

(** X12: [runPipeline] applies at most one rule.  Either none, and the
    response is the origin response of the context; or the one of a
    managed file, and then that rule is enabled, not in mode disabled
    for robots.txt and sitemaps, and the path is the one the rule
    serves; or GEO, and then GEO is enabled and the request comes from
    an AI bot. *)
Theorem runPipeline_one_rule ctx cfg fetch w :
  exists out w',
    runPipeline W OriginFetch handleRobotsTxt handleSitemap handleWellKnown
      applyGeoOptimization ctx cfg fetch w
    = (Returned out, w')
    /\ ((appliedRules out = []
         /\ out_response out = ctx_response ctx /\ out_context out = ctx)
        \/ (appliedRules out = [lit "robots-txt"]
            /\ enabled (robotsTxt cfg) = true
            /\ mode (robotsTxt cfg) <> ModeDisabled
            /\ pathname (ctx_url ctx) = lit "/robots.txt")
        \/ (appliedRules out = [lit "sitemap"]
            /\ enabled (sitemap cfg) = true
            /\ mode (sitemap cfg) <> ModeDisabled
            /\ JsRegExp.test sitemapPattern (pathname (ctx_url ctx)) = true)
        \/ (appliedRules out = [lit "well-known"]
            /\ wk_enabled (wellKnown cfg) = true
            /\ startsWith (pathname (ctx_url ctx)) (lit "/.well-known/") = true)
        \/ (appliedRules out = [lit "geo"]
            /\ geo_enabled (geo cfg) = true /\ isAiBot ctx = true)).
Proof.
  unfold runPipeline. unfold mbind at 1, M_bind at 1, bind at 1.
  pose proof (runStages_returns W OriginFetch
                (stages W OriginFetch handleRobotsTxt handleSitemap handleWellKnown)
                ctx cfg fetch [] w) as Hret.
  destruct (runStages _ _ _ _ _ _ _ _) as [[early|e] w1] eqn:Hst; [|done].
  apply runStages_result in Hst
    as [->|(stage & resp & w0 & w2 & Hin & Hrun & ->)].
  - destruct (geo_enabled (geo cfg) && isAiBot ctx) eqn:Hgate.
    + apply andb_true_iff in Hgate as [Hg Hb].
      unfold try_catch, mbind, M_bind, bind.
      destruct (applyGeoOptimization _ _ _ w1) as [[g|e] w2].
      * destruct (modified g).
        -- eexists _, _. split; [reflexivity|]. do 4 right. by cbn.
        -- eexists _, _. split; [reflexivity|]. left. by cbn.
      * eexists _, _. split; [reflexivity|]. left. by cbn.
    + eexists _, _. split; [reflexivity|]. left. by cbn.
  - eexists _, _. split; [reflexivity|]. cbn [appliedRules app].
    destruct (stage_gate _ _ _ _ _ _ _ Hin Hrun)
      as [(-> & ?)|[(-> & ?)|(-> & ?)]]; tauto.
Qed.

(** X13: with the three managed rules not enabled, and GEO not enabled
    or the request not from an AI bot, [runPipeline] returns the origin
    response of the context with no applied rule and leaves the world as
    it was: no handler is called, nothing is logged. *)
Theorem runPipeline_nothing_enabled ctx cfg fetch w :
  enabled (robotsTxt cfg) = false -> enabled (sitemap cfg) = false ->
  wk_enabled (wellKnown cfg) = false ->
  geo_enabled (geo cfg) && isAiBot ctx = false ->
  runPipeline W OriginFetch handleRobotsTxt handleSitemap handleWellKnown
    applyGeoOptimization ctx cfg fetch w
  = (Returned {| out_response := ctx_response ctx; appliedRules := [];
                 out_context := ctx |}, w).
Proof.
  intros Hr Hs Hw Hg. unfold runPipeline, stages.
  cbn [runStages run name].
  rewrite Hr, Hs, Hw, Hg. reflexivity.
Qed.

(** X14: when GEO is not enabled or the request is not from an AI bot,
    the result of [runPipeline] does not depend on the GEO handler: it
    is not called. *)
Theorem runPipeline_geo_gate ctx cfg fetch w
    (other : Response -> ResponseContext -> ResolvedGeo
             -> M (World W) GeoOptimizationResult) :
  geo_enabled (geo cfg) && isAiBot ctx = false ->
  runPipeline W OriginFetch handleRobotsTxt handleSitemap handleWellKnown
    other ctx cfg fetch w
  = runPipeline W OriginFetch handleRobotsTxt handleSitemap handleWellKnown
      applyGeoOptimization ctx cfg fetch w.
Proof.
  intros Hg. unfold runPipeline, mbind, M_bind, bind.
  destruct (runStages _ _ _ _ _ _ _ _) as [[[[resp applied]|]|e] w1]; try done.
  by rewrite Hg.
Qed.

End PipelineMore.

Lemma runPipeline_nothing_enabled_witness :
  let boom {A} : Eff.M (Pipeline.World unit) A := Eff.throw (lit "boom") in
  let origin := {| status := 200; headers := []; body := lit "origin body" |} in
  let ctx := {| ctx_response := origin;
                ctx_url := {| href := lit "https://example.com/robots.txt";
                              pathname := lit "/robots.txt" |};
                isAiBot := true; ctx_pageType := None |} in
  let off := {| enabled := false; mode := ModeReplace;
                content := Some (lit "Disallow: /") |} in
  let cfg := {| robotsTxt := off; sitemap := off;
                wellKnown := {| wk_enabled := false; files := [] |};
                geo := {| geo_enabled := false; injectJsonLd := true;
                          injectSummary := true; enrichHeadings_on := true;
                          rules := [] |} |} in
  Pipeline.runPipeline unit unit (fun _ _ _ => boom) (fun _ _ _ => boom)
    (fun _ _ => boom) (fun _ _ _ => boom) ctx cfg tt (tt, [])
  = (Eff.Returned {| Pipeline.out_response := origin;
                     Pipeline.appliedRules := [];
                     Pipeline.out_context := ctx |}, (tt, [])).
Proof.
  cbn zeta. by apply runPipeline_nothing_enabled.
Defined.

Lemma runPipeline_geo_gate_witness :
  let boom {A} : Eff.M (Pipeline.World unit) A := Eff.throw (lit "boom") in
  let origin := {| status := 200; headers := []; body := lit "<html></html>" |} in
  let ctx := {| ctx_response := origin;
                ctx_url := {| href := lit "https://example.com/page";
                              pathname := lit "/page" |};
                isAiBot := false; ctx_pageType := None |} in
  let off := {| enabled := false; mode := ModeReplace; content := None |} in
  let cfg := {| robotsTxt := off; sitemap := off;
                wellKnown := {| wk_enabled := false; files := [] |};
                geo := {| geo_enabled := true; injectJsonLd := true;
                          injectSummary := true; enrichHeadings_on := true;
                          rules := [] |} |} in
  let rewritten :=
    {| modified := true;
       geo_response := {| status := 200; headers := []; body := lit "changed" |};
       geo_pageType := Some generic; schemasInjected := None;
       summaryInjected := None; headingsEnriched := None |} in
  Pipeline.runPipeline unit unit (fun _ _ _ => boom) (fun _ _ _ => boom)
    (fun _ _ => boom) (fun _ _ _ => Eff.ret rewritten) ctx cfg tt (tt, [])
  = Pipeline.runPipeline unit unit (fun _ _ _ => boom) (fun _ _ _ => boom)
      (fun _ _ => boom) (fun _ _ _ => boom) ctx cfg tt (tt, []).
Proof.
  cbn zeta. by apply runPipeline_geo_gate.
Defined.

(* ===================================================================== *)
(** * Further properties of the GEO engine                                 *)
(* ===================================================================== *)

Section GeoMore.
Import JsString Eff PageTypeDetector Geo.
Variable JSON_stringify : Obj.t json -> str.

Lemma response_eta (r : Response) :
  {| status := status r; headers := headers r; body := body r |} = r.
Proof. by destruct r. Qed.

(** X17: a response that is neither HTML nor plain text nor markdown
    goes through [applyGeoOptimization] untouched, whatever the rules
    and its status are.  An HTML or text response whose path matches,
    first, a rule that is disabled comes back with its status, headers
    and text and is reported as not modified when its status is one
    that [new Response] accepts with a body, 200 to 599 but 204, 205
    and 304; with any other status [applyGeoOptimization] throws. *)
Theorem applyGeoOptimization_untouched response context config :
  let contentType :=
    Headers.get (headers response) (lit "Content-Type") ?? [] in
  let untouched :=
    {| modified := false; geo_response := response;
       geo_pageType := None; schemasInjected := None;
       summaryInjected := None; headingsEnriched := None |} in
  (includes contentType (lit "text/html") = false ->
   includes contentType (lit "text/plain") = false ->
   includes contentType (lit "text/markdown") = false ->
   applyGeoOptimization JSON_stringify response context config
   = Returned untouched)
  /\ (forall rule,
        findMatchingRule (pathname (ctx_url context)) (rules config)
        = Returned (Some rule) ->
        disabled rule = Some true ->
        (admitsBody (status response) = true ->
         applyGeoOptimization JSON_stringify response context config
         = Returned untouched)
        /\ (admitsBody (status response) = false ->
            includes contentType (lit "text/html")
            || includes contentType (lit "text/plain")
            || includes contentType (lit "text/markdown") = true ->
            exists e,
              applyGeoOptimization JSON_stringify response context config
              = Thrown e
              /\ (e = lit "TypeError" \/ e = lit "RangeError"))).
Proof.
  intros contentType untouched. split.
  - intros Hh Hp Hm. unfold applyGeoOptimization. fold contentType.
    by rewrite Hh, Hp, Hm.
  - intros rule Hrule Hdis.
    assert (Hhtml : applyHtmlGeo JSON_stringify response context config
                    = unmodified response (body response)).
    { unfold applyHtmlGeo. rewrite Hrule.
      cbn [mbind option_bind isTrue nullish]. rewrite Hdis. done. }
    assert (Htext : applyTextGeo response context config
                    = unmodified response (body response)).
    { unfold applyTextGeo. rewrite Hrule.
      cbn [mbind option_bind isTrue nullish]. rewrite Hdis. done. }
    unfold applyGeoOptimization. fold contentType.
    rewrite Hhtml, Htext. unfold unmodified. split.
    + intros Hyes. rewrite (newResponse_admits _ _ _ Hyes), response_eta.
      by repeat case_match.
    + intros Hno Htype.
      destruct (newResponse_refuses (body response) (status response)
                  (headers response) Hno) as (e & -> & He).
      exists e. split; [|done].
      destruct (includes contentType (lit "text/html")); [done|].
      cbn [orb] in Htype. by rewrite Htype.
Qed.

Lemma injectBeforeHeadClose_None html inserted :
  lastIndexOf html (lit "</head>") = None ->
  injectBeforeHeadClose html inserted = None.
Proof. unfold injectBeforeHeadClose. by intros ->. Qed.

(** X18: [applyHtmlGeo] keeps the status of the response; when it
    reports no modification the response is the one it was given, body
    and headers; when it reports one, both GEO headers are set, the
    page-type header to the detected type; with the three injections
    off it modifies nothing, and neither does it, with heading
    enrichment off, on a document without [</head>]. *)
Theorem applyHtmlGeo_invariants response context config res :
  applyHtmlGeo JSON_stringify response context config = Returned res ->
  status (geo_response res) = status response
  /\ (modified res = false -> geo_response res = response)
  /\ (modified res = true ->
      exists pt,
        geo_pageType res = Some pt
        /\ Headers.get (headers (geo_response res)) (lit "X-BotMon-GEO")
           = Some (lit "applied")
        /\ Headers.get (headers (geo_response res)) (lit "X-BotMon-PageType")
           = Some (pageTypeName pt))
  /\ (injectJsonLd config = false -> injectSummary config = false ->
      enrichHeadings_on config = false -> modified res = false)
  /\ (lastIndexOf (body response) (lit "</head>") = None ->
      enrichHeadings_on config = false -> modified res = false).
Proof.
  unfold applyHtmlGeo. cbn zeta.
  destruct (findMatchingRule _ _) as [matchingRule|e]; [|done].
  destruct (isTrue (matchingRule ≫= disabled)).
  { unfold unmodified.
    destruct (newResponse _ _ _) as [rebuilt|e] eqn:En; [|done].
    apply newResponse_Returned in En as [_ ->].
    intros [= <-]. cbn. rewrite response_eta. repeat split; try done. }
  destruct (detectPageType _ _ _) as [ptr|e]; [|done].
  set (pt := ptr_pageType ptr).
  set (step1 := if injectJsonLd config then _ else _).
  destruct step1 as [html1 schemas] eqn:E1.
  set (step2 := if injectSummary config then _ else _).
  destruct step2 as [html2 summaryDone] eqn:E2.
  set (step3 := if enrichHeadings_on config then _ else _).
  destruct step3 as [html3 headingsDone] eqn:E3.
  destruct (newResponse _ _ _) as [rebuilt|e] eqn:En; [|done].
  apply newResponse_Returned in En as [_ ->].
  intros [= <-]. cbn [geo_response status modified headers body geo_pageType].
  assert (H1 : schemas = [] -> html1 = body response).
  { subst step1. destruct (injectJsonLd config); [|by injection E1 as <- _].
    destruct (SchemaGenerator.generateSchema _ _ _ _) as [schema|];
      [|by injection E1 as <- _].
    destruct (injectBeforeHeadClose _ _); [|by injection E1 as <- _].
    by injection E1 as _ <-. }
  assert (H2 : summaryDone = false -> html2 = html1).
  { subst step2. destruct (injectSummary config); [|by injection E2 as <- _].
    destruct (SummaryGenerator.extractSummary _ _) as [summary|];
      [|by injection E2 as <- _].
    destruct (injectBeforeHeadClose _ _); [|by injection E2 as <- _].
    by injection E2 as _ <-. }
  assert (H3 : headingsDone = false -> html3 = html2).
  { subst step3. destruct (enrichHeadings_on config); [|by injection E3 as <- _].
    cbn zeta in E3. destruct (bool_decide _); [by injection E3 as <- _|].
    by injection E3 as _ <-. }
  split; [done|]. split; [|split; [|split]].
  - intros Hm. rewrite Hm.
    apply orb_false_iff in Hm as [[Hs%negb_false_iff Hsum]%orb_false_iff Hh].
    apply bool_decide_eq_true in Hs.
    rewrite (H3 Hh), (H2 Hsum), (H1 Hs). apply response_eta.
  - intros Hm. rewrite Hm. exists pt. split; [done|]. apply withGeoHeaders_get.
  - intros Hj Hs He. subst step1 step2 step3. rewrite Hj in E1.
    rewrite Hs in E2. rewrite He in E3.
    injection E1 as _ <-. injection E2 as _ <-. injection E3 as _ <-. done.
  - intros Hhead He. subst step1 step2 step3. rewrite He in E3.
    injection E3 as _ <-.
    assert (schemas = [] /\ html1 = body response) as [-> ->].
    { destruct (injectJsonLd config); [|by injection E1 as <- <-].
      destruct (SchemaGenerator.generateSchema _ _ _ _) as [schema|];
        [|by injection E1 as <- <-].
      rewrite injectBeforeHeadClose_None in E1 by done.
      by injection E1 as <- <-. }
    assert (summaryDone = false) as ->.
    { destruct (injectSummary config); [|by injection E2 as _ <-].
      destruct (SummaryGenerator.extractSummary _ _) as [summary|];
        [|by injection E2 as _ <-].
      rewrite injectBeforeHeadClose_None in E2 by done.
      by injection E2 as _ <-. }
    done.
Qed.

End GeoMore.

Lemma applyGeoOptimization_untouched_witness :
  let json :=
    {| status := 304;
       headers := Headers.make [(lit "Content-Type", lit "application/json")];
       body := lit "{}" |} in
  let page status :=
    {| status := status;
       headers := Headers.make [(lit "Content-Type", lit "text/html")];
       body := lit "<html><head></head><body><h1>Cart</h1></body></html>" |} in
  let context response :=
    {| ctx_response := response;
       ctx_url := {| href := lit "https://example.com/cart";
                     pathname := lit "/cart" |};
       isAiBot := true; ctx_pageType := None |} in
  let config :=
    {| geo_enabled := true; injectJsonLd := true; injectSummary := true;
       enrichHeadings_on := true;
       rules := [{| urlPattern := lit "/cart"; pageType := None;
                    schemaTypes := None; summary := None;
                    customJsonLd := None; disabled := Some true |}] |} in
  let untouched response :=
    {| modified := false; geo_response := response;
       geo_pageType := None; schemasInjected := None;
       summaryInjected := None; headingsEnriched := None |} in
  Geo.applyGeoOptimization (fun _ => []) json (context json) config
  = Eff.Returned (untouched json)
  /\ Geo.applyGeoOptimization (fun _ => []) (page 200) (context (page 200)) config
     = Eff.Returned (untouched (page 200))
  /\ (exists e,
        Geo.applyGeoOptimization (fun _ => []) (page 304) (context (page 304))
          config = Eff.Thrown e).
Proof.
  intros json page context config untouched.
  assert (Hrule : PageTypeDetector.findMatchingRule (lit "/cart") (rules config)
                  = Eff.Returned (rules config !! 0)) by (vm_compute; reflexivity).
  split; [|split].
  - by apply (applyGeoOptimization_untouched (fun _ => [])).
  - destruct (applyGeoOptimization_untouched (fun _ => []) (page 200)
                (context (page 200)) config) as [_ H].
    destruct (H _ Hrule eq_refl) as [Hyes _]. by apply Hyes.
  - destruct (applyGeoOptimization_untouched (fun _ => []) (page 304)
                (context (page 304)) config) as [_ H].
    destruct (H _ Hrule eq_refl) as [_ Hno].
    destruct (Hno eq_refl eq_refl) as (e & He & _). by exists e.
Defined.

Lemma applyHtmlGeo_invariants_witness :
  let response :=
    {| status := 203;
       headers := Headers.make [(lit "Content-Type", lit "text/html")];
       body := lit "<html><head><title>T</title></head><body><h1>T</h1></body></html>" |} in
  let context :=
    {| ctx_response := response;
       ctx_url := {| href := lit "https://example.com/page";
                     pathname := lit "/page" |};
       isAiBot := true; ctx_pageType := None |} in
  let config :=
    {| geo_enabled := true; injectJsonLd := true; injectSummary := false;
       enrichHeadings_on := true; rules := [] |} in
  exists res,
    Geo.applyHtmlGeo (fun _ => lit "{}") response context config = Eff.Returned res
    /\ modified res = true
    /\ status (geo_response res) = 203
    /\ Headers.get (headers (geo_response res)) (lit "X-BotMon-PageType")
       = Some (lit "generic").
Proof.
  intros response context config.
  destruct (Geo.applyHtmlGeo (fun _ => lit "{}") response context config)
    as [res|e] eqn:E; [|by vm_compute in E].
  exists res. split; [done|].
  assert (Hm : modified res = true /\ geo_pageType res = Some generic).
  { vm_compute in E. injection E as <-. done. }
  destruct Hm as [Hm Hpt].
  destruct (applyHtmlGeo_invariants _ _ _ _ _ E) as (Hs & _ & Hh & _).
  split; [done|]. split; [done|].
  destruct (Hh Hm) as (pt & Hpt' & _ & Hget).
  rewrite Hget. rewrite Hpt in Hpt'. by injection Hpt' as <-.
Defined.

(* ===================================================================== *)
(** * Further properties of summaries, schemas and headings                *)
(* ===================================================================== *)

(** X11: a summary that [extractSummary] returns is never empty.  One
    taken from the rule is the rule's summary; one taken from the meta
    description or the og:description has at least 30 characters; one
    taken from the first paragraph has at least 50 and at most 300. *)
Theorem extractSummary_bounds html matchingRule s :
  SummaryGenerator.extractSummary html matchingRule = Some s ->
  text s <> []
  /\ match summary_source s with
     | custom => matchingRule ≫= summary = Some (text s)
     | meta_description | og_description => 30 <= length (text s)
     | first_paragraph => 50 <= length (text s) <= 300
     end.
Proof.
  unfold SummaryGenerator.extractSummary.
  destruct (SummaryGenerator.truthy (matchingRule ≫= summary)) as [c|] eqn:Ec.
  { intros [= <-]. cbn. unfold SummaryGenerator.truthy in Ec.
    destruct (matchingRule ≫= summary) as [[|x t]|]; try done.
    by injection Ec as <-. }
  destruct (SummaryGenerator.andLength (HtmlUtils.extractMetaDescription html) 30)
    as [d|] eqn:Em.
  { intros [= <-]. cbn. apply andLength_Some in Em as [_ Hd]; [|lia].
    split; [|done]. intros ->. cbn in Hd. lia. }
  destruct (SummaryGenerator.andLength (HtmlUtils.extractOgDescription html) 30)
    as [d|] eqn:Eo.
  { intros [= <-]. cbn. apply andLength_Some in Eo as [_ Hd]; [|lia].
    split; [|done]. intros ->. cbn in Hd. lia. }
  destruct (SummaryGenerator.truthy (HtmlUtils.extractFirstParagraph html))
    as [p|] eqn:Ep; [|done].
  intros [= <-]. cbn.
  assert (Hp : HtmlUtils.extractFirstParagraph html = Some p).
  { unfold SummaryGenerator.truthy in Ep.
    by destruct (HtmlUtils.extractFirstParagraph html) as [[|x t]|]. }
  pose proof (extractFirstParagraph_long _ _ Hp) as Hlong.
  split; [intros ->; cbn in Hlong; lia|]. split; [done|].
  unfold HtmlUtils.extractFirstParagraph in Hp.
  destruct (JsRegExp.matchGlobal _ _) as [ps|]; [|discriminate].
  apply fmap_Some in Hp as (c & _ & ->).
  unfold JsString.substringTo. rewrite length_take. lia.
Qed.

Lemma extractSummary_bounds_witness :
  let html :=
    lit "<p>short</p><p>This paragraph is long enough to be taken as the summary of the page.</p>" in
  exists s,
    SummaryGenerator.extractSummary html None = Some s
    /\ summary_source s = first_paragraph
    /\ 50 <= length (text s) <= 300.
Proof.
  intros html.
  destruct (SummaryGenerator.extractSummary html None) as [s|] eqn:E;
    [|by vm_compute in E].
  exists s. split; [done|].
  assert (Hsrc : summary_source s = first_paragraph).
  { vm_compute in E. by injection E as <-. }
  split; [done|].
  destruct (extractSummary_bounds _ _ _ E) as [_ H]. by rewrite Hsrc in H.
Defined.

Section SchemaMore.
Import JsString SchemaGenerator Schemas.

Lemma spread_get o custom k :
  Obj.get (spread o custom) k
  = match Obj.get (rev (custom ?? [])) k with
    | Some v => Some v
    | None => Obj.get o k
    end.
Proof.
  unfold spread. generalize (custom ?? []) as c. clear custom.
  intros c. revert o. induction c as [|[k' v'] c IH] using rev_ind; intros o.
  - done.
  - rewrite fold_left_app, rev_app_distr. cbn [fold_left rev app Obj.get fst snd].
    case_bool_decide as Hk.
    + subst k'. apply Obj_get_set_eq.
    + rewrite Obj_get_set_ne by done. apply IH.
Qed.

Lemma Obj_get_rev {V} (o : Obj.t V) k :
  NoDup (Obj.keys o) -> Obj.get (rev o) k = Obj.get o k.
Proof.
  induction o as [|[k' v'] o IH]; [done|]. cbn [Obj.keys map fst].
  intros [Hk Ho]%NoDup_cons. cbn [rev Obj.get].
  case_bool_decide as Hd.
  - subst k'. rewrite Obj_get_snoc_eq; [done|].
    apply Obj_get_None. unfold Obj.keys. rewrite map_rev, <- in_rev.
    by rewrite <- list_elem_of_In.
  - rewrite Obj_get_snoc_ne by done. by apply IH.
Qed.

Lemma generated_type pageType html url matchingRule :
  exists generated,
    generateSchema pageType html url matchingRule
    = Some (spread (context_type (schemaTypeOf pageType) ++ generated)
              (matchingRule ≫= customJsonLd)).
Proof.
  unfold generateSchema. destruct pageType; cbn [schemaTypeOf];
    unfold generateProductSchema, generateArticleSchema, generateDocsSchema,
      generateFaqSchema, generateHowToSchema, generatePricingSchema,
      generateComparisonSchema, generateGenericSchema;
    rewrite <- ?app_assoc; by eexists.
Qed.

(** X23: [generateSchema] always returns a schema.  A field of the
    rule's custom JSON-LD is in it with the custom value, whatever the
    generator wrote under that name; and where the custom JSON-LD has no
    [@context] or [@type], these are [https://schema.org] and the type
    of the page type. *)
Theorem generateSchema_custom_wins pageType html url matchingRule :
  exists schema,
    generateSchema pageType html url matchingRule = Some schema
    /\ (forall custom k v,
          matchingRule ≫= customJsonLd = Some custom ->
          NoDup (Obj.keys custom) -> Obj.get custom k = Some v ->
          Obj.get schema k = Some v)
    /\ (forall k,
          (forall custom, matchingRule ≫= customJsonLd = Some custom ->
                          Obj.get custom k = None) ->
          (k = lit "@context" ->
           Obj.get schema k = Some (JStr (lit "https://schema.org")))
          /\ (k = lit "@type" ->
              Obj.get schema k = Some (JStr (lit (schemaTypeOf pageType))))).
Proof.
  destruct (generated_type pageType html url matchingRule) as [generated ->].
  eexists. split; [reflexivity|]. split.
  - intros custom k v -> Hnd Hk. rewrite spread_get. cbn [nullish].
    by rewrite Obj_get_rev, Hk.
  - intros k Hnone.
    assert (Hget : forall o,
               Obj.get (spread o (matchingRule ≫= customJsonLd)) k = Obj.get o k).
    { intros o. rewrite spread_get.
      destruct matchingRule as [rule|]; [|reflexivity].
      cbn [mbind option_bind] in *.
      destruct (customJsonLd rule) as [custom|]; [|reflexivity].
      cbn [nullish].
      assert (Obj.get (rev custom) k = None) as ->; [|done].
      apply Obj_get_None. unfold Obj.keys.
      rewrite map_rev, <- in_rev. apply Obj_get_None. by apply Hnone. }
    split; intros ->; by rewrite Hget.
Qed.

End SchemaMore.

Lemma generateSchema_custom_wins_witness :
  let rule :=
    {| urlPattern := lit "/p"; pageType := None; schemaTypes := None;
       summary := None;
       customJsonLd := Some [(lit "@type", JStr (lit "SoftwareApplication"));
                             (lit "brand", JStr (lit "Acme"))];
       disabled := None |} in
  exists schema,
    SchemaGenerator.generateSchema product (lit "<title>Widget</title>")
      {| href := lit "https://example.com/p"; pathname := lit "/p" |} (Some rule)
    = Some schema
    /\ Obj.get schema (lit "@type") = Some (JStr (lit "SoftwareApplication"))
    /\ Obj.get schema (lit "@context") = Some (JStr (lit "https://schema.org")).
Proof.
  intros rule.
  destruct (generateSchema_custom_wins product (lit "<title>Widget</title>")
              {| href := lit "https://example.com/p"; pathname := lit "/p" |}
              (Some rule)) as (schema & Hs & Hcustom & Hdefault).
  exists schema. split; [exact Hs|]. split.
  - apply (Hcustom _ _ _ eq_refl); [|reflexivity].
    apply (bool_decide_unpack _). by vm_compute.
  - apply (Hdefault (lit "@context")); [|reflexivity].
    by intros custom [= <-].
Defined.

Section HeadingsMore.
Import JsString JsRegExp HeadingEnricher Headings.

Lemma upToClose_later d pre r :
  closes d r = true -> is_Some (upToClose d (pre ++ r)).
Proof.
  intros Hr. induction pre as [|c pre IH]; cbn [app].
  - by apply upToClose_here.
  - by apply upToClose_cons.
Qed.

(** X9: the expression of [enrichHeadings] matches at the beginning of
    a text exactly when the text begins with [<h] or [<H], a digit from
    1 to 6, any text without [>], a [>], and later holds a closing tag
    [</h] or [</H] of the same digit; the match is then the heading that
    [headingAt] reads: attributes up to the first [>], content up to the
    first closing tag of that level. *)
Theorem heading_re_reading s i :
  matchAt heading_re s i = toMatch i <$> headingAt s
  /\ (is_Some (matchAt heading_re s i)
      <-> exists o d a content c after,
            s = "<"%char :: o :: d :: a ++ ">"%char :: content
                ++ "<"%char :: "/"%char :: c :: d :: ">"%char :: after
            /\ isH o = true /\ isLevel d = true /\ (">"%char ∉ a)
            /\ isH c = true).
Proof.
  split; [apply matchAt_heading|]. rewrite matchAt_heading, fmap_is_Some.
  split.
  - intros [h Hh].
    destruct (headingAt_inv _ _ Hh) as (t' & -> & Ho & Hd & Ha & Hc & Hcl).
    apply upToClose_Some in Hc as [-> _].
    by exists (h_open h), (h_level h), (h_attrs h), (h_content h),
      (h_close h), (h_after h).
  - intros (o & d & a & content & c & after & -> & Ho & Hd & Ha & Hc).
    destruct (upToClose_later d content
                ("<"%char :: "/"%char :: c :: d :: ">"%char :: after)
                (closes_intro d c after Hc)) as [[content' r] Hr].
    destruct (upToClose_Some _ _ _ _ Hr) as [_ Hcl].
    destruct (closes_shape _ _ Hcl) as (hc & after' & -> & _).
    eexists. by apply headingAt_intro.
Qed.

Lemma Touched_counts s y :
  Touched s y ->
  count_occ ascii_dec y "<"%char = count_occ ascii_dec s "<"%char
  /\ count_occ ascii_dec y ">"%char = count_occ ascii_dec s ">"%char
  /\ length s <= length y.
Proof.
  induction 1 as [|c s y H (IH1 & IH2 & IH3)|a b s y Ha Hb H (IH1 & IH2 & IH3)
                 |w s y Hw H (IH1 & IH2 & IH3)].
  - done.
  - cbn [count_occ length]. rewrite IH1, IH2.
    split; [done|]. split; [done|lia].
  - cbn [count_occ length].
    destruct (ascii_dec a "<") as [->|_]; [discriminate Ha|].
    destruct (ascii_dec b "<") as [->|_]; [discriminate Hb|].
    destruct (ascii_dec a ">") as [->|_]; [discriminate Ha|].
    destruct (ascii_dec b ">") as [->|_]; [discriminate Hb|].
    split; [done|]. split; [done|lia].
  - destruct Hw as (_ & Hlt & Hgt).
    rewrite !count_occ_app, length_app. cbn [count_occ length].
    rewrite (proj1 (count_occ_not_In ascii_dec w "<"%char))
      by (by rewrite <- list_elem_of_In).
    rewrite (proj1 (count_occ_not_In ascii_dec w ">"%char))
      by (by rewrite <- list_elem_of_In).
    cbn [Nat.add]. rewrite IH1, IH2. split; [done|]. split; [done|lia].
Qed.

(** X10: [enrichHeadings] adds and removes no angle bracket, so no tag:
    its output has as many [<] and as many [>] as its input, and is at
    least as long. *)
Theorem enrichHeadings_keeps_tags html pageType :
  let enriched := enrichHeadings html pageType in
  count_occ ascii_dec enriched "<"%char = count_occ ascii_dec html "<"%char
  /\ count_occ ascii_dec enriched ">"%char = count_occ ascii_dec html ">"%char
  /\ length html <= length enriched.
Proof.
  cbn zeta. apply Touched_counts.
  eapply Enriched_Touched, enrichHeadings_Enriched.
Qed.

End HeadingsMore.

(* ===================================================================== *)
(** * The managed-file handlers                                            *)
(* ===================================================================== *)

Section SitemapUrls.
Import JsString SitemapXml UrlLists.

Lemma filter_filter_first (x : str) seen l :
  x ∈ seen ->
  fresh seen (List.filter (fun y => negb (bool_decide (y = x))) l)
  = fresh seen l.
Proof.
  intros Hx. unfold fresh. induction l as [|y l IH]; [done|].
  cbn [List.filter]. destruct (bool_decide (y = x)) eqn:E; cbn [negb].
  - apply bool_decide_eq_true in E as ->.
    rewrite (bool_decide_eq_true_2 _ Hx). cbn [negb]. exact IH.
  - cbn [List.filter]. by rewrite IH.
Qed.

Lemma fresh_snoc (x : str) seen l :
  fresh (seen ++ [x]) l
  = fresh seen (List.filter (fun y => negb (bool_decide (y = x))) l).
Proof.
  unfold fresh. induction l as [|y l IH]; [done|]. cbn [List.filter].
  destruct (bool_decide (y = x)) eqn:E; cbn [negb].
  - apply bool_decide_eq_true in E as ->.
    rewrite bool_decide_eq_true_2; [exact IH|].
    apply elem_of_app. right. by apply list_elem_of_singleton.
  - apply bool_decide_eq_false in E. cbn [List.filter].
    destruct (bool_decide (y ∈ seen)) eqn:E2.
    + rewrite bool_decide_eq_true_2; [exact IH|].
      apply bool_decide_eq_true in E2. apply elem_of_app. by left.
    + rewrite bool_decide_eq_false_2; [cbn [negb]; by rewrite IH|].
      apply bool_decide_eq_false in E2. intros [H|H]%elem_of_app; [done|].
      by apply list_elem_of_singleton in H.
Qed.

(** The loop, from any point of its run. *)
Lemma deduplicate_seen (urls : list str) (seen : gset (list ascii))
    (allUrls : list str) :
  (forall u, u ∈ seen <-> u ∈ allUrls) ->
  forall u, u ∈ (fold_left addUrl urls (seen, allUrls)).1
            <-> u ∈ (fold_left addUrl urls (seen, allUrls)).2.
Proof.
  revert seen allUrls. induction urls as [|x urls IH]; intros seen allUrls Hs.
  - exact Hs.
  - cbn [fold_left addUrl]. destruct (bool_decide (x ∈ seen)); [by apply IH|].
    apply IH. intros u.
    rewrite elem_of_union, elem_of_singleton, elem_of_app,
      list_elem_of_singleton, Hs. tauto.
Qed.

Lemma deduplicate_loop (urls : list str) (seen : gset (list ascii))
    (allUrls : list str) :
  (forall u, u ∈ seen <-> u ∈ allUrls) ->
  (fold_left addUrl urls (seen, allUrls)).2
  = allUrls ++ fresh allUrls (firsts urls).
Proof.
  revert seen allUrls. induction urls as [|x urls IH]; intros seen allUrls Hs.
  - cbn. by rewrite app_nil_r.
  - cbn [fold_left firsts addUrl]. destruct (bool_decide (x ∈ seen)) eqn:E.
    + apply bool_decide_eq_true in E. rewrite (IH _ _ Hs). f_equal.
      apply Hs in E. unfold fresh at 2. cbn [List.filter].
      rewrite (bool_decide_eq_true_2 _ E). cbn [negb].
      symmetry. by apply filter_filter_first.
    + apply bool_decide_eq_false in E. rewrite IH.
      * rewrite <- app_assoc. f_equal. cbn [app]. unfold fresh at 2.
        cbn [List.filter]. rewrite bool_decide_eq_false_2 by (by rewrite <- Hs).
        cbn [negb]. f_equal. apply fresh_snoc.
      * intros u. rewrite elem_of_union, elem_of_singleton, elem_of_app,
          list_elem_of_singleton, Hs. tauto.
Qed.

Lemma seen_empty (u : list ascii) :
  u ∈ (∅ : gset (list ascii)) <-> u ∈ @nil str.
Proof.
  split; [by intros ?%not_elem_of_empty | by intros ?%not_elem_of_nil].
Qed.

Lemma fresh_nil l : fresh [] l = l.
Proof.
  unfold fresh. induction l as [|y l IH]; [done|]. cbn [List.filter].
  rewrite bool_decide_eq_false_2 by apply not_elem_of_nil.
  cbn [negb]. by rewrite IH.
Qed.

Lemma deduplicate_firsts urls : (deduplicate urls).2 = firsts urls.
Proof.
  unfold deduplicate. rewrite deduplicate_loop; [apply fresh_nil|].
  apply seen_empty.
Qed.

Lemma elem_of_filter_ne (x u : str) l :
  u ∈ List.filter (fun y => negb (bool_decide (y = x))) l <-> u ∈ l /\ u <> x.
Proof.
  rewrite !list_elem_of_In, filter_In, negb_true_iff, bool_decide_eq_false.
  done.
Qed.

Lemma elem_of_fresh seen u l : u ∈ fresh seen l <-> u ∈ l /\ u ∉ seen.
Proof.
  unfold fresh.
  rewrite list_elem_of_In, filter_In, negb_true_iff, bool_decide_eq_false.
  by rewrite <- list_elem_of_In.
Qed.

Lemma elem_of_firsts u l : u ∈ firsts l <-> u ∈ l.
Proof.
  induction l as [|x l IH]; [done|]. cbn [firsts].
  rewrite !elem_of_cons, elem_of_filter_ne, IH.
  destruct (decide (u = x)); tauto.
Qed.

Lemma NoDup_filter_list {A} (f : A -> bool) l :
  NoDup l -> NoDup (List.filter f l).
Proof.
  induction 1 as [|x l Hx Hl IH]; cbn [List.filter]; [constructor|].
  destruct (f x); [|done]. constructor; [|done].
  rewrite list_elem_of_In, filter_In, <- list_elem_of_In. tauto.
Qed.

Lemma NoDup_firsts l : NoDup (firsts l).
Proof.
  induction l as [|x l IH]; cbn [firsts]; constructor.
  - rewrite elem_of_filter_ne. tauto.
  - by apply NoDup_filter_list.
Qed.

Lemma firsts_NoDup l : NoDup l -> firsts l = l.
Proof.
  induction 1 as [|x l Hx Hl IH]; [done|]. cbn [firsts]. rewrite IH. f_equal.
  clear IH Hl. induction l as [|y l IH]; [done|]. cbn [List.filter].
  apply not_elem_of_cons in Hx as [Hxy Hx].
  rewrite bool_decide_eq_false_2 by done. cbn [negb]. by rewrite IH.
Qed.

Lemma fresh_firsts seen l : fresh (firsts seen) l = fresh seen l.
Proof.
  unfold fresh. induction l as [|y l IH]; [done|]. cbn [List.filter].
  rewrite IH. f_equal.
  destruct (bool_decide (y ∈ seen)) eqn:E.
  - apply bool_decide_eq_true in E.
    by rewrite bool_decide_eq_true_2 by (by apply elem_of_firsts).
  - apply bool_decide_eq_false in E.
    by rewrite bool_decide_eq_false_2 by (by rewrite elem_of_firsts).
Qed.

Lemma firsts_app a b : firsts (a ++ b) = firsts a ++ fresh a (firsts b).
Proof.
  rewrite <- (deduplicate_firsts (a ++ b)). unfold deduplicate.
  rewrite fold_left_app.
  pose proof (deduplicate_seen a _ _ seen_empty) as Hs.
  pose proof (deduplicate_firsts a) as Ha. unfold deduplicate in Ha.
  destruct (fold_left addUrl a (∅, [])) as [seen acc]. cbn [fst snd] in *.
  subst acc. rewrite (deduplicate_loop _ _ _ Hs). f_equal.
  apply fresh_firsts.
Qed.

(** X5: the merged sitemap lists every URL of the two documents once:
    first those of the origin document in the order of their first
    occurrence, then those of the managed document that the origin
    document does not have. *)
Theorem mergeSitemapXml_each_url_once originXml botmonXml :
  let originUrls := extractSitemapUrls originXml in
  let botmonUrls := extractSitemapUrls botmonXml in
  let allUrls := firsts originUrls ++ fresh originUrls (firsts botmonUrls) in
  mergeSitemapXml originXml botmonXml = sitemapOf allUrls
  /\ NoDup allUrls
  /\ (forall url, url ∈ allUrls <-> url ∈ originUrls \/ url ∈ botmonUrls)
  /\ (NoDup originUrls -> NoDup botmonUrls ->
      allUrls = originUrls ++ fresh originUrls botmonUrls).
Proof.
  intros originUrls botmonUrls allUrls.
  assert (allUrls = firsts (originUrls ++ botmonUrls)) as Hall
    by (symmetry; apply firsts_app).
  split; [|split; [|split]].
  - unfold mergeSitemapXml. cbn zeta. rewrite deduplicate_firsts. by rewrite Hall.
  - rewrite Hall. apply NoDup_firsts.
  - intros url. by rewrite Hall, elem_of_firsts, elem_of_app.
  - intros Ho Hb. unfold allUrls. by rewrite !firsts_NoDup.
Qed.

End SitemapUrls.

Section Handlers.
Import JsString Eff MergeUtils SitemapXml ManagedFiles OriginAnswer UrlLists.
Variable Wd : Type.

Lemma fetchOriginText_closed (fetchOrigin : M Wd Response) w :
  fetchOriginText Wd fetchOrigin w
  = (Returned (textOf (lit "text/plain") (fetchOrigin w).1), (fetchOrigin w).2).
Proof.
  unfold fetchOriginText, try_catch, mbind, M_bind, bind, textOf, usable.
  destruct (fetchOrigin w) as [[r|e] w']; [|reflexivity]. cbn [fst snd].
  destruct (ok r); [|reflexivity]. cbn [negb andb].
  by destruct (includes _ _).
Qed.

Lemma fetchOriginXml_closed (fetchOrigin : M Wd Response) w :
  fetchOriginXml Wd fetchOrigin w
  = (Returned (textOf (lit "xml") (fetchOrigin w).1), (fetchOrigin w).2).
Proof.
  unfold fetchOriginXml, try_catch, mbind, M_bind, bind, textOf, usable.
  destruct (fetchOrigin w) as [[r|e] w']; [|reflexivity]. cbn [fst snd].
  destruct (ok r); [|reflexivity]. cbn [negb andb].
  by destruct (includes _ _).
Qed.

Lemma textOf_unusable kind o : usable kind o = false -> textOf kind o = [].
Proof. unfold textOf. destruct o; [|done]. by intros ->. Qed.

Lemma handleRobotsTxt_closed context config (fetchOrigin : M Wd Response) w :
  handleRobotsTxt Wd context config fetchOrigin w
  = let botmonContent := content config ?? [] in
    let originText := textOf (lit "text/plain") (fetchOrigin w).1 in
    match mode config with
    | ModeReplace =>
        (Returned
           (respond botmonContent
              [(lit "Content-Type", lit "text/plain; charset=utf-8");
               (lit "X-BotMon-Managed", lit "robots-txt");
               (lit "X-BotMon-Mode", lit "replace")]), w)
    | ModeAppend =>
        (Returned
           (respond (appendRobotsTxt originText botmonContent)
              [(lit "Content-Type", lit "text/plain; charset=utf-8");
               (lit "X-BotMon-Managed", lit "robots-txt");
               (lit "X-BotMon-Mode", lit "append")]), (fetchOrigin w).2)
    | ModeMerge =>
        (Returned
           (respond (mergeRobotsTxt originText botmonContent)
              [(lit "Content-Type", lit "text/plain; charset=utf-8");
               (lit "X-BotMon-Managed", lit "robots-txt");
               (lit "X-BotMon-Mode", lit "merge")]), (fetchOrigin w).2)
    | ModeDisabled => (Returned (ctx_response context), w)
    end.
Proof.
  unfold handleRobotsTxt. cbn zeta.
  destruct (mode config); try reflexivity;
    unfold mbind, M_bind, bind; by rewrite fetchOriginText_closed.
Qed.

Lemma handleSitemap_closed context config (fetchOrigin : M Wd Response) w :
  handleSitemap Wd context config fetchOrigin w
  = let botmonContent := content config ?? [] in
    let originXml := textOf (lit "xml") (fetchOrigin w).1 in
    match mode config with
    | ModeReplace =>
        (Returned
           (respond botmonContent
              [(lit "Content-Type", lit "application/xml; charset=utf-8");
               (lit "X-BotMon-Managed", lit "sitemap");
               (lit "X-BotMon-Mode", lit "replace")]), w)
    | ModeAppend | ModeMerge =>
        (Returned
           (respond (mergeSitemapXml originXml botmonContent)
              [(lit "Content-Type", lit "application/xml; charset=utf-8");
               (lit "X-BotMon-Managed", lit "sitemap");
               (lit "X-BotMon-Mode", lit "merge")]), (fetchOrigin w).2)
    | ModeDisabled => (Returned (ctx_response context), w)
    end.
Proof.
  unfold handleSitemap. cbn zeta.
  destruct (mode config); try reflexivity;
    unfold mbind, M_bind, bind; by rewrite fetchOriginXml_closed.
Qed.

(** X19: [handleRobotsTxt] never throws, whatever the origin fetch does.
    In mode replace the origin is not asked and the body is the managed
    content.  When the origin fetch throws, or answers outside 200..299
    or with a content type without [text/plain], the origin counts as
    empty: mode merge gives the managed blocks alone, mode append the
    separator and the trimmed managed content. *)
Theorem handleRobotsTxt_never_throws context config
    (fetchOrigin : M Wd Response) w :
  let botmonContent := content config ?? [] in
  exists response,
    handleRobotsTxt Wd context config fetchOrigin w
    = (Returned response,
       match mode config with
       | ModeAppend | ModeMerge => (fetchOrigin w).2
       | _ => w
       end)
    /\ (mode config = ModeDisabled -> response = ctx_response context)
    /\ (mode config <> ModeDisabled ->
        status response = 200
        /\ Headers.get (headers response) (lit "X-BotMon-Managed")
           = Some (lit "robots-txt"))
    /\ (mode config = ModeReplace -> body response = botmonContent)
    /\ (usable (lit "text/plain") (fetchOrigin w).1 = false ->
        (mode config = ModeMerge ->
         body response = blocksToString (parseRobotsTxt botmonContent))
        /\ (mode config = ModeAppend ->
            body response
            = if bool_decide (trim botmonContent = []) then []
              else [LF; LF] ++ lit "# === BotMon Managed Rules ===" ++ [LF]
                   ++ trim botmonContent ++ [LF])).
Proof.
  intros botmonContent. rewrite handleRobotsTxt_closed. cbn zeta.
  fold botmonContent.
  destruct (mode config) eqn:Hmode; eexists; (split; [reflexivity|]);
    (split; [try discriminate; done|]);
    (split; [try done; intros _; split; reflexivity|]);
    (split; [try discriminate; done|]);
    intros Hu; rewrite ?(textOf_unusable _ _ Hu);
    (split; [try discriminate|try discriminate]); intros _.
  - reflexivity.
  - cbn [respond body]. unfold mergeRobotsTxt.
    change (parseRobotsTxt []) with (@nil RobotsBlock).
    by rewrite mergeBlocks_closed, merged_nil_l.
Qed.

(** X20: [handleSitemap] never throws either, and treats mode append as
    mode merge, down to the [X-BotMon-Mode] header, which then reads
    [merge].  An origin fetch that throws, or answers outside 200..299
    or with a content type without [xml], counts as an empty document:
    the response lists the URLs of the managed document, each once. *)
Theorem handleSitemap_append_is_merge context config
    (fetchOrigin : M Wd Response) w :
  let botmonContent := content config ?? [] in
  exists response,
    handleSitemap Wd context config fetchOrigin w
    = (Returned response,
       match mode config with
       | ModeAppend | ModeMerge => (fetchOrigin w).2
       | _ => w
       end)
    /\ (mode config = ModeAppend ->
        handleSitemap Wd context config fetchOrigin w
        = handleSitemap Wd context
            {| enabled := enabled config; mode := ModeMerge;
               content := content config |} fetchOrigin w
        /\ Headers.get (headers response) (lit "X-BotMon-Mode")
           = Some (lit "merge"))
    /\ (mode config <> ModeDisabled ->
        status response = 200
        /\ Headers.get (headers response) (lit "X-BotMon-Managed")
           = Some (lit "sitemap"))
    /\ (mode config = ModeReplace -> body response = botmonContent)
    /\ (mode config = ModeAppend \/ mode config = ModeMerge ->
        usable (lit "xml") (fetchOrigin w).1 = false ->
        body response
        = sitemapOf (firsts (extractSitemapUrls botmonContent))).
Proof.
  intros botmonContent. rewrite !handleSitemap_closed. cbn zeta.
  fold botmonContent. cbn [mode content].
  destruct (mode config) eqn:Hmode; eexists; (split; [reflexivity|]);
    (split; [try discriminate; intros _; split; reflexivity|]);
    (split; [try done; intros _; split; reflexivity|]);
    (split; [try discriminate; done|]);
    try (intros [?|?]; discriminate);
    intros _ Hu; rewrite (textOf_unusable _ _ Hu);
    cbn [respond body]; unfold mergeSitemapXml; cbn zeta;
    rewrite deduplicate_firsts;
    by change (extractSitemapUrls []) with (@nil str).
Qed.

End Handlers.

Section PipelineWithHandlers.
Import JsString JsRegExp Eff Pipeline ManagedFiles.
Variable W : Type.
Variable inferContentType : str -> str.
Variable applyGeoOptimization :
  Response -> ResponseContext -> ResolvedGeo -> M (World W) GeoOptimizationResult.

(** The pipeline with the handlers of the three managed files. *)
Abbreviation wellKnownHandler :=
  (fun filename config =>
     ret (handleWellKnown inferContentType filename config) : M (World W) Response).
Abbreviation fileStages :=
  (stages W (M (World W) Response) (handleRobotsTxt (World W))
     (handleSitemap (World W)) wellKnownHandler).
Abbreviation served :=
  (runPipeline W (M (World W) Response) (handleRobotsTxt (World W))
     (handleSitemap (World W)) wellKnownHandler applyGeoOptimization).

Lemma sitemapPattern_later s i : search sitemapPattern s (S i) = None.
Proof.
  revert i. induction s as [|c s IH]; intros i; [reflexivity|].
  rewrite search_skip; [apply IH | reflexivity].
Qed.

Lemma sitemapPattern_well_known filename :
  test sitemapPattern (lit "/.well-known/" ++ filename) = false.
Proof.
  unfold test, exec. cbn [lit list_ascii_of_string app].
  rewrite search_skip by reflexivity. by rewrite sitemapPattern_later.
Qed.

Lemma replaceFirst_prefix p s : replaceFirst (p ++ s) p [] = s.
Proof.
  unfold replaceFirst.
  assert (indexOf (p ++ s) p = Some 0) as ->.
  { destruct (p ++ s) eqn:E; cbn [indexOf]; rewrite <- E;
      by rewrite startsWith_app. }
  cbn [take app Nat.add]. by rewrite drop_app_length.
Qed.

(** The third stage answers, the first two pass. *)
Lemma well_known_stage ctx cfg (fetch : M (World W) Response) w
    filename fileConfig :
  wk_enabled (wellKnown cfg) = true ->
  pathname (ctx_url ctx) = lit "/.well-known/" ++ filename ->
  Obj.get (files (wellKnown cfg)) filename = Some fileConfig ->
  wk_mode fileConfig <> ModeDisabled ->
  served ctx cfg fetch w
  = (Returned {| out_response :=
                   handleWellKnown inferContentType filename fileConfig;
                 appliedRules := [lit "well-known"];
                 out_context := ctx |}, w).
Proof.
  intros Hen Hpath Hfile Hmode.
  assert (isDisabled (wk_mode fileConfig) = false) as Hdis
    by (by destruct (wk_mode fileConfig)).
  unfold runPipeline, stages, mbind at 1, M_bind at 1, bind at 1.
  rewrite (runStages_not_handled _ _ _ _ _ _ _ _ w notHandled w); [| |by left].
  2:{ cbn [run]. rewrite Hpath.
      destruct (negb (enabled (robotsTxt cfg)) || _); [reflexivity|].
      rewrite bool_decide_eq_false_2 by discriminate. reflexivity. }
  rewrite (runStages_not_handled _ _ _ _ _ _ _ _ w notHandled w); [| |by left].
  2:{ cbn [run]. rewrite Hpath, sitemapPattern_well_known.
      by destruct (negb (enabled (sitemap cfg)) || _). }
  erewrite runStages_handled; [reflexivity|].
  cbn [run]. rewrite Hen, Hpath, startsWith_app, replaceFirst_prefix, Hfile, Hdis.
  reflexivity.
Qed.

(** The first stage answers. *)
Lemma robots_txt_stage ctx cfg (fetch : M (World W) Response) w response w' :
  enabled (robotsTxt cfg) = true -> mode (robotsTxt cfg) <> ModeDisabled ->
  pathname (ctx_url ctx) = lit "/robots.txt" ->
  handleRobotsTxt (World W) ctx (robotsTxt cfg) fetch w = (Returned response, w') ->
  served ctx cfg fetch w
  = (Returned {| out_response := response;
                 appliedRules := [lit "robots-txt"];
                 out_context := ctx |}, w').
Proof.
  intros Hen Hmode Hpath Hrun.
  unfold runPipeline, stages, mbind at 1, M_bind at 1, bind at 1.
  erewrite runStages_handled; [reflexivity|].
  cbn [run]. rewrite Hen, Hpath. cbn [negb orb].
  replace (isDisabled (mode (robotsTxt cfg))) with false
    by (by destruct (mode (robotsTxt cfg))).
  rewrite bool_decide_eq_true_2 by done. cbn [negb].
  unfold mbind, M_bind, bind. by rewrite Hrun.
Qed.

(** X21: a request for [/robots.txt], under an enabled rule in a mode
    other than disabled, is answered by [handleRobotsTxt] and by no
    other rule: the pipeline returns the handler's response with the one
    applied rule [robots-txt] and the world the handler left, in which
    nothing is logged even when the origin fetch throws; GEO is not
    applied to it. *)
Theorem runPipeline_serves_robots_txt ctx cfg (fetch : M (World W) Response) w :
  enabled (robotsTxt cfg) = true -> mode (robotsTxt cfg) <> ModeDisabled ->
  pathname (ctx_url ctx) = lit "/robots.txt" ->
  exists response w',
    handleRobotsTxt (World W) ctx (robotsTxt cfg) fetch w = (Returned response, w')
    /\ served ctx cfg fetch w
       = (Returned {| out_response := response;
                      appliedRules := [lit "robots-txt"];
                      out_context := ctx |}, w')
    /\ status response = 200
    /\ w'.2 = match mode (robotsTxt cfg) with
              | ModeReplace => w.2
              | _ => (fetch w).2.2
              end.
Proof.
  intros Hen Hmode Hpath.
  pose proof (handleRobotsTxt_closed (World W) ctx (robotsTxt cfg) fetch w) as Hh.
  cbn zeta in Hh.
  assert (exists response w',
             handleRobotsTxt (World W) ctx (robotsTxt cfg) fetch w
             = (Returned response, w')
             /\ status response = 200
             /\ w'.2 = match mode (robotsTxt cfg) with
                       | ModeReplace => w.2
                       | _ => (fetch w).2.2
                       end) as (response & w' & Hrun & Hst & Hw).
  { rewrite Hh. destruct (mode (robotsTxt cfg)); try done; by eexists _, _. }
  exists response, w'. split; [done|]. split; [|done].
  by apply robots_txt_stage.
Qed.

(** X22: a request for [/.well-known/<file>], with the well-known rule
    enabled and the file configured in a mode other than disabled, is
    answered by the pipeline itself, from the configuration alone: the
    world is left as it was, the origin is not asked.  When the file has
    no content, or an empty one, the answer is a 404 [Not Found]; the
    request does not fall through to the origin response. *)
Theorem runPipeline_well_known ctx cfg (fetch : M (World W) Response) w
    filename fileConfig :
  wk_enabled (wellKnown cfg) = true ->
  pathname (ctx_url ctx) = lit "/.well-known/" ++ filename ->
  Obj.get (files (wellKnown cfg)) filename = Some fileConfig ->
  wk_mode fileConfig <> ModeDisabled ->
  exists response,
    served ctx cfg fetch w
    = (Returned {| out_response := response;
                   appliedRules := [lit "well-known"];
                   out_context := ctx |}, w)
    /\ match SummaryGenerator.truthy (wk_content fileConfig) with
       | Some fileContent =>
           status response = 200 /\ body response = fileContent
           /\ Headers.get (headers response) (lit "X-BotMon-File")
              = Some filename
       | None => status response = 404 /\ body response = lit "Not Found"
       end.
Proof.
  intros Hen Hpath Hfile Hmode.
  exists (handleWellKnown inferContentType filename fileConfig). split.
  - by apply well_known_stage.
  - unfold handleWellKnown.
    replace (isDisabled (wk_mode fileConfig)) with false
      by (by destruct (wk_mode fileConfig)).
    destruct (SummaryGenerator.truthy (wk_content fileConfig)); [|done].
    split; [done|]. split; [done|].
    unfold respond, headers, Headers.make. cbn [fold_left].
    unfold Headers.get, Headers.set.
    apply Obj_get_set_eq.
Qed.

(** X27: without dashboard content the middleware still answers.  When
    the remote configuration has no robots.txt entry and the SDK code
    enables the rule in mode replace, [/robots.txt] is answered with
    status 200 and an empty body, and the origin is not asked. *)
Theorem sdk_only_robots_txt_is_empty sdk remote local ctx
    (fetch : M (World W) Response) w :
  remote ≫= rem_robotsTxt = None ->
  sdk_robotsTxt sdk = Some local ->
  sdk_enabled local = Some true -> sdk_mode local = Some ModeReplace ->
  pathname (ctx_url ctx) = lit "/robots.txt" ->
  exists response,
    served ctx (ConfigMerger.mergeConfig sdk remote) fetch w
    = (Returned {| out_response := response;
                   appliedRules := [lit "robots-txt"];
                   out_context := ctx |}, w)
    /\ status response = 200 /\ body response = []
    /\ Headers.get (headers response) (lit "X-BotMon-Mode")
       = Some (lit "replace").
Proof.
  intros Hremote Hsdk Hen Hmode Hpath.
  assert (robotsTxt (ConfigMerger.mergeConfig sdk remote)
          = {| enabled := true; mode := ModeReplace; content := None |}) as Hcfg.
  { cbn [ConfigMerger.mergeConfig robotsTxt]. unfold ConfigMerger.mergeRobotsTxt.
    rewrite Hremote, Hsdk. cbn [mbind option_bind]. by rewrite Hen, Hmode. }
  eexists. split; [|split; [|split]].
  - apply robots_txt_stage; rewrite ?Hcfg; try done.
  - reflexivity.
  - reflexivity.
  - reflexivity.
Qed.

(** X28: a [.well-known] file that the SDK code declares, in a mode
    other than disabled, and for which the dashboard gives no entry,
    has no content; with the rule enabled the pipeline answers its path
    with 404 [Not Found] instead of passing the request to the
    origin. *)
Theorem sdk_only_well_known_not_found sdk remote ctx
    (fetch : M (World W) Response) w filename fileConfig :
  let localFiles := (sdk_wellKnown sdk ≫= sdk_wk_files) ?? [] in
  NoDup (Obj.keys localFiles) ->
  (forall r, remote ≫= rem_wellKnown = Some r ->
             NoDup (Obj.keys (rem_wk_files r))
             /\ Obj.get (rem_wk_files r) filename = None) ->
  wk_enabled (wellKnown (ConfigMerger.mergeConfig sdk remote)) = true ->
  Obj.get localFiles filename = Some fileConfig ->
  wkf_mode fileConfig <> ModeDisabled ->
  pathname (ctx_url ctx) = lit "/.well-known/" ++ filename ->
  served ctx (ConfigMerger.mergeConfig sdk remote) fetch w
  = (Returned {| out_response := notFound;
                 appliedRules := [lit "well-known"];
                 out_context := ctx |}, w).
Proof.
  intros localFiles Hlocal Hremote Hen Hfile Hmode Hpath. subst localFiles.
  destruct (sdk_wellKnown sdk ≫= sdk_wk_files) as [localFiles|] eqn:Hsdk;
    [|discriminate Hfile].
  unfold nullish in Hlocal, Hfile.
  assert (Obj.get (files (wellKnown (ConfigMerger.mergeConfig sdk remote)))
            filename
          = Some {| wk_mode := wkf_mode fileConfig; wk_content := None |})
    as Hget.
  { cbn [ConfigMerger.mergeConfig wellKnown]. unfold ConfigMerger.mergeWellKnown.
    cbn zeta.
    match goal with
    | |- context [ConfigMerger.copySdkFiles ?t] =>
        assert (t = localFiles) as ->
          by exact (f_equal (fun o => o ?? []) Hsdk)
    end.
    destruct (remote ≫= rem_wellKnown) as [r|] eqn:Hr; cbn [files].
    - destruct (Hremote r eq_refl) as [Hnd Hnone].
      rewrite overlayRemoteFiles_closed by done.
      unfold KeyedMerge.wellKnownFiles.
      rewrite Obj_get_app_l.
      + rewrite get_resolveLocal, Hfile. cbn [fmap option_fmap option_map].
        unfold KeyedMerge.resolveLocal. cbn [fst snd]. by rewrite Hnone.
      + rewrite keys_resolveLocal.
        match goal with |- In _ (Obj.keys ?l) =>
          destruct (decide (filename ∈ Obj.keys l)) as [Hin|Hout] end;
          [by apply list_elem_of_In|].
        rewrite list_elem_of_In in Hout. apply Obj_get_None in Hout.
        congruence.
    - rewrite copySdkFiles_closed, <- resolveLocal_nil by done.
      rewrite get_resolveLocal, Hfile. reflexivity. }
  rewrite (well_known_stage _ _ _ _ _ _ Hen Hpath Hget Hmode).
  unfold handleWellKnown. cbn [wk_mode wk_content].
  by destruct (wkf_mode fileConfig).
Qed.

End PipelineWithHandlers.

Lemma mergeSitemapXml_each_url_once_witness :
  let originXml := lit "<loc>https://a.example/</loc><loc>https://a.example/x</loc>" in
  let botmonXml := lit "<loc>https://a.example/x</loc><loc>https://a.example/y</loc>" in
  SitemapXml.mergeSitemapXml originXml botmonXml
  = SitemapXml.sitemapOf
      [lit "https://a.example/"; lit "https://a.example/x";
       lit "https://a.example/y"].
Proof.
  cbn zeta.
  destruct (mergeSitemapXml_each_url_once
              (lit "<loc>https://a.example/</loc><loc>https://a.example/x</loc>")
              (lit "<loc>https://a.example/x</loc><loc>https://a.example/y</loc>"))
    as (Hmerge & _ & _ & Hurls).
  rewrite Hmerge, Hurls.
  - by vm_compute.
  - apply (bool_decide_unpack _). by vm_compute.
  - apply (bool_decide_unpack _). by vm_compute.
Defined.

Lemma handleRobotsTxt_never_throws_witness :
  let config := {| enabled := true; mode := ModeMerge;
                   content := Some (lit "User-agent: GPTBot
Disallow: /private") |} in
  let context := {| ctx_response := {| status := 500; headers := []; body := [] |};
                    ctx_url := {| href := lit "https://example.com/robots.txt";
                                  pathname := lit "/robots.txt" |};
                    isAiBot := false; ctx_pageType := None |} in
  exists response,
    ManagedFiles.handleRobotsTxt unit context config (Eff.throw (lit "offline")) tt
    = (Eff.Returned response, tt)
    /\ body response = lit "User-agent: GPTBot
Disallow: /private".
Proof.
  cbn zeta.
  destruct (handleRobotsTxt_never_throws unit
              {| ctx_response := {| status := 500; headers := []; body := [] |};
                 ctx_url := {| href := lit "https://example.com/robots.txt";
                               pathname := lit "/robots.txt" |};
                 isAiBot := false; ctx_pageType := None |}
              {| enabled := true; mode := ModeMerge;
                 content := Some (lit "User-agent: GPTBot
Disallow: /private") |}
              (Eff.throw (lit "offline")) tt)
    as (response & Hrun & _ & _ & _ & Hfail).
  exists response. split; [exact Hrun|].
  destruct (Hfail eq_refl) as [Hmerge _]. rewrite (Hmerge eq_refl).
  by vm_compute.
Defined.

Lemma handleSitemap_append_is_merge_witness :
  let config := {| enabled := true; mode := ModeAppend;
                   content := Some (lit "<loc>https://a.example/</loc>") |} in
  let context := {| ctx_response := {| status := 500; headers := []; body := [] |};
                    ctx_url := {| href := lit "https://example.com/sitemap.xml";
                                  pathname := lit "/sitemap.xml" |};
                    isAiBot := false; ctx_pageType := None |} in
  exists response,
    ManagedFiles.handleSitemap unit context config (Eff.throw (lit "offline")) tt
    = (Eff.Returned response, tt)
    /\ Headers.get (headers response) (lit "X-BotMon-Mode") = Some (lit "merge")
    /\ body response = SitemapXml.sitemapOf [lit "https://a.example/"].
Proof.
  cbn zeta.
  destruct (handleSitemap_append_is_merge unit
              {| ctx_response := {| status := 500; headers := []; body := [] |};
                 ctx_url := {| href := lit "https://example.com/sitemap.xml";
                               pathname := lit "/sitemap.xml" |};
                 isAiBot := false; ctx_pageType := None |}
              {| enabled := true; mode := ModeAppend;
                 content := Some (lit "<loc>https://a.example/</loc>") |}
              (Eff.throw (lit "offline")) tt)
    as (response & Hrun & Happend & _ & _ & Hfail).
  exists response. split; [exact Hrun|].
  destruct (Happend eq_refl) as [_ Hmode]. split; [exact Hmode|].
  rewrite (Hfail (or_introl eq_refl) eq_refl). by vm_compute.
Defined.

Lemma runPipeline_serves_robots_txt_witness :
  let boom {A} : Eff.M (Pipeline.World unit) A := Eff.throw (lit "boom") in
  let origin := {| status := 500; headers := []; body := [] |} in
  let ctx := {| ctx_response := origin;
                ctx_url := {| href := lit "https://example.com/robots.txt";
                              pathname := lit "/robots.txt" |};
                isAiBot := true; ctx_pageType := None |} in
  let on := {| enabled := true; mode := ModeMerge;
               content := Some (lit "User-agent: *") |} in
  let cfg := {| robotsTxt := on; sitemap := on;
                wellKnown := {| wk_enabled := true; files := [] |};
                geo := {| geo_enabled := true; injectJsonLd := true;
                          injectSummary := true; enrichHeadings_on := true;
                          rules := [] |} |} in
  exists response w',
    Pipeline.runPipeline unit (Eff.M (Pipeline.World unit) Response)
      (ManagedFiles.handleRobotsTxt (Pipeline.World unit))
      (ManagedFiles.handleSitemap (Pipeline.World unit))
      (fun filename config =>
         Eff.ret (ManagedFiles.handleWellKnown (fun _ => lit "text/plain")
                    filename config))
      (fun _ _ _ => boom) ctx cfg boom (tt, [])
    = (Eff.Returned {| Pipeline.out_response := response;
                       Pipeline.appliedRules := [lit "robots-txt"];
                       Pipeline.out_context := ctx |}, w')
    /\ status response = 200 /\ w'.2 = [].
Proof.
  cbn zeta.
  match goal with
  | |- exists response w',
         Pipeline.runPipeline _ _ _ _ _ ?g ?ctx ?cfg ?f ?w = _ /\ _ =>
      destruct (runPipeline_serves_robots_txt unit (fun _ => lit "text/plain")
                  g ctx cfg f w eq_refl ltac:(discriminate) eq_refl)
        as (response & w' & _ & Hrun & Hstatus & Hlog)
  end.
  exists response, w'. split; [exact Hrun|]. split; [exact Hstatus|exact Hlog].
Defined.

Lemma runPipeline_well_known_witness :
  let boom {A} : Eff.M (Pipeline.World unit) A := Eff.throw (lit "boom") in
  let origin := {| status := 200; headers := []; body := lit "origin llms.txt" |} in
  let ctx := {| ctx_response := origin;
                ctx_url := {| href := lit "https://example.com/.well-known/llms.txt";
                              pathname := lit "/.well-known/llms.txt" |};
                isAiBot := false; ctx_pageType := None |} in
  let off := {| enabled := false; mode := ModeDisabled; content := None |} in
  let cfg := {| robotsTxt := off; sitemap := off;
                wellKnown :=
                  {| wk_enabled := true;
                     files := [(lit "llms.txt",
                                {| wk_mode := ModeReplace; wk_content := None |})] |};
                geo := {| geo_enabled := false; injectJsonLd := true;
                          injectSummary := true; enrichHeadings_on := true;
                          rules := [] |} |} in
  exists response,
    Pipeline.runPipeline unit (Eff.M (Pipeline.World unit) Response)
      (ManagedFiles.handleRobotsTxt (Pipeline.World unit))
      (ManagedFiles.handleSitemap (Pipeline.World unit))
      (fun filename config =>
         Eff.ret (ManagedFiles.handleWellKnown (fun _ => lit "text/plain")
                    filename config))
      (fun _ _ _ => boom) ctx cfg boom (tt, [])
    = (Eff.Returned {| Pipeline.out_response := response;
                       Pipeline.appliedRules := [lit "well-known"];
                       Pipeline.out_context := ctx |}, (tt, []))
    /\ status response = 404.
Proof.
  cbn zeta.
  match goal with
  | |- exists response,
         Pipeline.runPipeline _ _ _ _ _ ?g ?ctx ?cfg ?f ?w = _ /\ _ =>
      destruct (runPipeline_well_known unit (fun _ => lit "text/plain")
                  g ctx cfg f w (lit "llms.txt")
                  {| wk_mode := ModeReplace; wk_content := None |}
                  eq_refl eq_refl eq_refl ltac:(discriminate))
        as (response & Hrun & Hresp)
  end.
  exists response. split; [exact Hrun|exact (proj1 Hresp)].
Defined.

Lemma sdk_only_robots_txt_is_empty_witness :
  let boom {A} : Eff.M (Pipeline.World unit) A := Eff.throw (lit "boom") in
  let sdk := {| sdk_robotsTxt :=
                  Some {| sdk_enabled := Some true; sdk_mode := Some ModeReplace |};
                sdk_sitemap := None; sdk_wellKnown := None; sdk_geo := None |} in
  let ctx := {| ctx_response :=
                  {| status := 200; headers := []; body := lit "User-agent: *" |};
                ctx_url := {| href := lit "https://example.com/robots.txt";
                              pathname := lit "/robots.txt" |};
                isAiBot := false; ctx_pageType := None |} in
  exists response,
    Pipeline.runPipeline unit (Eff.M (Pipeline.World unit) Response)
      (ManagedFiles.handleRobotsTxt (Pipeline.World unit))
      (ManagedFiles.handleSitemap (Pipeline.World unit))
      (fun filename config =>
         Eff.ret (ManagedFiles.handleWellKnown (fun _ => lit "text/plain")
                    filename config))
      (fun _ _ _ => boom) ctx (ConfigMerger.mergeConfig sdk None) boom (tt, [])
    = (Eff.Returned {| Pipeline.out_response := response;
                       Pipeline.appliedRules := [lit "robots-txt"];
                       Pipeline.out_context := ctx |}, (tt, []))
    /\ body response = [].
Proof.
  cbn zeta.
  match goal with
  | |- exists response,
         Pipeline.runPipeline _ _ _ _ _ ?g ?ctx (ConfigMerger.mergeConfig ?sdk _) ?f ?w
         = _ /\ _ =>
      destruct (sdk_only_robots_txt_is_empty unit (fun _ => lit "text/plain")
                  g sdk None
                  {| sdk_enabled := Some true; sdk_mode := Some ModeReplace |}
                  ctx f w eq_refl eq_refl eq_refl eq_refl eq_refl)
        as (response & Hrun & _ & Hbody & _)
  end.
  exists response. split; [exact Hrun|exact Hbody].
Defined.

Lemma sdk_only_well_known_not_found_witness :
  let boom {A} : Eff.M (Pipeline.World unit) A := Eff.throw (lit "boom") in
  let sdk := {| sdk_robotsTxt := None; sdk_sitemap := None;
                sdk_wellKnown :=
                  Some {| sdk_wk_enabled := Some true;
                          sdk_wk_files :=
                            Some [(lit "llms.txt", {| wkf_mode := ModeReplace |})] |};
                sdk_geo := None |} in
  let ctx := {| ctx_response :=
                  {| status := 200; headers := []; body := lit "origin llms.txt" |};
                ctx_url := {| href := lit "https://example.com/.well-known/llms.txt";
                              pathname := lit "/.well-known/llms.txt" |};
                isAiBot := false; ctx_pageType := None |} in
  Pipeline.runPipeline unit (Eff.M (Pipeline.World unit) Response)
    (ManagedFiles.handleRobotsTxt (Pipeline.World unit))
    (ManagedFiles.handleSitemap (Pipeline.World unit))
    (fun filename config =>
       Eff.ret (ManagedFiles.handleWellKnown (fun _ => lit "text/plain")
                  filename config))
    (fun _ _ _ => boom) ctx (ConfigMerger.mergeConfig sdk None) boom (tt, [])
  = (Eff.Returned {| Pipeline.out_response := ManagedFiles.notFound;
                     Pipeline.appliedRules := [lit "well-known"];
                     Pipeline.out_context := ctx |}, (tt, [])).
Proof.
  cbn zeta.
  apply (sdk_only_well_known_not_found unit (fun _ => lit "text/plain") _ _ None
           _ _ _ (lit "llms.txt") {| wkf_mode := ModeReplace |}).
  - apply (bool_decide_unpack _). by vm_compute.
  - discriminate.
  - reflexivity.
  - reflexivity.
  - discriminate.
  - reflexivity.
Defined.

(* ===================================================================== *)
(** * Escaping for HTML attributes                                         *)
(* ===================================================================== *)

Section Escaping.
Import JsString JsRegExp Closed Entities.

Lemma flat_map_flat_map {A B C} (f : A -> list B) (g : B -> list C) l :
  flat_map g (flat_map f l) = flat_map (fun a => flat_map g (f a)) l.
Proof.
  induction l as [|a l IH]; [done|]. cbn [flat_map].
  by rewrite flat_map_app, IH.
Qed.

(** One pass: every [c0] becomes [word]. *)
Lemma replace_char R (c0 : ascii) (word : string) s :
  pattern R = Char c0 -> ignoreCase R = false -> global R = true ->
  "$"%char ∉ lit word ->
  replace R s (lit word)
  = flat_map (fun c => if bool_decide (c = c0) then lit word else [c]) s.
Proof.
  intros Hp Hic Hg Hword.
  apply (replace_oneChar R (fun c => bool_decide (c = c0))); [|done|].
  - apply oneChar_atom. by rewrite Hp, Hic.
  - intros mt c _. clear -Hword. induction (lit word) as [|d t IH]; [done|].
    apply not_elem_of_cons in Hword as [Hd Ht]. cbn [substitute].
    rewrite bool_decide_eq_false_2 by done. by rewrite IH.
Qed.

Lemma entity_cases apostrophes c :
  (c = "&"%char /\ entity apostrophes c = lit "&amp;")
  \/ (c = DQUOTE /\ entity apostrophes c = lit "&quot;")
  \/ (c = "'"%char /\ apostrophes = true /\ entity apostrophes c = lit "&#39;")
  \/ (c = "<"%char /\ entity apostrophes c = lit "&lt;")
  \/ (c = ">"%char /\ entity apostrophes c = lit "&gt;")
  \/ (c <> "&"%char /\ c <> DQUOTE /\ c <> "<"%char /\ c <> ">"%char
      /\ (apostrophes = true -> c <> "'"%char)
      /\ entity apostrophes c = [c]).
Proof.
  unfold entity.
  destruct (bool_decide (c = "&"%char)) eqn:E1;
    [apply bool_decide_eq_true in E1; by left|].
  destruct (bool_decide (c = DQUOTE)) eqn:E2;
    [apply bool_decide_eq_true in E2; right; by left|].
  destruct (apostrophes && bool_decide (c = "'"%char)) eqn:E3.
  { apply andb_true_iff in E3 as [-> E3]. apply bool_decide_eq_true in E3.
    right; right; by left. }
  destruct (bool_decide (c = "<"%char)) eqn:E4;
    [apply bool_decide_eq_true in E4; right; right; right; by left|].
  destruct (bool_decide (c = ">"%char)) eqn:E5;
    [apply bool_decide_eq_true in E5; right; right; right; right; by left|].
  apply bool_decide_eq_false in E1, E2, E4, E5.
  do 5 right. repeat split; try done.
  intros ->. cbn [andb] in E3. by apply bool_decide_eq_false in E3.
Qed.

Lemma escapeAttr_closed s : Geo.escapeAttr s = flat_map (entity false) s.
Proof.
  unfold Geo.escapeAttr.
  rewrite (replace_char Geo.ampersand "&" "&amp;" s) by
    (first [reflexivity | apply (bool_decide_unpack _); by vm_compute]).
  rewrite (replace_char Geo.doubleQuote DQUOTE "&quot;") by
    (first [reflexivity | apply (bool_decide_unpack _); by vm_compute]).
  rewrite (replace_char Geo.lessThan "<" "&lt;") by
    (first [reflexivity | apply (bool_decide_unpack _); by vm_compute]).
  rewrite (replace_char Geo.greaterThan ">" "&gt;") by
    (first [reflexivity | apply (bool_decide_unpack _); by vm_compute]).
  rewrite !flat_map_flat_map. apply flat_map_ext. intros c.
  destruct (entity_cases false c)
    as [[-> ->]|[[-> ->]|[(_ & [=] & _)|[[-> ->]|[[-> ->]|(H1 & H2 & H3 & H4 & _ & ->)]]]]];
    try reflexivity.
  rewrite (bool_decide_eq_false_2 _ H1). cbn [flat_map app].
  rewrite (bool_decide_eq_false_2 _ H2). cbn [flat_map app].
  rewrite (bool_decide_eq_false_2 _ H3). cbn [flat_map app].
  by rewrite (bool_decide_eq_false_2 _ H4).
Qed.

Lemma escapeHtmlAttr_closed s :
  HtmlEscape.escapeHtmlAttr s = flat_map (entity true) s.
Proof.
  unfold HtmlEscape.escapeHtmlAttr.
  rewrite (replace_char Geo.ampersand "&" "&amp;" s) by
    (first [reflexivity | apply (bool_decide_unpack _); by vm_compute]).
  rewrite (replace_char Geo.doubleQuote DQUOTE "&quot;") by
    (first [reflexivity | apply (bool_decide_unpack _); by vm_compute]).
  rewrite (replace_char HtmlEscape.apostrophe "'" "&#39;") by
    (first [reflexivity | apply (bool_decide_unpack _); by vm_compute]).
  rewrite (replace_char Geo.lessThan "<" "&lt;") by
    (first [reflexivity | apply (bool_decide_unpack _); by vm_compute]).
  rewrite (replace_char Geo.greaterThan ">" "&gt;") by
    (first [reflexivity | apply (bool_decide_unpack _); by vm_compute]).
  rewrite !flat_map_flat_map. apply flat_map_ext. intros c.
  destruct (entity_cases true c)
    as [[-> ->]|[[-> ->]|[(-> & _ & ->)|[[-> ->]|[[-> ->]|(H1 & H2 & H3 & H4 & H5 & ->)]]]]];
    try reflexivity.
  specialize (H5 eq_refl).
  rewrite (bool_decide_eq_false_2 _ H1). cbn [flat_map app].
  rewrite (bool_decide_eq_false_2 _ H2). cbn [flat_map app].
  rewrite (bool_decide_eq_false_2 _ H5). cbn [flat_map app].
  rewrite (bool_decide_eq_false_2 _ H3). cbn [flat_map app].
  by rewrite (bool_decide_eq_false_2 _ H4).
Qed.

Lemma entity_safe apostrophes c d :
  d ∈ entity apostrophes c ->
  d <> DQUOTE /\ d <> "<"%char /\ d <> ">"%char
  /\ (apostrophes = true -> d <> "'"%char).
Proof.
  destruct (entity_cases apostrophes c)
    as [[-> ->]|[[-> ->]|[(-> & _ & ->)|[[-> ->]|[[-> ->]|(H1 & H2 & H3 & H4 & H5 & ->)]]]]].
  6:{ intros ->%list_elem_of_singleton. done. }
  all: intros Hd; apply list_elem_of_In in Hd; cbn in Hd;
    repeat (destruct Hd as [<-|Hd]; [by repeat split|]); destruct Hd.
Qed.

Lemma entity_head apostrophes c :
  exists d t, entity apostrophes c = d :: t
              /\ (t = [] -> d = c /\ c <> "&"%char)
              /\ (t <> [] -> d = "&"%char).
Proof.
  destruct (entity_cases apostrophes c)
    as [[-> ->]|[[-> ->]|[(-> & _ & ->)|[[-> ->]|[[-> ->]|(H1 & H2 & H3 & H4 & H5 & ->)]]]]];
    eexists _, _; (split; [reflexivity|]); split; try done.
Qed.

(** Two characters with entities one of which begins the other's text
    are the same character. *)
Lemma entity_prefix_free apostrophes c1 c2 r1 r2 :
  entity apostrophes c1 ++ r1 = entity apostrophes c2 ++ r2 ->
  c1 = c2.
Proof.
  destruct (entity_cases apostrophes c1)
    as [[-> ->]|[[-> ->]|[(-> & _ & ->)|[[-> ->]|[[-> ->]|(H1 & H2 & H3 & H4 & H5 & ->)]]]]];
  destruct (entity_cases apostrophes c2)
    as [[-> ->]|[[-> ->]|[(-> & _ & ->)|[[-> ->]|[[-> ->]|(G1 & G2 & G3 & G4 & G5 & ->)]]]]];
    try reflexivity; try discriminate;
    cbn [lit list_ascii_of_string app]; intros [=]; congruence.
Qed.

Lemma flat_map_entity_inj apostrophes s1 s2 :
  flat_map (entity apostrophes) s1 = flat_map (entity apostrophes) s2 ->
  s1 = s2.
Proof.
  revert s2. induction s1 as [|c1 s1 IH]; intros [|c2 s2]; cbn [flat_map].
  - done.
  - destruct (entity_head apostrophes c2) as (d & t & -> & _). discriminate.
  - destruct (entity_head apostrophes c1) as (d & t & -> & _). discriminate.
  - intros H. pose proof (entity_prefix_free _ _ _ _ _ H) as ->.
    apply app_inv_head in H. f_equal. by apply IH.
Qed.

(** X24: [escapeAttr] and [escapeHtmlAttr] rewrite their argument
    character by character: [&], the double quote, [<] and [>] (and, for
    [escapeHtmlAttr], the apostrophe) become their entities, every other
    character stays.  So no double quote and no angle bracket is left in
    the result (no apostrophe either for [escapeHtmlAttr]), and two
    different texts are never escaped to the same one. *)
Theorem escapeAttr_safe :
  (forall s,
     Geo.escapeAttr s = flat_map (entity false) s
     /\ (DQUOTE ∉ Geo.escapeAttr s)
     /\ ("<"%char ∉ Geo.escapeAttr s) /\ (">"%char ∉ Geo.escapeAttr s))
  /\ (forall s,
        HtmlEscape.escapeHtmlAttr s = flat_map (entity true) s
        /\ (DQUOTE ∉ HtmlEscape.escapeHtmlAttr s)
        /\ ("'"%char ∉ HtmlEscape.escapeHtmlAttr s)
        /\ ("<"%char ∉ HtmlEscape.escapeHtmlAttr s)
        /\ (">"%char ∉ HtmlEscape.escapeHtmlAttr s))
  /\ (forall s1 s2, Geo.escapeAttr s1 = Geo.escapeAttr s2 -> s1 = s2)
  /\ (forall s1 s2,
        HtmlEscape.escapeHtmlAttr s1 = HtmlEscape.escapeHtmlAttr s2 -> s1 = s2).
Proof.
  assert (forall apostrophes s d,
            d ∈ flat_map (entity apostrophes) s ->
            d <> DQUOTE /\ d <> "<"%char /\ d <> ">"%char
            /\ (apostrophes = true -> d <> "'"%char)) as Hsafe.
  { intros a s d Hd. apply list_elem_of_In, in_flat_map in Hd as (c & _ & Hd).
    apply (entity_safe a c). by apply list_elem_of_In. }
  split; [|split; [|split]].
  - intros s. rewrite escapeAttr_closed. split; [done|].
    repeat split; intros Hd; apply Hsafe in Hd as (? & ? & ? & ?); done.
  - intros s. rewrite escapeHtmlAttr_closed. split; [done|].
    repeat split; intros Hd; apply Hsafe in Hd as (? & ? & ? & Ha);
      try done; by apply Ha.
  - intros s1 s2. rewrite !escapeAttr_closed. apply flat_map_entity_inj.
  - intros s1 s2. rewrite !escapeHtmlAttr_closed. apply flat_map_entity_inj.
Qed.

End Escaping.

Lemma escapeAttr_safe_witness :
  Geo.escapeAttr (lit "a<b & c>d") = lit "a&lt;b &amp; c&gt;d"
  /\ (Geo.escapeAttr (lit "a<b") = Geo.escapeAttr (lit "a<b") ->
      lit "a<b" = lit "a<b").
Proof.
  split.
  - rewrite (proj1 (proj1 escapeAttr_safe _)). by vm_compute.
  - apply (proj1 (proj2 (proj2 escapeAttr_safe))).
Defined.

(* ===================================================================== *)
(** * Detection of AI bots                                                 *)
(* ===================================================================== *)

Section AiBots.
Import JsString AiBotDetector BotMentions.

Lemma includes_inv s p :
  includes s p = true -> exists before after, s = before ++ p ++ after.
Proof.
  unfold includes. induction s as [|c s IH]; rewrite indexOf_unfold.
  - destruct (startsWith [] p) eqn:E; [|done]. intros _.
    exists [], (drop (length p) []). by apply startsWith_prefix.
  - destruct (startsWith (c :: s) p) eqn:E.
    + intros _. exists [], (drop (length p) (c :: s)).
      by apply startsWith_prefix.
    + destruct (indexOf s p) as [i|]; [|done]. intros _.
      destruct IH as (before & after & ->); [done|].
      by exists (c :: before), after.
Qed.

Lemma includes_mentions userAgent b :
  includes (toLowerCase userAgent) (toLowerCase (bot_pattern b)) = true
  <-> mentions userAgent b.
Proof.
  split.
  - apply includes_inv.
  - intros (before & after & ->). apply includes_app.
Qed.

Lemma find_first {A} (f : A -> bool) l :
  match List.find f l with
  | Some x =>
      exists before after,
        l = before ++ x :: after /\ f x = true
        /\ Forall (fun y => f y = false) before
  | None => Forall (fun y => f y = false) l
  end.
Proof.
  induction l as [|y l IH]; cbn [List.find]; [constructor|].
  destruct (f y) eqn:E.
  - by exists [], l.
  - destruct (List.find f l) as [x|].
    + destruct IH as (before & after & -> & Hx & Hb).
      exists (y :: before), after. repeat split; [done|]. by constructor.
    + by constructor.
Qed.

Lemma first_unique {A} (P : A -> Prop) b1 a1 x1 b2 a2 x2 :
  b1 ++ x1 :: a1 = b2 ++ x2 :: a2 ->
  Forall (fun y => ~ P y) b1 -> P x1 ->
  Forall (fun y => ~ P y) b2 -> P x2 ->
  x1 = x2.
Proof.
  revert b2. induction b1 as [|y b1 IH]; intros [|z b2]; cbn [app].
  - by intros [= -> _].
  - intros [= <- _] _ H1 [H2 _]%Forall_cons _. done.
  - intros [= -> _] [H1 _]%Forall_cons _ _ H2. done.
  - intros [= _ H] [_ H1]%Forall_cons Hx1 [_ H2]%Forall_cons Hx2.
    by apply (IH b2).
Qed.

Lemma same_name (l : list AiBotDefinition) b1 b2 :
  NoDup (map bot_name l) -> b1 ∈ l -> b2 ∈ l ->
  bot_name b1 = bot_name b2 -> b1 = b2.
Proof.
  induction l as [|b l IH]; cbn [map]; [by intros _ ?%elem_of_nil|].
  intros [Hb Hl]%NoDup_cons [->|H1]%elem_of_cons [->|H2]%elem_of_cons Hn.
  - done.
  - destruct Hb. rewrite Hn. by apply list_elem_of_fmap_2.
  - destruct Hb. rewrite <- Hn. by apply list_elem_of_fmap_2.
  - by apply IH.
Qed.

Lemma patterns_not_empty :
  Forall (fun b => bot_pattern b <> []) AI_BOT_DEFINITIONS.
Proof. repeat constructor; discriminate. Qed.

Lemma not_mentioned_empty b : bot_pattern b <> [] -> ~ mentions [] b.
Proof.
  intros Hb (before & after & H). cbn in H. symmetry in H.
  apply app_eq_nil in H as [_ H]. apply app_eq_nil in H as [H _].
  destruct (bot_pattern b); [done | discriminate].
Qed.

(** X25: [detectAiBot] reports an AI bot exactly when the user agent
    holds, in any letter case and at any place, one of the patterns of
    the table; the name, category and tags are then those of the first
    entry of the table whose pattern it holds.  The letter case of the
    user agent does not matter, and an empty user agent is no bot. *)
Theorem detectAiBot_first_mention userAgent :
  (det_isAiBot (detectAiBot userAgent) = true
   <-> Exists (mentions userAgent) AI_BOT_DEFINITIONS)
  /\ (forall b,
        b ∈ AI_BOT_DEFINITIONS ->
        detectAiBot userAgent = detected b
        <-> exists before after,
              AI_BOT_DEFINITIONS = before ++ b :: after
              /\ mentions userAgent b
              /\ Forall (fun b' => ~ mentions userAgent b') before)
  /\ (detectAiBot userAgent = notAiBot
      <-> Forall (fun b => ~ mentions userAgent b) AI_BOT_DEFINITIONS)
  /\ (forall other,
        toLowerCase other = toLowerCase userAgent ->
        detectAiBot other = detectAiBot userAgent).
Proof.
  assert (Hnone : forall ua (f := fun b =>
                     includes (toLowerCase ua) (toLowerCase (bot_pattern b))),
             Forall (fun y => f y = false) AI_BOT_DEFINITIONS
             <-> Forall (fun b => ~ mentions ua b) AI_BOT_DEFINITIONS).
  { intros ua f. apply Forall_iff. intros b. unfold f.
    rewrite <- includes_mentions. by destruct (includes _ _). }
  assert (Hnames : NoDup (map bot_name AI_BOT_DEFINITIONS))
    by (apply (bool_decide_unpack _); by vm_compute).
  assert (Hempty : Forall (fun b => ~ mentions [] b) AI_BOT_DEFINITIONS).
  { eapply Forall_impl; [apply patterns_not_empty|].
    intros b. apply not_mentioned_empty. }
  assert (Hshape :
    match detectAiBot userAgent with
    | {| det_isAiBot := true |} =>
        exists b before after,
          detectAiBot userAgent = detected b
          /\ AI_BOT_DEFINITIONS = before ++ b :: after
          /\ mentions userAgent b
          /\ Forall (fun b' => ~ mentions userAgent b') before
    | _ =>
        detectAiBot userAgent = notAiBot
        /\ Forall (fun b => ~ mentions userAgent b) AI_BOT_DEFINITIONS
    end).
  { unfold detectAiBot. case_bool_decide as Hua.
    - subst userAgent. by split.
    - cbn zeta.
      pose proof (find_first
                    (fun b => includes (toLowerCase userAgent)
                                (toLowerCase (bot_pattern b)))
                    AI_BOT_DEFINITIONS) as Hfind.
      destruct (List.find _ AI_BOT_DEFINITIONS) as [b|].
      + destruct Hfind as (before & after & Heq & Hb & Hbefore).
        exists b, before, after. split; [done|]. split; [done|].
        split; [by apply includes_mentions|].
        eapply Forall_impl; [exact Hbefore|]. intros b' Hb'.
        rewrite <- includes_mentions. by rewrite Hb'.
      + split; [done|]. by apply Hnone. }
  split; [|split; [|split]].
  - destruct (detectAiBot userAgent) as [[] n c t] eqn:E.
    + destruct Hshape as (b & before & after & _ & Heq & Hb & _).
      split; [intros _|done]. rewrite Heq. apply Exists_app. right.
      by constructor.
    + destruct Hshape as [_ Hall]. split; [done|].
      intros Hex. apply Exists_exists in Hex as (b & Hin & Hb).
      rewrite Forall_forall in Hall. by destruct (Hall b Hin).
  - intros b Hin. destruct (detectAiBot userAgent) as [[] n c t] eqn:E.
    + destruct Hshape as (b0 & before & after & Hdet & Heq & Hb & Hbefore).
      split.
      * intros Hd. rewrite Hdet in Hd.
        assert (b0 = b) as <-; [|by exists before, after].
        injection Hd as Hn _ _.
        assert (b0 ∈ AI_BOT_DEFINITIONS) as Hin0
          by (rewrite Heq; apply elem_of_app; right; left).
        by apply (same_name AI_BOT_DEFINITIONS).
      * intros (before' & after' & Heq' & Hb' & Hbefore').
        rewrite Hdet. f_equal.
        apply (first_unique (mentions userAgent) before after b0
                 before' after' b); try done. by rewrite <- Heq.
    + destruct Hshape as [_ Hall]. split; [done|].
      intros (before' & after' & Heq' & Hb' & _).
      rewrite Forall_forall in Hall. destruct (Hall b); [|done].
      rewrite Heq'. apply elem_of_app. right. left.
  - destruct (detectAiBot userAgent) as [[] n c t] eqn:E.
    + destruct Hshape as (b & before & after & _ & Heq & Hb & _).
      split; [done|]. intros Hall. rewrite Forall_forall in Hall.
      destruct (Hall b); [|done]. rewrite Heq. apply elem_of_app. right. left.
    + by destruct Hshape.
  - intros other Hother. unfold detectAiBot. rewrite Hother.
    assert (bool_decide (other = []) = bool_decide (userAgent = [])) as ->; [|done].
    apply bool_decide_ext. unfold toLowerCase in Hother.
    split; intros ->; [symmetry in Hother|]; by apply map_eq_nil in Hother.
Qed.

End AiBots.

Lemma detectAiBot_first_mention_witness :
  AiBotDetector.detectAiBot (lit "Mozilla/5.0 (compatible; gptbot/1.2)")
  = BotMentions.detected
      (AiBotDetector.bot "GPTBot" "GPTBot" "ai-crawler" ["openai"; "llm-training"]).
Proof.
  apply (proj1 (proj2 (detectAiBot_first_mention
                         (lit "Mozilla/5.0 (compatible; gptbot/1.2)")))).
  - apply list_elem_of_here.
  - eexists [], _. split; [reflexivity|]. split; [|constructor].
    by exists (lit "mozilla/5.0 (compatible; "), (lit "/1.2)").
Defined.

(* ===================================================================== *)
(** * The session cookie                                                   *)
(* ===================================================================== *)

Section Cookies.
Import JsString RobotsBlocks SessionCookie CookieHeaders.

Lemma splitOn_some sep s : splitOn sep s <> [].
Proof.
  induction s as [|c s IH]; [done|]. cbn [splitOn].
  case_bool_decide; [done|]. by destruct (splitOn sep s).
Qed.

Lemma splitOn_without sep s : sep ∉ s -> splitOn sep s = [s].
Proof.
  induction s as [|c s IH]; [done|]. intros [Hc Hs]%not_elem_of_cons.
  cbn [splitOn]. rewrite bool_decide_eq_false_2 by done. by rewrite IH.
Qed.

Lemma splitOn_at sep a s :
  sep ∉ a -> splitOn sep (a ++ sep :: s) = a :: splitOn sep s.
Proof.
  induction a as [|c a IH]; intros Ha.
  - cbn [app splitOn]. by rewrite bool_decide_eq_true_2.
  - apply not_elem_of_cons in Ha as [Hc Ha]. cbn [app splitOn].
    rewrite bool_decide_eq_false_2 by done. by rewrite IH.
Qed.

Lemma splitOn_cons_other sep c s :
  c <> sep ->
  splitOn sep (c :: s)
  = (c :: hd [] (splitOn sep s)) :: tl (splitOn sep s).
Proof.
  intros Hc. cbn [splitOn]. rewrite bool_decide_eq_false_2 by done.
  destruct (splitOn sep s) eqn:E; [by apply splitOn_some in E | done].
Qed.

(** Joining what was split gives the text back. *)
Lemma join_splitOn sep s : join [sep] (splitOn sep s) = s.
Proof.
  induction s as [|c s IH]; [done|]. cbn [splitOn].
  case_bool_decide as Hc.
  - subst c. destruct (splitOn sep s) as [|l ls] eqn:E;
      [by apply splitOn_some in E|].
    rewrite <- IH. by destruct ls.
  - destruct (splitOn sep s) as [|l ls] eqn:E;
      [by apply splitOn_some in E|].
    rewrite <- IH. by destruct ls.
Qed.

Lemma token_no_semicolon s : token s -> ";"%char ∉ s.
Proof.
  intros H Hin. unfold token in H. rewrite Forall_forall in H.
  by destruct (H _ Hin).
Qed.

Lemma token_headOk s t : token s -> headOk t -> headOk (s ++ t).
Proof. destruct s as [|c s]; [done|]. by intros [[_ Hc] _]%Forall_cons _. Qed.

Lemma token_rev s : token s -> token (rev s).
Proof. unfold token. rewrite !Forall_forall. intros H c Hc. apply H.
  apply list_elem_of_In, in_rev. by apply list_elem_of_In. Qed.

Lemma pairText_no_semicolon p : wellFormed p -> ";"%char ∉ pairText p.
Proof.
  intros (Hn & _ & Hv). unfold pairText.
  rewrite !not_elem_of_app. split; [by apply token_no_semicolon|].
  split; [|by apply token_no_semicolon].
  by intros ?%list_elem_of_singleton.
Qed.

Lemma pairText_trim p : wellFormed p -> trim (pairText p) = pairText p.
Proof.
  intros (Hn & _ & Hv). apply trim_id; unfold pairText.
  - by apply token_headOk.
  - rewrite !rev_app_distr, <- app_assoc.
    apply token_headOk; [by apply token_rev|]. done.
Qed.

Lemma pairText_trim_space p :
  wellFormed p -> trim (" "%char :: pairText p) = pairText p.
Proof.
  intros Hp. rewrite <- (pairText_trim p Hp) at 2. unfold trim.
  cbn [trimStart]. change (isWhiteSpace " ") with true. done.
Qed.

(** The cookies of a header, as [split(";")] gives them. *)
Lemma splitOn_header p ps :
  Forall wellFormed (p :: ps) ->
  splitOn ";" (header (p :: ps))
  = pairText p :: map (fun q => " "%char :: pairText q) ps.
Proof.
  revert p. induction ps as [|q ps IH]; intros p [Hp Hps]%Forall_cons.
  - unfold header. cbn [map join].
    by rewrite splitOn_without by (by apply pairText_no_semicolon).
  - unfold header in *. cbn [map] in *. rewrite join_cons2.
    cbn [lit list_ascii_of_string app].
    rewrite splitOn_at by (by apply pairText_no_semicolon).
    rewrite splitOn_cons_other by discriminate.
    rewrite IH by done. done.
Qed.

(** The loop over cookies that [trim] turns into the texts of pairs. *)
Lemma findCookie_pairs raws pairs cookieName :
  Forall2 (fun raw p => trim raw = pairText p) raws pairs ->
  Forall wellFormed pairs ->
  findCookie raws cookieName
  = match List.find (fun p => bool_decide (p.1 = cookieName)) pairs with
    | Some p => if bool_decide (p.2 = []) then None else Some p.2
    | None => None
    end.
Proof.
  induction 1 as [|raw p raws pairs Hraw _ IH]; [done|].
  intros [(Hn & Heq & Hv) Hps]%Forall_cons. cbn [findCookie List.find].
  rewrite Hraw. unfold pairText. cbn [lit list_ascii_of_string app].
  rewrite splitOn_at by done.
  destruct (bool_decide (p.1 = cookieName)); [|by apply IH].
  change (lit "=") with ["="%char]. rewrite join_splitOn.
  unfold SummaryGenerator.truthy. by destruct (p.2).
Qed.

(** X26: in the [Cookie] header of a browser (cookies [name=value]
    joined by a semicolon and a space, names and values without
    semicolon and white space, names without [=]), [parseSessionCookie]
    finds the first cookie of the given name and returns its value
    whole, [=] signs included; it returns [undefined] when that value is
    empty, when no cookie has the name, and when there is no header. *)
Theorem parseSessionCookie_finds pairs cookieName :
  Forall wellFormed pairs ->
  parseSessionCookie (Some (header pairs)) cookieName
  = match List.find (fun p => bool_decide (p.1 = cookieName)) pairs with
    | Some p => if bool_decide (p.2 = []) then None else Some p.2
    | None => None
    end
  /\ parseSessionCookie None cookieName = None.
Proof.
  intros Hpairs. split; [|done]. destruct pairs as [|p ps]; [done|].
  unfold parseSessionCookie.
  assert (SummaryGenerator.truthy (Some (header (p :: ps)))
          = Some (header (p :: ps))) as ->.
  { unfold header, pairText.
    destruct ps as [|q ps]; cbn [map]; [cbn [join]|rewrite join_cons2];
      by destruct (p.1). }
  rewrite splitOn_header by done.
  apply findCookie_pairs; [|done].
  apply Forall_cons in Hpairs as [Hp Hps]. constructor.
  - by apply pairText_trim.
  - clear -Hps. induction Hps as [|q ps Hq _ IH]; constructor; [|done].
    by apply pairText_trim_space.
Qed.

End Cookies.

Lemma parseSessionCookie_finds_witness :
  SessionCookie.parseSessionCookie
    (Some (lit "theme=dark; __botmon_sid=YWJj=ZGVm==; lang=en"))
    (lit "__botmon_sid")
  = Some (lit "YWJj=ZGVm==").
Proof.
  refine (eq_trans
            (proj1 (parseSessionCookie_finds
                      [(lit "theme", lit "dark");
                       (lit "__botmon_sid", lit "YWJj=ZGVm==");
                       (lit "lang", lit "en")]
                      (lit "__botmon_sid") _)) _).
  - repeat constructor; try discriminate;
      apply (bool_decide_unpack _); by vm_compute.
  - by vm_compute.
Defined.

(* ===================================================================== *)
(** * robots.txt: appending                                                *)
(* ===================================================================== *)

Section Appending.
Import JsString MergeUtils RobotsBlocks AppendedBlocks.

Abbreviation start :=
  {| blocks := []; currentAgent := None; currentRules := [] |}.

(** *** Lines *)

Lemma splitOn_app_sep sep a b :
  splitOn sep (a ++ sep :: b) = splitOn sep a ++ splitOn sep b.
Proof.
  induction a as [|c a IH]; cbn [app splitOn].
  - by rewrite bool_decide_eq_true_2.
  - rewrite IH. case_bool_decide; [done|].
    destruct (splitOn sep a) eqn:E; [by apply splitOn_some in E | done].
Qed.

Lemma splitOn_snoc sep s c :
  c <> sep ->
  splitOn sep (s ++ [c])
  = removelast (splitOn sep s) ++ [List.last (splitOn sep s) [] ++ [c]].
Proof.
  intros Hc. induction s as [|d s IH]; cbn [app splitOn].
  - by rewrite bool_decide_eq_false_2.
  - rewrite IH. pose proof (splitOn_some sep s) as Hne.
    case_bool_decide.
    + destruct (splitOn sep s) as [|l ls]; [done|]. reflexivity.
    + destruct (splitOn sep s) as [|l ls]; [done|].
      destruct ls as [|l' ls]; reflexivity.
Qed.

Lemma trimStart_snoc_space x c :
  isWhiteSpace c = true ->
  trimStart (x ++ [c])
  = match trimStart x with [] => [] | _ => trimStart x ++ [c] end.
Proof.
  intros Hc. induction x as [|d x IH]; cbn [app trimStart].
  - by rewrite Hc.
  - destruct (isWhiteSpace d); [exact IH | done].
Qed.

Lemma trimEnd_snoc_space y c :
  isWhiteSpace c = true -> trimEnd (y ++ [c]) = trimEnd y.
Proof.
  intros Hc. unfold trimEnd. rewrite rev_app_distr. cbn [rev app trimStart].
  by rewrite Hc.
Qed.

Lemma trim_snoc_space x c :
  isWhiteSpace c = true -> trim (x ++ [c]) = trim x.
Proof.
  intros Hc. unfold trim. rewrite trimStart_snoc_space by done.
  destruct (trimStart x) eqn:E; [done|]. rewrite <- E.
  by apply trimEnd_snoc_space.
Qed.

Lemma trim_cons_space x c : isWhiteSpace c = true -> trim (c :: x) = trim x.
Proof. intros Hc. unfold trim. cbn [trimStart]. by rewrite Hc. Qed.

Lemma effective_app a b :
  effective (a ++ LF :: b) = effective a ++ effective b.
Proof.
  unfold effective. by rewrite splitOn_app_sep, map_app, List.filter_app.
Qed.

Lemma effective_cons_space c s :
  isWhiteSpace c = true -> effective (c :: s) = effective s.
Proof.
  intros Hc. unfold effective. cbn [splitOn]. case_bool_decide; [done|].
  pose proof (splitOn_some LF s) as Hne.
  destruct (splitOn LF s) as [|l ls]; [done|]. cbn [map List.filter].
  by rewrite trim_cons_space.
Qed.

Lemma effective_snoc_space s c :
  isWhiteSpace c = true -> effective (s ++ [c]) = effective s.
Proof.
  intros Hc. destruct (decide (c = LF)) as [->|Hne].
  - rewrite effective_app. change (effective []) with (@nil str).
    by rewrite app_nil_r.
  - unfold effective. rewrite splitOn_snoc by done.
    pose proof (splitOn_some LF s) as Hs.
    rewrite (app_removelast_last [] Hs) at 3.
    rewrite !map_app, !List.filter_app. cbn [map List.filter].
    by rewrite trim_snoc_space.
Qed.

Lemma effective_trimStart s : effective (trimStart s) = effective s.
Proof.
  induction s as [|c s IH]; [done|]. cbn [trimStart].
  destruct (isWhiteSpace c) eqn:E; [|done].
  by rewrite IH, effective_cons_space.
Qed.

Lemma effective_trimEnd s : effective (trimEnd s) = effective s.
Proof.
  induction s as [|c s IH] using rev_ind; [done|].
  destruct (isWhiteSpace c) eqn:E.
  - by rewrite trimEnd_snoc_space, effective_snoc_space.
  - rewrite trimEnd_id; [done|]. rewrite rev_app_distr. by cbn.
Qed.

Lemma effective_trim s : effective (trim s) = effective s.
Proof. unfold trim. by rewrite effective_trimEnd, effective_trimStart. Qed.

Lemma effective_lines s :
  Forall (fun l => trim l = l /\ l <> []) (effective s).
Proof.
  unfold effective. apply List.Forall_forall. intros l Hl.
  apply filter_In in Hl as [Hin Hne]. apply in_map_iff in Hin as (raw & <- & _).
  split; [apply trim_trimmed|].
  apply negb_true_iff in Hne. by apply bool_decide_eq_false in Hne.
Qed.

(** *** The loop of [parseRobotsTxt] *)

Lemma parseLine_blank st rawLine : trim rawLine = [] -> parseLine st rawLine = st.
Proof. intros H. unfold parseLine. cbn zeta. by rewrite H. Qed.

Lemma parseLine_blank_or_comment st rawLine :
  AppendedBlocks.isComment (trim rawLine) = true -> parseLine st rawLine = st.
Proof.
  unfold AppendedBlocks.isComment, parseLine. cbn zeta. intros ->.
  by rewrite orb_true_r.
Qed.

Lemma parseLine_trim st rawLine :
  parseLine st (trim rawLine) = parseLine st rawLine.
Proof. unfold parseLine. cbn zeta. by rewrite (trim_trimmed rawLine). Qed.

Lemma parseLines_effective raws st :
  fold_left parseLine raws st
  = fold_left parseLine
      (List.filter (fun l => negb (bool_decide (l = []))) (map trim raws)) st.
Proof.
  revert st. induction raws as [|raw raws IH]; intros st; [done|].
  cbn [fold_left map List.filter]. case_bool_decide as Hraw; cbn [negb].
  - rewrite parseLine_blank by done. apply IH.
  - cbn [fold_left]. rewrite parseLine_trim. apply IH.
Qed.

Lemma parseRobotsTxt_effective content :
  parseRobotsTxt content = saveBlock (fold_left parseLine (effective content) start).
Proof. unfold parseRobotsTxt, effective. by rewrite parseLines_effective. Qed.

(** The state with the blocks [bs] before its own. *)
Lemma parseLine_prefix bs st l :
  parseLine {| blocks := bs ++ blocks st; currentAgent := currentAgent st;
               currentRules := currentRules st |} l
  = {| blocks := bs ++ blocks (parseLine st l);
       currentAgent := currentAgent (parseLine st l);
       currentRules := currentRules (parseLine st l) |}.
Proof.
  unfold parseLine. cbn zeta.
  destruct (bool_decide (trim l = []) || startsWith (trim l) (lit "#"));
    [done|].
  destruct (startsWith (toLowerCase (trim l)) (lit "user-agent:")).
  - cbn [blocks currentAgent currentRules]. f_equal.
    unfold saveBlock. cbn [blocks currentAgent currentRules].
    destruct (currentAgent st); [by rewrite app_assoc | done].
  - by destruct st as [bs0 [a|] rs].
Qed.

Lemma parseLines_prefix bs ls st :
  saveBlock
    (fold_left parseLine ls
       {| blocks := bs ++ blocks st; currentAgent := currentAgent st;
          currentRules := currentRules st |})
  = bs ++ saveBlock (fold_left parseLine ls st).
Proof.
  revert st. induction ls as [|l ls IH]; intros st; cbn [fold_left].
  - unfold saveBlock. cbn [blocks currentAgent currentRules].
    destruct (currentAgent st); [by rewrite app_assoc | done].
  - rewrite parseLine_prefix. apply IH.
Qed.

(** Before the first user-agent line no block is saved. *)
Lemma parseLine_no_agent st l :
  (currentAgent st = None -> blocks st = []) ->
  currentAgent (parseLine st l) = None -> blocks (parseLine st l) = [].
Proof.
  intros Hst. unfold parseLine. cbn zeta.
  destruct (bool_decide (trim l = []) || startsWith (trim l) (lit "#"));
    [done|].
  destruct (startsWith (toLowerCase (trim l)) (lit "user-agent:")); [done|].
  destruct st as [bs [a|] rs]; cbn in *; [done | exact Hst].
Qed.

Lemma parseLines_no_agent ls st :
  (currentAgent st = None -> blocks st = []) ->
  currentAgent (fold_left parseLine ls st) = None ->
  blocks (fold_left parseLine ls st) = [].
Proof.
  revert st. induction ls as [|l ls IH]; intros st Hst; [done|].
  cbn [fold_left]. apply IH. by apply parseLine_no_agent.
Qed.

Lemma parseLines_after bs agent rs ls :
  saveBlock
    (fold_left parseLine ls
       {| blocks := bs; currentAgent := agent; currentRules := rs |})
  = bs ++ saveBlock
            (fold_left parseLine ls
               {| blocks := []; currentAgent := agent; currentRules := rs |}).
Proof.
  rewrite <- (parseLines_prefix bs ls
                {| blocks := []; currentAgent := agent; currentRules := rs |}).
  cbn [blocks currentAgent currentRules]. by rewrite app_nil_r.
Qed.

(** The state with [rs] added to the rules of the current block. *)
Lemma parseLines_leading ls st :
  Forall (fun l => trim l = l /\ l <> []) ls ->
  saveBlock (fold_left parseLine ls st)
  = saveBlock {| blocks := blocks st; currentAgent := currentAgent st;
                 currentRules :=
                   currentRules st
                   ++ match currentAgent st with
                      | Some _ => leading ls
                      | None => []
                      end |}
    ++ saveBlock (fold_left parseLine ls start).
Proof.
  revert st. induction ls as [|l ls IH]; intros st Hls.
  - cbn [fold_left leading]. change (saveBlock start) with (@nil RobotsBlock).
    rewrite app_nil_r. destruct st as [bs [a|] rs]; cbn; by rewrite ?app_nil_r.
  - apply Forall_cons in Hls as [[Htrim Hne] Hls]. cbn [fold_left leading].
    unfold parseLine at 2 4. cbn zeta. rewrite Htrim.
    rewrite (bool_decide_eq_false_2 _ Hne). cbn [orb].
    unfold isComment, isHeader.
    destruct (startsWith l (lit "#")); [by apply IH|].
    destruct (startsWith (toLowerCase l) (lit "user-agent:")).
    + change (saveBlock start) with (@nil RobotsBlock).
      rewrite (parseLines_after (saveBlock st)). f_equal.
      destruct st as [bs [a|] rs]; cbn; by rewrite ?app_nil_r.
    + cbn [currentAgent]. rewrite IH by done.
      destruct st as [bs [a|] rs]; cbn [currentAgent currentRules blocks];
        [|done].
      by rewrite <- app_assoc.
Qed.

Lemma attach_saved st rs :
  (currentAgent st = None -> blocks st = []) ->
  saveBlock {| blocks := blocks st; currentAgent := currentAgent st;
               currentRules :=
                 currentRules st
                 ++ match currentAgent st with
                    | Some _ => rs
                    | None => []
                    end |}
  = attach (saveBlock st) rs.
Proof.
  intros Hst. unfold saveBlock, attach.
  cbn [blocks currentAgent currentRules].
  destruct (currentAgent st) as [a|].
  - rewrite rev_app_distr. cbn [rev app]. by rewrite rev_involutive.
  - by rewrite Hst.
Qed.

Lemma attach_nil bs : attach bs [] = bs.
Proof.
  unfold attach. destruct (rev bs) as [|b before] eqn:E.
  - apply (f_equal (@rev _)) in E. by rewrite rev_involutive in E.
  - apply (f_equal (@rev _)) in E. rewrite rev_involutive in E. subst bs.
    cbn [rev]. rewrite app_nil_r. by destruct b.
Qed.

(** The lines of the appended file. *)
Lemma effective_appended originContent botmonContent :
  trim botmonContent <> [] ->
  effective (appendRobotsTxt originContent botmonContent)
  = effective originContent
    ++ lit "# === BotMon Managed Rules ===" :: effective botmonContent.
Proof.
  intros Hne. unfold appendRobotsTxt. cbn zeta.
  rewrite bool_decide_eq_false_2 by done.
  cbn [app]. rewrite effective_app, effective_trimEnd. f_equal.
  rewrite effective_cons_space by reflexivity.
  rewrite effective_app, effective_snoc_space, effective_trim by reflexivity.
  reflexivity.
Qed.

(** X4: the blocks of the appended file are the blocks of the origin
    file followed by the blocks of the managed content; the rules that
    the managed content holds before its first user-agent line are added
    to the last block of the origin file, if it has one, and are lost
    otherwise.  With no such rules the appended file has the blocks of
    both, in order, those of a same agent twice. *)
Theorem appendRobotsTxt_blocks originContent botmonContent :
  parseRobotsTxt (appendRobotsTxt originContent botmonContent)
  = attach (parseRobotsTxt originContent) (orphanRules botmonContent)
    ++ parseRobotsTxt botmonContent
  /\ (orphanRules botmonContent = [] ->
      parseRobotsTxt (appendRobotsTxt originContent botmonContent)
      = parseRobotsTxt originContent ++ parseRobotsTxt botmonContent).
Proof.
  assert (parseRobotsTxt (appendRobotsTxt originContent botmonContent)
          = attach (parseRobotsTxt originContent) (orphanRules botmonContent)
            ++ parseRobotsTxt botmonContent) as Hblocks.
  { destruct (decide (trim botmonContent = [])) as [Hnil|Hne].
    - assert (effective botmonContent = []) as Heff
        by (by rewrite <- effective_trim, Hnil).
      unfold orphanRules. rewrite (parseRobotsTxt_effective botmonContent), Heff.
      cbn [leading fold_left]. change (saveBlock start) with (@nil RobotsBlock).
      rewrite app_nil_r, attach_nil.
      rewrite !parseRobotsTxt_effective. unfold appendRobotsTxt. cbn zeta.
      rewrite bool_decide_eq_true_2 by done. by rewrite effective_trimEnd.
    - rewrite !parseRobotsTxt_effective, effective_appended by done.
      rewrite fold_left_app. cbn [fold_left].
      rewrite (parseLine_blank_or_comment _ (lit "# === BotMon Managed Rules ==="))
        by reflexivity.
      rewrite parseLines_leading by apply effective_lines. f_equal.
      apply attach_saved. by apply parseLines_no_agent. }
  split; [exact Hblocks|]. intros Horphan.
  by rewrite Hblocks, Horphan, attach_nil.
Qed.

End Appending.

Lemma appendRobotsTxt_blocks_witness :
  let originContent := lit "User-agent: *
Disallow: /admin
" in
  let botmonContent := lit "# managed
User-agent: GPTBot
Disallow: /
" in
  MergeUtils.parseRobotsTxt (MergeUtils.appendRobotsTxt originContent botmonContent)
  = MergeUtils.parseRobotsTxt originContent
    ++ MergeUtils.parseRobotsTxt botmonContent.
Proof.
  cbn zeta. apply (proj2 (appendRobotsTxt_blocks _ _)). by vm_compute.
Defined.

(* ===================================================================== *)
(** * Sitemaps: reading the merged document                                *)
(* ===================================================================== *)

Section LocExpression.
Import JsString JsRegExp Closed SitemapXml SitemapLocs RobotsBlocks.

Lemma class_space c : classMatches true false [CSpace false] c = isWhiteSpace c.
Proof. destruct c as [[] [] [] [] [] [] [] []]; reflexivity. Qed.

Lemma trimStart_length s : length (trimStart s) <= length s.
Proof.
  induction s as [|c s IH]; [done|]. cbn [trimStart].
  destruct (isWhiteSpace c); cbn [length]; lia.
Qed.

Lemma locRegex_parts :
  pattern locRegex = wordThen (lit "<loc>") bodyRe
  /\ ignoreCase locRegex = true /\ ngroups locRegex = 1.
Proof. by repeat split. Qed.

Lemma startsWithCanon_length ic s w :
  startsWithCanon ic s w = true -> length w <= length s.
Proof.
  revert s. induction w as [|c w IH]; intros s; cbn [length]; [lia|].
  destruct s as [|d s]; [done|]. cbn [startsWithCanon length].
  intros [_ H]%andb_true_iff. apply IH in H. lia.
Qed.

(** A word, then more. *)
Lemma m_wordThen ic w r s j caps k :
  m ic (wordThen w r) (at_ s j caps) k
  = if startsWithCanon ic s w
    then m ic r (at_ (drop (length w) s) (j + length w) caps) k
    else None.
Proof.
  revert s j. induction w as [|c w IH]; intros s j.
  - cbn [wordThen startsWithCanon length]. by rewrite drop_0, Nat.add_0_r.
  - cbn [wordThen]. rewrite m_Seq.
    rewrite (m_atom ic (Char c) _ _ _ eq_refl), step_at.
    destruct s as [|d s]; [done|]. cbn [startsWithCanon length drop].
    rewrite (bool_decide_ext (canon ic d = canon ic c) (canon ic c = canon ic d))
      by (split; congruence).
    destruct (bool_decide (canon ic c = canon ic d)); [|done].
    cbn [andb]. rewrite IH. by replace (S j + length w) with (j + S (length w)) by lia.
Qed.

Lemma m_closeTag r j caps :
  m true closeTag (at_ r j caps) Some
  = if startsWithCanon true r (lit "</loc>")
    then Some (at_ (drop 6 r) (j + 6) caps)
    else None.
Proof.
  unfold closeTag. rewrite m_wordThen.
  change (lit "</loc>") with (lit "</loc" ++ [">"%char]).
  destruct r as [|c1 [|c2 [|c3 [|c4 [|c5 [|c6 r]]]]]];
    cbn [lit list_ascii_of_string app startsWithCanon length drop];
    rewrite ?andb_false_r; try reflexivity.
  - by split_ifs.
  - rewrite andb_true_r.
    destruct (bool_decide (canon true "<" = canon true c1)); [|done].
    destruct (bool_decide (canon true "/" = canon true c2)); [|done].
    destruct (bool_decide (canon true "l" = canon true c3)); [|done].
    destruct (bool_decide (canon true "o" = canon true c4)); [|done].
    destruct (bool_decide (canon true "c" = canon true c5)); [|done].
    cbn [andb m]. rewrite step_at.
    rewrite (bool_decide_ext (canon true c6 = canon true ">")
               (canon true ">" = canon true c6)) by (split; congruence).
    destruct (bool_decide (canon true ">" = canon true c6)); [|done].
    by replace (S (j + 5)) with (j + 6) by lia.
Qed.

(** White space as far as it goes, when what follows cannot begin
    with white space or fails earlier only if it fails later. *)
Lemma greedy_spaces (ok : ascii -> bool) (k : Cont) s j caps :
  (forall c, ok c = isWhiteSpace c) ->
  (forall c s' i, isWhiteSpace c = true ->
                  k (at_ s' (S i) caps) = None -> k (at_ (c :: s') i caps) = None) ->
  starGreedy ok k s j caps
  = k (at_ (trimStart s) (j + (length s - length (trimStart s))) caps)
  /\ (k (at_ (trimStart s) (j + (length s - length (trimStart s))) caps) = None ->
      k (at_ s j caps) = None).
Proof.
  intros Hok Hk. revert j. induction s as [|c s IH]; intros j.
  - cbn [starGreedy trimStart length]. by rewrite Nat.add_0_r.
  - cbn [starGreedy trimStart]. rewrite Hok.
    destruct (isWhiteSpace c) eqn:Hc.
    + destruct (IH (S j)) as [Hs Hnone].
      pose proof (trimStart_length s) as Hlen.
      replace (j + (length (c :: s) - length (trimStart s)))
        with (S j + (length s - length (trimStart s)))
        by (cbn [length]; lia).
      rewrite Hs. split.
      * destruct (k (at_ (trimStart s) _ caps)) eqn:E; [done|].
        cbn [orElse]. apply Hk; [done|]. by apply Hnone.
      * intros E. apply Hk; [done|]. by apply Hnone.
    + rewrite Nat.sub_diag, Nat.add_0_r. by split.
Qed.

Lemma m_spaces (k : Cont) s j caps :
  (forall c s' i, isWhiteSpace c = true ->
                  k (at_ s' (S i) caps) = None -> k (at_ (c :: s') i caps) = None) ->
  m true spaces (at_ s j caps) k
  = k (at_ (trimStart s) (j + (length s - length (trimStart s))) caps).
Proof.
  intros Hk. unfold spaces.
  rewrite (m_star_greedy true _ (classMatches true false [CSpace false]))
    by reflexivity.
  by apply greedy_spaces; [apply class_space|].
Qed.

Lemma closeTag_not_space c s i caps :
  isWhiteSpace c = true -> m true closeTag (at_ (c :: s) i caps) Some = None.
Proof.
  intros Hc. rewrite m_closeTag. cbn [lit list_ascii_of_string startsWithCanon].
  rewrite bool_decide_eq_false_2; [done|].
  intros H. revert Hc.
  destruct c as [[] [] [] [] [] [] [] []]; try discriminate H; by vm_compute.
Qed.

(** The closing tag after white space. *)
Lemma m_closing r j caps :
  m true closingRe (at_ r j caps) Some
  = match closing r with
    | Some after => Some (at_ after (j + (length r - length after)) caps)
    | None => None
    end.
Proof.
  unfold closingRe. rewrite m_Seq, m_spaces.
  - rewrite m_closeTag. unfold closing.
    destruct (startsWithCanon true (trimStart r) (lit "</loc>")) eqn:E; [|done].
    f_equal. f_equal. apply startsWithCanon_length in E.
    cbn [length lit list_ascii_of_string] in E.
    pose proof (trimStart_length r). rewrite length_drop. lia.
  - intros c s' i Hc _. by apply closeTag_not_space.
Qed.

Lemma closing_length r after : closing r = Some after -> length after + 6 <= length r.
Proof.
  unfold closing.
  destruct (startsWithCanon true (trimStart r) (lit "</loc>")) eqn:E; [|done].
  intros [= <-]. apply startsWithCanon_length in E.
  cbn [length lit list_ascii_of_string] in E.
  pose proof (trimStart_length r). rewrite length_drop. lia.
Qed.

Lemma untilClosing_unfold s :
  untilClosing s
  = match closing s with
    | Some after => Some ([], after)
    | None =>
        match s with
        | c :: s' =>
            if isLineTerminator c then None
            else
              match untilClosing s' with
              | Some (u, after) => Some (c :: u, after)
              | None => None
              end
        | [] => None
        end
    end.
Proof. by destruct s. Qed.

Lemma untilClosing_length s u after :
  untilClosing s = Some (u, after) -> length u + length after + 6 <= length s.
Proof.
  revert u. induction s as [|c s IH]; intros u; rewrite untilClosing_unfold.
  - destruct (closing []) eqn:E; [|done]. intros [= <- <-].
    apply closing_length in E. cbn [length] in *. lia.
  - destruct (closing (c :: s)) eqn:E.
    + intros [= <- <-]. apply closing_length in E. cbn [length] in *. lia.
    + destruct (isLineTerminator c); [done|].
      destruct (untilClosing s) as [[u0 a0]|]; [|done]. intros [= <- <-].
      specialize (IH u0 eq_refl). cbn [length]. lia.
Qed.

(** The text: the shortest one that a closing tag follows. *)
Lemma lazy_text t j caps pre s :
  t = pre ++ s ->
  starLazy (fun d => negb (isLineTerminator d))
    (fun y => m true closingRe
                (setCapture 1 (Some (take (index y - j) t)) y) Some)
    s (j + length pre) caps
  = match untilClosing s with
    | Some (u, after) =>
        Some (at_ after (j + (length t - length after))
                (<[1 := Some (pre ++ u)]> caps))
    | None => None
    end.
Proof.
  revert pre. induction s as [|c s IH]; intros pre ->.
  - rewrite starLazy_unfold. cbn beta. rewrite setCapture_at, index_at.
    replace (j + length pre - j) with (length pre) by lia.
    rewrite take_app_length, m_closing, untilClosing_unfold.
    destruct (closing []) as [after|] eqn:E; [|done].
    apply closing_length in E. cbn [length] in E. lia.
  - rewrite starLazy_unfold. cbn beta. rewrite setCapture_at, index_at.
    replace (j + length pre - j) with (length pre) by lia.
    rewrite take_app_length, m_closing, untilClosing_unfold.
    destruct (closing (c :: s)) as [after|] eqn:E.
    + cbn [orElse]. rewrite app_nil_r. f_equal. f_equal.
      apply closing_length in E. rewrite length_app. lia.
    + cbn [orElse]. destruct (isLineTerminator c); [done|]. cbn [negb].
      specialize (IH (pre ++ [c])). rewrite <- app_assoc in IH.
      specialize (IH eq_refl). rewrite length_app in IH. cbn [length] in IH.
      replace (j + (length pre + 1)) with (S (j + length pre)) in IH by lia.
      rewrite IH. destruct (untilClosing s) as [[u after]|]; [|done].
      by rewrite <- !app_assoc.
Qed.

Lemma m_loc_content t j caps :
  m true contentRe (at_ t j caps) Some
  = match untilClosing t with
    | Some (u, after) =>
        Some (at_ after (j + (length t - length after)) (<[1 := Some u]> caps))
    | None => None
    end.
Proof.
  unfold contentRe. rewrite m_Seq, m_Group.
  rewrite (m_star_lazy true _ (fun d => negb (isLineTerminator d))) by reflexivity.
  rewrite index_at, rest_at.
  pose proof (lazy_text t j caps [] t eq_refl) as H.
  cbn [length app] in H. rewrite Nat.add_0_r in H. exact H.
Qed.

Lemma closing_cons_space c s :
  isWhiteSpace c = true -> closing (c :: s) = closing s.
Proof. intros Hc. unfold closing. cbn [trimStart]. by rewrite Hc. Qed.

(** A text that is not found after a white space is not found from
    that white space either. *)
Lemma untilClosing_cons_space c s :
  isWhiteSpace c = true ->
  untilClosing s = None -> untilClosing (c :: s) = None.
Proof.
  intros Hc Hs. rewrite untilClosing_unfold, closing_cons_space by done.
  destruct (closing s) eqn:E.
  - rewrite untilClosing_unfold, E in Hs. discriminate.
  - rewrite Hs. by destruct (isLineTerminator c).
Qed.

Lemma m_body s j caps :
  m true bodyRe (at_ s j caps) Some
  = match untilClosing (trimStart s) with
    | Some (u, after) =>
        Some (at_ after (j + (length s - length after)) (<[1 := Some u]> caps))
    | None => None
    end.
Proof.
  unfold bodyRe. rewrite m_Seq, m_spaces.
  - rewrite m_loc_content.
    destruct (untilClosing (trimStart s)) as [[u after]|] eqn:E; [|done].
    f_equal. f_equal. apply untilClosing_length in E.
    pose proof (trimStart_length s). lia.
  - intros c s' i Hc. rewrite !m_loc_content.
    destruct (untilClosing s') as [[u after]|] eqn:E; [done|]. intros _.
    by rewrite untilClosing_cons_space.
Qed.

Lemma locAt_length s u after :
  locAt s = Some (u, after) -> length u + length after + 11 <= length s.
Proof.
  unfold locAt. destruct (startsWithCanon true s (lit "<loc>")) eqn:E; [|done].
  intros H. apply untilClosing_length in H. apply startsWithCanon_length in E.
  cbn [length lit list_ascii_of_string] in E.
  pose proof (trimStart_length (drop 5 s)) as Hlen.
  rewrite length_drop in Hlen. lia.
Qed.

(** The whole expression at the beginning of [s]. *)
Lemma matchAt_loc s i :
  matchAt locRegex s i
  = match locAt s with
    | Some (u, after) =>
        Some {| m_index := i; m_text := take (length s - length after) s;
                m_groups := [None; Some u]; m_after := after |}
    | None => None
    end.
Proof.
  unfold matchAt. destruct locRegex_parts as (-> & -> & ->).
  change {| rest := s; index := i; captures := replicate 2 None |}
    with (at_ s i [None; None]).
  rewrite m_wordThen. unfold locAt.
  destruct (startsWithCanon true s (lit "<loc>")) eqn:E; [|done].
  rewrite m_body. cbn [length lit list_ascii_of_string].
  destruct (untilClosing (trimStart (drop 5 s))) as [[u after]|] eqn:Eu; [|done].
  cbn [at_ index rest captures]. f_equal.
  apply untilClosing_length in Eu. apply startsWithCanon_length in E.
  cbn [length lit list_ascii_of_string] in E.
  pose proof (trimStart_length (drop 5 s)) as Hlen.
  rewrite length_drop in *. f_equal. f_equal. lia.
Qed.

(** *** The loop of [extractSitemapUrls] *)

Lemma matchesFrom_skip fuel c s i :
  locAt (c :: s) = None ->
  matchesFrom (S fuel) locRegex (c :: s) i
  = matchesFrom (S fuel) locRegex s (S i).
Proof.
  intros H. cbn [matchesFrom]. rewrite search_skip; [done|].
  by rewrite matchAt_loc, H.
Qed.

Lemma extract_Urls_fuel s l :
  Urls s l ->
  forall fuel i,
    length s < fuel ->
    flat_map
      (fun mt =>
         match SummaryGenerator.truthy (group mt 1) with
         | Some url => [url]
         | None => []
         end)
      (matchesFrom fuel locRegex s i)
    = l.
Proof.
  induction 1 as [|c s l Hnone _ IH|s u after l Hloc _ IH]; intros fuel i Hfuel.
  - destruct fuel as [|fuel]; [cbn in Hfuel; lia|]. cbn [matchesFrom search].
    by rewrite matchAt_loc.
  - destruct fuel as [|fuel]; [lia|]. rewrite matchesFrom_skip by done.
    apply IH. cbn [length] in Hfuel. lia.
  - destruct fuel as [|fuel]; [lia|]. cbn [matchesFrom].
    pose proof (matchAt_loc s i) as Hm. rewrite Hloc in Hm.
    rewrite (search_here _ _ _ _ Hm).
    cbn [m_text m_after m_index flat_map group m_groups lookup list_lookup].
    pose proof (locAt_length _ _ _ Hloc) as Hlen.
    destruct (take (length s - length after) s) as [|d t] eqn:Et.
    { apply (f_equal length) in Et. rewrite length_take in Et.
      cbn [length] in Et. lia. }
    rewrite <- Et. f_equal.
    + by destruct u.
    + apply IH. lia.
Qed.

Lemma extract_Urls s l : Urls s l -> extractSitemapUrls s = l.
Proof.
  intros H. unfold extractSitemapUrls, matchAll.
  apply (extract_Urls_fuel s l H). lia.
Qed.

Lemma Urls_total s : exists l, Urls s l.
Proof.
  remember (length s) as n eqn:Hn. revert s Hn.
  induction n as [n IH] using lt_wf_ind. intros s ->.
  destruct (locAt s) as [[u after]|] eqn:E.
  - pose proof (locAt_length _ _ _ E) as Hlen.
    destruct (IH (length after) ltac:(lia) after eq_refl) as [l Hl].
    exists (kept u ++ l). by eapply Urls_loc.
  - destruct s as [|c s]; [exists []; constructor|].
    destruct (IH (length s) ltac:(cbn [length]; lia) s eq_refl) as [l Hl].
    exists l. by constructor.
Qed.

Lemma Urls_extract s : Urls s (extractSitemapUrls s).
Proof.
  destruct (Urls_total s) as [l Hl]. by rewrite (extract_Urls s l Hl).
Qed.

(** *** Texts that are read back *)

Lemma closing_tag rest : closing (lit "</loc>" ++ rest) = Some rest.
Proof. reflexivity. Qed.

Lemma untilClosing_split t u after :
  untilClosing t = Some (u, after) ->
  exists y, t = u ++ y /\ closing y = Some after.
Proof.
  revert u. induction t as [|c t IH]; intros u; rewrite untilClosing_unfold.
  - destruct (closing []) eqn:E; [|done]. intros [= <- <-]. by exists [].
  - destruct (closing (c :: t)) eqn:E.
    + intros [= <- <-]. by exists (c :: t).
    + destruct (isLineTerminator c); [done|].
      destruct (untilClosing t) as [[u0 a0]|]; [|done]. intros [= <- <-].
      destruct (IH u0 eq_refl) as (y & -> & Hy). by exists y.
Qed.

Lemma slash_not_lt : bool_decide (canon true "/" = canon true "<") = false.
Proof. reflexivity. Qed.
Lemma l_not_lt : bool_decide (canon true "l" = canon true "<") = false.
Proof. reflexivity. Qed.
Lemma o_not_lt : bool_decide (canon true "o" = canon true "<") = false.
Proof. reflexivity. Qed.
Lemma c_not_lt : bool_decide (canon true "c" = canon true "<") = false.
Proof. reflexivity. Qed.
Lemma gt_not_lt : bool_decide (canon true ">" = canon true "<") = false.
Proof. reflexivity. Qed.

(** No closing tag begins in a text and ends in the closing tag that
    follows it. *)
Lemma no_overlap q y rest :
  q <> [] -> isWhiteSpace (hd " "%char q) = false ->
  startsWithCanon true (q ++ y) (lit "</loc>") = false ->
  startsWithCanon true (q ++ lit "</loc>" ++ rest) (lit "</loc>") = false.
Proof.
  intros Hq _.
  destruct q as [|c1 [|c2 [|c3 [|c4 [|c5 [|c6 q]]]]]]; [done|..];
    cbn [app lit list_ascii_of_string startsWithCanon]; intros Hy;
    rewrite ?slash_not_lt, ?l_not_lt, ?o_not_lt, ?c_not_lt, ?gt_not_lt,
      ?andb_false_r; try reflexivity.
  exact Hy.
Qed.

Lemma closing_not_space c s :
  isWhiteSpace c = false ->
  closing (c :: s)
  = if startsWithCanon true (c :: s) (lit "</loc>") then Some (drop 6 (c :: s))
    else None.
Proof. intros Hc. unfold closing. cbn [trimStart]. by rewrite Hc. Qed.

Lemma closing_before q y after rest :
  q <> [] -> closing (q ++ y) = None -> closing y = Some after ->
  closing (q ++ lit "</loc>" ++ rest) = None.
Proof.
  induction q as [|c q IH]; [done|]. intros _ Hnone Hy.
  destruct (isWhiteSpace c) eqn:Hc.
  - cbn [app] in *. rewrite closing_cons_space in * by done.
    destruct q as [|d q]; [cbn [app] in Hnone; congruence|].
    by apply IH.
  - cbn [app] in *. rewrite closing_not_space in * by done.
    pose proof (no_overlap (c :: q) y rest) as Ho. cbn [app hd] in Ho.
    rewrite Ho; [done | done | done |].
    by destruct (startsWithCanon true (c :: q ++ y) (lit "</loc>")).
Qed.

Lemma untilClosing_readBack t u after rest :
  untilClosing t = Some (u, after) ->
  untilClosing (u ++ lit "</loc>" ++ rest) = Some (u, rest).
Proof.
  revert u. induction t as [|c t IH]; intros u; rewrite untilClosing_unfold.
  - destruct (closing []) eqn:E; [|done]. intros [= <- <-]. reflexivity.
  - destruct (closing (c :: t)) eqn:E.
    + intros [= <- <-]. reflexivity.
    + destruct (isLineTerminator c) eqn:Hlt; [done|].
      destruct (untilClosing t) as [[u0 a0]|] eqn:Eu; [|done].
      intros [= <- <-].
      destruct (untilClosing_split _ _ _ Eu) as (y & -> & Hy).
      cbn [app]. rewrite untilClosing_unfold.
      change (c :: u0 ++ lit "</loc>" ++ rest)
        with ((c :: u0) ++ lit "</loc>" ++ rest).
      rewrite (closing_before (c :: u0) y a0 rest); [|done|done|done].
      cbn [app]. rewrite Hlt. by rewrite (IH u0 eq_refl).
Qed.

Lemma untilClosing_head t c u after :
  untilClosing t = Some (c :: u, after) -> exists t', t = c :: t'.
Proof.
  rewrite untilClosing_unfold. destruct (closing t); [done|].
  destruct t as [|d t]; [done|]. destruct (isLineTerminator d); [done|].
  destruct (untilClosing t) as [[u0 a0]|]; [|done]. intros [= -> -> ->].
  by eexists.
Qed.

(** What the expression finds is read back. *)
Lemma locAt_readBack s u after :
  locAt s = Some (u, after) -> u <> [] -> readBack u.
Proof.
  unfold locAt. destruct (startsWithCanon true s (lit "<loc>")); [|done].
  intros H Hu. split; [done|]. split.
  - destruct u as [|c u]; [done|].
    destruct (untilClosing_head _ _ _ _ H) as [t' Ht'].
    pose proof (trimStart_headOk (drop 5 s)) as Hhead. rewrite Ht' in Hhead.
    cbn [trimStart]. cbn in Hhead. by rewrite Hhead.
  - intros rest. by eapply untilClosing_readBack.
Qed.

Lemma Urls_readBack s l : Urls s l -> Forall readBack l.
Proof.
  induction 1 as [|c s l _ _ IH|s u after l Hloc _ IH]; [constructor|done|].
  apply Forall_app. split; [|done].
  destruct u as [|c u]; [constructor|]. apply Forall_singleton.
  by eapply locAt_readBack.
Qed.

(** *** The text that [mergeSitemapXml] writes *)

Lemma canon_lt_sym c :
  bool_decide (canon true "<" = canon true c) = bool_decide (c = "<"%char).
Proof. destruct c as [[] [] [] [] [] [] [] []]; reflexivity. Qed.

Lemma quiet_locAt c pre s :
  quiet (c :: pre) = true -> locAt (c :: pre ++ s) = None.
Proof.
  cbn [quiet]. intros [Hc _]%andb_true_iff. unfold locAt.
  cbn [lit list_ascii_of_string startsWithCanon].
  apply orb_true_iff in Hc as [Hc|Hc].
  - rewrite canon_lt_sym. apply negb_true_iff in Hc. by rewrite Hc.
  - destruct pre as [|d pre]; [done|]. cbn [app startsWithCanon].
    apply negb_true_iff in Hc. rewrite Hc. by rewrite andb_false_r.
Qed.

Lemma quiet_skip pre s l : quiet pre = true -> Urls s l -> Urls (pre ++ s) l.
Proof.
  induction pre as [|c pre IH]; [done|]. intros Hq Hs.
  cbn [app]. constructor.
  - by apply quiet_locAt.
  - apply IH; [|done]. cbn [quiet] in Hq. by apply andb_true_iff in Hq as [_ ?].
Qed.

Lemma trimStart_app_id u x : u <> [] -> trimStart u = u -> trimStart (u ++ x) = u ++ x.
Proof.
  destruct u as [|c u]; [done|]. intros _. cbn [trimStart app].
  destruct (isWhiteSpace c) eqn:Hc; [|done]. intros H.
  pose proof (trimStart_length u) as Hlen. apply (f_equal length) in H.
  cbn [length] in H. lia.
Qed.

Lemma Urls_entry u rest l :
  readBack u -> Urls rest l -> Urls (urlEntry u ++ rest) (u :: l).
Proof.
  intros (Hne & Htrim & Hread) Hrest. unfold urlEntry.
  rewrite <- !app_assoc.
  change (lit "  <url>" ++ [LF] ++ lit "    <loc>" ++ ?x)
    with ((lit "  <url>" ++ [LF] ++ lit "    ") ++ lit "<loc>" ++ x).
  apply quiet_skip; [reflexivity|].
  change (u :: l) with ([u] ++ l).
  replace [u] with (kept u) by (by destruct u).
  apply (Urls_loc _ u (([LF] ++ lit "  </url>") ++ rest)).
  - unfold locAt. cbn [lit list_ascii_of_string app startsWithCanon drop].
    rewrite !bool_decide_eq_true_2 by reflexivity. cbn [andb].
    rewrite drop_0, trimStart_app_id by done.
    exact (Hread (LF :: lit "  </url>" ++ rest)).
  - by apply quiet_skip.
Qed.

Lemma Urls_entries l tail :
  Forall readBack l -> Urls (LF :: tail) [] ->
  Urls (join [LF] (map urlEntry l) ++ LF :: tail) l.
Proof.
  intros Hl Htail. induction Hl as [|u l Hu Hl IH]; [done|].
  cbn [map]. destruct l as [|u' l].
  - cbn [map join]. by apply Urls_entry.
  - change (map urlEntry (u' :: l)) with (urlEntry u' :: map urlEntry l).
    rewrite join_cons2, <- !app_assoc. apply Urls_entry; [done|].
    cbn [app]. apply (Urls_skip LF); [reflexivity|].
    exact IH.
Qed.

Lemma extract_sitemapOf l :
  Forall readBack l -> extractSitemapUrls (sitemapOf l) = l.
Proof.
  intros Hl. apply extract_Urls.
  assert (sitemapOf l
          = (quoted ["<?xml version="; "1.0"; " encoding="; "UTF-8"; "?>"]
             ++ [LF]
             ++ quoted ["<urlset xmlns=";
                        "http://www.sitemaps.org/schemas/sitemap/0.9"; ">"]
             ++ [LF])
            ++ join [LF] (map urlEntry l) ++ LF :: lit "</urlset>") as ->
    by reflexivity.
  apply quiet_skip; [reflexivity|].
  apply Urls_entries; [done|].
  rewrite <- (app_nil_r (LF :: lit "</urlset>")).
  by apply (quiet_skip (LF :: lit "</urlset>") [] []); [|constructor].
Qed.

End LocExpression.

Section SitemapReadBack.
Import JsString SitemapXml SitemapLocs UrlLists.

Lemma fresh_all seen l : (forall y, y ∈ l -> y ∈ seen) -> fresh seen l = [].
Proof.
  intros H. unfold fresh. induction l as [|y l IH]; [done|].
  cbn [List.filter]. rewrite bool_decide_eq_true_2 by (apply H; left).
  cbn [negb]. apply IH. intros z Hz. apply H. by right.
Qed.

Lemma mergeSitemapXml_firsts originXml botmonXml :
  mergeSitemapXml originXml botmonXml
  = sitemapOf (firsts (extractSitemapUrls originXml
                       ++ extractSitemapUrls botmonXml)).
Proof. unfold mergeSitemapXml. cbn zeta. by rewrite deduplicate_firsts. Qed.

Lemma extracted_readBack xml : Forall readBack (extractSitemapUrls xml).
Proof. apply (Urls_readBack xml), Urls_extract. Qed.

(** X29: the merged sitemap is read back as it was written: its
    [<loc>] elements are the URLs of the two documents, each once, in
    the order of [mergeSitemapXml].  So merging is stable: merging the
    result once more, with the managed document or with nothing, gives
    the same text. *)
Theorem mergeSitemapXml_read_back originXml botmonXml :
  let merged := mergeSitemapXml originXml botmonXml in
  extractSitemapUrls merged
  = firsts (extractSitemapUrls originXml ++ extractSitemapUrls botmonXml)
  /\ NoDup (extractSitemapUrls merged)
  /\ mergeSitemapXml merged botmonXml = merged
  /\ mergeSitemapXml merged [] = merged.
Proof.
  intros merged.
  assert (extractSitemapUrls merged
          = firsts (extractSitemapUrls originXml
                    ++ extractSitemapUrls botmonXml)) as Hread.
  { unfold merged. rewrite mergeSitemapXml_firsts. apply extract_sitemapOf.
    apply List.Forall_forall. intros u Hu.
    apply list_elem_of_In in Hu. rewrite elem_of_firsts, elem_of_app in Hu.
    destruct Hu as [Hu|Hu].
    - eapply List.Forall_forall; [apply extracted_readBack|].
      by apply list_elem_of_In.
    - eapply List.Forall_forall; [apply extracted_readBack|].
      by apply list_elem_of_In. }
  split; [exact Hread|]. split; [rewrite Hread; apply NoDup_firsts|].
  split.
  - rewrite (mergeSitemapXml_firsts merged), Hread, firsts_app.
    rewrite (firsts_NoDup (firsts _)) by apply NoDup_firsts.
    rewrite fresh_all.
    + rewrite app_nil_r. unfold merged. by rewrite mergeSitemapXml_firsts.
    + intros y Hy. rewrite elem_of_firsts in Hy.
      rewrite elem_of_firsts, elem_of_app. by right.
  - rewrite (mergeSitemapXml_firsts merged), Hread.
    change (extractSitemapUrls []) with (@nil str). rewrite app_nil_r.
    rewrite (firsts_NoDup (firsts _)) by apply NoDup_firsts.
    unfold merged. by rewrite mergeSitemapXml_firsts.
Qed.

End SitemapReadBack.

(* ===================================================================== *)
(** * Stripping tags                                                       *)
(* ===================================================================== *)

Section Stripping.
Import JsString JsRegExp Closed HtmlUtils StrippedText RobotsBlocks.

(** *** Texts without tag *)

Lemma tagless_hasTag s : tagless s -> ~ hasTag s.
Proof.
  intros Hs (a & b & c & -> & Hb & Hgt). induction a as [|x a IH].
  - cbn [app tagless] in Hs. destruct Hs as [Hs _].
    destruct (Hs eq_refl) as [H|H].
    + destruct b as [|y b]; [by destruct Hb|]. cbn [app hd] in H. subst y.
      apply Hgt. left.
    + apply H. apply elem_of_app. right. left.
  - cbn [app tagless] in Hs. destruct Hs as [_ Hs]. by apply IH.
Qed.

Lemma tagless_plain_app w s : plain w -> tagless (w ++ s) <-> tagless s.
Proof.
  intros [Hlt _]. induction w as [|c w IH]; [done|].
  apply not_elem_of_cons in Hlt as [Hc Hlt]. cbn [app tagless].
  rewrite (IH Hlt). split; [by intros [_ ?] | intros H; split; [|done]].
  by intros ->.
Qed.

Lemma tagless_take n s : tagless s -> tagless (take n s).
Proof.
  revert n. induction s as [|c s IH]; intros [|n]; try done.
  cbn [take tagless]. intros [Hc Hs]. split; [|by apply IH].
  intros E. destruct (Hc E) as [H|H].
  - destruct s as [|d s]; [right; destruct n; apply not_elem_of_nil|].
    cbn [hd] in H. subst d. destruct n as [|n].
    + right. apply not_elem_of_nil.
    + by left.
  - right. intros Hin. apply H. by eapply subseteq_take.
Qed.

Lemma Rewritten_refl s : Rewritten s s.
Proof. induction s; by constructor. Qed.

Lemma plain_no_gt w : plain w -> ">"%char ∉ w.
Proof. by intros [_ ?]. Qed.

Lemma Rewritten_no_gt s t : Rewritten s t -> ">"%char ∉ s -> ">"%char ∉ t.
Proof.
  induction 1 as [|c s t _ IH|w v s t _ _ Hv _ IH]; [done|..].
  - intros [Hc Hs]%not_elem_of_cons. apply not_elem_of_cons. auto.
  - rewrite !not_elem_of_app. intros [_ Hs]. split; [by apply plain_no_gt|auto].
Qed.

Lemma Rewritten_gt_head s t :
  Rewritten (">"%char :: s) t -> hd "x"%char t = ">"%char.
Proof.
  intros H. inversion H as [|c s0 t0 H0|w v s0 t0 Hw Hp Hv H0 Heq]; subst.
  - done.
  - destruct w as [|c w]; [done|]. cbn [app] in Heq. injection Heq as -> _.
    destruct Hp as [_ Hp]. destruct Hp. left.
Qed.

Lemma Rewritten_tagless s t : Rewritten s t -> tagless s -> tagless t.
Proof.
  induction 1 as [|c s t Hst IH|w v s t _ Hw Hv _ IH]; [done|..].
  - cbn [tagless]. intros [Hc Hs]. split; [|by apply IH].
    intros E. destruct (Hc E) as [H|H].
    + destruct s as [|d s]; [|cbn [hd] in H; subst d].
      * right. by apply (Rewritten_no_gt [] t).
      * left. by apply (Rewritten_gt_head s).
    + right. by apply (Rewritten_no_gt s).
  - rewrite !tagless_plain_app by done. exact IH.
Qed.

(** *** Replacement of texts without angle bracket *)

Lemma replace_Rewritten R template s :
  global R = true ->
  (forall s i mt,
     matchAt R s i = Some mt ->
     m_text mt <> [] /\ s = m_text mt ++ m_after mt
     /\ plain (m_text mt) /\ plain (substitute template mt)) ->
  Rewritten s (replace R s template).
Proof.
  intros Hg HR. unfold replace, replaceFn. rewrite Hg.
  assert (Hfuel : length s < S (length s)) by lia. revert Hfuel.
  generalize (S (length s)) as fuel. generalize 0 as i.
  remember (length s) as n eqn:Hn. revert s Hn.
  induction n as [n IH] using lt_wf_ind. intros s -> i fuel Hfuel.
  destruct fuel as [|fuel]; [lia|].
  destruct s as [|c s].
  - destruct (matchAt R [] i) as [mt|] eqn:E.
    + destruct (HR _ _ _ E) as (Hne & Hs & _). symmetry in Hs.
      apply app_eq_nil in Hs as [Hs _]. done.
    + rewrite replaceFrom_nil by done. constructor.
  - destruct (matchAt R (c :: s) i) as [mt|] eqn:E.
    + destruct (HR _ _ _ E) as (Hne & Hs & Hw & Hv).
      destruct (m_text mt) as [|d t] eqn:Et; [done|].
      erewrite replaceFrom_here by (first [exact E | exact Et]).
      cbn [fst snd]. rewrite Hs at 1. rewrite <- Et in *.
      constructor; [done|done|done|].
      apply (IH (length (m_after mt))); [|done|].
      * apply (f_equal length) in Hs. rewrite length_app in Hs.
        destruct (m_text mt); [done|]. cbn [length] in *. lia.
      * apply (f_equal length) in Hs. rewrite length_app in Hs.
        destruct (m_text mt); [done|]. cbn [length] in *. lia.
    + rewrite replaceFrom_skip by done. constructor.
      apply (IH (length s)); [cbn [length]; lia | done |].
      cbn [length] in Hfuel. lia.
Qed.

(** *** White space *)

Lemma trimStart_split s :
  exists p, s = p ++ trimStart s /\ Forall (fun c => isWhiteSpace c = true) p.
Proof.
  induction s as [|c s (p & Hs & Hp)]; [by exists []|]. cbn [trimStart].
  destruct (isWhiteSpace c) eqn:Hc.
  - exists (c :: p). split; [cbn [app]; by f_equal | by constructor].
  - by exists [].
Qed.

Lemma trimEnd_split s :
  exists q, s = trimEnd s ++ q /\ Forall (fun c => isWhiteSpace c = true) q.
Proof.
  destruct (trimStart_split (rev s)) as (p & Hs & Hp).
  exists (rev p). split.
  - unfold trimEnd. rewrite <- rev_app_distr, <- Hs. by rewrite rev_involutive.
  - apply List.Forall_forall. intros c Hc. apply in_rev in Hc.
    by eapply List.Forall_forall in Hp.
Qed.

Lemma space_plain w : Forall (fun c => isWhiteSpace c = true) w -> plain w.
Proof.
  intros Hw. split; intros Hin; eapply Forall_forall in Hw; try exact Hin;
    discriminate Hw.
Qed.

Lemma Rewritten_app a s t : Rewritten s t -> Rewritten (a ++ s) (a ++ t).
Proof. intros H. induction a; [done | by constructor]. Qed.

Lemma Rewritten_drop w s :
  Forall (fun c => isWhiteSpace c = true) w -> Rewritten (w ++ s) s.
Proof.
  intros Hw. destruct w as [|c w]; [apply Rewritten_refl|].
  apply (Rewritten_replace (c :: w) [] s s);
    [done | by apply space_plain | split; apply not_elem_of_nil
     | apply Rewritten_refl].
Qed.

Lemma trimStart_Rewritten s : Rewritten s (trimStart s).
Proof.
  destruct (trimStart_split s) as (p & Hs & Hp). rewrite Hs at 1.
  by apply Rewritten_drop.
Qed.

Lemma trimEnd_Rewritten s : Rewritten s (trimEnd s).
Proof.
  destruct (trimEnd_split s) as (q & Hs & Hq). rewrite Hs at 1.
  rewrite <- (app_nil_r (trimEnd s)) at 2. apply Rewritten_app.
  rewrite <- (app_nil_r q). by apply Rewritten_drop.
Qed.

Lemma spaced_app_r a s : spaced (a ++ s) -> spaced s.
Proof. induction a as [|c a IH]; [done|]. cbn [app spaced]. by intros [_ ?%IH]. Qed.

Lemma spaced_app_l s q : spaced (s ++ q) -> spaced s.
Proof.
  induction s as [|c s IH]; [done|]. cbn [app spaced]. intros [Hc Hs].
  split; [|by apply IH]. intros Hw. destruct (Hc Hw) as [-> Hd].
  split; [done|]. by destruct s.
Qed.

Lemma spaced_trim s : spaced s -> spaced (trim s).
Proof.
  intros Hs. unfold trim.
  destruct (trimStart_split s) as (p & Hp & _).
  destruct (trimEnd_split (trimStart s)) as (q & Hq & _).
  rewrite Hp, Hq in Hs. by apply spaced_app_r, spaced_app_l in Hs.
Qed.

Lemma spaced_take n s : spaced s -> spaced (take n s).
Proof. intros Hs. rewrite <- (take_drop n s) in Hs. by apply spaced_app_l in Hs. Qed.

Lemma squeeze_spaced b s :
  spaced (squeeze b s)
  /\ (b = true -> isWhiteSpace (hd "x"%char (squeeze b s)) = false).
Proof.
  revert b. induction s as [|c s IH]; intros b; [done|]. cbn [squeeze].
  destruct (isWhiteSpace c) eqn:Hc.
  - destruct (IH true) as [Hs Hh]. destruct b; [done|].
    split; [|done]. cbn [spaced]. split; [|done]. intros _. split; [done|].
    by apply Hh.
  - destruct (IH false) as [Hs _]. split; [|by intros _].
    cbn [spaced]. split; [|done]. intros Hw. congruence.
Qed.

Lemma squeeze_true s : squeeze true s = squeeze false (trimStart s).
Proof.
  induction s as [|c s IH]; [done|]. cbn [squeeze trimStart].
  destruct (isWhiteSpace c) eqn:Hc; [exact IH|]. cbn [squeeze]. by rewrite Hc.
Qed.

(** *** The expressions of [stripHtml] *)

Lemma class_space_plain c :
  classMatches false false [CSpace false] c = isWhiteSpace c.
Proof. destruct c as [[] [] [] [] [] [] [] []]; reflexivity. Qed.

Lemma class_notGt_plain c :
  classMatches false true [CChar ">"] c = negb (bool_decide (c = ">"%char)).
Proof. destruct c as [[] [] [] [] [] [] [] []]; reflexivity. Qed.

Lemma matchAt_spaces s i :
  matchAt spaces_re s i
  = match s with
    | c :: s' =>
        if isWhiteSpace c
        then Some {| m_index := i;
                     m_text := take (length s - length (trimStart s')) s;
                     m_groups := [None]; m_after := trimStart s' |}
        else None
    | [] => None
    end.
Proof.
  unfold matchAt.
  change (pattern spaces_re) with (Quant (Class false [CSpace false]) 1 None true).
  change (ignoreCase spaces_re) with false.
  change {| rest := s; index := i;
            captures := replicate (S (ngroups spaces_re)) None |}
    with (at_ s i [None]).
  rewrite (m_plus_greedy false _ (classMatches false false [CSpace false]))
    by reflexivity.
  destruct s as [|c s']; [done|]. rewrite class_space_plain.
  destruct (isWhiteSpace c); [|done].
  rewrite (proj1 (greedy_spaces _ Some s' (S i) [None] class_space_plain
                    ltac:(discriminate))).
  cbn [at_ index rest captures]. f_equal. f_equal.
  pose proof (trimStart_length s'). f_equal. cbn [length]. lia.
Qed.

Lemma matchAt_spaces_text s i mt :
  matchAt spaces_re s i = Some mt ->
  exists c p,
    m_text mt = c :: p /\ s = m_text mt ++ m_after mt
    /\ Forall (fun c => isWhiteSpace c = true) (m_text mt)
    /\ s = c :: p ++ m_after mt /\ m_after mt = trimStart (p ++ m_after mt).
Proof.
  rewrite matchAt_spaces. destruct s as [|c s']; [done|].
  destruct (isWhiteSpace c) eqn:Hc; [|done]. intros [= <-].
  cbn [m_text m_after].
  destruct (trimStart_split s') as (p & Hs & Hp).
  assert (take (S (length s') - length (trimStart s')) (c :: s') = c :: p)
    as ->.
  { rewrite Hs at 1 3. rewrite length_app.
    replace (S (length p + length (trimStart s')) - length (trimStart s'))
      with (S (length p)) by lia.
    cbn [take]. by rewrite take_app_length. }
  exists c, p. split; [done|]. split; [cbn [app]; by rewrite <- Hs|].
  split; [by constructor|]. split; [by rewrite <- Hs | by rewrite <- Hs].
Qed.

Lemma spaces_Rewritten s : Rewritten s (replace spaces_re s (lit " ")).
Proof.
  apply replace_Rewritten; [reflexivity|]. intros s0 i mt Hm.
  destruct (matchAt_spaces_text _ _ _ Hm) as (c & p & Ht & Hs & Hw & _).
  split; [by rewrite Ht|]. split; [done|]. split; [by apply space_plain|].
  split; apply (bool_decide_unpack _); by vm_compute.
Qed.

Lemma replace_squeeze s : replace spaces_re s (lit " ") = squeeze false s.
Proof.
  unfold replace, replaceFn. change (global spaces_re) with true. cbv iota.
  assert (Hfuel : length s < S (length s)) by lia. revert Hfuel.
  generalize (S (length s)) as fuel. generalize 0 as i.
  remember (length s) as n eqn:Hn. revert s Hn.
  induction n as [n IH] using lt_wf_ind. intros s -> i fuel Hfuel.
  destruct fuel as [|fuel]; [lia|].
  destruct s as [|c s].
  - by rewrite replaceFrom_nil by (by rewrite matchAt_spaces).
  - destruct (matchAt spaces_re (c :: s) i) as [mt|] eqn:E.
    + destruct (matchAt_spaces_text _ _ _ E) as (c' & p & Ht & _ & Hw & Hs & Ha).
      injection Hs as <- Hs.
      erewrite replaceFrom_here by (first [exact E | exact Ht]).
      cbn [fst snd substitute lit list_ascii_of_string app squeeze].
      rewrite bool_decide_eq_false_2 by discriminate.
      rewrite Ht in Hw. apply Forall_cons in Hw as [Hc _]. rewrite Hc.
      assert (length s = length p + length (m_after mt)) as Hlen
        by (rewrite Hs at 1; apply length_app).
      cbn [app]. f_equal. rewrite squeeze_true, Hs, <- Ha.
      cbn [length] in Hfuel.
      apply (IH (length (m_after mt))); [cbn [length]; lia | done | lia].
    + rewrite replaceFrom_skip by done. rewrite matchAt_spaces in E.
      cbn [squeeze]. destruct (isWhiteSpace c); [done|]. f_equal.
      apply (IH (length s)); [cbn [length]; lia | done |].
      cbn [length] in Hfuel. lia.
Qed.

Lemma nbsp_Rewritten s : Rewritten s (replace nbsp_re s (lit " ")).
Proof.
  apply replace_Rewritten; [reflexivity|]. intros s0 i mt.
  rewrite (oneWord_wordRe nbsp_re (lit "&nbsp;")) by done.
  destruct (startsWith s0 (lit "&nbsp;")) eqn:E; [|done]. intros [= <-].
  apply startsWith_prefix in E. cbn [m_text m_after].
  match goal with
  | |- context [take ?n s0] =>
      assert (take n s0 = lit "&nbsp;") as -> by (rewrite E; reflexivity)
  end.
  split; [done|]. split; [exact E|].
  split; split; apply (bool_decide_unpack _); by vm_compute.
Qed.

(** *** Tags *)

Lemma greedy_notGt r j caps :
  starGreedy (classMatches false true [CChar ">"])
    (fun y => m false (Char ">") y Some) r j caps
  = match Headings.upToGt r with
    | Some (a, after) => Some (at_ after (j + length a + 1) caps)
    | None => None
    end.
Proof.
  revert j. induction r as [|c r IH]; intros j; [done|].
  cbn [starGreedy Headings.upToGt]. rewrite class_notGt_plain.
  rewrite (m_atom false (Char ">") _ _ _ eq_refl), step_cons.
  cbn [atomTest canon].
  destruct (bool_decide (c = ">"%char)) eqn:E; cbn [negb].
  - cbn [length]. by replace (j + 0 + 1) with (S j) by lia.
  - rewrite orElse_None_r, IH.
    destruct (Headings.upToGt r) as [[a after]|]; [|done].
    cbn [length]. by replace (S j + length a + 1) with (j + S (length a) + 1) by lia.
Qed.

Lemma tagAt_Some s b after :
  tagAt s = Some (b, after) ->
  s = "<"%char :: b ++ ">"%char :: after /\ b <> [] /\ (">"%char ∉ b).
Proof.
  unfold tagAt. destruct s as [|c [|d r]]; try done.
  destruct (bool_decide (c = "<"%char)) eqn:Ec; [|done].
  destruct (bool_decide (d = ">"%char)) eqn:Ed; [done|]. cbn [andb negb].
  destruct (Headings.upToGt r) as [[a after']|] eqn:Er; [|done].
  intros [= <- <-]. apply bool_decide_eq_true in Ec as ->.
  apply bool_decide_eq_false in Ed.
  destruct (upToGt_Some _ _ _ Er) as [-> Ha].
  split; [done|]. split; [done|]. apply not_elem_of_cons. split; [congruence|done].
Qed.

Lemma upToGt_None r : Headings.upToGt r = None -> ">"%char ∉ r.
Proof.
  induction r as [|c r IH]; [intros _; apply not_elem_of_nil|].
  cbn [Headings.upToGt]. case_bool_decide as Hc; [done|].
  destruct (Headings.upToGt r) as [[a after]|]; [done|]. intros _.
  apply not_elem_of_cons. split; [congruence | by apply IH].
Qed.

Lemma matchAt_tag s i :
  matchAt tag_re s i
  = match tagAt s with
    | Some (b, after) =>
        Some {| m_index := i; m_text := take (length s - length after) s;
                m_groups := [None]; m_after := after |}
    | None => None
    end.
Proof.
  unfold matchAt.
  change (pattern tag_re)
    with (Seq (Char "<") (Seq (Quant (Class true [CChar ">"]) 1 None true)
                            (Char ">"))).
  change (ignoreCase tag_re) with false.
  change {| rest := s; index := i;
            captures := replicate (S (ngroups tag_re)) None |}
    with (at_ s i [None]).
  rewrite m_Seq, (m_atom false (Char "<") _ _ _ eq_refl), step_at.
  destruct s as [|c s1]; [done|]. cbn [atomTest canon].
  rewrite m_Seq.
  rewrite (m_plus_greedy false _ (classMatches false true [CChar ">"]))
    by reflexivity.
  destruct s1 as [|d r]; [cbn [tagAt]; by destruct (bool_decide _)|].
  rewrite class_notGt_plain. cbn [tagAt].
  destruct (bool_decide (c = "<"%char)) eqn:Ec; [|done]. cbn [andb].
  destruct (bool_decide (d = ">"%char)) eqn:Ed; [done|]. cbn [negb].
  rewrite greedy_notGt.
  destruct (Headings.upToGt r) as [[a after]|] eqn:Er; [|done].
  destruct (upToGt_Some _ _ _ Er) as [-> _].
  cbn [at_ index rest captures length]. f_equal. f_equal.
  rewrite length_app. cbn [length]. f_equal. lia.
Qed.

Lemma strip_Stripped s : Stripped s (replace tag_re s []).
Proof.
  unfold replace, replaceFn. change (global tag_re) with true. cbv iota.
  assert (Hfuel : length s < S (length s)) by lia. revert Hfuel.
  generalize (S (length s)) as fuel. generalize 0 as i.
  remember (length s) as n eqn:Hn. revert s Hn.
  induction n as [n IH] using lt_wf_ind. intros s -> i fuel Hfuel.
  destruct fuel as [|fuel]; [lia|].
  destruct s as [|c s].
  - rewrite replaceFrom_nil by (by rewrite matchAt_tag). constructor.
  - pose proof (matchAt_tag (c :: s) i) as Hm.
    destruct (tagAt (c :: s)) as [[b after]|] eqn:E.
    + destruct (tagAt_Some _ _ _ E) as (Hs & Hb & _).
      assert (length (c :: s) = 2 + length b + length after) as Hlen.
      { rewrite Hs. cbn [length]. rewrite length_app. cbn [length]. lia. }
      assert (exists d t, take (length (c :: s) - length after) (c :: s) = d :: t)
        as (d & t & Ht).
      { rewrite Hlen. replace (2 + length b + length after - length after)
          with (S (S (length b))) by lia. cbn [take]. by eexists _, _. }
      erewrite replaceFrom_here by (first [exact Hm | exact Ht]).
      cbn [fst snd substitute app m_after m_text].
      apply (Stripped_tag _ b after); [done|].
      apply (IH (length after)); [lia | done | lia].
    + rewrite replaceFrom_skip by done. constructor; [done|].
      apply (IH (length s)); [cbn [length]; lia | done |].
      cbn [length] in Hfuel. lia.
Qed.

Lemma Stripped_subset s o : Stripped s o -> forall x, x ∈ o -> x ∈ s.
Proof.
  induction 1 as [|s b after o Htag _ IH|c s o _ _ IH]; intros x Hx; [done|..].
  - destruct (tagAt_Some _ _ _ Htag) as (-> & _).
    right. apply elem_of_app. right. right. by apply IH.
  - apply elem_of_cons in Hx as [->|Hx]; [left | right; by apply IH].
Qed.

Lemma Stripped_gt_head s o :
  Stripped (">"%char :: s) o -> hd "x"%char o = ">"%char.
Proof.
  intros H. inversion H as [|s0 b after o0 Htag _|c s0 o0 _ _]; subst; [|done].
  by destruct s.
Qed.

Lemma Stripped_nil_inv o : Stripped [] o -> o = [].
Proof. intros H. by inversion H. Qed.

Lemma Stripped_tagless s o : Stripped s o -> tagless o.
Proof.
  induction 1 as [|s b after o _ _ IH|c s o Hnone Hs IH]; [done|done|].
  cbn [tagless]. split; [|done]. intros ->.
  destruct s as [|d r];
    [right; rewrite (Stripped_nil_inv o Hs); apply not_elem_of_nil|].
  cbn [tagAt] in Hnone. rewrite bool_decide_eq_true_2 in Hnone by done.
  cbn [andb] in Hnone.
  destruct (bool_decide (d = ">"%char)) eqn:Ed.
  - apply bool_decide_eq_true in Ed as ->. left.
    by apply (Stripped_gt_head r).
  - cbn [negb] in Hnone. apply bool_decide_eq_false in Ed. right.
    intros Hin. apply (Stripped_subset _ _ Hs) in Hin.
    apply elem_of_cons in Hin as [Hin|Hin]; [congruence|].
    destruct (Headings.upToGt r) as [[a after]|] eqn:Er; [done|].
    by apply upToGt_None in Er.
Qed.

Lemma stripHtml_tagless html : tagless (stripHtml html).
Proof.
  unfold stripHtml. cbn zeta.
  eapply Rewritten_tagless; [apply trimEnd_Rewritten|].
  eapply Rewritten_tagless; [apply trimStart_Rewritten|].
  eapply Rewritten_tagless; [apply spaces_Rewritten|].
  eapply Rewritten_tagless; [apply nbsp_Rewritten|].
  eapply Stripped_tagless, strip_Stripped.
Qed.

Lemma stripHtml_spaced html : spaced (stripHtml html).
Proof.
  unfold stripHtml. cbn zeta. apply spaced_trim.
  rewrite replace_squeeze. apply squeeze_spaced.
Qed.

(** X30: the text that [stripHtml] returns holds no tag, that is, no
    [<] followed by one character or more and then by [>]; its white
    space is single spaces, none at its beginning or its end.  So it is
    for the paragraph that [extractFirstParagraph] returns, but for a
    space that may end it. *)
Theorem stripHtml_clean html :
  ~ hasTag (stripHtml html)
  /\ spaced (stripHtml html)
  /\ trim (stripHtml html) = stripHtml html
  /\ (forall paragraph,
        extractFirstParagraph html = Some paragraph ->
        ~ hasTag paragraph /\ spaced paragraph
        /\ trimStart paragraph = paragraph).
Proof.
  split; [apply tagless_hasTag, stripHtml_tagless|].
  split; [apply stripHtml_spaced|].
  split; [apply trim_trimmed|].
  intros paragraph. unfold extractFirstParagraph, substringTo.
  generalize 300. intros n.
  destruct (matchGlobal paragraph_re html) as [paragraphs|]; [|done].
  destruct (List.find _ _) as [content|] eqn:E; [|done].
  intros [= <-]. apply find_some in E as [Hin _].
  apply in_map_iff in Hin as (p & <- & _).
  assert (trim (stripHtml p) = stripHtml p) as -> by apply trim_trimmed.
  split; [|split].
  - apply tagless_hasTag, tagless_take, stripHtml_tagless.
  - apply spaced_take, stripHtml_spaced.
  - apply trimStart_id.
    pose proof (trim_headOk (replace spaces_re
      (replace nbsp_re (replace tag_re (replace style_re
         (replace script_re p []) []) []) (lit " ")) (lit " "))) as Hh.
    change (trim _) with (stripHtml p) in Hh.
    destruct (stripHtml p) as [|c t]; destruct n; done.
Qed.

End Stripping.

Lemma stripHtml_clean_witness :
  let html := lit "<p class=lead>Hello   <b>big</b>&nbsp; world </p>" in
  HtmlUtils.stripHtml html = lit "Hello big world"
  /\ ~ StrippedText.hasTag (HtmlUtils.stripHtml html)
  /\ JsString.trim (HtmlUtils.stripHtml html) = HtmlUtils.stripHtml html.
Proof.
  cbn zeta. split; [by vm_compute|].
  destruct (stripHtml_clean
              (lit "<p class=lead>Hello   <b>big</b>&nbsp; world </p>"))
    as (Htag & _ & Htrim & _).
  by split.
Defined.

